(** * vault-secret-sync: pipeline configuration, dependency graph, deep merge
      and diff engine

    A shallow embedding of the Go sources
      - pkg/pipeline/config.go   (Config, Target, Validate, GetRoleARN,
                                  IsInheritedTarget)
      - pkg/pipeline/context.go  (AWSExecutionContext.GetRoleARN, redactARN)
      - pkg/pipeline/graph.go    (BuildGraph, calculateLevels, TopologicalOrder,
                                  GroupByLevel, IncludeDependencies)
      - pkg/pipeline/pipeline.go (New, resolveTargets, the batches of
                                  executeMergePhase)
      - pkg/utils/deepmerge.go   (DeepMerge, mergeValues, DeepEqual, ...)
      - pkg/diff/diff.go         (DiffSecrets, ComputeSummary, IsZeroSum,
                                  AddTargetDiff, ...)
    followed by the properties proved about them.

    Conventions.
      - A Go [map[string]T] is a [gmap string T]; a [range] over it visits
        the entries in one fixed order (that of [map_to_list], or of
        [map_fold]).  Go leaves that order unspecified, so statements are
        phrased so as not to depend on it.
      - Go [int] values that count list elements or graph levels are [Z];
        they stay far below 2^63, so no wrap-around is written out.
      - Go strings are byte strings: [string] of the standard library,
        compared bytewise ([String.compare]).
      - A Go [error] result is an [option] of an error value, or a sum.
      - A call that can panic (an index out of range, a nil pointer that is
        dereferenced) returns a [Call]: the value, or [Panics].
      - Maps and slices are references.  The merge is embedded twice: on
        values given by their contents ([DeepMerge]), for what the merged
        map holds, and on a store of shared objects ([DeepMerge_h]), for
        what a call writes to. *)

From Stdlib Require Import ZArith String Ascii List Lia Bool.
From Stdlib Require Import Floats.SpecFloat.
From Stdlib Require OrderedTypeEx.
From stdpp Require Import gmap strings list sorting.

Open Scope string_scope.
Open Scope list_scope.
Open Scope stdpp_scope.
Open Scope Z_scope.

(* ===================================================================== *)
(** * Part I: the embedding *)
(* ===================================================================== *)

(** ** Strings (package strings of the Go library) *)

(** [strings.HasPrefix(s, prefix)]. *)
Definition HasPrefix (s pre : string) : bool := String.prefix pre s.

(** [strings.HasSuffix(s, suffix)]:
    [len(s) >= len(suffix) && s[len(s)-len(suffix):] == suffix]. *)
Definition HasSuffix (s suf : string) : bool :=
  (String.length suf <=? String.length s)%nat &&
  String.eqb
    (substring (String.length s - String.length suf) (String.length suf) s)
    suf.

(** Left-to-right, non-overlapping replacement of [old] by [new]; [skip]
    counts the bytes of a match that are still to be dropped. *)
Fixpoint replace_from (old new : string) (skip : nat) (s : string) : string :=
  match s with
  | EmptyString => EmptyString
  | String c s' =>
      match skip with
      | S k => replace_from old new k s'
      | O =>
          if String.prefix old s
          then new +:+ replace_from old new (String.length old - 1) s'
          else String c (replace_from old new 0 s')
      end
  end.

(** With an empty [old], Go inserts [new] in front of every character and
    at the end (bytes here; the same on ASCII text). *)
Fixpoint intersperse_new (new s : string) : string :=
  match s with
  | EmptyString => new
  | String c s' => new +:+ String c (intersperse_new new s')
  end.

(** [strings.ReplaceAll(s, old, new)]. *)
Definition ReplaceAll (s old new : string) : string :=
  match old with
  | EmptyString => intersperse_new new s
  | _ => replace_from old new 0 s
  end.

(** [strings.Split(s, sep)] for a separator of one byte: the pieces of [s]
    between the separators, one piece more than there are separators. *)
Fixpoint Split (s : string) (sep : ascii) : list string :=
  match s with
  | EmptyString => [EmptyString]
  | String c s' =>
      if Ascii.eqb c sep then EmptyString :: Split s' sep
      else
        match Split s' sep with
        | piece :: pieces => String c piece :: pieces
        | [] => [String c EmptyString]
        end
  end.

(** [strings.Index(s, substr)] for a [substr] of one byte: the index of
    its first occurrence, -1 when there is none. *)
Fixpoint Index (s : string) (substr : ascii) : Z :=
  match s with
  | EmptyString => -1
  | String c s' =>
      if Ascii.eqb c substr then 0
      else
        let i := Index s' substr in
        if i <? 0 then -1 else i + 1
  end.

(** ** The configuration model (pkg/pipeline/config.go) *)

Record VaultConfig := {
  Vault_Address : string;
  Vault_Namespace : string
}.

Record ExecutionContextConfig := {
  EC_Type : string;
  EC_AccountID : string;
  EC_CustomRolePattern : string
}.

Record ExecutionRoleConfig := {
  Role_Name : string;
  Role_Path : string
}.

Record ControlTowerConfig := {
  CT_Enabled : bool;
  CT_ExecutionRole : ExecutionRoleConfig
}.

Record AWSConfig := {
  AWS_Region : string;
  AWS_ExecutionContext : ExecutionContextConfig;
  AWS_ControlTower : ControlTowerConfig
}.

Record VaultSource := {
  VS_Address : string;
  VS_Namespace : string;
  VS_Mount : string;
  VS_Paths : list string
}.

Record AWSSource := {
  AS_AccountID : string;
  AS_Region : string;
  AS_Prefix : string
}.

(** [Source]: both members are pointers in Go, [None] is nil. *)
Record Source := {
  Source_Vault : option VaultSource;
  Source_AWS : option AWSSource
}.

Record MergeStoreVault := { MSV_Mount : string }.

Record MergeStoreS3 := {
  S3_Bucket : string;
  S3_Prefix : string;
  S3_KMSKeyID : string
}.

Record MergeStoreConfig := {
  MergeStore_Vault : option MergeStoreVault;
  MergeStore_S3 : option MergeStoreS3
}.

Record Target := {
  AccountID : string;
  Imports : list string;
  Region : string;
  SecretPrefix : string;
  RoleARN : string
}.

(** The zero value of [Target]. *)
Definition Target_zero : Target :=
  {| AccountID := ""; Imports := []; Region := ""; SecretPrefix := "";
     RoleARN := "" |}.

Record IdentityCenterDiscovery := {
  ICD_Group : string;
  ICD_PermissionSet : string
}.

Record OrganizationsDiscovery := {
  OD_OU : string;
  OD_Recursive : bool
}.

Record AccountsListDiscovery := { ALD_Source : string }.

Record DiscoveryConfig := {
  Disc_IdentityCenter : option IdentityCenterDiscovery;
  Disc_Organizations : option OrganizationsDiscovery;
  Disc_AccountsList : option AccountsListDiscovery
}.

Record DynamicTarget := {
  DT_Discovery : DiscoveryConfig;
  DT_Imports : list string;
  DT_Exclude : list string;
  DT_Region : string;
  DT_SecretPrefix : string;
  DT_RoleARN : string
}.

Record Config := {
  Vault : VaultConfig;
  AWS : AWSConfig;
  Sources : gmap string Source;
  MergeStore : MergeStoreConfig;
  Targets : gmap string Target;
  DynamicTargets : gmap string DynamicTarget
}.

(** *** Target.UnmarshalYAML *)

(** The [unmarshal] callback decodes the YAML node at hand into the Go
    value it is given.  The method calls it with two destinations, so a
    callback is described by its outcome on each of them: on a [[]string]
    ([None] when the decoder reports an error) and on the plain struct. *)
Record Unmarshal := {
  into_strings : option (list string);
  into_target : string + Target
}.

(** [func (t *Target) UnmarshalYAML(unmarshal func(interface{}) error) error]:
    the receiver after the call, or the error. *)
Definition UnmarshalYAML (t : Target) (unmarshal : Unmarshal) : string + Target :=
  match into_strings unmarshal with
  | Some shorthand =>
      inr {| AccountID := AccountID t; Imports := shorthand;
             Region := Region t; SecretPrefix := SecretPrefix t;
             RoleARN := RoleARN t |}
  | None =>
      match into_target unmarshal with
      | inl err => inl err
      | inr full => inr full
      end
  end.

(** *** Config.Validate *)

Inductive ConfigError :=
| ErrVaultAddressRequired
| ErrMergeStoreRequired
| ErrS3BucketRequired
| ErrNoTargets
| ErrAccountIDRequired (name : string)
| ErrInvalidAccountID (name accountID : string)
| ErrImportNotFound (name imp : string)
| ErrDiscoveryRequired (name : string).

Definition is_digit (c : ascii) : bool :=
  (48 <=? N_of_ascii c)%N && (N_of_ascii c <=? 57)%N.

(** [isValidAWSAccountID]: exactly twelve bytes, all of them digits (a byte
    outside ASCII decodes to a rune above '9', so the test by runes of the
    source and the test by bytes agree). *)
Definition isValidAWSAccountID (accountID : string) : bool :=
  if negb (String.length accountID =? 12)%nat then false
  else forallb is_digit (list_ascii_of_string accountID).

(** The first error met by a loop body over a list, [None] when the loop
    runs to its end. *)
Fixpoint first_error {A E : Type} (body : A -> option E) (l : list A) : option E :=
  match l with
  | [] => None
  | x :: l' =>
      match body x with
      | Some e => Some e
      | None => first_error body l'
      end
  end.

(** Body of the loop over [target.Imports] in [Validate]. *)
Definition validate_import (c : Config) (name imp : string) : option ConfigError :=
  match Sources c !! imp with
  | Some _ => None
  | None =>
      match Targets c !! imp with
      | Some _ => None
      | None => Some (ErrImportNotFound name imp)
      end
  end.

(** Body of the loop over [c.Targets] in [Validate]. *)
Definition validate_target (c : Config) (entry : string * Target) : option ConfigError :=
  let '(name, target) := entry in
  if String.eqb (AccountID target) "" then Some (ErrAccountIDRequired name)
  else if negb (isValidAWSAccountID (AccountID target))
  then Some (ErrInvalidAccountID name (AccountID target))
  else first_error (validate_import c name) (Imports target).

(** Body of the loop over [c.DynamicTargets] in [Validate]. *)
Definition validate_dynamic (entry : string * DynamicTarget) : option ConfigError :=
  let '(name, dt) := entry in
  match Disc_IdentityCenter (DT_Discovery dt),
        Disc_Organizations (DT_Discovery dt),
        Disc_AccountsList (DT_Discovery dt) with
  | None, None, None => Some (ErrDiscoveryRequired name)
  | _, _, _ => None
  end.

(** [func (c *Config) Validate() error]; [None] is the nil error. *)
Definition Validate (c : Config) : option ConfigError :=
  if String.eqb (Vault_Address (Vault c)) "" then Some ErrVaultAddressRequired
  else
    match MergeStore_Vault (MergeStore c), MergeStore_S3 (MergeStore c) with
    | None, None => Some ErrMergeStoreRequired
    | _, s3 =>
        if match s3 with
           | Some s => String.eqb (S3_Bucket s) ""
           | None => false
           end
        then Some ErrS3BucketRequired
        else if (size (Targets c) =? 0)%nat && (size (DynamicTargets c) =? 0)%nat
        then Some ErrNoTargets
        else
          match first_error (validate_target c) (map_to_list (Targets c)) with
          | Some e => Some e
          | None => first_error validate_dynamic (map_to_list (DynamicTargets c))
          end
    end.

(** *** Config.GetRoleARN *)

(** The path of the Control Tower execution role as [Config.GetRoleARN]
    prepares it. *)
Definition Config_role_path (path : string) : string :=
  if String.eqb path "" then "/"
  else
    let path := if negb (HasPrefix path "/") then "/" +:+ path else path in
    if negb (HasSuffix path "/") then path +:+ "/" else path.

(** [func (c *Config) GetRoleARN(accountID string) string]. *)
Definition Config_GetRoleARN (c : Config) (accountID : string) : string :=
  match List.find
          (fun entry : string * Target =>
             String.eqb (AccountID (snd entry)) accountID &&
             negb (String.eqb (RoleARN (snd entry)) ""))
          (map_to_list (Targets c)) with
  | Some entry => RoleARN (snd entry)
  | None =>
      if CT_Enabled (AWS_ControlTower (AWS c)) then
        let roleName := Role_Name (CT_ExecutionRole (AWS_ControlTower (AWS c))) in
        let roleName :=
          if String.eqb roleName "" then "AWSControlTowerExecution" else roleName in
        let path := Config_role_path
                      (Role_Path (CT_ExecutionRole (AWS_ControlTower (AWS c)))) in
        "arn:aws:iam::" +:+ accountID +:+ ":role" +:+ path +:+ roleName
      else if negb (String.eqb (EC_CustomRolePattern (AWS_ExecutionContext (AWS c))) "")
      then ReplaceAll (EC_CustomRolePattern (AWS_ExecutionContext (AWS c)))
                      "{{.AccountID}}" accountID
      else "arn:aws:iam::" +:+ accountID +:+ ":role/AWSControlTowerExecution"
  end.

(** *** Config.IsInheritedTarget *)

(** [func (c *Config) IsInheritedTarget(targetName string) bool]: the loop
    over [target.Imports] returns at the first import that names a
    target. *)
Definition IsInheritedTarget (c : Config) (targetName : string) : bool :=
  match Targets c !! targetName with
  | None => false
  | Some target =>
      existsb (fun imp => match Targets c !! imp with
                          | Some _ => true
                          | None => false
                          end)
              (Imports target)
  end.

(** ** The execution context (pkg/pipeline/context.go) *)

Record CallerIdentity := {
  Caller_AccountID : string;
  Caller_ARN : string;
  Caller_UserID : string
}.

(** The members of [AWSExecutionContext] that role resolution reads; the
    caller identity is set by [NewAWSExecutionContext] before the context
    is handed out. *)
Record AWSExecutionContext := {
  Ctx_Config : AWSConfig;
  Ctx_CallerIdentity : CallerIdentity
}.

(** The path of the execution role as [AWSExecutionContext.GetRoleARN]
    prepares it (three guarded assignments in the source). *)
Definition Context_role_path (path : string) : string :=
  let path :=
    if negb (String.eqb path "") && negb (HasPrefix path "/")
    then "/" +:+ path else path in
  let path :=
    if negb (String.eqb path "") && negb (HasSuffix path "/")
    then path +:+ "/" else path in
  if String.eqb path "" then "/" else path.

(** [func (ec *AWSExecutionContext) GetRoleARN(accountID string) string]. *)
Definition AWSExecutionContext_GetRoleARN
    (ec : AWSExecutionContext) (accountID : string) : string :=
  if String.eqb accountID (Caller_AccountID (Ctx_CallerIdentity ec)) then ""
  else if negb (String.eqb
                  (EC_CustomRolePattern (AWS_ExecutionContext (Ctx_Config ec))) "")
  then ReplaceAll (EC_CustomRolePattern (AWS_ExecutionContext (Ctx_Config ec)))
                  "{{.AccountID}}" accountID
  else if CT_Enabled (AWS_ControlTower (Ctx_Config ec)) then
    let roleName := Role_Name (CT_ExecutionRole (AWS_ControlTower (Ctx_Config ec))) in
    let roleName :=
      if String.eqb roleName "" then "AWSControlTowerExecution" else roleName in
    let path := Context_role_path
                  (Role_Path (CT_ExecutionRole (AWS_ControlTower (Ctx_Config ec)))) in
    "arn:aws:iam::" +:+ accountID +:+ ":role" +:+ path +:+ roleName
  else "arn:aws:iam::" +:+ accountID +:+ ":role/OrganizationAccountAccessRole".

(** [func redactARN(arn string) string]. *)
Definition redactARN (arn : string) : string :=
  let parts := Split arn ":" in
  if (length parts <? 6)%nat then "unknown"
  else
    let resource := nth 5 parts "" in
    let idx := Index resource "/" in
    if idx >? 0 then substring 0 (Z.to_nat idx) resource
    else resource.

(** ** JSON-shaped values (pkg/utils/deepmerge.go) *)

(** What an [interface{}] holds in the payloads handled here: the values
    [encoding/json] produces (nil, bool, float64, string, []interface{},
    map[string]interface{}) and the numeric types [normalizeValue] knows
    about.  [float64] is IEEE-754 binary64 ([spec_float] at precision 53). *)
Inductive Value :=
| VNil
| VBool (b : bool)
| VString (s : string)
| VFloat64 (f : spec_float)
| VInt (n : Z)
| VInt64 (n : Z)
| VInt32 (n : Z)
| VNumber (s : string)
| VSlice (l : list Value)
| VMap (m : gmap string Value).

(** [float64(n)] for an integer [n]: round to nearest, ties to even. *)
Definition float64_of_int (n : Z) : spec_float := binary_normalize 53 1024 n 0 false.

(** [==] on float64. *)
Definition float64_eqb (x y : spec_float) : bool := SFeqb x y.

(** [deepCopyValue]. *)
Fixpoint deepCopyValue (v : Value) : Value :=
  match v with
  | VMap typed => VMap (deepCopyValue <$> typed)
  | VSlice typed => VSlice (List.map deepCopyValue typed)
  | _ => v
  end.

(** [appendSlices]. *)
Definition appendSlices (dst src : list Value) : list Value :=
  List.map deepCopyValue dst ++ List.map deepCopyValue src.

(** [mergeValues]; the map case runs the loop of [DeepMerge] on the two
    maps (see [DeepMerge] and [mergeValues_maps] below). *)
Fixpoint mergeValues (dst src : Value) {struct src} : Value :=
  match src with
  | VNil => dst
  | _ =>
      match dst with
      | VNil => deepCopyValue src
      | _ =>
          match src with
          | VMap srcTyped =>
              match dst with
              | VMap dstMap =>
                  VMap (map_fold
                          (fun key srcVal dst =>
                             match dst !! key with
                             | None => <[key := deepCopyValue srcVal]> dst
                             | Some dstVal => <[key := mergeValues dstVal srcVal]> dst
                             end)
                          dstMap srcTyped)
              | _ => deepCopyValue src
              end
          | VSlice srcTyped =>
              match dst with
              | VSlice dstSlice => VSlice (appendSlices dstSlice srcTyped)
              | _ => deepCopyValue src
              end
          | _ => deepCopyValue src
          end
      end
  end.

(** Body of the loop of [DeepMerge]. *)
Definition merge_entry (key : string) (srcVal : Value) (dst : gmap string Value)
  : gmap string Value :=
  match dst !! key with
  | None => <[key := deepCopyValue srcVal]> dst
  | Some dstVal => <[key := mergeValues dstVal srcVal]> dst
  end.

(** [DeepMerge(dst, src)], as a function of the contents of the two maps;
    a nil map reads as the empty map.  (The in-place update of [dst] is the
    subject of the store model further down.) *)
Definition DeepMerge (dst src : gmap string Value) : gmap string Value :=
  map_fold merge_entry dst src.

Section Normalize.

(** [json.Number.Float64], that is [strconv.ParseFloat(s, 64)]: a function
    of the Go library, taken as given. *)
Variable ParseFloat : string -> option spec_float.

(** [normalizeValue]. *)
Fixpoint normalizeValue (v : Value) : Value :=
  match v with
  | VMap typed => VMap (normalizeValue <$> typed)
  | VSlice typed => VSlice (List.map normalizeValue typed)
  | VNumber typed =>
      match ParseFloat typed with
      | Some f => VFloat64 f
      | None => VString typed
      end
  | VInt typed => VFloat64 (float64_of_int typed)
  | VInt64 typed => VFloat64 (float64_of_int typed)
  | VInt32 typed => VFloat64 (float64_of_int typed)
  | _ => v
  end.

(** [reflect.DeepEqual] on two values built afresh (no shared maps or
    slices, as after [normalizeValue]): same dynamic type and equal
    contents; floats are compared with [==], maps entry by entry. *)
Fixpoint reflect_DeepEqual (a b : Value) {struct a} : bool :=
  match a with
  | VNil => match b with VNil => true | _ => false end
  | VBool x => match b with VBool y => Bool.eqb x y | _ => false end
  | VString x => match b with VString y => String.eqb x y | _ => false end
  | VFloat64 x => match b with VFloat64 y => float64_eqb x y | _ => false end
  | VInt x => match b with VInt y => Z.eqb x y | _ => false end
  | VInt64 x => match b with VInt64 y => Z.eqb x y | _ => false end
  | VInt32 x => match b with VInt32 y => Z.eqb x y | _ => false end
  | VNumber x => match b with VNumber y => String.eqb x y | _ => false end
  | VSlice l1 =>
      match b with
      | VSlice l2 =>
          (fix elems (l1 l2 : list Value) {struct l1} : bool :=
             match l1, l2 with
             | [], [] => true
             | x :: l1', y :: l2' => reflect_DeepEqual x y && elems l1' l2'
             | _, _ => false
             end) l1 l2
      | _ => false
      end
  | VMap m1 =>
      match b with
      | VMap m2 =>
          (size m1 =? size m2)%nat &&
          map_fold
            (fun k v1 acc =>
               acc && match m2 !! k with
                      | Some v2 => reflect_DeepEqual v1 v2
                      | None => false
                      end)
            true m1
      | _ => false
      end
  end.

(** [DeepEqual]. *)
Definition DeepEqual (a b : Value) : bool :=
  reflect_DeepEqual (normalizeValue a) (normalizeValue b).

(** [json.Unmarshal] into an [interface{}]: a function of the Go library,
    taken as given; [None] when it reports an error. *)
Variable Unmarshal_json : string -> option Value.

(** [CompareSecretsJSON]; the error it returns is always nil. *)
Definition CompareSecretsJSON (existing new : string) : bool :=
  match Unmarshal_json existing with
  | None => String.eqb existing new
  | Some existingMap =>
      match Unmarshal_json new with
      | None => false
      | Some newMap => DeepEqual existingMap newMap
      end
  end.

End Normalize.

(** ** The store model of deepmerge.go *)

(** Maps and slices are reference types in Go: an [interface{}] that holds
    one holds a reference to an object that other values may share.  The
    store is the list of the objects allocated so far; a location is an
    index into it. *)
Abbreviation loc := nat.

Inductive Scalar :=
| SBool (b : bool)
| SString (s : string)
| SFloat64 (f : spec_float)
| SInt (n : Z)
| SInt64 (n : Z)
| SInt32 (n : Z)
| SNumber (s : string).

(** What an [interface{}] holds: nil, a scalar, or a reference. *)
Inductive hval :=
| HNil
| HScalar (s : Scalar)
| HMap (l : loc)
| HSlice (l : loc).

Inductive obj :=
| OMap (entries : gmap string hval)
| OSlice (elems : list hval).

Abbreviation heap := (list obj).

(** Computations on the store; [None] when the step budget is used up or
    a reference does not lead to an object of the expected kind. *)
Definition M (A : Type) : Type := heap -> option (A * heap).

Definition ret {A : Type} (a : A) : M A := fun h => Some (a, h).

Definition bind {A B : Type} (m : M A) (k : A -> M B) : M B :=
  fun h => match m h with
           | Some (a, h') => k a h'
           | None => None
           end.

Notation "x <- m ;; k" := (bind m (fun x => k))
  (at level 100, m at next level, right associativity).

Definition fail {A : Type} : M A := fun _ => None.

(** [make]: a new object at the next free location. *)
Definition alloc (o : obj) : M loc := fun h => Some (length h, h ++ [o]).

Definition load_map (l : loc) : M (gmap string hval) :=
  fun h => match h !! l with
           | Some (OMap m) => Some (m, h)
           | _ => None
           end.

Definition load_slice (l : loc) : M (list hval) :=
  fun h => match h !! l with
           | Some (OSlice e) => Some (e, h)
           | _ => None
           end.

(** [m[k] = v]. *)
Definition map_set (l : loc) (k : string) (v : hval) : M unit :=
  fun h => match h !! l with
           | Some (OMap m) => Some (tt, <[l := OMap (<[k := v]> m)]> h)
           | _ => None
           end.

(** [s[i] = v]. *)
Definition slice_set (l : loc) (i : nat) (v : hval) : M unit :=
  fun h => match h !! l with
           | Some (OSlice e) => Some (tt, <[l := OSlice (<[i := v]> e)]> h)
           | _ => None
           end.

(** [s = append(s, v)] within the capacity of [s]. *)
Definition slice_push (l : loc) (v : hval) : M unit :=
  fun h => match h !! l with
           | Some (OSlice e) => Some (tt, <[l := OSlice (e ++ [v])]> h)
           | _ => None
           end.

(** A [for ... range] loop over a list. *)
Fixpoint for_each {A : Type} (l : list A) (body : A -> M unit) : M unit :=
  match l with
  | [] => ret tt
  | x :: l' => _ <- body x ;; for_each l' body
  end.

(** [deepCopyValue] on the store. *)
Fixpoint deepCopyValue_h (fuel : nat) (v : hval) : M hval :=
  match fuel with
  | O => fail
  | S fuel =>
      match v with
      | HMap l =>
          typed <- load_map l ;;
          result <- alloc (OMap ∅) ;;
          _ <- for_each (map_to_list typed)
                 (fun entry =>
                    c <- deepCopyValue_h fuel (snd entry) ;;
                    map_set result (fst entry) c) ;;
          ret (HMap result)
      | HSlice l =>
          typed <- load_slice l ;;
          result <- alloc (OSlice (replicate (length typed) HNil)) ;;
          _ <- for_each (zip (seq 0 (length typed)) typed)
                 (fun entry =>
                    c <- deepCopyValue_h fuel (snd entry) ;;
                    slice_set result (fst entry) c) ;;
          ret (HSlice result)
      | _ => ret v
      end
  end.

(** [appendSlices] on the store; [copy] is [deepCopyValue]. *)
Definition appendSlices_h (copy : hval -> M hval) (dst src : loc) : M loc :=
  dstElems <- load_slice dst ;;
  srcElems <- load_slice src ;;
  result <- alloc (OSlice []) ;;
  _ <- for_each dstElems (fun v => c <- copy v ;; slice_push result c) ;;
  _ <- for_each srcElems (fun v => c <- copy v ;; slice_push result c) ;;
  ret result.

(** [mergeValues] on the store; [merge] is the recursive call of
    [DeepMerge] on two maps. *)
Definition mergeValues_with (merge : loc -> loc -> M loc) (copy : hval -> M hval)
    (dst src : hval) : M hval :=
  match src with
  | HNil => ret dst
  | _ =>
      match dst with
      | HNil => copy src
      | _ =>
          match src with
          | HMap srcTyped =>
              match dst with
              | HMap dstMap => r <- merge dstMap srcTyped ;; ret (HMap r)
              | _ => copy src
              end
          | HSlice srcTyped =>
              match dst with
              | HSlice dstSlice =>
                  r <- appendSlices_h copy dstSlice srcTyped ;; ret (HSlice r)
              | _ => copy src
              end
          | _ => copy src
          end
      end
  end.

(** Body of the loop of [DeepMerge] for one key of [src]: the value is read
    when the loop reaches the key. *)
Definition merge_key (mergeValues : hval -> hval -> M hval) (copy : hval -> M hval)
    (dst src : loc) (key : string) : M unit :=
  srcNow <- load_map src ;;
  match srcNow !! key with
  | None => ret tt
  | Some srcVal =>
      dstNow <- load_map dst ;;
      match dstNow !! key with
      | None => c <- copy srcVal ;; map_set dst key c
      | Some dstVal => r <- mergeValues dstVal srcVal ;; map_set dst key r
      end
  end.

(** [DeepMerge] on the store: [None] is a nil map.  The loop visits the
    keys that [src] has when the loop starts, and reads the value of a key
    when it reaches the key.  (Go may or may not visit a key that is added
    to [src] during the loop; this can happen only when [dst] reaches
    [src].)  The step budget [fuel] bounds the depth of the recursion: Go
    recurses without a bound, and does not return on a value that contains
    itself. *)
Fixpoint DeepMerge_h (fuel : nat) (dst src : option loc) : M loc :=
  match fuel with
  | O => fail
  | S fuel =>
      dst <- match dst with
             | None => alloc (OMap ∅)
             | Some d => ret d
             end ;;
      match src with
      | None => ret dst
      | Some src =>
          srcMap <- load_map src ;;
          _ <- for_each (List.map fst (map_to_list srcMap))
                 (merge_key
                    (mergeValues_with
                       (fun d s => DeepMerge_h fuel (Some d) (Some s))
                       (deepCopyValue_h fuel))
                    (deepCopyValue_h fuel) dst src) ;;
          ret dst
      end
  end.

Definition mergeValues_h (fuel : nat) : hval -> hval -> M hval :=
  mergeValues_with (fun d s => DeepMerge_h fuel (Some d) (Some s))
                   (deepCopyValue_h fuel).

(** ** Sorting (package sort of the Go library) *)

(** [sort.Slice(l, less)]: the elements of [l] arranged so that no element
    is [less] than one placed before it. *)
Definition not_after {A : Type} (less : A -> A -> bool) (x y : A) : Prop :=
  less y x = false.

#[global] Instance not_after_dec {A : Type} (less : A -> A -> bool) (x y : A) :
  Decision (not_after less x y) := bool_eq_dec (less y x) false.

Definition sort_Slice {A : Type} (less : A -> A -> bool) (l : list A) : list A :=
  merge_sort (not_after less) l.

(** [sort.Strings]. *)
Definition sort_Strings (l : list string) : list string := sort_Slice String.ltb l.

(** ** The diff engine (pkg/diff/diff.go) *)

(** [type ChangeType string] with its four constants. *)
Definition ChangeType := string.
Definition ChangeTypeAdded : ChangeType := "added".
Definition ChangeTypeRemoved : ChangeType := "removed".
Definition ChangeTypeModified : ChangeType := "modified".
Definition ChangeTypeUnchanged : ChangeType := "unchanged".

(** [SecretChange]; a nil [[]string] reads as the empty list. *)
Record SecretChange := {
  SC_Path : string;
  SC_ChangeType : ChangeType;
  SC_Target : string;
  SC_KeysAdded : list string;
  SC_KeysRemoved : list string;
  SC_KeysModified : list string;
  SC_CurrentKeys : list string;
  SC_DesiredKeys : list string;
  SC_CurrentHash : string;
  SC_DesiredHash : string
}.

Record ChangeSummary := {
  Added : Z;
  Removed : Z;
  Modified : Z;
  Unchanged : Z;
  Total : Z
}.

Record TargetDiff := {
  TD_Target : string;
  TD_Changes : list SecretChange;
  TD_Summary : ChangeSummary
}.

Record PipelineDiff := {
  PD_Targets : list TargetDiff;
  PD_Summary : ChangeSummary;
  PD_DryRun : bool;
  PD_ConfigPath : string
}.

(** [func (s ChangeSummary) IsZeroSum() bool]. *)
Definition ChangeSummary_IsZeroSum (s : ChangeSummary) : bool :=
  (Added s =? 0) && (Removed s =? 0) && (Modified s =? 0).

(** [func (s ChangeSummary) HasChanges() bool]. *)
Definition HasChanges (s : ChangeSummary) : bool := negb (ChangeSummary_IsZeroSum s).

(** [func (p *PipelineDiff) IsZeroSum() bool]. *)
Definition PipelineDiff_IsZeroSum (p : PipelineDiff) : bool :=
  ChangeSummary_IsZeroSum (PD_Summary p).

(** [func (p *PipelineDiff) ExitCode() int]. *)
Definition ExitCode (p : PipelineDiff) : Z :=
  if PipelineDiff_IsZeroSum p then 0 else 1.

(** [getMapKeys]. *)
Definition getMapKeys (v : Value) : list string :=
  match v with
  | VMap m => sort_Strings (List.map fst (map_to_list m))
  | _ => []
  end.

(** Reading a [map[string]bool]: a missing key reads as [false]. *)
Definition flag (m : gmap string bool) (k : string) : bool := default false (m !! k).

Section Diff.

Variable ParseFloat : string -> option spec_float.

(** [diffMapKeys]. *)
Definition diffMapKeys (current desired : Value)
  : list string * list string * list string :=
  match current, desired with
  | VMap currentMap, VMap desiredMap =>
      let '(added, modified, seen) :=
        foldl
          (fun (acc : list string * list string * gmap string bool)
               (entry : string * Value) =>
             let '(added, modified, seen) := acc in
             let '(k, dv) := entry in
             let seen := <[k := true]> seen in
             match currentMap !! k with
             | None => (added ++ [k], modified, seen)
             | Some cv =>
                 if negb (DeepEqual ParseFloat cv dv)
                 then (added, modified ++ [k], seen)
                 else (added, modified, seen)
             end)
          ([], [], ∅) (map_to_list desiredMap) in
      let removed :=
        foldl
          (fun (removed : list string) (entry : string * Value) =>
             if negb (flag seen (fst entry)) then removed ++ [fst entry]
             else removed)
          [] (map_to_list currentMap) in
      (sort_Strings added, sort_Strings removed, sort_Strings modified)
  | _, _ => ([], [], ["<value>"])
  end.

(** Body of the first loop of [DiffSecrets], over [desired]. *)
Definition diff_desired (current : gmap string Value)
    (acc : list SecretChange * gmap string bool) (entry : string * Value)
  : list SecretChange * gmap string bool :=
  let '(changes, seen) := acc in
  let '(path, desiredVal) := entry in
  let seen := <[path := true]> seen in
  match current !! path with
  | None =>
      (changes ++
         [{| SC_Path := path; SC_ChangeType := ChangeTypeAdded; SC_Target := "";
             SC_KeysAdded := []; SC_KeysRemoved := []; SC_KeysModified := [];
             SC_CurrentKeys := []; SC_DesiredKeys := getMapKeys desiredVal;
             SC_CurrentHash := ""; SC_DesiredHash := "" |}], seen)
  | Some currentVal =>
      if DeepEqual ParseFloat currentVal desiredVal
      then
        (changes ++
           [{| SC_Path := path; SC_ChangeType := ChangeTypeUnchanged;
               SC_Target := "";
               SC_KeysAdded := []; SC_KeysRemoved := []; SC_KeysModified := [];
               SC_CurrentKeys := getMapKeys currentVal;
               SC_DesiredKeys := getMapKeys desiredVal;
               SC_CurrentHash := ""; SC_DesiredHash := "" |}], seen)
      else
        let '(added, removed, modified) := diffMapKeys currentVal desiredVal in
        (changes ++
           [{| SC_Path := path; SC_ChangeType := ChangeTypeModified;
               SC_Target := "";
               SC_KeysAdded := added; SC_KeysRemoved := removed;
               SC_KeysModified := modified;
               SC_CurrentKeys := getMapKeys currentVal;
               SC_DesiredKeys := getMapKeys desiredVal;
               SC_CurrentHash := ""; SC_DesiredHash := "" |}], seen)
  end.

(** Body of the second loop of [DiffSecrets], over [current]. *)
Definition diff_current (seen : gmap string bool)
    (changes : list SecretChange) (entry : string * Value) : list SecretChange :=
  let '(path, currentVal) := entry in
  if negb (flag seen path)
  then changes ++
         [{| SC_Path := path; SC_ChangeType := ChangeTypeRemoved; SC_Target := "";
             SC_KeysAdded := []; SC_KeysRemoved := []; SC_KeysModified := [];
             SC_CurrentKeys := getMapKeys currentVal; SC_DesiredKeys := [];
             SC_CurrentHash := ""; SC_DesiredHash := "" |}]
  else changes.

(** [DiffSecrets]. *)
Definition DiffSecrets (current desired : gmap string Value) : list SecretChange :=
  let '(changes, seen) :=
    foldl (diff_desired current) ([], ∅) (map_to_list desired) in
  let changes := foldl (diff_current seen) changes (map_to_list current) in
  sort_Slice (fun a b => String.ltb (SC_Path a) (SC_Path b)) changes.

End Diff.

(** Body of the loop of [ComputeSummary]: the [switch] on the change type,
    then [summary.Total++]. *)
Definition tally (summary : ChangeSummary) (c : SecretChange) : ChangeSummary :=
  let summary :=
    if String.eqb (SC_ChangeType c) ChangeTypeAdded then
      {| Added := Added summary + 1; Removed := Removed summary;
         Modified := Modified summary; Unchanged := Unchanged summary;
         Total := Total summary |}
    else if String.eqb (SC_ChangeType c) ChangeTypeRemoved then
      {| Added := Added summary; Removed := Removed summary + 1;
         Modified := Modified summary; Unchanged := Unchanged summary;
         Total := Total summary |}
    else if String.eqb (SC_ChangeType c) ChangeTypeModified then
      {| Added := Added summary; Removed := Removed summary;
         Modified := Modified summary + 1; Unchanged := Unchanged summary;
         Total := Total summary |}
    else if String.eqb (SC_ChangeType c) ChangeTypeUnchanged then
      {| Added := Added summary; Removed := Removed summary;
         Modified := Modified summary; Unchanged := Unchanged summary + 1;
         Total := Total summary |}
    else summary in
  {| Added := Added summary; Removed := Removed summary;
     Modified := Modified summary; Unchanged := Unchanged summary;
     Total := Total summary + 1 |}.

(** [ComputeSummary]. *)
Definition ComputeSummary (changes : list SecretChange) : ChangeSummary :=
  foldl tally
        {| Added := 0; Removed := 0; Modified := 0; Unchanged := 0; Total := 0 |}
        changes.

(** [func (p *PipelineDiff) AddTargetDiff(td TargetDiff)]: the receiver
    after the call. *)
Definition AddTargetDiff (p : PipelineDiff) (td : TargetDiff) : PipelineDiff :=
  {| PD_Targets := PD_Targets p ++ [td];
     PD_Summary :=
       {| Added := Added (PD_Summary p) + Added (TD_Summary td);
          Removed := Removed (PD_Summary p) + Removed (TD_Summary td);
          Modified := Modified (PD_Summary p) + Modified (TD_Summary td);
          Unchanged := Unchanged (PD_Summary p) + Unchanged (TD_Summary td);
          Total := Total (PD_Summary p) + Total (TD_Summary td) |};
     PD_DryRun := PD_DryRun p;
     PD_ConfigPath := PD_ConfigPath p |}.

(** ** The dependency graph (pkg/pipeline/graph.go) *)

Inductive NodeType := NodeTypeSource | NodeTypeTarget.

Record Node := {
  Name : string;
  Type_ : NodeType;
  Level : Z;
  Deps : list string;
  DependedBy : list string
}.

(** [Graph.Nodes] maps a name to a pointer to its node; the nodes are
    updated through those pointers, which is an update of the entry here. *)
Record Graph := { Nodes : gmap string Node }.

Inductive GraphError :=
| ErrUnknownImport (name imp : string)
| ErrNodeNotFound (name : string)
| ErrCircular (name : string).

(** Outcome of a computation that recurses on a step budget. *)
Inductive Outcome (A : Type) :=
| Done (a : A)
| Failed (e : GraphError)
| OutOfFuel.
Arguments Done {A} a.
Arguments Failed {A} e.
Arguments OutOfFuel {A}.

Definition set_Level (l : Z) (n : Node) : Node :=
  {| Name := Name n; Type_ := Type_ n; Level := l; Deps := Deps n;
     DependedBy := DependedBy n |}.

Definition add_Dep (imp : string) (n : Node) : Node :=
  {| Name := Name n; Type_ := Type_ n; Level := Level n;
     Deps := Deps n ++ [imp]; DependedBy := DependedBy n |}.

Definition add_DependedBy (name : string) (n : Node) : Node :=
  {| Name := Name n; Type_ := Type_ n; Level := Level n;
     Deps := Deps n; DependedBy := DependedBy n ++ [name] |}.

(** First loop of [BuildGraph]: every source becomes a level-0 leaf. *)
Definition add_sources (names : list string) (nodes : gmap string Node)
  : gmap string Node :=
  foldl (fun nodes name =>
           <[name := {| Name := name; Type_ := NodeTypeSource; Level := 0;
                        Deps := []; DependedBy := [] |}]> nodes)
        nodes names.

(** Second loop of [BuildGraph]: every target becomes a node. *)
Definition add_targets (names : list string) (nodes : gmap string Node)
  : gmap string Node :=
  foldl (fun nodes name =>
           <[name := {| Name := name; Type_ := NodeTypeTarget; Level := 0;
                        Deps := []; DependedBy := [] |}]> nodes)
        nodes names.

(** Inner loop of the third loop of [BuildGraph], over [target.Imports]. *)
Fixpoint add_imports (name : string) (imports : list string)
    (nodes : gmap string Node) : GraphError + gmap string Node :=
  match imports with
  | [] => inr nodes
  | imp :: rest =>
      match nodes !! imp with
      | None => inl (ErrUnknownImport name imp)
      | Some _ =>
          let nodes := alter (add_Dep imp) name nodes in
          let nodes := alter (add_DependedBy name) imp nodes in
          add_imports name rest nodes
      end
  end.

(** Third loop of [BuildGraph], over [cfg.Targets]. *)
Fixpoint add_edges (targets : list (string * Target)) (nodes : gmap string Node)
  : GraphError + gmap string Node :=
  match targets with
  | [] => inr nodes
  | (name, target) :: rest =>
      match add_imports name (Imports target) nodes with
      | inl e => inl e
      | inr nodes => add_edges rest nodes
      end
  end.

(** The variables captured by the closure [calcLevel]: the graph and the
    two marker maps. *)
Record LevelState := {
  st_nodes : gmap string Node;
  st_visited : gmap string bool;
  st_inStack : gmap string bool
}.

(** The loop over [node.Deps] inside [calcLevel]; [call] is the recursive
    call. *)
Fixpoint deps_loop (call : string -> LevelState -> Outcome (Z * LevelState))
    (deps : list string) (maxDepLevel : Z) (st : LevelState)
  : Outcome (Z * LevelState) :=
  match deps with
  | [] => Done (maxDepLevel, st)
  | dep :: rest =>
      match call dep st with
      | Done (depLevel, st) =>
          deps_loop call rest
                    (if depLevel >? maxDepLevel then depLevel else maxDepLevel) st
      | Failed e => Failed e
      | OutOfFuel => OutOfFuel
      end
  end.

(** The closure [calcLevel] of [calculateLevels]; [fuel] bounds the depth
    of the recursion. *)
Fixpoint calcLevel (fuel : nat) (name : string) (st : LevelState)
  : Outcome (Z * LevelState) :=
  match fuel with
  | O => OutOfFuel
  | S fuel =>
      match st_nodes st !! name with
      | None => Failed (ErrNodeNotFound name)
      | Some node =>
          if flag (st_inStack st) name then Failed (ErrCircular name)
          else if flag (st_visited st) name then Done (Level node, st)
          else
            let st := {| st_nodes := st_nodes st; st_visited := st_visited st;
                         st_inStack := <[name := true]> (st_inStack st) |} in
            match Type_ node with
            | NodeTypeSource =>
                Done (0, {| st_nodes := alter (set_Level 0) name (st_nodes st);
                            st_visited := <[name := true]> (st_visited st);
                            st_inStack := <[name := false]> (st_inStack st) |})
            | NodeTypeTarget =>
                match deps_loop (calcLevel fuel) (Deps node) (-1) st with
                | Done (maxDepLevel, st) =>
                    Done (maxDepLevel + 1,
                          {| st_nodes :=
                               alter (set_Level (maxDepLevel + 1)) name (st_nodes st);
                             st_visited := <[name := true]> (st_visited st);
                             st_inStack := <[name := false]> (st_inStack st) |})
                | Failed e => Failed e
                | OutOfFuel => OutOfFuel
                end
            end
      end
  end.

(** The loop over [g.Nodes] at the end of [calculateLevels]. *)
Fixpoint levels_loop (fuel : nat) (names : list string) (st : LevelState)
  : Outcome LevelState :=
  match names with
  | [] => Done st
  | name :: rest =>
      match calcLevel fuel name st with
      | Done (_, st) => levels_loop fuel rest st
      | Failed e => Failed e
      | OutOfFuel => OutOfFuel
      end
  end.

(** [func (g *Graph) calculateLevels() error]: the graph with its levels
    set, or the error.  A call of [calcLevel] marks its node as being on the
    stack before it recurses and fails on a marked node, so the recursion is
    never deeper than the number of nodes plus one: that is the budget. *)
Definition calculateLevels (g : Graph) : Outcome Graph :=
  match levels_loop (S (size (Nodes g))) (List.map fst (map_to_list (Nodes g)))
                    {| st_nodes := Nodes g; st_visited := ∅; st_inStack := ∅ |} with
  | Done st => Done {| Nodes := st_nodes st |}
  | Failed e => Failed e
  | OutOfFuel => OutOfFuel
  end.

(** [BuildGraph]: the graph, or the error. *)
Definition BuildGraph (cfg : Config) : Outcome Graph :=
  let nodes := add_sources (List.map fst (map_to_list (Sources cfg))) ∅ in
  let nodes := add_targets (List.map fst (map_to_list (Targets cfg))) nodes in
  match add_edges (map_to_list (Targets cfg)) nodes with
  | inl e => Failed e
  | inr nodes => calculateLevels {| Nodes := nodes |}
  end.

(** The level of a named node, as [g.Nodes[name].Level] reads it. *)
Definition level_of (g : Graph) (name : string) : Z :=
  match Nodes g !! name with
  | Some node => Level node
  | None => 0
  end.

(** The [less] function handed to [sort.Slice] in [TopologicalOrder]. *)
Definition level_name_less (g : Graph) (a b : string) : bool :=
  let li := level_of g a in
  let lj := level_of g b in
  if negb (li =? lj) then li <? lj else String.ltb a b.

(** [func (g *Graph) TopologicalOrder() []string]. *)
Definition TopologicalOrder (g : Graph) : list string :=
  let targets :=
    List.map fst
      (List.filter
         (fun entry : string * Node =>
            match Type_ (snd entry) with
            | NodeTypeTarget => true
            | NodeTypeSource => false
            end)
         (map_to_list (Nodes g))) in
  sort_Slice (level_name_less g) targets.

(** *** GroupByLevel and IncludeDependencies *)

(** How a call of a function that can panic ends; [NoFuel] when the step
    budget of the model is used up. *)
Inductive Call (A : Type) :=
| Returns (a : A)
| Panics
| NoFuel.
Arguments Returns {A} a.
Arguments Panics {A}.
Arguments NoFuel {A}.

(** First loop of [GroupByLevel]: the highest level of a target, 0 when
    there is none. *)
Definition max_target_level (g : Graph) : Z :=
  foldl (fun (maxLevel : Z) (entry : string * Node) =>
           match Type_ (snd entry) with
           | NodeTypeTarget =>
               if Level (snd entry) >? maxLevel then Level (snd entry) else maxLevel
           | NodeTypeSource => maxLevel
           end)
        0 (map_to_list (Nodes g)).

(** Body of the third loop of [GroupByLevel]:
    [levels[node.Level] = append(levels[node.Level], name)]; an index out
    of range panics ([None]). *)
Definition group_add (levels : option (list (list string))) (entry : string * Node)
  : option (list (list string)) :=
  match levels with
  | None => None
  | Some levels =>
      match Type_ (snd entry) with
      | NodeTypeTarget =>
          if Level (snd entry) <? 0 then None
          else
            match levels !! Z.to_nat (Level (snd entry)) with
            | Some group =>
                Some (<[Z.to_nat (Level (snd entry)) := group ++ [fst entry]]> levels)
            | None => None
            end
      | NodeTypeSource => Some levels
      end
  end.

(** [func (g *Graph) GroupByLevel() [][]string]. *)
Definition GroupByLevel (g : Graph) : Call (list (list string)) :=
  let maxLevel := max_target_level g in
  let levels := replicate (Z.to_nat (maxLevel + 1)) [] in
  match foldl group_add (Some levels) (map_to_list (Nodes g)) with
  | Some levels => Returns (List.map sort_Strings levels)
  | None => Panics
  end.

(** One round of the loop over [node.Deps] in the closure [addDeps] of
    [IncludeDependencies]: the recursive call [call] is made for a
    dependency that is a target of the graph. *)
Definition dep_step (g : Graph)
    (call : string -> gmap string bool -> option (gmap string bool))
    (acc : option (gmap string bool)) (dep : string) : option (gmap string bool) :=
  match acc with
  | None => None
  | Some included =>
      match Nodes g !! dep with
      | Some depNode =>
          match Type_ depNode with
          | NodeTypeTarget => call dep included
          | NodeTypeSource => Some included
          end
      | None => Some included
      end
  end.

(** The closure [addDeps]: it takes the map [included] and returns it
    updated.  [None] when the step budget [fuel], which bounds the depth
    of the recursion, is used up. *)
Fixpoint addDeps (g : Graph) (fuel : nat) (name : string)
    (included : gmap string bool) : option (gmap string bool) :=
  match fuel with
  | O => None
  | S fuel =>
      if flag included name then Some included
      else
        let included := <[name := true]> included in
        match Nodes g !! name with
        | None => Some included
        | Some node => foldl (dep_step g (addDeps g fuel)) (Some included) (Deps node)
        end
  end.

(** [func (g *Graph) IncludeDependencies(targets []string) []string].  The
    comparison that [sort.Slice] is given reads [g.Nodes[name].Level], a
    nil pointer for a name that is not a node; [sort.Slice] compares every
    element with another one as soon as there are two. *)
Definition IncludeDependencies (g : Graph) (targets : list string) : Call (list string) :=
  match foldl (fun acc target =>
                 match acc with
                 | None => None
                 | Some included => addDeps g (S (size (Nodes g))) target included
                 end)
              (Some ∅) targets with
  | None => NoFuel
  | Some included =>
      let result := List.map fst (map_to_list included) in
      if (2 <=? length result)%nat &&
         negb (forallb (fun name => match Nodes g !! name with
                                    | Some _ => true
                                    | None => false
                                    end) result)
      then Panics
      else Returns (sort_Slice (level_name_less g) result)
  end.

(** ** The pipeline (pkg/pipeline/pipeline.go) *)

(** The two errors of [New]: each wraps the error of the step that
    failed. *)
Inductive NewError :=
| ErrInvalidConfiguration (e : ConfigError)
| ErrDependencyGraph (e : GraphError).

(** [func New], which returns a pipeline or an error: the pipeline holds
    the configuration and its graph.  [None] when the step budget of
    [BuildGraph] is used up. *)
Definition Pipeline_New (cfg : Config) : option (NewError + Config * Graph) :=
  match Validate cfg with
  | Some err => Some (inl (ErrInvalidConfiguration err))
  | None =>
      match BuildGraph cfg with
      | Failed err => Some (inl (ErrDependencyGraph err))
      | Done graph => Some (inr (cfg, graph))
      | OutOfFuel => None
      end
  end.

(** [func (p *Pipeline) resolveTargets(requested []string) []string], as a
    function of the graph of the pipeline. *)
Definition resolveTargets (g : Graph) (requested : list string) : Call (list string) :=
  if (length requested =? 0)%nat then Returns (TopologicalOrder g)
  else IncludeDependencies g requested.

(** The targets of a level that [executeMergePhase] keeps: those that are
    among the requested ones (the two nested loops that fill
    [levelTargets]). *)
Definition level_targets (level targets : list string) : list string :=
  List.filter (fun t => existsb (String.eqb t) targets) level.

(** The batches of targets that
    [func (p *Pipeline) executeMergePhase(ctx, targets, opts)] hands to
    [executeParallel], one level after the other, when no failed result
    ends the loop: a level without requested target is skipped. *)
Definition merge_batches (g : Graph) (targets : list string) : Call (list (list string)) :=
  match GroupByLevel g with
  | Returns levels =>
      Returns
        (List.filter (fun levelTargets => negb (length levelTargets =? 0)%nat)
           (List.map (fun level => level_targets level targets) levels))
  | Panics => Panics
  | NoFuel => NoFuel
  end.

(** ** Statements of the specification, for comparison with the code *)

(** The resolution order of the cross-account role as the specification
    words it: the executing account [caller] needs no role; then the
    explicit [role_arn] of the target; then the custom pattern; then the
    Control Tower pattern; then the organizational-access role. *)
Definition claimed_role_arn (caller : string) (explicit : option string)
    (aws : AWSConfig) (accountID : string) : string :=
  if String.eqb accountID caller then ""
  else
    match explicit with
    | Some arn => arn
    | None =>
        if negb (String.eqb (EC_CustomRolePattern (AWS_ExecutionContext aws)) "")
        then ReplaceAll (EC_CustomRolePattern (AWS_ExecutionContext aws))
                        "{{.AccountID}}" accountID
        else if CT_Enabled (AWS_ControlTower aws) then
          "arn:aws:iam::" +:+ accountID +:+ ":role" +:+
          Context_role_path (Role_Path (CT_ExecutionRole (AWS_ControlTower aws))) +:+
          (if String.eqb (Role_Name (CT_ExecutionRole (AWS_ControlTower aws))) ""
           then "AWSControlTowerExecution"
           else Role_Name (CT_ExecutionRole (AWS_ControlTower aws)))
        else "arn:aws:iam::" +:+ accountID +:+ ":role/OrganizationAccountAccessRole"
    end.

(** Some target of the configuration has imports. *)
Definition some_target_imports (c : Config) : bool :=
  existsb (fun entry : string * Target =>
             negb (length (Imports (snd entry)) =? 0)%nat)
          (map_to_list (Targets c)).

(** A merge store is configured. *)
Definition merge_store_configured (c : Config) : bool :=
  match MergeStore_Vault (MergeStore c), MergeStore_S3 (MergeStore c) with
  | None, None => false
  | _, _ => true
  end.

(** The checks of [Validate] that precede the loop over the targets pass. *)
Definition header_ok (c : Config) : bool :=
  negb (String.eqb (Vault_Address (Vault c)) "") &&
  merge_store_configured c &&
  match MergeStore_S3 (MergeStore c) with
  | Some s => negb (String.eqb (S3_Bucket s) "")
  | None => true
  end.

(** Every target other than [name] passes the checks of the loop body. *)
Definition other_targets_valid (c : Config) (name : string) : bool :=
  forallb (fun entry : string * Target =>
             String.eqb (fst entry) name ||
             match validate_target c entry with
             | None => true
             | Some _ => false
             end)
          (map_to_list (Targets c)).

(** The Control Tower pattern
    [arn:aws:iam::<A>:role<normalized-path><roleName>]; the role name falls
    back to AWSControlTowerExecution when it is not configured. *)
Definition control_tower_arn (ct : ControlTowerConfig) (accountID : string) : string :=
  "arn:aws:iam::" +:+ accountID +:+ ":role" +:+
  Config_role_path (Role_Path (CT_ExecutionRole ct)) +:+
  (if String.eqb (Role_Name (CT_ExecutionRole ct)) ""
   then "AWSControlTowerExecution"
   else Role_Name (CT_ExecutionRole ct)).

(** Some target of the configuration names the account and carries an
    explicit role. *)
Definition explicit_role (c : Config) (accountID : string) (arn : string) : Prop :=
  exists name t, Targets c !! name = Some t /\ AccountID t = accountID /\
                 RoleARN t = arn /\ arn <> "".

(** ** Notions used in the statements about values *)

(** Number of constructors of a value; the measure for inductions that go
    through the maps and slices nested in a value. *)
Fixpoint Value_size (v : Value) : nat :=
  match v with
  | VSlice l => S (list_sum (List.map Value_size l))
  | VMap m => S (map_fold (fun _ v acc => (Value_size v + acc)%nat) 0%nat m)
  | _ => 1%nat
  end.

Definition float64_is_nan (f : spec_float) : bool :=
  match f with
  | S754_nan => true
  | _ => false
  end.

Definition float64_is_finite (f : spec_float) : bool :=
  match f with
  | S754_zero _ | S754_finite _ _ _ => true
  | _ => false
  end.

(** No float in the value is a NaN. *)
Fixpoint no_NaN (v : Value) : bool :=
  match v with
  | VFloat64 f => negb (float64_is_nan f)
  | VSlice l => forallb no_NaN l
  | VMap m => map_fold (fun _ v acc => no_NaN v && acc) true m
  | _ => true
  end.

(** The values [json.Unmarshal] stores into an [interface{}]: nil, bool,
    string, a finite float64, and slices and maps of such values. *)
Fixpoint json_value (v : Value) : bool :=
  match v with
  | VNil | VBool _ | VString _ => true
  | VFloat64 f => float64_is_finite f
  | VSlice l => forallb json_value l
  | VMap m => map_fold (fun _ v acc => json_value v && acc) true m
  | _ => false
  end.



(** ** Notions used in the statements about the graph *)

(** The import relation of a configuration: target [a] imports [b]. *)
Definition imports (cfg : Config) (a b : string) : Prop :=
  exists t, Targets cfg !! a = Some t /\ In b (Imports t).

(** Every import names a known source or target. *)
Definition imports_resolve (cfg : Config) : Prop :=
  forall a b, imports cfg a b ->
              is_Some (Sources cfg !! b) \/ is_Some (Targets cfg !! b).

(** The same, as a test. *)
Definition imports_resolve_b (cfg : Config) : bool :=
  forallb
    (fun entry : string * Target =>
       forallb
         (fun imp => match Sources cfg !! imp, Targets cfg !! imp with
                     | None, None => false
                     | _, _ => true
                     end)
         (Imports (snd entry)))
    (map_to_list (Targets cfg)).

(** The part of a node that [calculateLevels] only reads: its type and the
    nodes it depends on. *)
Definition shape (nodes : gmap string Node) (k : string)
  : option (NodeType * list string) :=
  (fun n => (Type_ n, Deps n)) <$> nodes !! k.

(** The dependency edges of a node map: target [a] depends on [b]. *)
Definition edge (nodes : gmap string Node) (a b : string) : Prop :=
  exists deps, shape nodes a = Some (NodeTypeTarget, deps) /\ In b deps.

(** Every dependency names a node. *)
Definition closed (nodes : gmap string Node) : Prop :=
  forall a b, edge nodes a b -> is_Some (nodes !! b).

(** [g.Nodes[k].Level], read from a node map. *)
Definition lvl (nodes : gmap string Node) (k : string) : Z :=
  level_of {| Nodes := nodes |} k.

(** The level of [k] is right with respect to the levels of the nodes it
    depends on: 0 for a source; for a target, above the level of every
    dependency and one more than the level of one of them (0 without
    dependencies). *)
Definition level_ok (G nodes : gmap string Node) (k : string) : Prop :=
  match shape G k with
  | Some (NodeTypeSource, _) => lvl nodes k = 0
  | Some (NodeTypeTarget, deps) =>
      (forall d, In d deps -> lvl nodes d < lvl nodes k) /\
      (deps = [] -> lvl nodes k = 0) /\
      (deps <> [] -> exists d, In d deps /\ lvl nodes k = 1 + lvl nodes d)
  | None => False
  end.

(** The invariant of [calculateLevels] on the variables of [calcLevel], for
    a graph whose edges are those of [G]: a visited node is not on the
    stack, its level is right and not negative, and its dependencies are
    visited. *)
Record inv_ok (G : gmap string Node) (st : LevelState) : Prop := {
  inv_shape : forall k, shape (st_nodes st) k = shape G k;
  inv_disjoint : forall k, flag (st_visited st) k = true ->
                           flag (st_inStack st) k = false;
  inv_level : forall k, flag (st_visited st) k = true ->
                        level_ok G (st_nodes st) k /\ 0 <= lvl (st_nodes st) k;
  inv_deps : forall a b, flag (st_visited st) a = true -> edge G a b ->
                         flag (st_visited st) b = true
}.

(** The stack markers read the same in both states. *)
Definition same_stack (st st' : LevelState) : Prop :=
  forall k, flag (st_inStack st') k = flag (st_inStack st) k.

(** What was visited stays visited, with the same level. *)
Definition visited_mono (st st' : LevelState) : Prop :=
  forall k, flag (st_visited st) k = true ->
            flag (st_visited st') k = true /\
            lvl (st_nodes st') k = lvl (st_nodes st) k.

(** What a successful call of [calcLevel] on [name] guarantees. *)
Definition calc_post (G : gmap string Node) (name : string)
    (st : LevelState) (l : Z) (st' : LevelState) : Prop :=
  inv_ok G st' /\ same_stack st st' /\ visited_mono st st' /\
  flag (st_visited st') name = true /\ l = lvl (st_nodes st') name.

(** The number of nodes that are not on the stack: the recursion of
    [calcLevel] cannot go deeper than that. *)
Definition free_nodes (G : gmap string Node) (st : LevelState) : nat :=
  length (List.filter (fun k => negb (flag (st_inStack st) k))
                      (List.map fst (map_to_list G))).

(** The imports that the third loop of [BuildGraph] appends to the
    dependencies of [k] while it goes through the list [l] of targets. *)
Definition imports_of (l : list (string * Target)) (k : string) : list string :=
  flat_map (fun e => if String.eqb (fst e) k then Imports (snd e) else []) l.

Definition add_deps (extra : list string) (s : NodeType * list string)
  : NodeType * list string :=
  (fst s, snd s ++ extra).

Definition source_node (name : string) : Node :=
  {| Name := name; Type_ := NodeTypeSource; Level := 0; Deps := [];
     DependedBy := [] |}.

Definition target_node (name : string) : Node :=
  {| Name := name; Type_ := NodeTypeTarget; Level := 0; Deps := [];
     DependedBy := [] |}.

(** The node map of [BuildGraph] after its first two loops. *)
Definition initial_nodes (cfg : Config) : gmap string Node :=
  add_targets (List.map fst (map_to_list (Targets cfg)))
              (add_sources (List.map fst (map_to_list (Sources cfg))) ∅).

(** The shape of the graph of a configuration: a target with its imports,
    a source without dependencies. *)
Definition config_shape (cfg : Config) (k : string)
  : option (NodeType * list string) :=
  match Targets cfg !! k with
  | Some t => Some (NodeTypeTarget, Imports t)
  | None =>
      match Sources cfg !! k with
      | Some _ => Some (NodeTypeSource, [])
      | None => None
      end
  end.

(** ** Notions used in the statements about the store *)

Definition loc_of (v : hval) : option loc :=
  match v with
  | HMap l | HSlice l => Some l
  | _ => None
  end.

(** The values an object holds. *)
Definition obj_vals (o : obj) : list hval :=
  match o with
  | OMap m => List.map snd (map_to_list m)
  | OSlice e => e
  end.

(** The object at [l] holds a reference to [l']. *)
Definition points_to (h : heap) (l l' : loc) : Prop :=
  exists o v, h !! l = Some o /\ In v (obj_vals o) /\ loc_of v = Some l'.

(** [l'] is [l] or can be reached from it through references. *)
Definition reach (h : heap) : relation loc := rtc (points_to h).

(** The objects at the locations of [W] refer to locations of [W] only. *)
Definition closed_in (h : heap) (W : loc -> Prop) : Prop :=
  forall l l', W l -> points_to h l l' -> W l'.

(** A value that is a reference refers into [W]. *)
Definition val_in (W : loc -> Prop) (v : hval) : Prop :=
  forall l, loc_of v = Some l -> W l.

(** From [h] to [h'] objects were only added, and the added objects refer
    to added objects only. *)
Definition fresh_step (h h' : heap) : Prop :=
  (length h <= length h')%nat /\
  (forall l, (l < length h)%nat -> h' !! l = h !! l) /\
  closed_in h' (fun l => (length h <= l)%nat).

(** The locations a merge may write to: those of [D], and those allocated
    after the store had [n0] objects. *)
Definition writable (n0 : nat) (D : loc -> Prop) (l : loc) : Prop :=
  D l \/ (n0 <= l)%nat.

(** From [h0] to [h] only writable locations were written, and writable
    objects refer to writable locations only. *)
Definition frame_inv (h0 : heap) (D : loc -> Prop) (h : heap) : Prop :=
  (length h0 <= length h)%nat /\
  (forall l, (l < length h0)%nat -> ~ D l -> h !! l = h0 !! l) /\
  closed_in h (writable (length h0) D).


(** What the frame argument needs from a copy: it only adds objects, and
    returns a scalar or a reference to an added object. *)
Definition copies_fresh (copy : hval -> M hval) : Prop :=
  forall v h r h',
    copy v h = Some (r, h') ->
    fresh_step h h' /\ val_in (fun l => (length h <= l)%nat) r.

(** What the frame argument needs from a merge of two values. *)
Definition merges_in_frame (h0 : heap) (D : loc -> Prop)
    (mergeValues : hval -> hval -> M hval) : Prop :=
  forall dv sv h r h',
    mergeValues dv sv h = Some (r, h') ->
    frame_inv h0 D h -> val_in (writable (length h0) D) dv ->
    frame_inv h0 D h' /\ val_in (writable (length h0) D) r.

(** The locations of [W] refer to locations of [W] only, as a check. *)
Definition closed_b (h : heap) (W : list loc) : bool :=
  forallb (fun l =>
             match h !! l with
             | Some o =>
                 forallb (fun v => match loc_of v with
                                   | Some l' => bool_decide (l' ∈ W)
                                   | None => true
                                   end) (obj_vals o)
             | None => true
             end) W.

(** ** Well-formed stores *)

(** A reference leads to an object of its kind. *)
Definition well_typed (h : heap) (v : hval) : Prop :=
  match v with
  | HMap l => exists m, h !! l = Some (OMap m)
  | HSlice l => exists e, h !! l = Some (OSlice e)
  | _ => True
  end.

Definition same_kind (o o' : obj) : Prop :=
  match o, o' with
  | OMap _, OMap _ | OSlice _, OSlice _ => True
  | _, _ => False
  end.

(** From [h] to [h'] every object is still there and of the same kind. *)
Definition evolves (h h' : heap) : Prop :=
  forall l o, h !! l = Some o -> exists o', h' !! l = Some o' /\ same_kind o o'.

(** [v] is nested less than [n] deep, and the references in it lead to
    objects of their kinds. *)
Fixpoint shallow (n : nat) (h : heap) (v : hval) : bool :=
  match n with
  | O => false
  | S n =>
      match v with
      | HMap l =>
          match h !! l with
          | Some (OMap m) => forallb (shallow n h) (obj_vals (OMap m))
          | _ => false
          end
      | HSlice l =>
          match h !! l with
          | Some (OSlice e) => forallb (shallow n h) (obj_vals (OSlice e))
          | _ => false
          end
      | _ => true
      end
  end.

(** Every value the objects of the store hold is nested less than [n]
    deep: no value of the store contains itself. *)
Definition bounded (n : nat) (h : heap) : bool :=
  forallb (fun o => forallb (shallow n h) (obj_vals o)) h.

(** Whatever [m] returns, [m'] returns as well. *)
Definition refines {A : Type} (m m' : M A) : Prop :=
  forall h r, m h = Some r -> m' h = Some r.

(** [store c] puts [c] into the object at [r], which is of the kind [K],
    and leaves the other values of the object as they are. *)
Definition stores_into (r : loc) (K : obj -> Prop) (store : hval -> M unit) : Prop :=
  forall c h o,
    h !! r = Some o -> K o ->
    exists o', store c h = Some (tt, <[r := o']> h) /\ K o' /\ same_kind o o' /\
               forall w, In w (obj_vals o') -> w = c \/ In w (obj_vals o).

Definition is_map (o : obj) : Prop :=
  match o with OMap _ => True | OSlice _ => False end.

Definition is_slice (o : obj) : Prop :=
  match o with OMap _ => False | OSlice _ => True end.

(** The state of a loop that fills the new object at [r]. *)
Definition filling (h : heap) (r : loc) (K : obj -> Prop) (hc : heap) : Prop :=
  fresh_step h hc /\ (exists n, bounded n hc = true) /\
  exists o, hc !! r = Some o /\ K o.

(** The state of a merge that started in the store [h0] and may write to
    the locations of [D]. *)
Definition merging (h0 : heap) (D : loc -> Prop) (h : heap) : Prop :=
  frame_inv h0 D h /\ exists n, bounded n h = true.

(** [DeepMerge] returns when [src] is one of the maps of [Sc], nested less
    than [k] deep. *)
Definition merges_return (h0 : heap) (D Sc : loc -> Prop) (k : nat) : Prop :=
  forall s,
    shallow k h0 (HMap s) = true -> Sc s ->
    forall d h m,
      merging h0 D h -> writable (length h0) D d -> h !! d = Some (OMap m) ->
      exists f h',
        DeepMerge_h f (Some d) (Some s) h = Some (d, h') /\
        merging h0 D h' /\ evolves h h'.

(** ** Notions used in the statements about the diff *)

(** The record the first loop of [DiffSecrets] appends for an entry of
    [desired]. *)
Definition desired_change (ParseFloat : string -> option spec_float)
    (current : gmap string Value) (entry : string * Value) : SecretChange :=
  match fst (diff_desired ParseFloat current ([], ∅) entry) with
  | [c] => c
  | _ => {| SC_Path := fst entry; SC_ChangeType := ""; SC_Target := "";
            SC_KeysAdded := []; SC_KeysRemoved := []; SC_KeysModified := [];
            SC_CurrentKeys := []; SC_DesiredKeys := [];
            SC_CurrentHash := ""; SC_DesiredHash := "" |}
  end.

(** The record the second loop of [DiffSecrets] appends for an entry of
    [current] that was not seen in [desired]. *)
Definition removed_change (entry : string * Value) : SecretChange :=
  {| SC_Path := fst entry; SC_ChangeType := ChangeTypeRemoved; SC_Target := "";
     SC_KeysAdded := []; SC_KeysRemoved := []; SC_KeysModified := [];
     SC_CurrentKeys := getMapKeys (snd entry); SC_DesiredKeys := [];
     SC_CurrentHash := ""; SC_DesiredHash := "" |}.

(** The classification of a path by the two maps. *)
Definition classified (ParseFloat : string -> option spec_float)
    (current desired : gmap string Value) (c : SecretChange) : Prop :=
  match current !! SC_Path c, desired !! SC_Path c with
  | None, Some _ => SC_ChangeType c = ChangeTypeAdded
  | Some _, None => SC_ChangeType c = ChangeTypeRemoved
  | Some cv, Some dv =>
      SC_ChangeType c = if DeepEqual ParseFloat cv dv
                        then ChangeTypeUnchanged else ChangeTypeModified
  | None, None => False
  end.

(** The number of records of one change type. *)
Definition count_changes (t : ChangeType) (l : list SecretChange) : Z :=
  Z.of_nat (length (List.filter (fun c => String.eqb (SC_ChangeType c) t) l)).

(** The zero value of [PipelineDiff], but for the two fields that
    [AddTargetDiff] does not touch. *)
Definition PipelineDiff_new (dryRun : bool) (configPath : string) : PipelineDiff :=
  {| PD_Targets := [];
     PD_Summary := {| Added := 0; Removed := 0; Modified := 0; Unchanged := 0;
                      Total := 0 |};
     PD_DryRun := dryRun; PD_ConfigPath := configPath |}.

(** The sum of one field over the summaries of a list of target diffs. *)
Definition sum_field (f : ChangeSummary -> Z) (tds : list TargetDiff) : Z :=
  foldr (fun td acc => f (TD_Summary td) + acc) 0 tds.

(** The two secret maps hold the same paths, with deeply equal values. *)
Definition in_sync (ParseFloat : string -> option spec_float)
    (current desired : gmap string Value) : Prop :=
  forall path,
    match current !! path, desired !! path with
    | Some cv, Some dv => DeepEqual ParseFloat cv dv = true
    | None, None => True
    | _, _ => False
    end.

(** ** Notions used in the statements about validation *)

(** What [Validate] asks of a configuration. *)
Definition valid_config (c : Config) : Prop :=
  Vault_Address (Vault c) <> "" /\
  merge_store_configured c = true /\
  (forall s3, MergeStore_S3 (MergeStore c) = Some s3 -> S3_Bucket s3 <> "") /\
  (Targets c <> ∅ \/ DynamicTargets c <> ∅) /\
  (forall name t, Targets c !! name = Some t ->
     isValidAWSAccountID (AccountID t) = true /\
     forall imp, In imp (Imports t) ->
                 is_Some (Sources c !! imp) \/ is_Some (Targets c !! imp)) /\
  (forall name dt, DynamicTargets c !! name = Some dt ->
     Disc_IdentityCenter (DT_Discovery dt) <> None \/
     Disc_Organizations (DT_Discovery dt) <> None \/
     Disc_AccountsList (DT_Discovery dt) <> None).

(** ** Notions used in the statements about levels and dependencies *)

(** The names of the targets at level [i], in the order of the nodes. *)
Definition targets_at (entries : list (string * Node)) (i : nat) : list string :=
  List.map fst
    (List.filter
       (fun entry : string * Node =>
          match Type_ (snd entry) with
          | NodeTypeTarget => Level (snd entry) =? Z.of_nat i
          | NodeTypeSource => false
          end)
       entries).

(** [name] is a target of the graph, at level [l]. *)
Definition target_at (g : Graph) (name : string) (l : Z) : Prop :=
  exists node, Nodes g !! name = Some node /\ Type_ node = NodeTypeTarget /\
               Level node = l.

(** [b] is a dependency of the node [a] and a target of the graph. *)
Definition tdep (g : Graph) (a b : string) : Prop :=
  exists n m, Nodes g !! a = Some n /\ In b (Deps n) /\
              Nodes g !! b = Some m /\ Type_ m = NodeTypeTarget.

(** The number of nodes that [included] does not hold. *)
Definition unmarked (g : Graph) (included : gmap string bool) : nat :=
  length (List.filter (fun entry : string * Node => negb (flag included (fst entry)))
                      (map_to_list (Nodes g))).

(** What a call of [addDeps] on [name] does to [included]. *)
Definition addDeps_post (g : Graph) (name : string) (I I' : gmap string bool) : Prop :=
  (forall k, flag I k = true -> flag I' k = true) /\
  flag I' name = true /\
  (forall k, flag I' k = true -> flag I k = true \/ rtc (tdep g) name k) /\
  (forall k, flag I' k = true -> flag I k = false ->
             forall y, tdep g k y -> flag I' y = true) /\
  (forall k, is_Some (I' !! k) -> is_Some (I !! k) \/ flag I' k = true).

(** [a] stands before [b] in [l]. *)
Definition before (l : list string) (a b : string) : Prop :=
  exists i j, l !! i = Some a /\ l !! j = Some b /\ (i < j)%nat.

(** ** Notions used in the statements about strings *)

(** The number of the bytes of [s] that are [c]. *)
Fixpoint count_byte (c : ascii) (s : string) : nat :=
  match s with
  | EmptyString => 0
  | String a s' => (if Ascii.eqb a c then 1 else 0) + count_byte c s'
  end.

(** ** Concrete graphs used in the examples below *)

Definition ex_graph_config (targets : gmap string Target) : Config :=
  {| Vault := {| Vault_Address := "https://vault.example.com"; Vault_Namespace := "" |};
     AWS := {| AWS_Region := "us-east-1";
               AWS_ExecutionContext :=
                 {| EC_Type := ""; EC_AccountID := ""; EC_CustomRolePattern := "" |};
               AWS_ControlTower :=
                 {| CT_Enabled := false;
                    CT_ExecutionRole := {| Role_Name := ""; Role_Path := "" |} |} |};
     Sources :=
       <["analytics" := {| Source_Vault := None; Source_AWS := None |}]>
         (<["analytics-engineers" := {| Source_Vault := None; Source_AWS := None |}]> ∅);
     MergeStore := {| MergeStore_Vault := Some {| MSV_Mount := "merged" |};
                      MergeStore_S3 := None |};
     Targets := targets;
     DynamicTargets := ∅ |}.

Definition ex_graph_target (account : string) (imports : list string) : Target :=
  {| AccountID := account; Imports := imports; Region := ""; SecretPrefix := "";
     RoleARN := "" |}.

(** The inheritance chain Stg <- Prod <- Demo. *)
Definition ex_config_chain : Config :=
  ex_graph_config
    (<["Stg" := ex_graph_target "111111111111" ["analytics"; "analytics-engineers"]]>
       (<["Prod" := ex_graph_target "222222222222" ["Stg"]]>
          (<["Demo" := ex_graph_target "333333333333" ["Prod"]]> ∅))).

Definition ex_graph_chain : Graph :=
  match BuildGraph ex_config_chain with
  | Done g => g
  | _ => {| Nodes := ∅ |}
  end.

(** The cycle A -> B -> C -> A. *)
Definition ex_config_cycle : Config :=
  ex_graph_config
    (<["A" := ex_graph_target "111111111111" ["B"]]>
       (<["B" := ex_graph_target "222222222222" ["C"]]>
          (<["C" := ex_graph_target "333333333333" ["A"]]> ∅))).

(** ** Concrete payloads used in the examples below *)




Definition ex_ParseFloat (s : string) : option spec_float :=
  if String.eqb s "1" then Some (float64_of_int 1) else None.

(** ** Concrete stores used in the examples below *)

(** [dst] (location 2) and [src] (location 3) are two maps that hold, under
    the key common, the same map (location 1). *)
Definition ex_heap_shared : heap :=
  [ OSlice [HScalar (SString "a")];
    OMap {[ "tags" := HSlice 0%nat ]};
    OMap {[ "common" := HMap 1%nat ]};
    OMap {[ "common" := HMap 1%nat ]} ].

(** [dst] (location 2) and [src] (location 6) share nothing. *)
Definition ex_heap_apart : heap :=
  [ OSlice [HScalar (SString "a")];
    OMap {[ "tags" := HSlice 0%nat ]};
    OMap {[ "common" := HMap 1%nat ]};
    OSlice [HScalar (SString "b")];
    OMap (<[ "tags" := HSlice 3%nat ]> {[ "x" := HMap 5%nat ]});
    OMap {[ "y" := HNil ]};
    OMap {[ "common" := HMap 4%nat ]} ].

(** ** Concrete configurations used in the examples below *)

Definition ex_role (name path : string) : ExecutionRoleConfig :=
  {| Role_Name := name; Role_Path := path |}.

Definition ex_aws (custom : string) (ct : bool) (role : ExecutionRoleConfig) : AWSConfig :=
  {| AWS_Region := "us-east-1";
     AWS_ExecutionContext :=
       {| EC_Type := ""; EC_AccountID := ""; EC_CustomRolePattern := custom |};
     AWS_ControlTower := {| CT_Enabled := ct; CT_ExecutionRole := role |} |}.

Definition ex_target (account : string) (imports : list string) (role : string) : Target :=
  {| AccountID := account; Imports := imports; Region := ""; SecretPrefix := "";
     RoleARN := role |}.

Definition ex_source (mount : string) : Source :=
  {| Source_Vault := Some {| VS_Address := ""; VS_Namespace := ""; VS_Mount := mount;
                             VS_Paths := [] |};
     Source_AWS := None |}.

Definition ex_config (aws : AWSConfig) (store : MergeStoreConfig)
    (sources : gmap string Source) (targets : gmap string Target) : Config :=
  {| Vault := {| Vault_Address := "https://vault.example.com"; Vault_Namespace := "" |};
     AWS := aws; Sources := sources; MergeStore := store; Targets := targets;
     DynamicTargets := ∅ |}.

Definition ex_no_store : MergeStoreConfig :=
  {| MergeStore_Vault := None; MergeStore_S3 := None |}.

Definition ex_vault_store : MergeStoreConfig :=
  {| MergeStore_Vault := Some {| MSV_Mount := "merged" |}; MergeStore_S3 := None |}.

(** Control Tower enabled and a custom role pattern configured, no targets. *)
Definition ex_config_both : Config :=
  ex_config (ex_aws "arn:aws:iam::{{.AccountID}}:role/SecretsHub" true (ex_role "" ""))
            ex_vault_store ∅ ∅.

(** A context running in account 111111111111 with nothing configured. *)
Definition ex_context : AWSExecutionContext :=
  {| Ctx_Config := ex_aws "" false (ex_role "" "");
     Ctx_CallerIdentity :=
       {| Caller_AccountID := "111111111111";
          Caller_ARN := "arn:aws:sts::111111111111:assumed-role/ci/run";
          Caller_UserID := "AROAEXAMPLE" |} |}.

(** One valid target without imports, and no merge store. *)
Definition ex_config_no_store : Config :=
  ex_config (ex_aws "" false (ex_role "" "")) ex_no_store ∅
            (<["Stg" := ex_target "111111111111" [] ""]> ∅).

(** [Serverless_Prod: [Serverless_Stg]] next to a valid [Serverless_Stg]. *)
Definition ex_shorthand : Unmarshal :=
  {| into_strings := Some ["Serverless_Stg"];
     into_target := inl "cannot unmarshal !!seq into pipeline.targetAlias" |}.

Definition ex_config_shorthand : Config :=
  ex_config (ex_aws "" false (ex_role "" "")) ex_vault_store
            (<["analytics" := ex_source "analytics"]> ∅)
            (<["Serverless_Stg" := ex_target "111111111111" ["analytics"] ""]>
               (<["Serverless_Prod" := ex_target "" ["Serverless_Stg"] ""]> ∅)).

(* ===================================================================== *)
(** * Part II: properties *)
(* ===================================================================== *)

(** ** Strings *)

Lemma substring_all (t : string) : substring 0 (String.length t) t = t.
Proof. induction t as [|c t IH]; simpl; [reflexivity | now rewrite IH]. Qed.

Lemma substring_skip (s t : string) :
  substring (String.length s) (String.length t) (s +:+ t) = t.
Proof. induction s as [|c s IH]; simpl; [apply substring_all | exact IH]. Qed.

Lemma string_length_app (s t : string) :
  String.length (s +:+ t) = (String.length s + String.length t)%nat.
Proof. induction s as [|c s IH]; simpl; [reflexivity | now rewrite IH]. Qed.

Lemma HasSuffix_app (s t : string) : HasSuffix (s +:+ t) t = true.
Proof.
  unfold HasSuffix. rewrite string_length_app.
  replace (String.length s + String.length t - String.length t)%nat
    with (String.length s) by lia.
  rewrite substring_skip, String.eqb_refl, andb_true_r.
  apply Nat.leb_le. lia.
Qed.

Lemma HasPrefix_slash_app (s t : string) :
  HasPrefix s "/" = true -> HasPrefix (s +:+ t) "/" = true.
Proof.
  unfold HasPrefix. destruct s as [|c s].
  - intros H. discriminate H.
  - change (String c s +:+ t) with (String c (s +:+ t)).
    cbn [String.prefix].
    destruct (ascii_dec "/"%char c); [|intros H; discriminate H].
    intros _. now destruct (s +:+ t).
Qed.

(** The two functions prepare the path of the role in the same way. *)
Lemma Context_role_path_eq (p : string) : Context_role_path p = Config_role_path p.
Proof.
  unfold Context_role_path, Config_role_path.
  destruct p as [|c p]; [reflexivity|].
  cbn [String.eqb negb andb].
  destruct (negb (HasPrefix (String c p) "/")); cbn [String.append String.eqb negb andb];
    match goal with
    | |- context [HasSuffix ?x "/"] => destruct (negb (HasSuffix x "/"))
    end; reflexivity.
Qed.

Lemma Config_role_path_slashes (p : string) :
  HasPrefix (Config_role_path p) "/" = true /\
  HasSuffix (Config_role_path p) "/" = true.
Proof.
  unfold Config_role_path.
  destruct (String.eqb p "") eqn:Hp; [split; reflexivity|].
  set (p1 := if negb (HasPrefix p "/") then "/" +:+ p else p).
  assert (H1 : HasPrefix p1 "/" = true).
  { subst p1. destruct (HasPrefix p "/") eqn:E; cbn [negb]; [exact E|].
    unfold HasPrefix. change ("/" +:+ p) with (String "/"%char p).
    cbn [String.prefix].
    destruct (ascii_dec "/"%char "/"%char) as [_|n]; [now destruct p | now destruct n]. }
  destruct (HasSuffix p1 "/") eqn:E; simpl.
  - split; assumption.
  - split; [now apply HasPrefix_slash_app | apply HasSuffix_app].
Qed.

(** ** Loops that stop at the first error *)

Lemma first_error_Some {A E : Type} (body : A -> option E) (l : list A) (e : E) :
  first_error body l = Some e -> exists x, In x l /\ body x = Some e.
Proof.
  induction l as [|x l IH]; simpl; [discriminate|].
  destruct (body x) eqn:Hx.
  - intros [= <-]. exists x. auto.
  - intros H. destruct (IH H) as (y & Hy & Hb). exists y. auto.
Qed.

Lemma first_error_None {A E : Type} (body : A -> option E) (l : list A) :
  first_error body l = None <-> forall x, In x l -> body x = None.
Proof.
  induction l as [|x l IH]; simpl.
  - split; [intros _ y [] | reflexivity].
  - destruct (body x) eqn:Hx.
    + split; [discriminate|]. intros H. rewrite <- Hx. apply H. now left.
    + rewrite IH. split.
      * intros H y [<-|Hy]; auto.
      * intros H y Hy. apply H. now right.
Qed.

(** If every element that can fail fails with the same error [e], and one
    does, the loop returns [e]. *)
Lemma first_error_only {A E : Type} (body : A -> option E) (l : list A) (e : E) :
  (exists x, In x l /\ body x = Some e) ->
  (forall y, In y l -> body y = None \/ body y = Some e) ->
  first_error body l = Some e.
Proof.
  intros (x & Hx & Hb) Hall.
  destruct (first_error body l) as [e'|] eqn:Hf.
  - apply first_error_Some in Hf as (y & Hy & Hby).
    destruct (Hall y Hy) as [H|H]; congruence.
  - rewrite first_error_None in Hf. rewrite (Hf x Hx) in Hb. discriminate.
Qed.

(** ** Role resolution *)

Lemma eqb_empty_false (s : string) : String.eqb s "" = false <-> s <> "".
Proof. apply String.eqb_neq. Qed.

Lemma Config_GetRoleARN_explicit (c : Config) (A : string) :
  (exists arn, explicit_role c A arn) ->
  exists arn, explicit_role c A arn /\ Config_GetRoleARN c A = arn.
Proof.
  intros (arn & name & t & Hl & Ha & Hr & Hne).
  unfold Config_GetRoleARN.
  destruct (List.find _ (map_to_list (Targets c))) as [[n' t']|] eqn:Hf.
  - apply List.find_some in Hf as [Hin Hb].
    apply list_elem_of_In, elem_of_map_to_list in Hin.
    apply andb_true_iff in Hb as [Hb1 Hb2]. cbn [snd] in *.
    apply String.eqb_eq in Hb1. apply negb_true_iff, String.eqb_neq in Hb2.
    exists (RoleARN t'). split; [|reflexivity].
    exists n', t'. auto.
  - exfalso.
    assert (Hin : In (name, t) (map_to_list (Targets c)))
      by now apply list_elem_of_In, elem_of_map_to_list.
    pose proof (List.find_none _ _ Hf _ Hin) as Hb. cbn [snd] in Hb.
    rewrite Ha, String.eqb_refl in Hb. cbn [andb] in Hb.
    apply negb_false_iff, String.eqb_eq in Hb. congruence.
Qed.

Lemma Config_GetRoleARN_default (c : Config) (A : string) :
  (forall arn, ~ explicit_role c A arn) ->
  Config_GetRoleARN c A =
    if CT_Enabled (AWS_ControlTower (AWS c)) then control_tower_arn (AWS_ControlTower (AWS c)) A
    else if negb (String.eqb (EC_CustomRolePattern (AWS_ExecutionContext (AWS c))) "")
    then ReplaceAll (EC_CustomRolePattern (AWS_ExecutionContext (AWS c))) "{{.AccountID}}" A
    else "arn:aws:iam::" +:+ A +:+ ":role/AWSControlTowerExecution".
Proof.
  intros Hno. unfold Config_GetRoleARN.
  destruct (List.find _ (map_to_list (Targets c))) as [[n' t']|] eqn:Hf.
  - exfalso. apply List.find_some in Hf as [Hin Hb].
    apply list_elem_of_In, elem_of_map_to_list in Hin.
    apply andb_true_iff in Hb as [Hb1 Hb2]. cbn [snd] in *.
    apply String.eqb_eq in Hb1. apply negb_true_iff, String.eqb_neq in Hb2.
    apply (Hno (RoleARN t')). exists n', t'. auto.
  - reflexivity.
Qed.

(** C1 (as amended).  The two resolution functions, case by case.
    [AWSExecutionContext.GetRoleARN]: the empty string for the executing
    account; else the custom pattern with the account substituted; else,
    with Control Tower enabled, the Control Tower pattern; else the
    OrganizationAccountAccessRole; targets are not consulted.
    [Config.GetRoleARN]: the explicit role of a target of that account when
    there is one; else the Control Tower pattern when Control Tower is
    enabled; else the custom pattern with the account substituted; else the
    AWSControlTowerExecution role.  In both, the path of the Control Tower
    role starts and ends with a slash (the empty path gives "/", "foo"
    gives "/foo/"). *)
Theorem role_arn_resolution (ec : AWSExecutionContext) (c : Config) (A : string) :
  let caller := Caller_AccountID (Ctx_CallerIdentity ec) in
  let custom aws := EC_CustomRolePattern (AWS_ExecutionContext aws) in
  let ct aws := AWS_ControlTower aws in
  (A = caller -> AWSExecutionContext_GetRoleARN ec A = "") /\
  (A <> caller -> custom (Ctx_Config ec) <> "" ->
     AWSExecutionContext_GetRoleARN ec A =
       ReplaceAll (custom (Ctx_Config ec)) "{{.AccountID}}" A) /\
  (A <> caller -> custom (Ctx_Config ec) = "" ->
     CT_Enabled (ct (Ctx_Config ec)) = true ->
     AWSExecutionContext_GetRoleARN ec A = control_tower_arn (ct (Ctx_Config ec)) A) /\
  (A <> caller -> custom (Ctx_Config ec) = "" ->
     CT_Enabled (ct (Ctx_Config ec)) = false ->
     AWSExecutionContext_GetRoleARN ec A =
       "arn:aws:iam::" +:+ A +:+ ":role/OrganizationAccountAccessRole") /\
  ((exists arn, explicit_role c A arn) ->
     exists arn, explicit_role c A arn /\ Config_GetRoleARN c A = arn) /\
  ((forall arn, ~ explicit_role c A arn) ->
     CT_Enabled (ct (AWS c)) = true ->
     Config_GetRoleARN c A = control_tower_arn (ct (AWS c)) A) /\
  ((forall arn, ~ explicit_role c A arn) ->
     CT_Enabled (ct (AWS c)) = false -> custom (AWS c) <> "" ->
     Config_GetRoleARN c A = ReplaceAll (custom (AWS c)) "{{.AccountID}}" A) /\
  ((forall arn, ~ explicit_role c A arn) ->
     CT_Enabled (ct (AWS c)) = false -> custom (AWS c) = "" ->
     Config_GetRoleARN c A = "arn:aws:iam::" +:+ A +:+ ":role/AWSControlTowerExecution") /\
  (forall p, HasPrefix (Config_role_path p) "/" = true /\
             HasSuffix (Config_role_path p) "/" = true) /\
  Config_role_path "" = "/" /\ Config_role_path "foo" = "/foo/".
Proof.
  intros caller custom ct. subst caller custom ct. cbv beta.
  unfold AWSExecutionContext_GetRoleARN.
  repeat split.
  - intros ->. now rewrite String.eqb_refl.
  - intros H1 H2. apply String.eqb_neq in H1, H2. now rewrite H1, H2.
  - intros H1 H2 H3. apply String.eqb_neq in H1. rewrite H1, H2, H3.
    cbn [String.eqb negb]. unfold control_tower_arn.
    now rewrite Context_role_path_eq.
  - intros H1 H2 H3. apply String.eqb_neq in H1. now rewrite H1, H2, H3.
  - apply Config_GetRoleARN_explicit.
  - intros H1 H2. rewrite Config_GetRoleARN_default by assumption. now rewrite H2.
  - intros H1 H2 H3. rewrite Config_GetRoleARN_default by assumption.
    apply String.eqb_neq in H3. now rewrite H2, H3.
  - intros H1 H2 H3. rewrite Config_GetRoleARN_default by assumption.
    now rewrite H2, H3.
  - apply Config_role_path_slashes.
  - apply Config_role_path_slashes.
Qed.

(** The resolution order claimed for C1 is not the order of the code: with
    Control Tower enabled and a custom pattern configured,
    [Config.GetRoleARN] answers with the Control Tower role where the
    claimed order gives the custom pattern; for the executing account it
    still names a role; and [AWSExecutionContext.GetRoleARN] does not know
    the explicit role of a target. *)
Lemma role_arn_claimed_order_fails :
  Config_GetRoleARN ex_config_both "222222222222"
    = "arn:aws:iam::222222222222:role/AWSControlTowerExecution" /\
  claimed_role_arn "111111111111" None (AWS ex_config_both) "222222222222"
    = "arn:aws:iam::222222222222:role/SecretsHub" /\
  Config_GetRoleARN ex_config_both "111111111111" <> "" /\
  AWSExecutionContext_GetRoleARN ex_context "222222222222"
    = "arn:aws:iam::222222222222:role/OrganizationAccountAccessRole" /\
  claimed_role_arn "111111111111" (Some "arn:aws:iam::222222222222:role/SpecialRole")
                   (Ctx_Config ex_context) "222222222222"
    = "arn:aws:iam::222222222222:role/SpecialRole".
Proof.
  repeat split; try (vm_compute; reflexivity).
  vm_compute. intros H. discriminate H.
Qed.

(** ** Validation *)

Lemma validate_target_errors (c : Config) (entry : string * Target) (e : ConfigError) :
  validate_target c entry = Some e ->
  e = ErrAccountIDRequired (fst entry) \/
  e = ErrInvalidAccountID (fst entry) (AccountID (snd entry)) \/
  exists imp, e = ErrImportNotFound (fst entry) imp.
Proof.
  destruct entry as [name t]. unfold validate_target. cbn [fst snd].
  destruct (String.eqb (AccountID t) ""); [intros [= <-]; auto|].
  destruct (negb (isValidAWSAccountID (AccountID t))); [intros [= <-]; auto|].
  intros H. apply first_error_Some in H as (imp & _ & H).
  unfold validate_import in H.
  destruct (Sources c !! imp); [discriminate|].
  destruct (Targets c !! imp); [discriminate|].
  injection H as <-. eauto.
Qed.

Lemma validate_dynamic_errors (entry : string * DynamicTarget) (e : ConfigError) :
  validate_dynamic entry = Some e -> e = ErrDiscoveryRequired (fst entry).
Proof.
  destruct entry as [name dt]. unfold validate_dynamic.
  destruct (Disc_IdentityCenter (DT_Discovery dt)),
    (Disc_Organizations (DT_Discovery dt)), (Disc_AccountsList (DT_Discovery dt));
    intros [= <-]; reflexivity.
Qed.

(** Past the checks on the vault address and the merge store, [Validate] is
    the two loops. *)
Lemma Validate_loops (c : Config) :
  header_ok c = true ->
  Validate c =
    if (size (Targets c) =? 0)%nat && (size (DynamicTargets c) =? 0)%nat
    then Some ErrNoTargets
    else match first_error (validate_target c) (map_to_list (Targets c)) with
         | Some e => Some e
         | None => first_error validate_dynamic (map_to_list (DynamicTargets c))
         end.
Proof.
  unfold header_ok, merge_store_configured, Validate.
  intros H. apply andb_true_iff in H as [H H3]. apply andb_true_iff in H as [H1 H2].
  apply negb_true_iff in H1. rewrite H1.
  destruct (MergeStore_Vault (MergeStore c)), (MergeStore_S3 (MergeStore c));
    try discriminate; try (apply negb_true_iff in H3; rewrite H3); reflexivity.
Qed.

(** C8 (as amended).  [Validate] requires a merge store of every
    configuration, whether or not a target has imports: validation never
    succeeds without one, and for a configuration with a vault address the
    merge-store error is returned exactly when neither a vault nor an s3
    merge store is given. *)
Theorem merge_store_required (c : Config) :
  (Validate c = None -> merge_store_configured c = true) /\
  (Validate c = Some ErrMergeStoreRequired <->
     Vault_Address (Vault c) <> "" /\ merge_store_configured c = false).
Proof.
  unfold merge_store_configured. split.
  - unfold Validate. destruct (String.eqb (Vault_Address (Vault c)) ""); [discriminate|].
    destruct (MergeStore_Vault (MergeStore c)), (MergeStore_S3 (MergeStore c));
      try reflexivity. discriminate.
  - split.
    + unfold Validate.
      destruct (String.eqb (Vault_Address (Vault c)) "") eqn:Ha; [discriminate|].
      apply String.eqb_neq in Ha.
      assert (Hrest : forall s3 : option MergeStoreS3,
        (if match s3 with Some s => String.eqb (S3_Bucket s) "" | None => false end
         then Some ErrS3BucketRequired
         else if (size (Targets c) =? 0)%nat && (size (DynamicTargets c) =? 0)%nat
              then Some ErrNoTargets
              else match first_error (validate_target c) (map_to_list (Targets c)) with
                   | Some e => Some e
                   | None => first_error validate_dynamic (map_to_list (DynamicTargets c))
                   end) <> Some ErrMergeStoreRequired).
      { intros s3.
        destruct (match s3 with Some s => String.eqb (S3_Bucket s) "" | None => false end);
          [discriminate|].
        destruct ((size (Targets c) =? 0)%nat && (size (DynamicTargets c) =? 0)%nat);
          [discriminate|].
        destruct (first_error (validate_target c) _) as [e|] eqn:He.
        - intros [= ->]. apply first_error_Some in He as (x & _ & He).
          apply validate_target_errors in He as [He|[He|[imp He]]]; discriminate.
        - intros He'. apply first_error_Some in He' as (x & _ & He').
          apply validate_dynamic_errors in He'. discriminate. }
      destruct (MergeStore_Vault (MergeStore c)) as [v|],
        (MergeStore_S3 (MergeStore c)) as [s3|]; intros H.
      * exfalso. exact (Hrest (Some s3) H).
      * exfalso. exact (Hrest None H).
      * exfalso. exact (Hrest (Some s3) H).
      * auto.
    + intros [Ha Hm]. unfold Validate. apply String.eqb_neq in Ha. rewrite Ha.
      destruct (MergeStore_Vault (MergeStore c)), (MergeStore_S3 (MergeStore c));
        try discriminate. reflexivity.
Qed.

(** The second half of C8 fails on the code: a configuration without a merge
    store whose only target has no imports is rejected with the merge-store
    error. *)
Lemma merge_store_claim_fails :
  merge_store_configured ex_config_no_store = false /\
  some_target_imports ex_config_no_store = false /\
  Validate ex_config_no_store = Some ErrMergeStoreRequired.
Proof. repeat split; vm_compute; reflexivity. Qed.

(** C9.  A target written as a bare sequence of names unmarshals to a
    target whose imports are that sequence and whose account_id, region,
    secret_prefix and role_arn are empty; a configuration that holds such a
    target under [name] and passes the checks on the vault address and the
    merge store does not validate, and the error is the account_id-required
    error for [name] as soon as the other targets are valid. *)
Theorem shorthand_target_rejected (unmarshal : Unmarshal) (names : list string) :
  into_strings unmarshal = Some names ->
  UnmarshalYAML Target_zero unmarshal =
    inr {| AccountID := ""; Imports := names; Region := ""; SecretPrefix := "";
           RoleARN := "" |} /\
  forall (c : Config) (name : string),
    Targets c !! name =
      Some {| AccountID := ""; Imports := names; Region := ""; SecretPrefix := "";
              RoleARN := "" |} ->
    header_ok c = true ->
    Validate c <> None /\
    (other_targets_valid c name = true ->
     Validate c = Some (ErrAccountIDRequired name)).
Proof.
  intros Hs. split.
  - unfold UnmarshalYAML. rewrite Hs. reflexivity.
  - intros c name Hl Hh.
    set (t := {| AccountID := ""; Imports := names; Region := ""; SecretPrefix := "";
                 RoleARN := "" |}) in *.
    rewrite (Validate_loops c Hh).
    assert (Hsz : (size (Targets c) =? 0)%nat = false).
    { apply Nat.eqb_neq. intros Hz. apply map_size_empty_iff in Hz.
      rewrite Hz, lookup_empty in Hl. discriminate. }
    rewrite Hsz. cbn [andb].
    assert (Hin : In (name, t) (map_to_list (Targets c)))
      by now apply list_elem_of_In, elem_of_map_to_list.
    assert (Hb : validate_target c (name, t) = Some (ErrAccountIDRequired name))
      by reflexivity.
    split.
    + destruct (first_error (validate_target c) _) eqn:He; [discriminate|].
      rewrite first_error_None in He. rewrite (He _ Hin) in Hb. discriminate.
    + intros Hv. unfold other_targets_valid in Hv. rewrite forallb_forall in Hv.
      rewrite (first_error_only (validate_target c) _ (ErrAccountIDRequired name));
        [reflexivity | eauto |].
      intros [n' t'] Hy. specialize (Hv _ Hy). cbn [fst] in Hv.
      apply orb_true_iff in Hv as [Hv|Hv].
      * apply String.eqb_eq in Hv. subst n'.
        apply list_elem_of_In, elem_of_map_to_list in Hy.
        rewrite Hl in Hy. injection Hy as <-. now right.
      * left. destruct (validate_target c (n', t')); [discriminate | reflexivity].
Qed.

Lemma shorthand_target_rejected_witness :
  UnmarshalYAML Target_zero ex_shorthand = inr (ex_target "" ["Serverless_Stg"] "") /\
  Validate ex_config_shorthand = Some (ErrAccountIDRequired "Serverless_Prod").
Proof.
  destruct (shorthand_target_rejected ex_shorthand ["Serverless_Stg"] eq_refl)
    as [Hu Hv].
  split; [exact Hu|].
  destruct (Hv ex_config_shorthand "Serverless_Prod") as [_ Hw];
    [vm_compute; reflexivity | vm_compute; reflexivity |].
  apply Hw. vm_compute. reflexivity.
Defined.

(** ** Summaries and exit codes *)

(** C7.  A summary is zero-sum exactly when added, removed and modified are
    all zero, whatever the unchanged count; the exit code of a pipeline
    diff is 0 when its summary is zero-sum and 1 otherwise. *)
Theorem zero_sum_exit_code (s : ChangeSummary) (p : PipelineDiff) :
  (ChangeSummary_IsZeroSum s = true <->
     Added s = 0 /\ Removed s = 0 /\ Modified s = 0) /\
  (forall u t : Z,
     ChangeSummary_IsZeroSum
       {| Added := Added s; Removed := Removed s; Modified := Modified s;
          Unchanged := u; Total := t |} = ChangeSummary_IsZeroSum s) /\
  (PipelineDiff_IsZeroSum p = true <-> ExitCode p = 0) /\
  (PipelineDiff_IsZeroSum p = false <-> ExitCode p = 1) /\
  (ExitCode p = 1 <->
     Added (PD_Summary p) <> 0 \/ Removed (PD_Summary p) <> 0 \/
     Modified (PD_Summary p) <> 0).
Proof.
  assert (Hz : forall s', ChangeSummary_IsZeroSum s' = true <->
                          Added s' = 0 /\ Removed s' = 0 /\ Modified s' = 0).
  { intros s'. unfold ChangeSummary_IsZeroSum.
    rewrite !andb_true_iff, !Z.eqb_eq. tauto. }
  split; [apply Hz|]. split; [reflexivity|].
  unfold ExitCode.
  destruct (PipelineDiff_IsZeroSum p) eqn:E.
  - repeat split; try discriminate; try reflexivity.
    unfold PipelineDiff_IsZeroSum in E. apply Hz in E. lia.
  - repeat split; try discriminate; try reflexivity.
    intros _. unfold PipelineDiff_IsZeroSum in E.
    destruct (Z.eq_dec (Added (PD_Summary p)) 0) as [H1|H1]; [|now left].
    destruct (Z.eq_dec (Removed (PD_Summary p)) 0) as [H2|H2]; [|now right; left].
    destruct (Z.eq_dec (Modified (PD_Summary p)) 0) as [H3|H3]; [|now right; right].
    exfalso. assert (ChangeSummary_IsZeroSum (PD_Summary p) = true) by (apply Hz; auto).
    congruence.
Qed.

(** ** Values: induction through nested maps and slices *)

Lemma Value_size_elem (l : list Value) (v : Value) :
  In v l -> (Value_size v < Value_size (VSlice l))%nat.
Proof.
  cbn [Value_size]. induction l as [|x l IH]; [intros []|].
  intros [->|H]; simpl; [lia|].
  specialize (IH H). simpl in IH. lia.
Qed.

Lemma Value_size_lookup (m : gmap string Value) (k : string) (v : Value) :
  m !! k = Some v -> (Value_size v < Value_size (VMap m))%nat.
Proof.
  cbn [Value_size]. revert k v.
  apply (map_fold_weak_ind
           (fun r m' => forall k v, m' !! k = Some v -> (Value_size v < S r)%nat)).
  - intros k v H. rewrite lookup_empty in H. discriminate.
  - intros i x m' r Hi IH k v H.
    destruct (decide (i = k)) as [->|Hne].
    + rewrite lookup_insert_eq in H. injection H as ->. lia.
    + rewrite lookup_insert_ne in H by assumption. specialize (IH _ _ H). lia.
Qed.

(** Induction on values, with the hypothesis available for every element
    of a slice and every entry of a map. *)
Lemma Value_nested_ind (P : Value -> Prop) :
  (forall v, (forall l, v <> VSlice l) -> (forall m, v <> VMap m) -> P v) ->
  (forall l, (forall v, In v l -> P v) -> P (VSlice l)) ->
  (forall m, (forall k v, m !! k = Some v -> P v) -> P (VMap m)) ->
  forall v, P v.
Proof.
  intros Hscalar Hslice Hmap v.
  remember (Value_size v) as n eqn:Hn. revert v Hn.
  induction n as [n IH] using lt_wf_ind. intros v ->.
  destruct v;
    try (apply Hscalar; intros; discriminate).
  - apply Hslice. intros v Hv. eapply IH; [|reflexivity].
    now apply Value_size_elem.
  - apply Hmap. intros k v Hv. eapply IH; [|reflexivity].
    eapply Value_size_lookup; eassumption.
Qed.

(** A conjunction folded over a map holds exactly when it holds at every
    entry. *)
Lemma map_fold_andb (f : Value -> bool) (m : gmap string Value) :
  map_fold (fun _ v acc => f v && acc) true m = true <->
  forall k v, m !! k = Some v -> f v = true.
Proof.
  apply (map_fold_weak_ind
           (fun r m' => r = true <-> forall k v, m' !! k = Some v -> f v = true)).
  - split; [|reflexivity]. intros _ k v H. rewrite lookup_empty in H. discriminate.
  - intros i x m' r Hi IH. rewrite andb_true_iff, IH. split.
    + intros [Hx Hm] k v H. destruct (decide (i = k)) as [->|Hne].
      * rewrite lookup_insert_eq in H. now injection H as <-.
      * rewrite lookup_insert_ne in H by assumption. eauto.
    + intros H. split.
      * apply (H i). apply lookup_insert_eq.
      * intros k v Hk. apply (H k). rewrite lookup_insert_ne; [assumption|].
        intros ->. rewrite Hi in Hk. discriminate.
Qed.

(** ** Deep merge on values *)

(** In this value model a deep copy is the value itself: copies differ from
    their originals only in the identity of the maps and slices, which the
    store model below accounts for. *)
Lemma deepCopyValue_id (v : Value) : deepCopyValue v = v.
Proof.
  induction v as [v Hs Hm | l IH | m IH] using Value_nested_ind.
  - destruct v; try reflexivity; [now destruct (Hs l) | now destruct (Hm m)].
  - cbn [deepCopyValue]. f_equal.
    induction l as [|x l IHl]; [reflexivity|]. cbn [List.map].
    rewrite IH by now left. f_equal. apply IHl. intros v Hv. apply IH. now right.
  - cbn [deepCopyValue]. f_equal. apply map_eq. intros k.
    rewrite lookup_fmap. destruct (m !! k) as [v|] eqn:Hk; [|reflexivity].
    cbn. f_equal. eapply IH. eassumption.
Qed.


(** What [DeepMerge] leaves under a key. *)
Lemma DeepMerge_lookup (dst src : gmap string Value) (k : string) :
  DeepMerge dst src !! k =
    match src !! k with
    | None => dst !! k
    | Some b =>
        Some (match dst !! k with
              | None => deepCopyValue b
              | Some a => mergeValues a b
              end)
    end.
Proof.
  unfold DeepMerge. revert k.
  apply (map_fold_weak_ind
           (fun r m => forall k,
              r !! k = match m !! k with
                       | None => dst !! k
                       | Some b => Some (match dst !! k with
                                         | None => deepCopyValue b
                                         | Some a => mergeValues a b
                                         end)
                       end)).
  - intros k. now rewrite lookup_empty.
  - intros i x m r Hi IH k.
    assert (Hr : r !! i = dst !! i) by now rewrite IH, Hi.
    unfold merge_entry. rewrite Hr.
    destruct (decide (i = k)) as [->|Hne].
    + rewrite lookup_insert_eq.
      destruct (dst !! k); now rewrite lookup_insert_eq.
    + rewrite (lookup_insert_ne m) by assumption.
      destruct (dst !! i); rewrite lookup_insert_ne by assumption; apply IH.
Qed.





(** ** Deep equality *)

Lemma float64_eqb_refl (f : spec_float) :
  float64_is_nan f = false -> float64_eqb f f = true.
Proof.
  unfold float64_eqb, SFeqb, SFcompare.
  destruct f as [s|s| |s m e]; cbn [float64_is_nan];
    try discriminate; intros _; try (now destruct s).
  destruct s; rewrite Z.compare_refl, Pos.compare_cont_refl; reflexivity.
Qed.

Lemma no_NaN_elems (l : list Value) :
  no_NaN (VSlice l) = true <-> forall v, In v l -> no_NaN v = true.
Proof. cbn [no_NaN]. apply forallb_forall. Qed.

Lemma no_NaN_entries (m : gmap string Value) :
  no_NaN (VMap m) = true <-> forall k v, m !! k = Some v -> no_NaN v = true.
Proof. cbn [no_NaN]. apply map_fold_andb. Qed.

(** The loop of [reflect.DeepEqual] over the entries of the first map. *)
Lemma DeepEqual_entries (m1 m2 : gmap string Value) :
  (forall k v, m1 !! k = Some v -> m2 !! k = Some v /\ reflect_DeepEqual v v = true) ->
  map_fold
    (fun k v1 acc =>
       acc && match m2 !! k with
              | Some v2 => reflect_DeepEqual v1 v2
              | None => false
              end)
    true m1 = true.
Proof.
  apply (map_fold_weak_ind
           (fun r m =>
              (forall k v, m !! k = Some v ->
                           m2 !! k = Some v /\ reflect_DeepEqual v v = true) ->
              r = true)).
  - reflexivity.
  - intros i x m r Hi IH H.
    destruct (H i x) as [-> ->]; [apply lookup_insert_eq|].
    rewrite andb_true_r. apply IH. intros k v Hk. apply H.
    rewrite lookup_insert_ne; [assumption|]. intros ->. rewrite Hi in Hk. discriminate.
Qed.

(** [reflect.DeepEqual] holds between a value and itself as soon as the
    value contains no NaN. *)
Lemma reflect_DeepEqual_refl (v : Value) :
  no_NaN v = true -> reflect_DeepEqual v v = true.
Proof.
  induction v as [v Hs Hm | l IH | m IH] using Value_nested_ind; intros Hn.
  - destruct v; cbn [reflect_DeepEqual]; try reflexivity.
    + apply Bool.eqb_reflx.
    + apply String.eqb_refl.
    + apply float64_eqb_refl. cbn [no_NaN] in Hn. now apply negb_true_iff in Hn.
    + apply Z.eqb_refl.
    + apply Z.eqb_refl.
    + apply Z.eqb_refl.
    + apply String.eqb_refl.
    + now destruct (Hs l).
    + now destruct (Hm m).
  - cbn [reflect_DeepEqual]. rewrite no_NaN_elems in Hn.
    induction l as [|x l IHl]; [reflexivity|].
    rewrite IH; [|now left|apply Hn; now left]. cbn [andb].
    apply IHl; intros v Hv; [apply IH | apply Hn]; now right.
  - cbn [reflect_DeepEqual]. rewrite no_NaN_entries in Hn.
    rewrite Nat.eqb_refl. cbn [andb]. apply DeepEqual_entries.
    intros k v Hk. split; [assumption|]. eapply IH; eauto.
Qed.

Lemma json_value_elems (l : list Value) :
  json_value (VSlice l) = true <-> forall v, In v l -> json_value v = true.
Proof. cbn [json_value]. apply forallb_forall. Qed.

Lemma json_value_entries (m : gmap string Value) :
  json_value (VMap m) = true <-> forall k v, m !! k = Some v -> json_value v = true.
Proof. cbn [json_value]. apply map_fold_andb. Qed.

(** A decoded JSON value has no NaN and is left as it is by
    [normalizeValue]. *)
Lemma json_value_normal (ParseFloat : string -> option spec_float) (v : Value) :
  json_value v = true -> no_NaN v = true /\ normalizeValue ParseFloat v = v.
Proof.
  induction v as [v Hs Hm | l IH | m IH] using Value_nested_ind; intros Hj.
  - destruct v; try discriminate; try (split; reflexivity).
    + cbn [json_value] in Hj. split; [|reflexivity]. now destruct f.
    + now destruct (Hs l).
    + now destruct (Hm m).
  - rewrite json_value_elems in Hj. split.
    + apply no_NaN_elems. intros v Hv. now apply IH; [|apply Hj].
    + cbn [normalizeValue]. f_equal.
      induction l as [|x l IHl]; [reflexivity|]. cbn [List.map]. f_equal.
      * apply IH; [now left | apply Hj; now left].
      * apply IHl; intros v Hv; [apply IH | apply Hj]; now right.
  - rewrite json_value_entries in Hj. split.
    + apply no_NaN_entries. intros k v Hk. eapply IH; eauto.
    + cbn [normalizeValue]. f_equal. apply map_eq. intros k. rewrite lookup_fmap.
      destruct (m !! k) as [v|] eqn:Hk; [|reflexivity].
      cbn. f_equal. eapply IH; eauto.
Qed.

Lemma DeepEqual_normal (ParseFloat : string -> option spec_float) (a b : Value) :
  normalizeValue ParseFloat a = normalizeValue ParseFloat b ->
  no_NaN (normalizeValue ParseFloat a) = true ->
  DeepEqual ParseFloat a b = true.
Proof.
  intros He Hn. unfold DeepEqual. rewrite <- He. now apply reflect_DeepEqual_refl.
Qed.

Lemma DeepEqual_json_refl (ParseFloat : string -> option spec_float) (v : Value) :
  json_value v = true -> DeepEqual ParseFloat v v = true.
Proof.
  intros Hj. apply DeepEqual_normal; [reflexivity|].
  destruct (json_value_normal ParseFloat v Hj) as [Hn ->]. exact Hn.
Qed.



(** ** Ordering of strings and sorted slices *)

Lemma ltb_lt (a b : string) :
  String.ltb a b = true <-> OrderedTypeEx.String_as_OT.lt a b.
Proof.
  rewrite <- OrderedTypeEx.String_as_OT.cmp_lt.
  unfold String.ltb, OrderedTypeEx.String_as_OT.cmp.
  destruct (String.compare a b); split; intros H; try reflexivity; discriminate H.
Qed.

Lemma ltb_irrefl (a : string) : String.ltb a a = false.
Proof.
  destruct (String.ltb a a) eqn:E; [|reflexivity].
  apply ltb_lt, OrderedTypeEx.String_as_OT.lt_not_eq in E. now destruct E.
Qed.

Lemma ltb_trans (a b c : string) :
  String.ltb a b = true -> String.ltb b c = true -> String.ltb a c = true.
Proof.
  rewrite !ltb_lt. apply OrderedTypeEx.String_as_OT.lt_trans.
Qed.

Lemma ltb_asym (a b : string) : String.ltb a b = true -> String.ltb b a = false.
Proof.
  intros H. destruct (String.ltb b a) eqn:E; [|reflexivity].
  pose proof (ltb_trans _ _ _ H E) as F. rewrite ltb_irrefl in F. discriminate.
Qed.

Lemma ltb_connected (a b : string) :
  String.ltb a b = false -> String.ltb b a = false -> a = b.
Proof.
  unfold String.ltb. rewrite (String.compare_antisym b a).
  destruct (String.compare a b) eqn:E; cbn; try discriminate.
  intros _ _. now apply String.compare_eq_iff.
Qed.

Lemma ltb_negtrans (a b c : string) :
  String.ltb a b = false -> String.ltb b c = false -> String.ltb a c = false.
Proof.
  intros Hab Hbc. destruct (String.ltb a c) eqn:Hac; [|reflexivity].
  destruct (String.ltb b a) eqn:Hba.
  - pose proof (ltb_trans _ _ _ Hba Hac). congruence.
  - pose proof (ltb_connected _ _ Hab Hba). subst. congruence.
Qed.

Section sort_Slice_facts.

Context {A : Type} (less : A -> A -> bool).
Hypothesis less_asym : forall x y, less x y = true -> less y x = false.
Hypothesis less_negtrans :
  forall x y z, less x y = false -> less y z = false -> less x z = false.

Lemma not_after_total : base.Total (not_after less).
Proof.
  intros x y. unfold not_after.
  destruct (less y x) eqn:E; [right; now apply less_asym | now left].
Qed.

Lemma not_after_trans : Transitive (not_after less).
Proof. intros x y z Hxy Hyz. unfold not_after in *. eauto. Qed.

Lemma sort_Slice_Permutation (l : list A) : sort_Slice less l ≡ₚ l.
Proof. apply merge_sort_Permutation. Qed.

Lemma sort_Slice_In (l : list A) (x : A) : In x (sort_Slice less l) <-> In x l.
Proof.
  split; apply Permutation_in; [|symmetry]; apply sort_Slice_Permutation.
Qed.

Lemma sort_Slice_sorted (l : list A) :
  StronglySorted (not_after less) (sort_Slice less l).
Proof.
  pose proof not_after_total. pose proof not_after_trans.
  apply StronglySorted_merge_sort; assumption.
Qed.

(** When no two elements of the slice are equivalent for [less], the
    result is strictly increasing. *)
Lemma sort_Slice_strict (l : list A) :
  NoDup l ->
  (forall x y, In x l -> In y l -> less x y = false -> less y x = false -> x = y) ->
  StronglySorted (fun x y => less x y = true) (sort_Slice less l).
Proof.
  intros Hnd Hconn.
  assert (Hnd' : NoDup (sort_Slice less l)).
  { now rewrite sort_Slice_Permutation. }
  assert (Hconn' : forall x y, In x (sort_Slice less l) -> In y (sort_Slice less l) ->
                               less x y = false -> less y x = false -> x = y).
  { intros x y Hx Hy. apply Hconn; now apply sort_Slice_In. }
  pose proof (sort_Slice_sorted l) as Hs.
  induction Hs as [|x l' Hs IH Hx]; [constructor|].
  apply NoDup_cons in Hnd' as [Hnx Hnd'].
  constructor.
  - apply IH; [assumption|]. intros a b Ha Hb. apply Hconn'; now right.
  - rewrite List.Forall_forall in *. intros y Hy.
    destruct (less x y) eqn:E; [reflexivity|]. exfalso.
    assert (x = y) by (apply Hconn'; [now left | now right | assumption | now apply Hx]).
    subst. apply Hnx. now apply list_elem_of_In.
Qed.

End sort_Slice_facts.

(** A strictly increasing list lists its elements in the order of their
    positions. *)
Lemma sorted_positions {A : Type} (R : A -> A -> Prop) (l : list A) (i j : nat) (x y : A) :
  StronglySorted R l -> (forall a, ~ R a a) -> (forall a b, R a b -> ~ R b a) ->
  l !! i = Some x -> l !! j = Some y -> R x y -> (i < j)%nat.
Proof.
  intros Hs Hirr Hasym. revert i j.
  induction Hs as [|a l Hs IH Ha]; intros i j Hi Hj Hxy.
  - rewrite lookup_nil in Hi. discriminate.
  - rewrite List.Forall_forall in Ha.
    destruct i as [|i], j as [|j]; cbn in Hi, Hj.
    + injection Hi as ->. injection Hj as ->. now destruct (Hirr y).
    + lia.
    + injection Hj as ->. exfalso.
      apply (Hasym x y Hxy). apply Ha.
      apply list_elem_of_In, list_elem_of_lookup. eauto.
    + specialize (IH i j Hi Hj Hxy). lia.
Qed.

(** ** Bridges between the list functions of the two libraries *)

Lemma In_map_to_list {V : Type} (m : gmap string V) (k : string) (v : V) :
  In (k, v) (map_to_list m) <-> m !! k = Some v.
Proof. rewrite <- list_elem_of_In. apply elem_of_map_to_list. Qed.

Lemma In_keys {V : Type} (m : gmap string V) (k : string) :
  In k (List.map fst (map_to_list m)) <-> is_Some (m !! k).
Proof.
  rewrite in_map_iff. split.
  - intros ([k' v] & <- & H). apply In_map_to_list in H. cbn. eauto.
  - intros [v H]. exists (k, v). split; [reflexivity|]. now apply In_map_to_list.
Qed.

Lemma fmap_map {X Y : Type} (f : X -> Y) (l : list X) : f <$> l = List.map f l.
Proof. induction l as [|x l IH]; [reflexivity|]. cbn. now rewrite IH. Qed.

Lemma NoDup_keys {V : Type} (m : gmap string V) :
  NoDup (List.map fst (map_to_list m)).
Proof. rewrite <- fmap_map. apply NoDup_fst_map_to_list. Qed.

Lemma NoDup_map_filter {X Y : Type} (f : X -> Y) (p : X -> bool) (l : list X) :
  NoDup (List.map f l) -> NoDup (List.map f (List.filter p l)).
Proof.
  induction l as [|x l IH]; cbn [List.map List.filter]; [auto|].
  intros H. apply NoDup_cons in H as [Hx Hl].
  destruct (p x); [|auto]. cbn [List.map]. apply NoDup_cons. split; [|auto].
  intros Hin. apply Hx. apply list_elem_of_In in Hin. apply list_elem_of_In.
  apply in_map_iff in Hin as (y & <- & Hy). apply filter_In in Hy as [Hy _].
  now apply in_map.
Qed.

Lemma NoDup_map_injective {X Y : Type} (f : X -> Y) (l : list X) (x y : X) :
  NoDup (List.map f l) -> In x l -> In y l -> f x = f y -> x = y.
Proof.
  induction l as [|a l IH]; [intros _ []|].
  cbn [List.map]. intros H. apply NoDup_cons in H as [Ha Hl].
  intros [->|Hx] [->|Hy] Hf; auto.
  - exfalso. apply Ha. apply list_elem_of_In. rewrite Hf. now apply in_map.
  - exfalso. apply Ha. apply list_elem_of_In. rewrite <- Hf. now apply in_map.
Qed.

Lemma NoDup_of_map {X Y : Type} (f : X -> Y) (l : list X) :
  NoDup (List.map f l) -> NoDup l.
Proof.
  induction l as [|a l IH]; [constructor|].
  cbn [List.map]. intros H. apply NoDup_cons in H as [Ha Hl].
  apply NoDup_cons. split; [|auto].
  intros Hin. apply Ha. apply list_elem_of_In in Hin. apply list_elem_of_In.
  now apply in_map.
Qed.

(** ** The diff *)

Lemma diff_desired_step (ParseFloat : string -> option spec_float)
    (current : gmap string Value) (changes : list SecretChange) (seen : gmap string bool)
    (entry : string * Value) :
  diff_desired ParseFloat current (changes, seen) entry =
    (changes ++ [desired_change ParseFloat current entry], <[fst entry := true]> seen).
Proof.
  destruct entry as [path dv]. unfold desired_change, diff_desired. cbn [fst].
  destruct (current !! path) as [cv|]; [|reflexivity].
  destruct (DeepEqual ParseFloat cv dv); [reflexivity|].
  destruct (diffMapKeys ParseFloat cv dv) as [[added removed] modified]. reflexivity.
Qed.

Lemma desired_change_spec (ParseFloat : string -> option spec_float)
    (current : gmap string Value) (path : string) (dv : Value) :
  SC_Path (desired_change ParseFloat current (path, dv)) = path /\
  SC_ChangeType (desired_change ParseFloat current (path, dv)) =
    match current !! path with
    | None => ChangeTypeAdded
    | Some cv => if DeepEqual ParseFloat cv dv
                 then ChangeTypeUnchanged else ChangeTypeModified
    end.
Proof.
  unfold desired_change, diff_desired.
  destruct (current !! path) as [cv|]; [|split; reflexivity].
  destruct (DeepEqual ParseFloat cv dv); [split; reflexivity|].
  destruct (diffMapKeys ParseFloat cv dv) as [[added removed] modified].
  split; reflexivity.
Qed.

(** The first loop appends one record per entry and marks its path. *)
Lemma diff_desired_loop (ParseFloat : string -> option spec_float)
    (current : gmap string Value) (l : list (string * Value)) (changes : list SecretChange)
    (seen : gmap string bool) :
  foldl (diff_desired ParseFloat current) (changes, seen) l =
    (changes ++ List.map (desired_change ParseFloat current) l,
     foldl (fun s e => <[fst e := true]> s) seen l).
Proof.
  revert changes seen. induction l as [|e l IH]; intros changes seen.
  - cbn. now rewrite app_nil_r.
  - cbn [foldl List.map]. rewrite diff_desired_step, IH.
    now rewrite <- app_assoc.
Qed.

Lemma seen_after (l : list (string * Value)) (seen : gmap string bool) (k : string) :
  flag (foldl (fun s e => <[fst e := true]> s) seen l) k = true <->
  flag seen k = true \/ In k (List.map fst l).
Proof.
  revert seen. induction l as [|e l IH]; intros seen; cbn [foldl List.map].
  - cbn. tauto.
  - rewrite IH. unfold flag at 1. cbn [In].
    destruct (decide (fst e = k)) as [->|Hne].
    + rewrite lookup_insert_eq. cbn. tauto.
    + rewrite lookup_insert_ne by assumption. fold (flag seen k). tauto.
Qed.

(** The second loop appends one record per entry whose path is not marked. *)
Lemma diff_current_loop (seen : gmap string bool) (l : list (string * Value))
    (changes : list SecretChange) :
  foldl (diff_current seen) changes l =
    changes ++ List.map removed_change
                 (List.filter (fun e => negb (flag seen (fst e))) l).
Proof.
  revert changes. induction l as [|[path cv] l IH]; intros changes.
  - cbn. now rewrite app_nil_r.
  - cbn [foldl List.filter fst]. rewrite IH. unfold diff_current at 1.
    destruct (negb (flag seen path)); [|reflexivity].
    cbn [List.map]. now rewrite <- app_assoc.
Qed.

(** The records of [DiffSecrets] before they are sorted. *)
Lemma DiffSecrets_unsorted (ParseFloat : string -> option spec_float)
    (current desired : gmap string Value) :
  DiffSecrets ParseFloat current desired =
    sort_Slice (fun a b => String.ltb (SC_Path a) (SC_Path b))
      (List.map (desired_change ParseFloat current) (map_to_list desired) ++
       List.map removed_change
         (List.filter
            (fun e => negb (flag (foldl (fun s e => <[fst e := true]> s) ∅
                                        (map_to_list desired)) (fst e)))
            (map_to_list current))).
Proof.
  unfold DiffSecrets. rewrite diff_desired_loop. cbn [app].
  now rewrite diff_current_loop.
Qed.

Lemma seen_desired (desired : gmap string Value)
    (k : string) :
  flag (foldl (fun s e => <[fst e := true]> s) ∅ (map_to_list desired)) k = true <->
  is_Some (desired !! k).
Proof.
  rewrite seen_after, In_keys. unfold flag. rewrite lookup_empty. cbn.
  split; [intros [H|H]; [discriminate|assumption] | now right].
Qed.

Lemma unsorted_desired (ParseFloat : string -> option spec_float)
    (current desired : gmap string Value)
    (c : SecretChange) :
  In c (List.map (desired_change ParseFloat current) (map_to_list desired)) ->
  is_Some (desired !! SC_Path c) /\ classified ParseFloat current desired c.
Proof.
  rewrite in_map_iff. intros ([path dv] & <- & Hin).
  apply In_map_to_list in Hin.
  destruct (desired_change_spec ParseFloat current path dv) as [Hp Ht].
  unfold classified. rewrite Hp, Hin, Ht. split; [eauto|].
  now destruct (current !! path).
Qed.

Lemma unsorted_current (ParseFloat : string -> option spec_float)
    (current desired : gmap string Value)
    (c : SecretChange) :
  In c (List.map removed_change
          (List.filter
             (fun e => negb (flag (foldl (fun s e => <[fst e := true]> s) ∅
                                         (map_to_list desired)) (fst e)))
             (map_to_list current))) ->
  is_Some (current !! SC_Path c) /\ desired !! SC_Path c = None /\
  classified ParseFloat current desired c.
Proof.
  rewrite in_map_iff. intros ([path cv] & <- & Hin).
  apply filter_In in Hin as [Hin Hf]. cbn [fst] in Hf.
  apply In_map_to_list in Hin. apply negb_true_iff in Hf.
  assert (Hd : desired !! path = None).
  { destruct (desired !! path) eqn:E; [|reflexivity].
    assert (Hs : is_Some (desired !! path)) by eauto.
    apply seen_desired in Hs. congruence. }
  unfold classified, removed_change. cbn [SC_Path SC_ChangeType fst].
  rewrite Hin, Hd. eauto.
Qed.

Lemma desired_paths (ParseFloat : string -> option spec_float)
    (current : gmap string Value) (l : list (string * Value)) :
  List.map SC_Path (List.map (desired_change ParseFloat current) l) = List.map fst l.
Proof.
  induction l as [|[path dv] l IH]; [reflexivity|]. cbn [List.map fst].
  rewrite IH. f_equal. apply desired_change_spec.
Qed.

Lemma removed_paths (l : list (string * Value)) :
  List.map SC_Path (List.map removed_change l) = List.map fst l.
Proof.
  induction l as [|e l IH]; [reflexivity|]. cbn [List.map]. now rewrite IH.
Qed.

Lemma unsorted_paths_NoDup (ParseFloat : string -> option spec_float)
    (current desired : gmap string Value) :
  NoDup (List.map SC_Path
           (List.map (desired_change ParseFloat current) (map_to_list desired) ++
            List.map removed_change
              (List.filter
                 (fun e => negb (flag (foldl (fun s e => <[fst e := true]> s) ∅
                                             (map_to_list desired)) (fst e)))
                 (map_to_list current)))).
Proof.
  rewrite List.map_app, desired_paths, removed_paths.
  apply NoDup_app. split; [apply NoDup_keys|]. split.
  - intros k Hk Hk'. apply list_elem_of_In in Hk, Hk'.
    apply In_keys in Hk. apply in_map_iff in Hk' as ([k' v] & <- & Hin).
    apply filter_In in Hin as [_ Hf]. cbn [fst] in *.
    apply negb_true_iff in Hf. apply seen_desired in Hk. congruence.
  - apply NoDup_map_filter, NoDup_keys.
Qed.


Lemma tally_counts (l : list SecretChange) (s0 : ChangeSummary) :
  (forall c, In c l ->
     SC_ChangeType c = ChangeTypeAdded \/ SC_ChangeType c = ChangeTypeRemoved \/
     SC_ChangeType c = ChangeTypeModified \/ SC_ChangeType c = ChangeTypeUnchanged) ->
  Added (foldl tally s0 l) + Removed (foldl tally s0 l) +
  Modified (foldl tally s0 l) + Unchanged (foldl tally s0 l) - Total (foldl tally s0 l)
    = Added s0 + Removed s0 + Modified s0 + Unchanged s0 - Total s0 /\
  Total (foldl tally s0 l) = Total s0 + Z.of_nat (length l).
Proof.
  revert s0. induction l as [|c l IH]; intros s0 Hty.
  - cbn [foldl length]. lia.
  - cbn [foldl length].
    destruct (IH (tally s0 c)) as [H1 H2]; [intros c' Hc'; apply Hty; now right|].
    rewrite H1, H2.
    assert (Hc : Added (tally s0 c) + Removed (tally s0 c) + Modified (tally s0 c)
                 + Unchanged (tally s0 c) - Total (tally s0 c)
                 = Added s0 + Removed s0 + Modified s0 + Unchanged s0 - Total s0 /\
                 Total (tally s0 c) = Total s0 + 1).
    { unfold tally.
      destruct (Hty c (or_introl eq_refl)) as [-> | [-> | [-> | ->]]];
        cbn; lia. }
    lia.
Qed.

(** C6.  [DiffSecrets] emits exactly one record for every path of the union
    of the two key sets, classified as added, removed, unchanged or
    modified by the presence of the path in each map and the deep equality
    of the two values; the records are sorted by path; and the summary of
    that output satisfies added + removed + modified + unchanged = total. *)
Theorem diff_secrets_total (ParseFloat : string -> option spec_float)
    (current desired : gmap string Value) :
  let changes := DiffSecrets ParseFloat current desired in
  NoDup (List.map SC_Path changes) /\
  (forall path, In path (List.map SC_Path changes) <->
                is_Some (current !! path) \/ is_Some (desired !! path)) /\
  (forall c, In c changes -> classified ParseFloat current desired c) /\
  StronglySorted (fun a b => String.ltb (SC_Path a) (SC_Path b) = true) changes /\
  Added (ComputeSummary changes) + Removed (ComputeSummary changes) +
  Modified (ComputeSummary changes) + Unchanged (ComputeSummary changes)
    = Total (ComputeSummary changes) /\
  Total (ComputeSummary changes) = Z.of_nat (length changes).
Proof.
  intros changes. subst changes. rewrite DiffSecrets_unsorted.
  set (less := fun a b => String.ltb (SC_Path a) (SC_Path b)).
  set (U := List.map (desired_change ParseFloat current) (map_to_list desired) ++ _).
  assert (Hperm : sort_Slice less U ≡ₚ U) by apply sort_Slice_Permutation.
  assert (HndP : NoDup (List.map SC_Path U)) by apply unsorted_paths_NoDup.
  assert (Hcls : forall c, In c U ->
            (is_Some (current !! SC_Path c) \/ is_Some (desired !! SC_Path c)) /\
            classified ParseFloat current desired c).
  { intros c Hc. subst U. apply in_app_or in Hc as [Hc|Hc].
    - destruct (unsorted_desired ParseFloat current desired c Hc) as [H1 H2]. auto.
    - destruct (unsorted_current ParseFloat current desired c Hc) as (H1 & _ & H2).
      auto. }
  assert (Hin : forall c, In c (sort_Slice less U) <-> In c U).
  { intros c. apply sort_Slice_In. }
  split; [|split; [|split; [|split]]].
  - rewrite <- fmap_map, Hperm, fmap_map. exact HndP.
  - intros path. rewrite in_map_iff. split.
    + intros (c & <- & Hc). apply Hin in Hc. exact (proj1 (Hcls _ Hc)).
    + intros Hp.
      assert (Hex : exists c, In c U /\ SC_Path c = path).
      { subst U. destruct Hp as [[cv Hc]|[dv Hd]].
        - destruct (desired !! path) as [dv|] eqn:Hd.
          + exists (desired_change ParseFloat current (path, dv)). split.
            * apply in_or_app. left. apply in_map. now apply In_map_to_list.
            * apply desired_change_spec.
          + exists (removed_change (path, cv)). split; [|reflexivity].
            apply in_or_app. right. apply in_map. apply filter_In. split.
            * now apply In_map_to_list.
            * cbn [fst]. apply negb_true_iff.
              destruct (flag _ path) eqn:E; [|reflexivity].
              apply seen_desired in E. rewrite Hd in E. now destruct E.
        - exists (desired_change ParseFloat current (path, dv)). split.
          + apply in_or_app. left. apply in_map. now apply In_map_to_list.
          + apply desired_change_spec. }
      destruct Hex as (c & Hc & <-). exists c. split; [reflexivity|]. now apply Hin.
  - intros c Hc. apply Hin in Hc. exact (proj2 (Hcls _ Hc)).
  - apply sort_Slice_strict.
    + intros x y. unfold less. apply ltb_asym.
    + intros x y z. unfold less. apply ltb_negtrans.
    + eapply NoDup_of_map. exact HndP.
    + intros x y Hx Hy H1 H2. unfold less in *.
      eapply NoDup_map_injective; eauto using ltb_connected.
  - assert (Hty : forall c, In c (sort_Slice less U) ->
       SC_ChangeType c = ChangeTypeAdded \/ SC_ChangeType c = ChangeTypeRemoved \/
       SC_ChangeType c = ChangeTypeModified \/ SC_ChangeType c = ChangeTypeUnchanged).
    { intros c Hc. apply Hin in Hc. pose proof (proj2 (Hcls _ Hc)) as Hk.
      clear Hc. rename Hk into Hc. unfold classified in Hc.
      destruct (current !! SC_Path c) as [cv|], (desired !! SC_Path c) as [dv|];
        try tauto.
      destruct (DeepEqual ParseFloat cv dv); tauto. }
    unfold ComputeSummary.
    destruct (tally_counts _ {| Added := 0; Removed := 0; Modified := 0;
                                Unchanged := 0; Total := 0 |} Hty) as [H1 H2].
    cbn in H1, H2. split; lia.
Qed.

(** ** The dependency graph: levels *)

Lemma flag_insert_eq (m : gmap string bool) (k : string) (b : bool) :
  flag (<[k := b]> m) k = b.
Proof. unfold flag. now rewrite lookup_insert_eq. Qed.

Lemma flag_insert_ne (m : gmap string bool) (k k' : string) (b : bool) :
  k <> k' -> flag (<[k := b]> m) k' = flag m k'.
Proof. intros H. unfold flag. now rewrite lookup_insert_ne. Qed.

Lemma flag_empty (k : string) : flag ∅ k = false.
Proof. unfold flag. now rewrite lookup_empty. Qed.

Lemma shape_set_Level (nodes : gmap string Node) (name k : string) (l : Z) :
  shape (alter (set_Level l) name nodes) k = shape nodes k.
Proof.
  unfold shape. destruct (decide (name = k)) as [->|Hne].
  - rewrite lookup_alter_eq. now destruct (nodes !! k).
  - now rewrite lookup_alter_ne.
Qed.

Lemma lvl_set_Level_eq (nodes : gmap string Node) (name : string) (l : Z) :
  is_Some (nodes !! name) -> lvl (alter (set_Level l) name nodes) name = l.
Proof.
  intros [n Hn]. unfold lvl, level_of. cbn [Nodes].
  now rewrite lookup_alter_eq, Hn.
Qed.

Lemma lvl_set_Level_ne (nodes : gmap string Node) (name k : string) (l : Z) :
  name <> k -> lvl (alter (set_Level l) name nodes) k = lvl nodes k.
Proof.
  intros Hne. unfold lvl, level_of. cbn [Nodes]. now rewrite lookup_alter_ne.
Qed.

Lemma shape_is_Some (nodes : gmap string Node) (k : string) :
  is_Some (shape nodes k) <-> is_Some (nodes !! k).
Proof. unfold shape. now rewrite fmap_is_Some. Qed.

Lemma gtb_max (a b : Z) : (if a >? b then a else b) = Z.max a b.
Proof. rewrite Z.gtb_ltb. destruct (Z.ltb_spec b a); lia. Qed.

Lemma level_ok_frame (G nodes nodes' : gmap string Node) (k : string) :
  level_ok G nodes k ->
  lvl nodes' k = lvl nodes k ->
  (forall d, edge G k d -> lvl nodes' d = lvl nodes d) ->
  level_ok G nodes' k.
Proof.
  unfold level_ok. intros H Hk Hd.
  destruct (shape G k) as [[[] deps]|] eqn:Hs; [congruence| |assumption].
  assert (Hd' : forall d, In d deps -> lvl nodes' d = lvl nodes d).
  { intros d Hin. apply Hd. exists deps. auto. }
  destruct H as (H1 & H2 & H3). rewrite Hk. repeat split.
  - intros d Hin. rewrite Hd' by assumption. auto.
  - assumption.
  - intros Hne. destruct (H3 Hne) as (d & Hin & Hl). exists d.
    rewrite Hd' by assumption. auto.
Qed.

Section CalcLevel.

Variable G : gmap string Node.

(** Marking a node that is not visited as being on the stack keeps the
    invariant. *)
Lemma inv_ok_push (st : LevelState) (name : string) :
  inv_ok G st -> flag (st_visited st) name = false ->
  inv_ok G {| st_nodes := st_nodes st; st_visited := st_visited st;
              st_inStack := <[name := true]> (st_inStack st) |}.
Proof.
  intros [H1 H2 H3 H4] Hv. constructor; cbn [st_nodes st_visited st_inStack]; auto.
  intros k Hk. rewrite flag_insert_ne; [auto|]. intros ->. congruence.
Qed.

(** The end of a call of [calcLevel]: the level of the node is set, the
    node is marked visited and taken off the stack. *)
Lemma inv_ok_finish (st : LevelState) (name : string) (l : Z) :
  inv_ok G st ->
  flag (st_visited st) name = false ->
  is_Some (st_nodes st !! name) ->
  0 <= l ->
  level_ok G (alter (set_Level l) name (st_nodes st)) name ->
  (forall b, edge G name b -> flag (st_visited st) b = true) ->
  inv_ok G {| st_nodes := alter (set_Level l) name (st_nodes st);
              st_visited := <[name := true]> (st_visited st);
              st_inStack := <[name := false]> (st_inStack st) |}.
Proof.
  intros [H1 H2 H3 H4] Hv Hsome Hl Hok Hdeps.
  constructor; cbn [st_nodes st_visited st_inStack].
  - intros k. now rewrite shape_set_Level.
  - intros k Hk. destruct (decide (name = k)) as [->|Hne].
    + apply flag_insert_eq.
    + rewrite flag_insert_ne in * by assumption. auto.
  - intros k Hk. destruct (decide (name = k)) as [->|Hne].
    + split; [assumption|]. now rewrite lvl_set_Level_eq.
    + rewrite flag_insert_ne in Hk by assumption.
      destruct (H3 k Hk) as [Hok' Hnn]. split.
      * apply (level_ok_frame G (st_nodes st)); [assumption| |].
        -- now apply lvl_set_Level_ne.
        -- intros d Hd. apply lvl_set_Level_ne. intros ->.
           pose proof (H4 k d Hk Hd). congruence.
      * now rewrite lvl_set_Level_ne.
  - intros a b Ha Hab. destruct (decide (name = b)) as [->|Hnb];
      [apply flag_insert_eq|]. rewrite flag_insert_ne by assumption.
    destruct (decide (name = a)) as [->|Hne]; [auto|].
    rewrite flag_insert_ne in Ha by assumption. eauto.
Qed.

Lemma same_stack_refl (st : LevelState) : same_stack st st.
Proof. intros k. reflexivity. Qed.

Lemma visited_mono_refl (st : LevelState) : visited_mono st st.
Proof. intros k Hk. auto. Qed.

Lemma visited_mono_trans (st1 st2 st3 : LevelState) :
  visited_mono st1 st2 -> visited_mono st2 st3 -> visited_mono st1 st3.
Proof.
  intros H12 H23 k Hk. destruct (H12 k Hk) as [H1 H2].
  destruct (H23 k H1) as [H3 H4]. split; [assumption | congruence].
Qed.

(** The loop over the dependencies, when every call keeps its promise. *)
Lemma deps_loop_success (call : string -> LevelState -> Outcome (Z * LevelState)) :
  (forall d st l st', call d st = Done (l, st') -> inv_ok G st ->
                      calc_post G d st l st') ->
  forall deps m st m' st',
    deps_loop call deps m st = Done (m', st') -> inv_ok G st ->
    inv_ok G st' /\ same_stack st st' /\ visited_mono st st' /\
    (forall d, In d deps -> flag (st_visited st') d = true) /\
    m <= m' /\
    (forall d, In d deps -> lvl (st_nodes st') d <= m') /\
    (m' = m \/ exists d, In d deps /\ m' = lvl (st_nodes st') d).
Proof.
  intros Hcall. induction deps as [|d deps IH]; intros m st m' st' H Hinv.
  - cbn in H. injection H as <- <-.
    split; [assumption|]. split; [apply same_stack_refl|].
    split; [apply visited_mono_refl|]. split; [intros d []|].
    split; [lia|]. split; [intros d []|]. now left.
  - cbn [deps_loop] in H.
    destruct (call d st) as [[dl st1]| |] eqn:Hc; try discriminate.
    destruct (Hcall _ _ _ _ Hc Hinv) as (Hinv1 & Hss1 & Hvm1 & Hv1 & Hl1).
    rewrite gtb_max in H.
    destruct (IH _ _ _ _ H Hinv1) as (Hinv' & Hss' & Hvm' & Hvis & Hle & Hmax & Hex).
    destruct (Hvm' d Hv1) as [Hvd Hld].
    split; [exact Hinv'|].
    split; [intros k; now rewrite Hss', Hss1|].
    split; [eapply visited_mono_trans; eassumption|].
    split; [intros x [<-|Hx]; auto|].
    split; [lia|].
    split; [intros x [<-|Hx]; [lia | auto]|].
    destruct Hex as [Hex|(x & Hx & Hex)].
    + destruct (Z.max_spec dl m) as [[_ Hm]|[_ Hm]].
      * left. lia.
      * right. exists d. split; [now left | lia].
    + right. exists x. split; [now right | assumption].
Qed.

(** A successful call of [calcLevel] keeps the invariant, leaves the stack
    as it found it, and returns the level it has set. *)
Lemma calcLevel_success (fuel : nat) :
  forall name st l st',
    calcLevel fuel name st = Done (l, st') -> inv_ok G st ->
    calc_post G name st l st'.
Proof.
  induction fuel as [|fuel IH]; intros name st l st' H Hinv; [discriminate|].
  cbn [calcLevel] in H.
  destruct (st_nodes st !! name) as [node|] eqn:Hn; [|discriminate].
  destruct (flag (st_inStack st) name) eqn:Hs; [discriminate|].
  assert (Hshape : shape G name = Some (Type_ node, Deps node)).
  { rewrite <- (inv_shape G st Hinv). unfold shape. now rewrite Hn. }
  destruct (flag (st_visited st) name) eqn:Hv.
  { injection H as <- <-. unfold calc_post.
    split; [assumption|]. split; [apply same_stack_refl|].
    split; [apply visited_mono_refl|]. split; [assumption|].
    unfold lvl, level_of. cbn [Nodes]. now rewrite Hn. }
  pose proof (inv_ok_push st name Hinv Hv) as Hinv1.
  set (st1 := {| st_nodes := st_nodes st; st_visited := st_visited st;
                 st_inStack := <[name := true]> (st_inStack st) |}) in *.
  destruct (Type_ node) eqn:Ht.
  - (* a source *)
    injection H as <- <-. unfold calc_post.
    assert (Hok : inv_ok G {| st_nodes := alter (set_Level 0) name (st_nodes st1);
                              st_visited := <[name := true]> (st_visited st1);
                              st_inStack := <[name := false]> (st_inStack st1) |}).
    { apply inv_ok_finish; auto; try lia.
      - unfold level_ok. rewrite Hshape. apply lvl_set_Level_eq. cbn. eauto.
      - intros b (deps & Hb & _). congruence. }
    split; [exact Hok|]. cbn [st_nodes st_visited st_inStack] in *.
    split; [|split; [|split]].
    + intros k. cbn [st_inStack]. destruct (decide (name = k)) as [->|Hne].
      * now rewrite flag_insert_eq.
      * now rewrite !flag_insert_ne.
    + intros k Hk. cbn [st_visited st_nodes].
      assert (name <> k) by (intros ->; congruence).
      rewrite flag_insert_ne, lvl_set_Level_ne by assumption. auto.
    + apply flag_insert_eq.
    + symmetry. apply lvl_set_Level_eq. eauto.
  - (* a target *)
    destruct (deps_loop (calcLevel fuel) (Deps node) (-1) st1)
      as [[m' st2]| |] eqn:Hloop; try discriminate.
    injection H as <- <-.
    destruct (deps_loop_success (calcLevel fuel) IH _ _ _ _ _ Hloop Hinv1)
      as (Hinv2 & Hss2 & Hvm2 & Hvis & Hle & Hmax & Hex).
    assert (Hstack : flag (st_inStack st2) name = true).
    { rewrite Hss2. apply flag_insert_eq. }
    assert (Hv2 : flag (st_visited st2) name = false).
    { destruct (flag (st_visited st2) name) eqn:E; [|reflexivity].
      pose proof (inv_disjoint G st2 Hinv2 name E). congruence. }
    assert (Hsome : is_Some (st_nodes st2 !! name)).
    { apply shape_is_Some. rewrite (inv_shape G st2 Hinv2), Hshape. eauto. }
    assert (Hdne : forall d, In d (Deps node) -> name <> d).
    { intros d Hd ->. pose proof (Hvis d Hd). congruence. }
    assert (Hok : inv_ok G
              {| st_nodes := alter (set_Level (m' + 1)) name (st_nodes st2);
                 st_visited := <[name := true]> (st_visited st2);
                 st_inStack := <[name := false]> (st_inStack st2) |}).
    { apply inv_ok_finish; auto; try lia.
      - unfold level_ok. rewrite Hshape, lvl_set_Level_eq by assumption.
        split; [|split].
        + intros d Hd. rewrite lvl_set_Level_ne by auto. specialize (Hmax d Hd). lia.
        + intros He. rewrite He in Hex. destruct Hex as [->|(d & [] & _)]. lia.
        + intros Hne. destruct Hex as [->|(d & Hd & ->)].
          * destruct (Deps node) as [|d deps]; [now destruct Hne|].
            assert (Hd : In d (d :: deps)) by now left.
            pose proof (proj2 (inv_level G st2 Hinv2 d (Hvis d Hd))).
            specialize (Hmax d Hd). lia.
          * exists d. split; [assumption|]. rewrite lvl_set_Level_ne by auto. lia.
      - intros b (deps & Hb & Hin). rewrite Hshape in Hb. injection Hb as <-. auto. }
    split; [exact Hok|]. split; [|split; [|split]].
    + intros k. cbn [st_inStack]. destruct (decide (name = k)) as [->|Hne].
      * now rewrite flag_insert_eq.
      * rewrite flag_insert_ne, Hss2 by assumption. subst st1. cbn [st_inStack].
        now rewrite flag_insert_ne.
    + intros k Hk. cbn [st_visited st_nodes].
      assert (name <> k) by (intros ->; congruence).
      destruct (Hvm2 k Hk) as [Hk2 Hl2].
      rewrite flag_insert_ne, lvl_set_Level_ne by assumption. auto.
    + apply flag_insert_eq.
    + symmetry. now apply lvl_set_Level_eq.
Qed.

End CalcLevel.

(** ** The dependency graph: the step budget and the errors *)

Lemma filter_shrinks {X : Type} (p q : X -> bool) (l : list X) :
  (forall x, q x = true -> p x = true) ->
  (exists x, In x l /\ p x = true /\ q x = false) ->
  (length (List.filter q l) < length (List.filter p l))%nat.
Proof.
  intros Hqp. induction l as [|a l IH]; intros (x & Hx & Hp & Hq); [destruct Hx|].
  assert (Hle : (length (List.filter q l) <= length (List.filter p l))%nat).
  { clear -Hqp. induction l as [|b l IHl]; [reflexivity|]. cbn [List.filter].
    destruct (q b) eqn:Eq; [rewrite (Hqp _ Eq); cbn; lia|].
    destruct (p b); cbn; lia. }
  cbn [List.filter]. destruct Hx as [->|Hx].
  - rewrite Hp, Hq. cbn. lia.
  - assert (Hlt : (length (List.filter q l) < length (List.filter p l))%nat)
      by (apply IH; eauto).
    destruct (q a) eqn:Eq; [rewrite (Hqp _ Eq); cbn; lia|].
    destruct (p a); cbn; lia.
Qed.

Lemma free_nodes_same (G : gmap string Node) (st st' : LevelState) :
  same_stack st st' -> free_nodes G st' = free_nodes G st.
Proof.
  intros H. unfold free_nodes. f_equal. apply List.filter_ext.
  intros k. now rewrite H.
Qed.

Lemma free_nodes_push (G : gmap string Node) (st : LevelState) (name : string) :
  is_Some (G !! name) -> flag (st_inStack st) name = false ->
  (free_nodes G {| st_nodes := st_nodes st; st_visited := st_visited st;
                   st_inStack := <[name := true]> (st_inStack st) |}
   < free_nodes G st)%nat.
Proof.
  intros Hs Hf. unfold free_nodes. cbn [st_inStack]. apply filter_shrinks.
  - intros k Hk. destruct (decide (name = k)) as [->|Hne].
    + now rewrite flag_insert_eq in Hk.
    + now rewrite flag_insert_ne in Hk.
  - exists name. split; [now apply In_keys|].
    now rewrite Hf, flag_insert_eq.
Qed.

Lemma free_nodes_bound (G : gmap string Node) (st : LevelState) :
  (free_nodes G st <= size G)%nat.
Proof.
  unfold free_nodes. rewrite <- length_map_to_list.
  etransitivity; [apply List.filter_length_le|]. now rewrite List.length_map.
Qed.

Section CalcLevelTotal.

Variable G : gmap string Node.
Hypothesis G_closed : closed G.

Lemma deps_loop_fuel (call : string -> LevelState -> Outcome (Z * LevelState))
    (fuel : nat) :
  (forall d st l st', call d st = Done (l, st') -> inv_ok G st ->
                      calc_post G d st l st') ->
  (forall d st, inv_ok G st -> (free_nodes G st < fuel)%nat ->
                call d st <> OutOfFuel) ->
  forall deps m st, inv_ok G st -> (free_nodes G st < fuel)%nat ->
                    deps_loop call deps m st <> OutOfFuel.
Proof.
  intros Hpost Hcall. induction deps as [|d deps IH]; intros m st Hinv Hfree.
  - discriminate.
  - cbn [deps_loop]. destruct (call d st) as [[dl st1]| |] eqn:Hc.
    + destruct (Hpost _ _ _ _ Hc Hinv) as (Hinv1 & Hss1 & _).
      apply IH; [assumption|]. now rewrite (free_nodes_same G st st1).
    + discriminate.
    + now destruct (Hcall d st Hinv Hfree).
Qed.

(** With more steps than there are nodes off the stack, [calcLevel] does
    not run out of steps. *)
Lemma calcLevel_fuel (fuel : nat) :
  forall name st, inv_ok G st -> (free_nodes G st < fuel)%nat ->
                  calcLevel fuel name st <> OutOfFuel.
Proof.
  induction fuel as [|fuel IH]; intros name st Hinv Hfree; [lia|].
  cbn [calcLevel].
  destruct (st_nodes st !! name) as [node|] eqn:Hn; [|discriminate].
  destruct (flag (st_inStack st) name) eqn:Hs; [discriminate|].
  destruct (flag (st_visited st) name) eqn:Hv; [discriminate|].
  destruct (Type_ node); [discriminate|].
  assert (Hsome : is_Some (G !! name)).
  { apply shape_is_Some. rewrite <- (inv_shape G st Hinv). apply shape_is_Some. eauto. }
  pose proof (free_nodes_push G st name Hsome Hs) as Hpush.
  pose proof (inv_ok_push G st name Hinv Hv) as Hinv1.
  pose proof (deps_loop_fuel (calcLevel fuel) fuel (calcLevel_success G fuel) IH
                (Deps node) (-1) _ Hinv1 ltac:(lia)) as Hloop.
  destruct (deps_loop (calcLevel fuel) (Deps node) (-1) _) as [[m' st2]| |];
    [discriminate | discriminate | now destruct Hloop].
Qed.

Lemma deps_loop_failure (call : string -> LevelState -> Outcome (Z * LevelState)) :
  (forall d st l st', call d st = Done (l, st') -> inv_ok G st ->
                      calc_post G d st l st') ->
  (forall d st e, call d st = Failed e -> inv_ok G st -> is_Some (G !! d) ->
                  (forall k, flag (st_inStack st) k = true -> tc (edge G) k d) ->
                  exists x, e = ErrCircular x /\ tc (edge G) x x) ->
  forall deps m st e,
    deps_loop call deps m st = Failed e -> inv_ok G st ->
    (forall d, In d deps -> is_Some (G !! d)) ->
    (forall d k, In d deps -> flag (st_inStack st) k = true -> tc (edge G) k d) ->
    exists x, e = ErrCircular x /\ tc (edge G) x x.
Proof.
  intros Hpost Hcall. induction deps as [|d deps IH]; intros m st e H Hinv Hsome Hpath.
  - discriminate.
  - cbn [deps_loop] in H. destruct (call d st) as [[dl st1]|e'|] eqn:Hc.
    + destruct (Hpost _ _ _ _ Hc Hinv) as (Hinv1 & Hss1 & _).
      apply (IH _ _ _ H Hinv1).
      * intros x Hx. apply Hsome. now right.
      * intros x k Hx Hk. rewrite Hss1 in Hk. apply Hpath; [now right | assumption].
    + injection H as <-. apply (Hcall _ _ _ Hc Hinv).
      * apply Hsome. now left.
      * intros k Hk. apply Hpath; [now left | assumption].
    + discriminate.
Qed.

(** When every node on the stack reaches [name] through dependency edges,
    a failing call of [calcLevel] on [name] reports a node that lies on a
    cycle. *)
Lemma calcLevel_failure (fuel : nat) :
  forall name st e,
    calcLevel fuel name st = Failed e -> inv_ok G st -> is_Some (G !! name) ->
    (forall k, flag (st_inStack st) k = true -> tc (edge G) k name) ->
    exists x, e = ErrCircular x /\ tc (edge G) x x.
Proof.
  induction fuel as [|fuel IH]; intros name st e H Hinv Hsome Hpath; [discriminate|].
  cbn [calcLevel] in H.
  destruct (st_nodes st !! name) as [node|] eqn:Hn.
  2:{ exfalso. apply shape_is_Some in Hsome.
      rewrite <- (inv_shape G st Hinv) in Hsome. apply shape_is_Some in Hsome.
      rewrite Hn in Hsome. now destruct Hsome. }
  destruct (flag (st_inStack st) name) eqn:Hs.
  { injection H as <-. exists name. auto. }
  destruct (flag (st_visited st) name) eqn:Hv; [discriminate|].
  assert (Hshape : shape G name = Some (Type_ node, Deps node)).
  { rewrite <- (inv_shape G st Hinv). unfold shape. now rewrite Hn. }
  destruct (Type_ node) eqn:Ht; [discriminate|].
  pose proof (inv_ok_push G st name Hinv Hv) as Hinv1.
  destruct (deps_loop (calcLevel fuel) (Deps node) (-1) _)
    as [[m' st2]|e'|] eqn:Hloop; try discriminate.
  injection H as <-.
  assert (Hedge : forall d, In d (Deps node) -> edge G name d).
  { intros d Hd. exists (Deps node). auto. }
  apply (deps_loop_failure (calcLevel fuel) (calcLevel_success G fuel) IH
           _ _ _ _ Hloop Hinv1).
  - intros d Hd. apply G_closed with name. auto.
  - intros d k Hd Hk. cbn [st_inStack] in Hk.
    destruct (decide (name = k)) as [->|Hne].
    + apply tc_once. auto.
    + rewrite flag_insert_ne in Hk by assumption.
      eapply tc_r; [apply Hpath; assumption | auto].
Qed.

(** The loop of [calculateLevels] over all nodes. *)
Lemma levels_loop_spec (fuel : nat) (names : list string) :
  forall st,
    inv_ok G st -> (forall k, flag (st_inStack st) k = false) ->
    (forall n, In n names -> is_Some (G !! n)) ->
    (free_nodes G st < fuel)%nat ->
    match levels_loop fuel names st with
    | Done st' =>
        inv_ok G st' /\ visited_mono st st' /\
        forall n, In n names -> flag (st_visited st') n = true
    | Failed e => exists x, e = ErrCircular x /\ tc (edge G) x x
    | OutOfFuel => False
    end.
Proof.
  induction names as [|name names IH]; intros st Hinv Hstack Hsome Hfree.
  - cbn. split; [assumption|]. split; [apply visited_mono_refl | intros n []].
  - cbn [levels_loop].
    pose proof (calcLevel_fuel fuel name st Hinv Hfree) as Hfuel.
    destruct (calcLevel fuel name st) as [[l st1]|e|] eqn:Hc.
    + destruct (calcLevel_success G fuel _ _ _ _ Hc Hinv)
        as (Hinv1 & Hss1 & Hvm1 & Hv1 & _).
      specialize (IH st1 Hinv1).
      destruct (levels_loop fuel names st1) as [st'|e|].
      * destruct IH as (Hinv' & Hvm' & Hvis).
        -- intros k. now rewrite Hss1.
        -- intros n Hn. apply Hsome. now right.
        -- now rewrite (free_nodes_same G st st1).
        -- split; [assumption|].
           split; [eapply visited_mono_trans; eassumption|].
           intros n [<-|Hn]; [apply (Hvm' _ Hv1) | auto].
      * apply IH.
        -- intros k. now rewrite Hss1.
        -- intros n Hn. apply Hsome. now right.
        -- now rewrite (free_nodes_same G st st1).
      * apply IH.
        -- intros k. now rewrite Hss1.
        -- intros n Hn. apply Hsome. now right.
        -- now rewrite (free_nodes_same G st st1).
    + apply (calcLevel_failure fuel _ _ _ Hc Hinv).
      * apply Hsome. now left.
      * intros k Hk. rewrite Hstack in Hk. discriminate.
    + now destruct Hfuel.
Qed.

(** [calculateLevels] on a graph whose dependencies all name a node: it
    ends, either with every level right or with the report of a node on a
    cycle. *)
Lemma calculateLevels_spec :
  match calculateLevels {| Nodes := G |} with
  | Done g =>
      (forall k, shape (Nodes g) k = shape G k) /\
      (forall k, is_Some (G !! k) ->
                 level_ok G (Nodes g) k /\ 0 <= lvl (Nodes g) k)
  | Failed e => exists x, e = ErrCircular x /\ tc (edge G) x x
  | OutOfFuel => False
  end.
Proof.
  unfold calculateLevels. cbn [Nodes].
  set (st0 := {| st_nodes := G; st_visited := ∅; st_inStack := ∅ |}).
  assert (Hinv0 : inv_ok G st0).
  { constructor; cbn [st_nodes st_visited st_inStack]; auto;
      intros k; rewrite flag_empty; intros; discriminate. }
  pose proof (levels_loop_spec (S (size G)) (List.map fst (map_to_list G)) st0 Hinv0)
    as H.
  destruct (levels_loop (S (size G)) (List.map fst (map_to_list G)) st0) as [st'|e|].
  - destruct H as (Hinv' & _ & Hvis).
    + intros k. apply flag_empty.
    + intros n Hn. now apply In_keys.
    + pose proof (free_nodes_bound G st0). lia.
    + cbn [Nodes]. split; [apply (inv_shape G st' Hinv')|].
      intros k Hk. apply (inv_level G st' Hinv'). apply Hvis. now apply In_keys.
  - apply H.
    + intros k. apply flag_empty.
    + intros n Hn. now apply In_keys.
    + pose proof (free_nodes_bound G st0). lia.
  - apply H.
    + intros k. apply flag_empty.
    + intros n Hn. now apply In_keys.
    + pose proof (free_nodes_bound G st0). lia.
Qed.

End CalcLevelTotal.

(** ** The dependency graph: construction *)

Lemma add_sources_lookup (names : list string) (nodes : gmap string Node) (k : string) :
  add_sources names nodes !! k =
    if decide (k ∈ names) then Some (source_node k) else nodes !! k.
Proof.
  unfold add_sources. revert nodes.
  induction names as [|n names IH]; intros nodes; cbn [foldl].
  - destruct (decide (k ∈ [])) as [Hx|]; [|reflexivity].
    now apply not_elem_of_nil in Hx.
  - rewrite IH. fold (source_node n).
    destruct (decide (k ∈ names)) as [Hin|Hnin].
    + destruct (decide (k ∈ n :: names)) as [|Hx]; [reflexivity|].
      destruct Hx. now apply elem_of_cons; right.
    + destruct (decide (n = k)) as [->|Hne].
      * rewrite lookup_insert_eq.
        destruct (decide (k ∈ k :: names)) as [|Hx]; [reflexivity|].
        destruct Hx. now apply elem_of_cons; left.
      * rewrite lookup_insert_ne by assumption.
        destruct (decide (k ∈ n :: names)) as [Hx|]; [|reflexivity].
        apply elem_of_cons in Hx as [Hx|Hx]; [congruence|tauto].
Qed.

Lemma add_targets_lookup (names : list string) (nodes : gmap string Node) (k : string) :
  add_targets names nodes !! k =
    if decide (k ∈ names) then Some (target_node k) else nodes !! k.
Proof.
  unfold add_targets. revert nodes.
  induction names as [|n names IH]; intros nodes; cbn [foldl].
  - destruct (decide (k ∈ [])) as [Hx|]; [|reflexivity].
    now apply not_elem_of_nil in Hx.
  - rewrite IH. fold (target_node n).
    destruct (decide (k ∈ names)) as [Hin|Hnin].
    + destruct (decide (k ∈ n :: names)) as [|Hx]; [reflexivity|].
      destruct Hx. now apply elem_of_cons; right.
    + destruct (decide (n = k)) as [->|Hne].
      * rewrite lookup_insert_eq.
        destruct (decide (k ∈ k :: names)) as [|Hx]; [reflexivity|].
        destruct Hx. now apply elem_of_cons; left.
      * rewrite lookup_insert_ne by assumption.
        destruct (decide (k ∈ n :: names)) as [Hx|]; [|reflexivity].
        apply elem_of_cons in Hx as [Hx|Hx]; [congruence|tauto].
Qed.

Lemma shape_add_Dep (nodes : gmap string Node) (name imp k : string) :
  shape (alter (add_Dep imp) name nodes) k =
    if decide (name = k) then add_deps [imp] <$> shape nodes k else shape nodes k.
Proof.
  unfold shape. destruct (decide (name = k)) as [->|Hne].
  - rewrite lookup_alter_eq. now destruct (nodes !! k).
  - now rewrite lookup_alter_ne.
Qed.

Lemma shape_add_DependedBy (nodes : gmap string Node) (name imp k : string) :
  shape (alter (add_DependedBy name) imp nodes) k = shape nodes k.
Proof.
  unfold shape. destruct (decide (imp = k)) as [->|Hne].
  - rewrite lookup_alter_eq. now destruct (nodes !! k).
  - now rewrite lookup_alter_ne.
Qed.

Lemma add_deps_app (xs ys : list string) (s : option (NodeType * list string)) :
  add_deps ys <$> (add_deps xs <$> s) = add_deps (xs ++ ys) <$> s.
Proof.
  destruct s as [[t d]|]; [|reflexivity]. cbn. unfold add_deps. cbn.
  now rewrite app_assoc.
Qed.

Lemma add_deps_nil (s : option (NodeType * list string)) : add_deps [] <$> s = s.
Proof.
  destruct s as [[t d]|]; [|reflexivity]. cbn. unfold add_deps. cbn.
  now rewrite app_nil_r.
Qed.

(** The loop over the imports of one target: it fails on the first import
    that names no node, and otherwise appends the imports to the
    dependencies of the target. *)
Lemma add_imports_spec (name : string) (imps : list string) :
  forall nodes,
    match add_imports name imps nodes with
    | inr nodes' =>
        (forall imp, In imp imps -> is_Some (nodes !! imp)) /\
        (forall k, shape nodes' k =
                   if decide (name = k) then add_deps imps <$> shape nodes k
                   else shape nodes k)
    | inl e => exists imp, In imp imps /\ nodes !! imp = None /\
                           e = ErrUnknownImport name imp
    end.
Proof.
  induction imps as [|imp imps IH]; intros nodes; cbn [add_imports].
  - split; [intros imp []|]. intros k. rewrite add_deps_nil. now destruct (decide _).
  - destruct (nodes !! imp) as [n|] eqn:Hn.
    2:{ exists imp. split; [now left | auto]. }
    set (nodes2 := alter (add_DependedBy name) imp (alter (add_Dep imp) name nodes)).
    assert (Hs2 : forall k, shape nodes2 k =
                            if decide (name = k) then add_deps [imp] <$> shape nodes k
                            else shape nodes k).
    { intros k. subst nodes2. now rewrite shape_add_DependedBy, shape_add_Dep. }
    assert (Hd2 : forall k, is_Some (nodes2 !! k) <-> is_Some (nodes !! k)).
    { intros k. rewrite <- !shape_is_Some, Hs2.
      destruct (decide (name = k)); [|reflexivity]. now rewrite fmap_is_Some. }
    specialize (IH nodes2).
    destruct (add_imports name imps nodes2) as [e|nodes'].
    + destruct IH as (imp' & Hin & Hnone & ->). exists imp'.
      split; [now right|]. split; [|reflexivity].
      destruct (nodes !! imp') eqn:E; [|reflexivity].
      assert (Hx : is_Some (nodes2 !! imp')) by (apply Hd2; eauto).
      rewrite Hnone in Hx. now destruct Hx.
    + destruct IH as [Hall Hshape]. split.
      * intros x [<-|Hx]; [eauto | apply Hd2; auto].
      * intros k. rewrite Hshape, Hs2.
        destruct (decide (name = k)); [|reflexivity].
        now rewrite add_deps_app.
Qed.

(** The loop over the targets. *)
Lemma add_edges_spec (l : list (string * Target)) :
  forall nodes,
    match add_edges l nodes with
    | inr nodes' =>
        (forall name t imp, In (name, t) l -> In imp (Imports t) ->
                            is_Some (nodes !! imp)) /\
        (forall k, shape nodes' k = add_deps (imports_of l k) <$> shape nodes k)
    | inl e => exists name t imp, In (name, t) l /\ In imp (Imports t) /\
                                  nodes !! imp = None
    end.
Proof.
  induction l as [|[name t] l IH]; intros nodes; cbn [add_edges].
  - split; [intros ? ? ? []|]. intros k. cbn. now rewrite add_deps_nil.
  - pose proof (add_imports_spec name (Imports t) nodes) as H1.
    destruct (add_imports name (Imports t) nodes) as [e|nodes1].
    { destruct H1 as (imp & Hin & Hnone & _). exists name, t, imp.
      split; [now left | auto]. }
    destruct H1 as [Hall1 Hs1].
    assert (Hd1 : forall k, is_Some (nodes1 !! k) <-> is_Some (nodes !! k)).
    { intros k. rewrite <- !shape_is_Some, Hs1.
      destruct (decide (name = k)); [|reflexivity]. now rewrite fmap_is_Some. }
    specialize (IH nodes1).
    destruct (add_edges l nodes1) as [e|nodes'].
    + destruct IH as (n' & t' & imp & Hin & Himp & Hnone).
      exists n', t', imp. split; [now right|]. split; [assumption|].
      destruct (nodes !! imp) eqn:E; [|reflexivity].
      assert (Hx : is_Some (nodes1 !! imp)) by (apply Hd1; eauto).
      rewrite Hnone in Hx. now destruct Hx.
    + destruct IH as [Hall Hshape]. split.
      * intros n' t' imp [[= <- <-]|Hin] Himp; [auto|].
        apply Hd1. eapply Hall; eassumption.
      * intros k. rewrite Hshape, Hs1. unfold imports_of. cbn [flat_map fst snd].
        destruct (decide (name = k)) as [->|Hne].
        -- rewrite String.eqb_refl. now rewrite add_deps_app.
        -- apply String.eqb_neq in Hne. now rewrite Hne.
Qed.

Lemma imports_of_absent (l : list (string * Target)) (k : string) :
  ~ In k (List.map fst l) -> imports_of l k = [].
Proof.
  induction l as [|[n t] l IH]; [reflexivity|]. cbn [List.map fst In].
  intros H. unfold imports_of. cbn [flat_map fst snd].
  destruct (String.eqb_spec n k) as [->|Hne]; [tauto|].
  cbn [app]. apply IH. tauto.
Qed.

Lemma imports_of_present (l : list (string * Target)) (k : string) (t : Target) :
  NoDup (List.map fst l) -> In (k, t) l -> imports_of l k = Imports t.
Proof.
  induction l as [|[n t0] l IH]; [intros _ []|]. cbn [List.map fst].
  intros Hnd Hin. apply NoDup_cons in Hnd as [Hn Hnd].
  unfold imports_of. cbn [flat_map fst snd].
  destruct Hin as [[= -> ->]|Hin].
  - rewrite String.eqb_refl. fold (imports_of l k).
    rewrite imports_of_absent; [apply app_nil_r|].
    intros Hx. apply Hn. now apply list_elem_of_In.
  - destruct (String.eqb_spec n k) as [->|Hne].
    + exfalso. apply Hn. apply list_elem_of_In.
      apply in_map_iff. exists (k, t). auto.
    + cbn [app]. now apply IH.
Qed.

Lemma imports_of_targets (targets : gmap string Target) (k : string) :
  imports_of (map_to_list targets) k =
    match targets !! k with
    | Some t => Imports t
    | None => []
    end.
Proof.
  destruct (targets !! k) as [t|] eqn:Hk.
  - apply imports_of_present; [apply NoDup_keys | now apply In_map_to_list].
  - apply imports_of_absent. rewrite In_keys, Hk. now intros [x Hx].
Qed.

Lemma initial_nodes_lookup (cfg : Config) (k : string) :
  initial_nodes cfg !! k =
    match Targets cfg !! k with
    | Some _ => Some (target_node k)
    | None =>
        match Sources cfg !! k with
        | Some _ => Some (source_node k)
        | None => None
        end
    end.
Proof.
  unfold initial_nodes. rewrite add_targets_lookup, add_sources_lookup, lookup_empty.
  destruct (decide (k ∈ List.map fst (map_to_list (Targets cfg)))) as [Ht|Ht];
    rewrite list_elem_of_In, In_keys in Ht.
  - destruct Ht as [t ->]. reflexivity.
  - destruct (Targets cfg !! k) as [t|]; [destruct Ht; eauto|].
    destruct (decide (k ∈ List.map fst (map_to_list (Sources cfg)))) as [Hs|Hs];
      rewrite list_elem_of_In, In_keys in Hs.
    + destruct Hs as [x ->]. reflexivity.
    + destruct (Sources cfg !! k); [destruct Hs; eauto | reflexivity].
Qed.

(** When every import names a source or a target, the third loop of
    [BuildGraph] succeeds, and the nodes carry the imports as their
    dependencies. *)
Lemma add_edges_config (cfg : Config) :
  imports_resolve cfg ->
  exists G, add_edges (map_to_list (Targets cfg)) (initial_nodes cfg) = inr G /\
            forall k, shape G k = config_shape cfg k.
Proof.
  intros Hres.
  pose proof (add_edges_spec (map_to_list (Targets cfg)) (initial_nodes cfg)) as H.
  destruct (add_edges (map_to_list (Targets cfg)) (initial_nodes cfg)) as [e|G].
  - exfalso. destruct H as (name & t & imp & Hin & Himp & Hnone).
    apply In_map_to_list in Hin.
    destruct (Hres name imp) as [[x Hx]|[x Hx]]; [exists t; auto| |];
      rewrite initial_nodes_lookup, Hx in Hnone; [|discriminate].
    destruct (Targets cfg !! imp); discriminate.
  - exists G. split; [reflexivity|]. destruct H as [_ Hshape].
    intros k. rewrite Hshape, imports_of_targets. unfold shape, config_shape.
    rewrite initial_nodes_lookup.
    destruct (Targets cfg !! k) as [t|]; [reflexivity|].
    destruct (Sources cfg !! k); reflexivity.
Qed.

Lemma edge_config (cfg : Config) (G : gmap string Node) :
  (forall k, shape G k = config_shape cfg k) ->
  forall a b, edge G a b <-> imports cfg a b.
Proof.
  intros Hshape a b. unfold edge, imports. rewrite Hshape. unfold config_shape.
  split.
  - intros (deps & Hs & Hin). destruct (Targets cfg !! a) as [t|].
    + injection Hs as <-. eauto.
    + destruct (Sources cfg !! a); discriminate.
  - intros (t & -> & Hin). eauto.
Qed.

Lemma tc_iff {X : Type} (R S : relation X) :
  (forall a b, R a b <-> S a b) -> forall x y, tc R x y <-> tc S x y.
Proof.
  intros H x y. split; intros Ht; induction Ht as [x y Hxy|x y z Hxy _ IH].
  - apply tc_once. now apply H.
  - eapply tc_l; [apply H|]; eassumption.
  - apply tc_once. now apply H.
  - eapply tc_l; [apply H|]; eassumption.
Qed.

(** Levels fall strictly along dependency edges, so a graph with right
    levels has no cycle. *)
Lemma levels_fall (G nodes : gmap string Node) :
  closed G ->
  (forall k, is_Some (G !! k) -> level_ok G nodes k) ->
  forall a b, tc (edge G) a b -> lvl nodes b < lvl nodes a.
Proof.
  intros Hclosed Hok.
  assert (Hstep : forall a b, edge G a b -> lvl nodes b < lvl nodes a).
  { intros a b (deps & Hs & Hin).
    assert (Ha : is_Some (G !! a)) by (apply shape_is_Some; rewrite Hs; eauto).
    specialize (Hok a Ha). unfold level_ok in Hok. rewrite Hs in Hok.
    now apply Hok. }
  intros a b Ht. induction Ht as [a b Hab|a b c Hab _ IH].
  - auto.
  - specialize (Hstep a b Hab). lia.
Qed.

(** A graph that [BuildGraph] returns comes from a configuration whose
    imports resolve. *)
Lemma BuildGraph_Done_resolve (cfg : Config) (g : Graph) :
  BuildGraph cfg = Done g -> imports_resolve cfg.
Proof.
  unfold BuildGraph. fold (initial_nodes cfg). intros H a b (t & Ha & Hb).
  pose proof (add_edges_spec (map_to_list (Targets cfg)) (initial_nodes cfg)) as Hs.
  destruct (add_edges (map_to_list (Targets cfg)) (initial_nodes cfg)) as [e|G];
    [discriminate|].
  destruct Hs as [Hall _].
  assert (Hb' : is_Some (initial_nodes cfg !! b)).
  { apply (Hall a t b); [now apply In_map_to_list | assumption]. }
  rewrite initial_nodes_lookup in Hb'.
  destruct (Targets cfg !! b); [eauto|].
  destruct (Sources cfg !! b); [eauto|]. now destruct Hb'.
Qed.

(** After the three loops of [BuildGraph] the nodes are those of the
    configuration, and [calculateLevels] runs on them. *)
Lemma BuildGraph_calculateLevels (cfg : Config) :
  imports_resolve cfg ->
  exists G,
    (forall k, shape G k = config_shape cfg k) /\ closed G /\
    BuildGraph cfg = calculateLevels {| Nodes := G |}.
Proof.
  intros Hres.
  destruct (add_edges_config cfg Hres) as (G & Hedges & Hshape).
  exists G. split; [assumption|]. split.
  - intros a b Hab. apply shape_is_Some. rewrite Hshape.
    apply (edge_config cfg G Hshape) in Hab.
    unfold config_shape.
    destruct (Hres a b Hab) as [[x Hx]|[x Hx]]; rewrite Hx; [|eauto].
    destruct (Targets cfg !! b); eauto.
  - unfold BuildGraph. fold (initial_nodes cfg). now rewrite Hedges.
Qed.

(** The graph that [BuildGraph] returns: its nodes are those of the
    configuration, and the level of each obeys the level equation. *)
Lemma BuildGraph_Done_shape (cfg : Config) (g : Graph) :
  BuildGraph cfg = Done g ->
  exists G,
    (forall k, shape G k = config_shape cfg k) /\ closed G /\
    (forall k, shape (Nodes g) k = config_shape cfg k) /\
    (forall k, is_Some (config_shape cfg k) ->
               level_ok G (Nodes g) k /\ 0 <= lvl (Nodes g) k).
Proof.
  intros Hg.
  destruct (BuildGraph_calculateLevels cfg (BuildGraph_Done_resolve cfg g Hg))
    as (G & Hshape & Hclosed & HB).
  pose proof (calculateLevels_spec G Hclosed) as Hspec.
  rewrite <- HB, Hg in Hspec. destruct Hspec as [Hs Hl].
  exists G. split; [assumption|]. split; [assumption|]. split.
  - intros k. now rewrite Hs.
  - intros k Hk. apply Hl. apply shape_is_Some. now rewrite Hshape.
Qed.

(** The nodes of the graph that [BuildGraph] returns, in terms of the
    configuration. *)
Lemma BuildGraph_Done_levels (cfg : Config) (g : Graph) :
  BuildGraph cfg = Done g ->
  (forall k n, Nodes g !! k = Some n -> Type_ n = NodeTypeSource -> Level n = 0) /\
  (forall k s, Sources cfg !! k = Some s -> Targets cfg !! k = None ->
     exists n, Nodes g !! k = Some n /\ Type_ n = NodeTypeSource /\ Level n = 0) /\
  (forall k t, Targets cfg !! k = Some t ->
     exists n, Nodes g !! k = Some n /\ Type_ n = NodeTypeTarget /\
               Deps n = Imports t /\
               (forall d, In d (Imports t) -> level_of g d < Level n) /\
               (Imports t <> [] ->
                exists d, In d (Imports t) /\ Level n = 1 + level_of g d) /\
               (Imports t = [] -> Level n = 0)).
Proof.
  intros Hg. destruct (BuildGraph_Done_shape cfg g Hg) as (G & Hshape & _ & Hs & Hl).
  assert (Hlvl : forall k, lvl (Nodes g) k = level_of g k) by (now destruct g).
  split; [|split].
  + intros k n Hk Ht.
    assert (Hsk : shape (Nodes g) k = Some (NodeTypeSource, Deps n)).
    { unfold shape. rewrite Hk. cbn. now rewrite Ht. }
    destruct (Hl k) as [Hok _]; [rewrite <- Hs, Hsk; eauto|].
    unfold level_ok in Hok. rewrite Hshape, <- Hs, Hsk in Hok.
    unfold lvl, level_of in Hok. cbn [Nodes] in Hok. now rewrite Hk in Hok.
  + intros k s Hk Ht.
    assert (Hck : config_shape cfg k = Some (NodeTypeSource, [])).
    { unfold config_shape. now rewrite Ht, Hk. }
    pose proof (Hs k) as Hsk. rewrite Hck in Hsk. unfold shape in Hsk.
    destruct (Nodes g !! k) as [n|] eqn:Hn; [|discriminate].
    injection Hsk as Hty Hdeps. exists n. split; [reflexivity|]. split; [assumption|].
    destruct (Hl k) as [Hok _]; [rewrite Hck; eauto|].
    unfold level_ok in Hok. rewrite Hshape, Hck in Hok.
    unfold lvl, level_of in Hok. cbn [Nodes] in Hok. now rewrite Hn in Hok.
  + intros k t Hk.
    assert (Hck : config_shape cfg k = Some (NodeTypeTarget, Imports t)).
    { unfold config_shape. now rewrite Hk. }
    pose proof (Hs k) as Hsk. rewrite Hck in Hsk. unfold shape in Hsk.
    destruct (Nodes g !! k) as [n|] eqn:Hn; [|discriminate].
    injection Hsk as Hty Hdeps. exists n.
    split; [reflexivity|]. split; [assumption|]. split; [assumption|].
    destruct (Hl k) as [Hok _]; [rewrite Hck; eauto|].
    unfold level_ok in Hok. rewrite Hshape, Hck in Hok.
    assert (Hlk : lvl (Nodes g) k = Level n).
    { unfold lvl, level_of. cbn [Nodes]. now rewrite Hn. }
    rewrite Hlk in Hok. destruct Hok as (H1 & H2 & H3).
    split; [|split].
    * intros d Hd. rewrite <- Hlvl. auto.
    * intros Hne. destruct (H3 Hne) as (d & Hd & Hl'). exists d.
      rewrite <- Hlvl. auto.
    * assumption.
Qed.

(** C2.  For a configuration whose imports all resolve to known sources or
    targets, [BuildGraph] ends; it returns an error exactly when the import
    relation has a cycle, and the error names a node on a cycle; in the
    success case every source has level 0 and every target has a level
    above the level of each of its imports and one more than the level of
    one of them, that is 1 + the maximum of the levels of its imports (0
    for a target without imports). *)
Theorem build_graph_levels (cfg : Config) :
  imports_resolve cfg ->
  BuildGraph cfg <> OutOfFuel /\
  (forall e, BuildGraph cfg = Failed e ->
             exists x, e = ErrCircular x /\ tc (imports cfg) x x) /\
  ((exists x, tc (imports cfg) x x) ->
   exists x, BuildGraph cfg = Failed (ErrCircular x)) /\
  (forall g, BuildGraph cfg = Done g ->
     (forall k n, Nodes g !! k = Some n -> Type_ n = NodeTypeSource -> Level n = 0) /\
     (forall k s, Sources cfg !! k = Some s -> Targets cfg !! k = None ->
        exists n, Nodes g !! k = Some n /\ Type_ n = NodeTypeSource /\ Level n = 0) /\
     (forall k t, Targets cfg !! k = Some t ->
        exists n, Nodes g !! k = Some n /\ Type_ n = NodeTypeTarget /\
                  Deps n = Imports t /\
                  (forall d, In d (Imports t) -> level_of g d < Level n) /\
                  (Imports t <> [] ->
                   exists d, In d (Imports t) /\ Level n = 1 + level_of g d) /\
                  (Imports t = [] -> Level n = 0))).
Proof.
  intros Hres.
  destruct (BuildGraph_calculateLevels cfg Hres) as (G & Hshape & Hclosed & HB).
  pose proof (calculateLevels_spec G Hclosed) as Hspec.
  rewrite <- HB in Hspec.
  assert (Hfail : forall e, BuildGraph cfg = Failed e ->
                            exists x, e = ErrCircular x /\ tc (imports cfg) x x).
  { intros e He. rewrite He in Hspec. destruct Hspec as (x & -> & Hx).
    exists x. split; [reflexivity|].
    now apply (tc_iff _ _ (edge_config cfg G Hshape)). }
  split; [|split; [|split]].
  - intros Hx. now rewrite Hx in Hspec.
  - exact Hfail.
  - intros (x & Hx). destruct (BuildGraph cfg) as [g|e|] eqn:Hg.
    + exfalso. destruct Hspec as [Hs Hl].
      apply (tc_iff _ _ (edge_config cfg G Hshape)) in Hx.
      pose proof (levels_fall G (Nodes g) Hclosed) as Hfall.
      assert (lvl (Nodes g) x < lvl (Nodes g) x); [|lia].
      apply Hfall; [|assumption].
      intros k Hk. apply Hl. assumption.
    + destruct (Hfail e eq_refl) as (y & -> & _). eauto.
    + now destruct Hspec.
  - intros g Hg. exact (BuildGraph_Done_levels cfg g Hg).
Qed.

Lemma imports_resolve_b_true (cfg : Config) :
  imports_resolve_b cfg = true -> imports_resolve cfg.
Proof.
  unfold imports_resolve_b, imports_resolve, imports.
  rewrite forallb_forall. intros H a b (t & Ha & Hb).
  apply In_map_to_list in Ha. specialize (H _ Ha). cbn [snd] in H.
  rewrite forallb_forall in H. specialize (H b Hb).
  destruct (Sources cfg !! b); [eauto|].
  destruct (Targets cfg !! b); [eauto | discriminate].
Qed.

Lemma build_graph_levels_witness :
  level_of ex_graph_chain "Stg" = 1 /\
  level_of ex_graph_chain "Prod" = 1 + level_of ex_graph_chain "Stg" /\
  level_of ex_graph_chain "Demo" = 1 + level_of ex_graph_chain "Prod" /\
  exists x, tc (imports ex_config_cycle) x x.
Proof.
  assert (Hres : imports_resolve ex_config_chain)
    by (apply imports_resolve_b_true; vm_compute; reflexivity).
  assert (Hres' : imports_resolve ex_config_cycle)
    by (apply imports_resolve_b_true; vm_compute; reflexivity).
  destruct (build_graph_levels ex_config_chain Hres) as (_ & _ & _ & Hdone).
  destruct (build_graph_levels ex_config_cycle Hres') as (_ & Hfail & _).
  assert (E : BuildGraph ex_config_chain = Done ex_graph_chain)
    by (vm_compute; reflexivity).
  destruct (Hdone _ E) as (_ & _ & Htargets).
  split; [vm_compute; reflexivity|].
  split; [vm_compute; reflexivity|].
  split; [vm_compute; reflexivity|].
  destruct (Hfail (ErrCircular "C")) as (x & _ & Hx); [vm_compute; reflexivity|].
  exists x. exact Hx.
Defined.

(** ** The topological order *)

Lemma level_name_less_asym (g : Graph) (a b : string) :
  level_name_less g a b = true -> level_name_less g b a = false.
Proof.
  unfold level_name_less.
  destruct (Z.eqb_spec (level_of g a) (level_of g b)) as [E|E]; cbn [negb].
  - rewrite E, Z.eqb_refl. cbn [negb]. apply ltb_asym.
  - destruct (Z.eqb_spec (level_of g b) (level_of g a)) as [E'|E']; [congruence|].
    cbn [negb]. rewrite !Z.ltb_lt, Z.ltb_ge. lia.
Qed.

Lemma level_name_less_negtrans (g : Graph) (a b c : string) :
  level_name_less g a b = false -> level_name_less g b c = false ->
  level_name_less g a c = false.
Proof.
  unfold level_name_less.
  destruct (Z.eqb_spec (level_of g a) (level_of g b)) as [E1|E1];
    destruct (Z.eqb_spec (level_of g b) (level_of g c)) as [E2|E2];
    destruct (Z.eqb_spec (level_of g a) (level_of g c)) as [E3|E3];
    cbn [negb]; rewrite ?Z.ltb_ge; try lia; try apply ltb_negtrans.
Qed.

Lemma level_name_less_connected (g : Graph) (a b : string) :
  level_name_less g a b = false -> level_name_less g b a = false -> a = b.
Proof.
  unfold level_name_less.
  destruct (Z.eqb_spec (level_of g a) (level_of g b)) as [E|E]; cbn [negb].
  - rewrite E, Z.eqb_refl. cbn [negb]. apply ltb_connected.
  - destruct (Z.eqb_spec (level_of g b) (level_of g a)) as [E'|E']; [congruence|].
    cbn [negb]. rewrite !Z.ltb_ge. lia.
Qed.

Lemma level_name_less_levels (g : Graph) (a b : string) :
  level_of g a < level_of g b -> level_name_less g a b = true.
Proof.
  intros H. unfold level_name_less.
  destruct (Z.eqb_spec (level_of g a) (level_of g b)) as [E|E]; [lia|].
  cbn [negb]. now apply Z.ltb_lt.
Qed.

(** C3.  For a graph that [BuildGraph] returns, [TopologicalOrder] lists
    every target exactly once, sorted by level and then by name, and a
    target that another target imports stands at a strictly smaller index
    than the importing target. *)
Theorem topological_order (cfg : Config) (g : Graph) :
  BuildGraph cfg = Done g ->
  NoDup (TopologicalOrder g) /\
  (forall k, In k (TopologicalOrder g) <-> is_Some (Targets cfg !! k)) /\
  StronglySorted (fun a b => level_name_less g a b = true) (TopologicalOrder g) /\
  (forall d t, imports cfg t d -> is_Some (Targets cfg !! d) ->
     exists i j, TopologicalOrder g !! i = Some d /\
                 TopologicalOrder g !! j = Some t /\ (i < j)%nat).
Proof.
  intros Hg.
  destruct (BuildGraph_Done_levels cfg g Hg) as (Hsrc & _ & Htgt).
  unfold TopologicalOrder.
  set (is_target := fun entry : string * Node =>
                      match Type_ (snd entry) with
                      | NodeTypeTarget => true
                      | NodeTypeSource => false
                      end).
  set (targets := List.map fst (List.filter is_target (map_to_list (Nodes g)))).
  assert (Hnd : NoDup targets) by apply NoDup_map_filter, NoDup_keys.
  assert (Hin : forall k, In k targets <-> is_Some (Targets cfg !! k)).
  { intros k. subst targets. rewrite in_map_iff. split.
    - intros ([k' n] & <- & Hf). apply filter_In in Hf as [Hf Ht].
      apply In_map_to_list in Hf. subst is_target. cbn [fst snd] in *.
      destruct (Targets cfg !! k') as [t|] eqn:Hk; [eauto|]. exfalso.
      destruct (Type_ n) eqn:Hty; [discriminate|].
      (* a node that is not a target of the configuration is a source *)
      destruct (BuildGraph_Done_shape cfg g Hg) as (G & _ & _ & Hs & _).
      specialize (Hs k'). unfold shape, config_shape in Hs.
      rewrite Hf, Hk in Hs. cbn in Hs. rewrite Hty in Hs.
      destruct (Sources cfg !! k'); discriminate.
    - intros [t Hk]. destruct (Htgt k t Hk) as (n & Hn & Hty & _).
      exists (k, n). split; [reflexivity|]. apply filter_In. split.
      + now apply In_map_to_list.
      + subst is_target. cbn [snd]. now rewrite Hty. }
  assert (Hsorted : StronglySorted (fun a b => level_name_less g a b = true)
                                   (sort_Slice (level_name_less g) targets)).
  { apply sort_Slice_strict.
    - apply level_name_less_asym.
    - apply level_name_less_negtrans.
    - exact Hnd.
    - intros x y _ _. apply level_name_less_connected. }
  split; [|split; [|split]].
  - now rewrite sort_Slice_Permutation.
  - intros k. now rewrite sort_Slice_In.
  - exact Hsorted.
  - intros d t (tt & Ht & Hd) Hdt.
    assert (Hind : In d (sort_Slice (level_name_less g) targets))
      by now apply sort_Slice_In, Hin.
    assert (Hint : In t (sort_Slice (level_name_less g) targets))
      by (apply sort_Slice_In, Hin; eauto).
    apply list_elem_of_In, list_elem_of_lookup in Hind as [i Hi].
    apply list_elem_of_In, list_elem_of_lookup in Hint as [j Hj].
    exists i, j. split; [assumption|]. split; [assumption|].
    apply (sorted_positions (fun a b => level_name_less g a b = true)
             _ i j d t Hsorted); try assumption.
    + intros a Ha. pose proof (level_name_less_asym g a a Ha). congruence.
    + intros a b Ha Hb. pose proof (level_name_less_asym g a b Ha). congruence.
    + apply level_name_less_levels.
      destruct (Htgt t tt Ht) as (n & Hn & _ & _ & Hlt & _).
      specialize (Hlt d Hd). unfold level_of at 2. now rewrite Hn.
Qed.

Lemma topological_order_witness :
  TopologicalOrder ex_graph_chain = ["Stg"; "Prod"; "Demo"] /\
  exists i j, TopologicalOrder ex_graph_chain !! i = Some "Stg" /\
              TopologicalOrder ex_graph_chain !! j = Some "Prod" /\ (i < j)%nat.
Proof.
  assert (E : BuildGraph ex_config_chain = Done ex_graph_chain)
    by (vm_compute; reflexivity).
  destruct (topological_order ex_config_chain ex_graph_chain E) as (_ & _ & _ & H).
  split; [vm_compute; reflexivity|].
  apply H.
  - exists (ex_graph_target "222222222222" ["Stg"]). split; [reflexivity | now left].
  - eexists. reflexivity.
Defined.

(** ** The store: what a merge writes *)

Lemma bind_inv {A B : Type} (m : M A) (k : A -> M B) (h : heap) (b : B) (h' : heap) :
  bind m k h = Some (b, h') ->
  exists a h1, m h = Some (a, h1) /\ k a h1 = Some (b, h').
Proof.
  unfold bind. destruct (m h) as [[a h1]|]; [eauto | discriminate].
Qed.

Lemma ret_inv {A : Type} (a b : A) (h h' : heap) :
  ret a h = Some (b, h') -> b = a /\ h' = h.
Proof. unfold ret. intros [= <- <-]. auto. Qed.

Lemma load_map_inv (l : loc) (h : heap) (m : gmap string hval) (h' : heap) :
  load_map l h = Some (m, h') -> h' = h /\ h !! l = Some (OMap m).
Proof.
  unfold load_map. destruct (h !! l) as [[m'|e]|]; try discriminate.
  intros [= <- <-]. auto.
Qed.

Lemma load_slice_inv (l : loc) (h : heap) (e : list hval) (h' : heap) :
  load_slice l h = Some (e, h') -> h' = h /\ h !! l = Some (OSlice e).
Proof.
  unfold load_slice. destruct (h !! l) as [[m'|e']|]; try discriminate.
  intros [= <- <-]. auto.
Qed.

Lemma alloc_inv (o : obj) (h : heap) (r : loc) (h' : heap) :
  alloc o h = Some (r, h') -> r = length h /\ h' = h ++ [o].
Proof. unfold alloc. intros [= <- <-]. auto. Qed.

(** A loop keeps what each of its rounds keeps. *)
Lemma for_each_inv {A : Type} (I : heap -> Prop) (l : list A) (body : A -> M unit) :
  (forall x h1 u h2, In x l -> body x h1 = Some (u, h2) -> I h1 -> I h2) ->
  forall h u h', for_each l body h = Some (u, h') -> I h -> I h'.
Proof.
  induction l as [|x l IH]; intros Hbody h u h' H Hi.
  - apply ret_inv in H as [_ ->]. exact Hi.
  - cbn [for_each] in H. apply bind_inv in H as (u1 & h1 & H1 & H).
    apply (IH (fun y ha ub hb Hy => Hbody y ha ub hb (or_intror Hy)) h1 u h' H).
    apply (Hbody x h u1 h1); [now left | assumption | assumption].
Qed.

Lemma obj_vals_map_set (m : gmap string hval) (k : string) (v w : hval) :
  In w (obj_vals (OMap (<[k := v]> m))) -> w = v \/ In w (obj_vals (OMap m)).
Proof.
  cbn [obj_vals]. rewrite !in_map_iff. intros ([k' x] & <- & Hin).
  apply list_elem_of_In, elem_of_map_to_list in Hin. cbn [snd].
  destruct (decide (k = k')) as [->|Hne].
  - rewrite lookup_insert_eq in Hin. injection Hin as <-. now left.
  - rewrite lookup_insert_ne in Hin by assumption. right.
    exists (k', x). split; [reflexivity|].
    now apply list_elem_of_In, elem_of_map_to_list.
Qed.

Lemma In_list_insert {X : Type} (e : list X) (i : nat) (v w : X) :
  In w (<[i := v]> e) -> w = v \/ In w e.
Proof.
  revert i. induction e as [|x e IH]; intros i; [intros []|].
  destruct i as [|i]; cbn.
  - intros [<-|H]; auto.
  - intros [<-|H]; [auto|]. destruct (IH i H); auto.
Qed.

Lemma points_to_store (h : heap) (r : loc) (o o' : obj) (l l' : loc) :
  h !! r = Some o ->
  points_to (<[r := o']> h) l l' ->
  (l = r /\ exists v, In v (obj_vals o') /\ loc_of v = Some l') \/
  (l <> r /\ points_to h l l').
Proof.
  intros Hr (ob & v & Hl & Hv & Hloc).
  destruct (decide (l = r)) as [->|Hne].
  - left. split; [reflexivity|].
    rewrite list_lookup_insert_eq in Hl by (eapply lookup_lt_Some; eassumption).
    injection Hl as <-. eauto.
  - right. split; [assumption|]. rewrite list_lookup_insert_ne in Hl by auto.
    exists ob, v. auto.
Qed.

Lemma fresh_step_refl (h : heap) : fresh_step h h.
Proof.
  split; [lia|]. split; [auto|].
  intros l l' Hl (o & v & Ho & _). apply lookup_lt_Some in Ho. lia.
Qed.

Lemma fresh_step_trans (h1 h2 h3 : heap) :
  fresh_step h1 h2 -> fresh_step h2 h3 -> fresh_step h1 h3.
Proof.
  intros (L1 & A1 & C1) (L2 & A2 & C2). split; [lia|]. split.
  - intros l Hl. rewrite A2 by lia. auto.
  - intros l l' Hl Hp. destruct (decide (l < length h2)%nat) as [Hlt|Hge].
    + apply (C1 l l' Hl). destruct Hp as (o & v & Ho & Hv).
      exists o, v. rewrite <- A2 by assumption. auto.
    + assert (length h2 <= l')%nat by (apply (C2 l l'); [lia | assumption]). lia.
Qed.

Lemma fresh_step_alloc (h : heap) (o : obj) :
  (forall v, In v (obj_vals o) -> loc_of v = None) ->
  fresh_step h (h ++ [o]).
Proof.
  intros Ho. split; [rewrite length_app; lia|]. split.
  - intros l Hl. now rewrite lookup_app_l.
  - intros l l' Hl (ob & v & Hob & Hv & Hloc).
    assert (l = length h).
    { apply lookup_lt_Some in Hob. rewrite length_app in Hob. cbn in Hob. lia. }
    subst l. rewrite lookup_app_r in Hob by lia.
    replace (length h - length h)%nat with 0%nat in Hob by lia.
    injection Hob as <-. rewrite Ho in Hloc by assumption. discriminate.
Qed.

(** Writing, into an object added since [h], values it already held or
    references to added objects. *)
Lemma fresh_step_store (h hc : heap) (r : loc) (o o' : obj) :
  fresh_step h hc -> (length h <= r)%nat -> hc !! r = Some o ->
  (forall v, In v (obj_vals o') ->
             In v (obj_vals o) \/ val_in (fun l => (length h <= l)%nat) v) ->
  fresh_step h (<[r := o']> hc).
Proof.
  intros (L & A & C) Hr Ho Hvals. split; [rewrite length_insert; lia|]. split.
  - intros l Hl. rewrite list_lookup_insert_ne by lia. auto.
  - intros l l' Hl Hp.
    apply (points_to_store hc r o o' l l' Ho) in Hp as [[-> (v & Hv & Hloc)]|[Hne Hp]].
    + destruct (Hvals v Hv) as [Hold|Hnew].
      * apply (C r l'); [assumption|]. exists o, v. auto.
      * now apply Hnew.
    + now apply (C l l').
Qed.

Lemma val_in_weaken (W W' : loc -> Prop) (v : hval) :
  (forall l, W l -> W' l) -> val_in W v -> val_in W' v.
Proof. intros H Hv l Hl. auto. Qed.

(** [deepCopyValue] only adds objects, and what it returns is a scalar or
    a reference to an added object. *)
Lemma deepCopyValue_h_fresh (fuel : nat) :
  forall v h r h',
    deepCopyValue_h fuel v h = Some (r, h') ->
    fresh_step h h' /\ val_in (fun l => (length h <= l)%nat) r.
Proof.
  induction fuel as [|fuel IH]; intros v h r h' H; [discriminate|].
  cbn [deepCopyValue_h] in H. destruct v as [|s|l|l].
  - apply ret_inv in H as [-> ->]. split; [apply fresh_step_refl | intros l [=]].
  - apply ret_inv in H as [-> ->]. split; [apply fresh_step_refl | intros l [=]].
  - apply bind_inv in H as (typed & h1 & Hload & H).
    apply load_map_inv in Hload as [-> Hl].
    apply bind_inv in H as (result & h2 & Halloc & H).
    apply alloc_inv in Halloc as [-> ->].
    apply bind_inv in H as (u & h3 & Hloop & H).
    apply ret_inv in H as [-> ->].
    assert (Hinv : fresh_step h h3 /\ exists m, h3 !! length h = Some (OMap m)).
    { apply (for_each_inv
               (fun hc => fresh_step h hc /\ exists m, hc !! length h = Some (OMap m))
               _ _) with (h := h ++ [OMap ∅]) (u := u) (h' := h3) in Hloop;
        [exact Hloop| |].
      - intros [k val] ha ub hb _ Hbody [Hfa [m Hm]]. cbn [fst snd] in Hbody.
        apply bind_inv in Hbody as (c & hc & Hcopy & Hset).
        destruct (IH _ _ _ _ Hcopy) as [Hstep Hc].
        assert (Hmc : hc !! length h = Some (OMap m)).
        { destruct Hstep as (_ & A & _). rewrite A; [assumption|].
          eapply lookup_lt_Some; eassumption. }
        unfold map_set in Hset. rewrite Hmc in Hset. injection Hset as <- <-.
        split.
        + apply (fresh_step_store h hc (length h) (OMap m)); auto.
          * eapply fresh_step_trans; eassumption.
          * intros w Hw. apply obj_vals_map_set in Hw as [->|Hw]; [right|now left].
            eapply val_in_weaken; [|exact Hc]. cbn. intros l0 Hl0.
            destruct Hfa as (L & _). lia.
        + exists (<[k := c]> m). apply list_lookup_insert_eq.
          eapply lookup_lt_Some; eassumption.
      - split.
        + apply fresh_step_alloc. cbn. rewrite map_to_list_empty. intros v [].
        + exists ∅. rewrite lookup_app_r by lia.
          now replace (length h - length h)%nat with 0%nat by lia. }
    split; [apply Hinv|]. intros l0 [= <-]. lia.
  - apply bind_inv in H as (typed & h1 & Hload & H).
    apply load_slice_inv in Hload as [-> Hl].
    apply bind_inv in H as (result & h2 & Halloc & H).
    apply alloc_inv in Halloc as [-> ->].
    apply bind_inv in H as (u & h3 & Hloop & H).
    apply ret_inv in H as [-> ->].
    assert (Hinv : fresh_step h h3 /\ exists e, h3 !! length h = Some (OSlice e)).
    { apply (for_each_inv
               (fun hc => fresh_step h hc /\ exists e, hc !! length h = Some (OSlice e))
               _ _) with (h := h ++ [OSlice (replicate (length typed) HNil)])
                         (u := u) (h' := h3) in Hloop;
        [exact Hloop| |].
      - intros [i val] ha ub hb _ Hbody [Hfa [e He]]. cbn [fst snd] in Hbody.
        apply bind_inv in Hbody as (c & hc & Hcopy & Hset).
        destruct (IH _ _ _ _ Hcopy) as [Hstep Hc].
        assert (Hec : hc !! length h = Some (OSlice e)).
        { destruct Hstep as (_ & A & _). rewrite A; [assumption|].
          eapply lookup_lt_Some; eassumption. }
        unfold slice_set in Hset. rewrite Hec in Hset. injection Hset as <- <-.
        split.
        + apply (fresh_step_store h hc (length h) (OSlice e)); auto.
          * eapply fresh_step_trans; eassumption.
          * intros w Hw. cbn [obj_vals] in *.
            apply In_list_insert in Hw as [->|Hw]; [right|now left].
            eapply val_in_weaken; [|exact Hc]. cbn. intros l0 Hl0.
            destruct Hfa as (L & _). lia.
        + exists (<[i := c]> e). apply list_lookup_insert_eq.
          eapply lookup_lt_Some; eassumption.
      - split.
        + apply fresh_step_alloc. cbn. intros v Hv.
          apply list_elem_of_In, elem_of_replicate in Hv as [-> _]. reflexivity.
        + eexists. rewrite lookup_app_r by lia.
          now replace (length h - length h)%nat with 0%nat by lia. }
    split; [apply Hinv|]. intros l0 [= <-]. lia.
Qed.

Lemma map_set_inv (l : loc) (k : string) (v : hval) (h : heap) (u : unit) (h' : heap) :
  map_set l k v h = Some (u, h') ->
  exists m, h !! l = Some (OMap m) /\ h' = <[l := OMap (<[k := v]> m)]> h.
Proof.
  unfold map_set. destruct (h !! l) as [[m|e]|]; try discriminate.
  intros [= _ <-]. eauto.
Qed.

Lemma slice_push_inv (l : loc) (v : hval) (h : heap) (u : unit) (h' : heap) :
  slice_push l v h = Some (u, h') ->
  exists e, h !! l = Some (OSlice e) /\ h' = <[l := OSlice (e ++ [v])]> h.
Proof.
  unfold slice_push. destruct (h !! l) as [[m|e]|]; try discriminate.
  intros [= _ <-]. eauto.
Qed.

Lemma copy_push_fresh (copy : hval -> M hval) (h0 : heap) (r : loc) :
  copies_fresh copy -> (length h0 <= r)%nat ->
  forall l h u h',
    for_each l (fun v => c <- copy v ;; slice_push r c) h = Some (u, h') ->
    fresh_step h0 h -> fresh_step h0 h'.
Proof.
  intros Hcopy Hr l. apply for_each_inv.
  intros x ha ub hb _ Hbody Hfa.
  apply bind_inv in Hbody as (c & hc & Hc & Hpush).
  destruct (Hcopy _ _ _ _ Hc) as [Hstep Hfresh].
  apply slice_push_inv in Hpush as (e & He & ->).
  apply (fresh_step_store h0 hc r (OSlice e)); auto.
  - eapply fresh_step_trans; eassumption.
  - intros w Hw. cbn [obj_vals] in *. apply in_app_or in Hw as [Hw|[<-|[]]].
    + now left.
    + right. eapply val_in_weaken; [|exact Hfresh]. cbn. intros l0 Hl0.
      destruct Hfa as (L & _). lia.
Qed.

(** [appendSlices] only adds objects and returns an added one. *)
Lemma appendSlices_h_fresh (copy : hval -> M hval) (d s : loc) (h : heap) (r : loc) (h' : heap) :
  copies_fresh copy ->
  appendSlices_h copy d s h = Some (r, h') ->
  fresh_step h h' /\ (length h <= r)%nat.
Proof.
  intros Hcopy H. unfold appendSlices_h in H.
  apply bind_inv in H as (dstElems & h1 & Hd & H). apply load_slice_inv in Hd as [-> Hd].
  apply bind_inv in H as (srcElems & h1 & Hs & H). apply load_slice_inv in Hs as [-> Hs].
  apply bind_inv in H as (result & h1 & Ha & H). apply alloc_inv in Ha as [-> ->].
  apply bind_inv in H as (u1 & h2 & Hl1 & H).
  apply bind_inv in H as (u2 & h3 & Hl2 & H).
  apply ret_inv in H as [-> ->]. split; [|lia].
  apply (copy_push_fresh copy h (length h) Hcopy (le_n _) _ _ _ _ Hl2).
  apply (copy_push_fresh copy h (length h) Hcopy (le_n _) _ _ _ _ Hl1).
  apply fresh_step_alloc. intros v [].
Qed.

Lemma frame_inv_refl (h0 : heap) (D : loc -> Prop) :
  closed_in h0 D -> frame_inv h0 D h0.
Proof.
  intros HD. split; [lia|]. split; [auto|].
  intros l l' [Hl|Hl] Hp.
  - left. now apply (HD l l').
  - destruct Hp as (o & v & Ho & _). apply lookup_lt_Some in Ho. lia.
Qed.

Lemma frame_inv_fresh (h0 : heap) (D : loc -> Prop) (h h' : heap) :
  frame_inv h0 D h -> fresh_step h h' -> frame_inv h0 D h'.
Proof.
  intros (L & A & C) (L' & A' & C'). split; [lia|]. split.
  - intros l Hl HD. rewrite A' by lia. auto.
  - intros l l' Hl Hp. destruct (decide (l < length h)%nat) as [Hlt|Hge].
    + apply (C l l' Hl). destruct Hp as (o & v & Ho & Hv).
      exists o, v. rewrite <- A' by assumption. auto.
    + right. assert (length h <= l')%nat by (apply (C' l l'); [lia | assumption]). lia.
Qed.

Lemma frame_inv_store (h0 : heap) (D : loc -> Prop) (h : heap) (r : loc) (o o' : obj) :
  frame_inv h0 D h -> writable (length h0) D r -> h !! r = Some o ->
  (forall v, In v (obj_vals o') ->
             In v (obj_vals o) \/ val_in (writable (length h0) D) v) ->
  frame_inv h0 D (<[r := o']> h).
Proof.
  intros (L & A & C) Hr Ho Hvals. split; [rewrite length_insert; lia|]. split.
  - intros l Hl HD. rewrite list_lookup_insert_ne; [auto|].
    intros ->. destruct Hr as [Hr|Hr]; [contradiction | lia].
  - intros l l' Hl Hp.
    apply (points_to_store h r o o' l l' Ho) in Hp as [[-> (v & Hv & Hloc)]|[Hne Hp]].
    + destruct (Hvals v Hv) as [Hold|Hnew].
      * apply (C r l'); [assumption|]. exists o, v. auto.
      * now apply Hnew.
    + now apply (C l l').
Qed.

Lemma fresh_writable (h0 : heap) (D : loc -> Prop) (h : heap) (v : hval) :
  frame_inv h0 D h ->
  val_in (fun l => (length h <= l)%nat) v -> val_in (writable (length h0) D) v.
Proof.
  intros (L & _) Hv l Hl. right. specialize (Hv l Hl). cbn in Hv. lia.
Qed.

Lemma lookup_obj_vals (m : gmap string hval) (k : string) (v : hval) :
  m !! k = Some v -> In v (obj_vals (OMap m)).
Proof.
  intros H. cbn [obj_vals]. apply in_map_iff. exists (k, v). split; [reflexivity|].
  now apply list_elem_of_In, elem_of_map_to_list.
Qed.

Section Frame.

Variable h0 : heap.
Variable D : loc -> Prop.

Lemma mergeValues_with_frame (merge : loc -> loc -> M loc) (copy : hval -> M hval) :
  copies_fresh copy ->
  (forall d s h r h',
      merge d s h = Some (r, h') ->
      frame_inv h0 D h -> writable (length h0) D d ->
      frame_inv h0 D h' /\ writable (length h0) D r) ->
  merges_in_frame h0 D (mergeValues_with merge copy).
Proof.
  intros Hcopy Hmerge dv sv h r h' H Hinv Hdv.
  assert (Hc : forall v, copy v h = Some (r, h') ->
                         frame_inv h0 D h' /\ val_in (writable (length h0) D) r).
  { intros v Hv. destruct (Hcopy _ _ _ _ Hv) as [Hstep Hr].
    assert (Hinv' : frame_inv h0 D h') by (eapply frame_inv_fresh; eassumption).
    split; [assumption|]. intros l Hl. right. specialize (Hr l Hl). cbn in Hr.
    destruct Hinv as (L & _). lia. }
  unfold mergeValues_with in H.
  destruct sv as [|ss|sl|sl].
  - apply ret_inv in H as [-> ->]. auto.
  - destruct dv; eauto.
  - destruct dv as [|ds|dl|dl]; eauto.
    apply bind_inv in H as (r1 & h1 & Hm & H). apply ret_inv in H as [-> ->].
    destruct (Hmerge _ _ _ _ _ Hm Hinv (Hdv dl eq_refl)) as [Hinv' Hr].
    split; [assumption|]. intros l [= <-]. assumption.
  - destruct dv as [|ds|dl|dl]; eauto.
    apply bind_inv in H as (r1 & h1 & Ha & H). apply ret_inv in H as [-> ->].
    destruct (appendSlices_h_fresh _ _ _ _ _ _ Hcopy Ha) as [Hstep Hr].
    split; [eapply frame_inv_fresh; eassumption|].
    intros l [= <-]. right. destruct Hinv as (L & _). lia.
Qed.

Lemma merge_key_frame (mergeValues : hval -> hval -> M hval) (copy : hval -> M hval)
    (dst src : loc) (key : string) (h : heap) (u : unit) (h' : heap) :
  copies_fresh copy -> merges_in_frame h0 D mergeValues ->
  merge_key mergeValues copy dst src key h = Some (u, h') ->
  frame_inv h0 D h -> writable (length h0) D dst ->
  frame_inv h0 D h'.
Proof.
  intros Hcopy Hmerge H Hinv Hdst. unfold merge_key in H.
  apply bind_inv in H as (srcNow & h1 & Hs & H). apply load_map_inv in Hs as [-> Hs].
  destruct (srcNow !! key) as [srcVal|]; [|apply ret_inv in H as [_ ->]; assumption].
  apply bind_inv in H as (dstNow & h1 & Hd & H). apply load_map_inv in Hd as [-> Hd].
  destruct (dstNow !! key) as [dstVal|] eqn:Hk.
  - apply bind_inv in H as (r & h1 & Hm & H).
    assert (Hdv : val_in (writable (length h0) D) dstVal).
    { intros l Hl. destruct Hinv as (_ & _ & C). apply (C dst l Hdst).
      exists (OMap dstNow), dstVal. split; [assumption|].
      split; [eapply lookup_obj_vals; eassumption | assumption]. }
    destruct (Hmerge _ _ _ _ _ Hm Hinv Hdv) as [Hinv1 Hr].
    apply map_set_inv in H as (m & Hm1 & ->).
    apply (frame_inv_store h0 D h1 dst (OMap m)); auto.
    intros w Hw. apply obj_vals_map_set in Hw as [->|Hw]; auto.
  - apply bind_inv in H as (c & h1 & Hc & H).
    destruct (Hcopy _ _ _ _ Hc) as [Hstep Hfresh].
    assert (Hinv1 : frame_inv h0 D h1) by (eapply frame_inv_fresh; eassumption).
    apply map_set_inv in H as (m & Hm1 & ->).
    apply (frame_inv_store h0 D h1 dst (OMap m)); auto.
    intros w Hw. apply obj_vals_map_set in Hw as [->|Hw]; auto.
    right. exact (fresh_writable h0 D h c Hinv Hfresh).
Qed.

(** [DeepMerge] writes only to writable objects; it returns [dst] when
    [dst] is not nil, and a new map when it is. *)
Lemma DeepMerge_h_frame (fuel : nat) :
  forall dst src h r h',
    DeepMerge_h fuel dst src h = Some (r, h') ->
    frame_inv h0 D h ->
    match dst with Some d => writable (length h0) D d | None => True end ->
    frame_inv h0 D h' /\ writable (length h0) D r /\
    match dst with Some d => r = d | None => (length h <= r)%nat end.
Proof.
  induction fuel as [|fuel IH]; intros dst src h r h' H Hinv Hdst; [discriminate|].
  cbn [DeepMerge_h] in H.
  apply bind_inv in H as (d & h1 & Hd & H).
  assert (Hd1 : frame_inv h0 D h1 /\ writable (length h0) D d /\
                (length h <= length h1)%nat /\
                match dst with Some d' => d = d' | None => (length h <= d)%nat end).
  { destruct dst as [d'|].
    - apply ret_inv in Hd as [-> ->]. auto.
    - apply alloc_inv in Hd as [-> ->]. split; [|split; [|split]].
      + eapply frame_inv_fresh; [eassumption|].
        apply fresh_step_alloc. cbn. rewrite map_to_list_empty. intros v [].
      + right. destruct Hinv as (L & _). lia.
      + rewrite length_app. lia.
      + lia. }
  destruct Hd1 as (Hinv1 & Hw & Hlen & Hres).
  destruct src as [s|].
  - apply bind_inv in H as (srcMap & h2 & Hs & H). apply load_map_inv in Hs as [-> Hs].
    apply bind_inv in H as (u & h3 & Hloop & H). apply ret_inv in H as [-> ->].
    split; [|split; [assumption | destruct dst; [assumption|lia]]].
    revert Hloop Hinv1. apply for_each_inv.
    intros key ha ub hb _ Hbody Hfa.
    apply (merge_key_frame _ _ _ _ _ _ _ _ (deepCopyValue_h_fresh fuel)
             (mergeValues_with_frame _ _ (deepCopyValue_h_fresh fuel)
                (fun d' s' hx rx hx' Hrun Hi Hwd =>
                   match IH (Some d') (Some s') hx rx hx' Hrun Hi Hwd
                   with conj A (conj B _) => conj A B end))
             Hbody Hfa Hw).
  - apply ret_inv in H as [-> ->].
    split; [assumption|]. split; [assumption|]. destruct dst; [assumption|lia].
Qed.

End Frame.

Lemma reach_closed (h : heap) (W : loc -> Prop) (l l' : loc) :
  closed_in h W -> W l -> reach h l l' -> W l'.
Proof.
  intros HW Hl Hr. induction Hr as [|x y z Hxy _ IH]; [assumption|].
  apply IH. now apply (HW x y).
Qed.

Lemma reach_closed_in (h : heap) (d : loc) : closed_in h (reach h d).
Proof.
  intros l l' Hl Hp. eapply rtc_r; eassumption.
Qed.

Lemma closed_b_sound (h : heap) (W : list loc) :
  closed_b h W = true -> closed_in h (fun l => l ∈ W).
Proof.
  intros H l l' Hl (o & v & Ho & Hv & Hloc).
  unfold closed_b in H. rewrite forallb_forall in H.
  specialize (H l (proj1 (list_elem_of_In _ _) Hl)). rewrite Ho in H.
  rewrite forallb_forall in H. specialize (H v Hv). rewrite Hloc in H.
  now apply bool_decide_eq_true in H.
Qed.

(** What a store reaches from a location of a closed list is in the list. *)
Lemma reach_within (h : heap) (W : list loc) (l x : loc) :
  closed_b h W = true -> l ∈ W -> reach h l x -> x ∈ W.
Proof.
  intros H Hl Hr.
  exact (reach_closed h (fun l => l ∈ W) l x (closed_b_sound h W H) Hl Hr).
Qed.

(** Without any assumption on sharing: [DeepMerge] writes only to objects
    that [dst] reaches and to objects it allocates, and what the result
    reaches afterwards was reached by [dst] or has been allocated. *)
Lemma DeepMerge_h_writes (fuel : nat) (d s : loc) (h : heap) (r : loc) (h' : heap) :
  DeepMerge_h fuel (Some d) (Some s) h = Some (r, h') ->
  r = d /\
  (length h <= length h')%nat /\
  (forall l, (l < length h)%nat -> ~ reach h d l -> h' !! l = h !! l) /\
  (forall l, reach h' d l -> reach h d l \/ (length h <= l)%nat).
Proof.
  intros H.
  destruct (DeepMerge_h_frame h (reach h d) fuel (Some d) (Some s) h r h' H
              (frame_inv_refl h (reach h d) (reach_closed_in h d))
              (or_introl (rtc_refl _ d)))
    as ((L & A & C) & _ & ->).
  split; [reflexivity|]. split; [assumption|]. split; [assumption|].
  intros l Hl.
  exact (reach_closed h' _ d l C (or_introl (rtc_refl _ d)) Hl).
Qed.

(** ** The store: step budgets *)

Lemma refines_refl {A : Type} (m : M A) : refines m m.
Proof. intros h r H. exact H. Qed.

Lemma refines_bind {A B : Type} (m m' : M A) (k k' : A -> M B) :
  refines m m' -> (forall a, refines (k a) (k' a)) ->
  refines (bind m k) (bind m' k').
Proof.
  intros Hm Hk h [b h'] H. apply bind_inv in H as (a & h1 & H1 & H2).
  unfold bind. rewrite (Hm _ _ H1). now apply Hk.
Qed.

Lemma refines_for_each {A : Type} (l : list A) (body body' : A -> M unit) :
  (forall x, refines (body x) (body' x)) ->
  refines (for_each l body) (for_each l body').
Proof.
  intros Hb. induction l as [|x l IH]; [apply refines_refl|].
  cbn [for_each]. apply refines_bind; [apply Hb | intros _; exact IH].
Qed.

Lemma deepCopyValue_h_mono (f f' : nat) (v : hval) :
  (f <= f')%nat -> refines (deepCopyValue_h f v) (deepCopyValue_h f' v).
Proof.
  revert f' v. induction f as [|f IH]; intros f' v Hle; [intros h r [=]|].
  destruct f' as [|f']; [lia|]. cbn [deepCopyValue_h].
  destruct v as [|s|l|l]; try apply refines_refl.
  - apply refines_bind; [apply refines_refl|]. intros typed.
    apply refines_bind; [apply refines_refl|]. intros result.
    apply refines_bind; [|intros _; apply refines_refl].
    apply refines_for_each. intros entry.
    apply refines_bind; [apply IH; lia | intros c; apply refines_refl].
  - apply refines_bind; [apply refines_refl|]. intros typed.
    apply refines_bind; [apply refines_refl|]. intros result.
    apply refines_bind; [|intros _; apply refines_refl].
    apply refines_for_each. intros entry.
    apply refines_bind; [apply IH; lia | intros c; apply refines_refl].
Qed.

Lemma appendSlices_h_mono (copy copy' : hval -> M hval) (d s : loc) :
  (forall v, refines (copy v) (copy' v)) ->
  refines (appendSlices_h copy d s) (appendSlices_h copy' d s).
Proof.
  intros Hc. unfold appendSlices_h.
  apply refines_bind; [apply refines_refl|]. intros dstElems.
  apply refines_bind; [apply refines_refl|]. intros srcElems.
  apply refines_bind; [apply refines_refl|]. intros result.
  apply refines_bind.
  { apply refines_for_each. intros v.
    apply refines_bind; [apply Hc | intros c; apply refines_refl]. }
  intros _. apply refines_bind; [|intros _; apply refines_refl].
  apply refines_for_each. intros v.
  apply refines_bind; [apply Hc | intros c; apply refines_refl].
Qed.

Lemma mergeValues_with_mono (merge merge' : loc -> loc -> M loc)
    (copy copy' : hval -> M hval) (dv sv : hval) :
  (forall d s, refines (merge d s) (merge' d s)) ->
  (forall v, refines (copy v) (copy' v)) ->
  refines (mergeValues_with merge copy dv sv) (mergeValues_with merge' copy' dv sv).
Proof.
  intros Hm Hc. unfold mergeValues_with.
  destruct sv as [|ss|sl|sl]; [apply refines_refl| | |].
  - destruct dv; apply Hc.
  - destruct dv as [|ds|dl|dl]; try apply Hc.
    apply refines_bind; [apply Hm | intros r; apply refines_refl].
  - destruct dv as [|ds|dl|dl]; try apply Hc.
    apply refines_bind; [now apply appendSlices_h_mono | intros r; apply refines_refl].
Qed.

Lemma merge_key_mono (mv mv' : hval -> hval -> M hval) (copy copy' : hval -> M hval)
    (d s : loc) (key : string) :
  (forall dv sv, refines (mv dv sv) (mv' dv sv)) ->
  (forall v, refines (copy v) (copy' v)) ->
  refines (merge_key mv copy d s key) (merge_key mv' copy' d s key).
Proof.
  intros Hm Hc. unfold merge_key.
  apply refines_bind; [apply refines_refl|]. intros srcNow.
  destruct (srcNow !! key) as [srcVal|]; [|apply refines_refl].
  apply refines_bind; [apply refines_refl|]. intros dstNow.
  destruct (dstNow !! key) as [dstVal|].
  - apply refines_bind; [apply Hm | intros r; apply refines_refl].
  - apply refines_bind; [apply Hc | intros r; apply refines_refl].
Qed.

Lemma DeepMerge_h_mono (f f' : nat) (dst src : option loc) :
  (f <= f')%nat -> refines (DeepMerge_h f dst src) (DeepMerge_h f' dst src).
Proof.
  revert f' dst src. induction f as [|f IH]; intros f' dst src Hle; [intros h r [=]|].
  destruct f' as [|f']; [lia|]. cbn [DeepMerge_h].
  apply refines_bind; [apply refines_refl|]. intros d.
  destruct src as [s|]; [|apply refines_refl].
  apply refines_bind; [apply refines_refl|]. intros srcMap.
  apply refines_bind; [|intros _; apply refines_refl].
  apply refines_for_each. intros key.
  apply merge_key_mono.
  - intros dv sv. apply mergeValues_with_mono.
    + intros d' s'. apply IH. lia.
    + intros v. apply deepCopyValue_h_mono. lia.
  - intros v. apply deepCopyValue_h_mono. lia.
Qed.

(** A loop returns when each of its rounds does. *)
Lemma for_each_total {A : Type} (I : heap -> Prop) (l : list A) (body : A -> M unit) :
  (forall x h, In x l -> I h -> exists h', body x h = Some (tt, h') /\ I h') ->
  forall h, I h -> exists h', for_each l body h = Some (tt, h') /\ I h'.
Proof.
  induction l as [|x l IH]; intros Hbody h Hi.
  - exists h. split; [reflexivity | assumption].
  - destruct (Hbody x h (or_introl eq_refl) Hi) as (h1 & H1 & Hi1).
    destruct (IH (fun y hy Hy => Hbody y hy (or_intror Hy)) h1 Hi1) as (h2 & H2 & Hi2).
    exists h2. split; [|assumption]. cbn [for_each]. unfold bind. now rewrite H1.
Qed.

(** The same when the rounds need a budget that depends on the store. *)
Lemma for_each_total_fuel {A : Type} (I : heap -> Prop) (l : list A)
    (body : nat -> A -> M unit) :
  (forall f f' x, (f <= f')%nat -> refines (body f x) (body f' x)) ->
  (forall x h, In x l -> I h -> exists f h', body f x h = Some (tt, h') /\ I h') ->
  forall h, I h -> exists f h', for_each l (body f) h = Some (tt, h') /\ I h'.
Proof.
  intros Hmono. induction l as [|x l IH]; intros Hbody h Hi.
  - exists 0%nat, h. split; [reflexivity | assumption].
  - destruct (Hbody x h (or_introl eq_refl) Hi) as (f1 & h1 & H1 & Hi1).
    destruct (IH (fun y hy Hy => Hbody y hy (or_intror Hy)) h1 Hi1)
      as (f2 & h2 & H2 & Hi2).
    exists (Nat.max f1 f2), h2. split; [|assumption]. cbn [for_each]. unfold bind.
    rewrite (Hmono f1 (Nat.max f1 f2) x (Nat.le_max_l _ _) _ _ H1).
    apply (refines_for_each l (body f2) (body (Nat.max f1 f2))); [|exact H2].
    intros y. apply Hmono. apply Nat.le_max_r.
Qed.

(** ** The store: well-formed values *)

Lemma shallow_mono (n n' : nat) (h : heap) (v : hval) :
  (n <= n')%nat -> shallow n h v = true -> shallow n' h v = true.
Proof.
  revert n' v. induction n as [|n IH]; intros n' v Hle H; [discriminate|].
  destruct n' as [|n']; [lia|]. cbn [shallow] in *.
  destruct v as [|s|l|l]; try reflexivity.
  - destruct (h !! l) as [[m|e]|]; try discriminate.
    rewrite forallb_forall in *. intros w Hw. apply IH; [lia | auto].
  - destruct (h !! l) as [[m|e]|]; try discriminate.
    rewrite forallb_forall in *. intros w Hw. apply IH; [lia | auto].
Qed.

Lemma shallow_typed (n : nat) (h : heap) (v : hval) :
  shallow n h v = true -> well_typed h v.
Proof.
  destruct n as [|n]; [discriminate|]. cbn [shallow].
  destruct v as [|s|l|l]; cbn [well_typed]; auto.
  - destruct (h !! l) as [[m|e]|]; try discriminate. eauto.
  - destruct (h !! l) as [[m|e]|]; try discriminate. eauto.
Qed.

(** The values of the object a shallow reference leads to. *)
Lemma shallow_children (n : nat) (h : heap) (v : hval) (l : loc) (o : obj) (w : hval) :
  shallow (S n) h v = true -> loc_of v = Some l -> h !! l = Some o ->
  In w (obj_vals o) -> shallow n h w = true.
Proof.
  cbn [shallow]. destruct v as [|s|l0|l0]; try discriminate.
  - intros H [= ->] Ho Hw. rewrite Ho in H. destruct o as [m|e]; [|discriminate].
    rewrite forallb_forall in H. auto.
  - intros H [= ->] Ho Hw. rewrite Ho in H. destruct o as [m|e]; [discriminate|].
    rewrite forallb_forall in H. auto.
Qed.

Lemma shallow_intro (n : nat) (h : heap) (v : hval) :
  well_typed h v ->
  (forall l o w, loc_of v = Some l -> h !! l = Some o -> In w (obj_vals o) ->
                 shallow n h w = true) ->
  shallow (S n) h v = true.
Proof.
  intros Ht Hc. cbn [shallow]. destruct v as [|s|l|l]; try reflexivity.
  - destruct Ht as [m Hm]. rewrite Hm. apply forallb_forall. intros w Hw.
    now apply (Hc l (OMap m) w).
  - destruct Ht as [e He]. rewrite He. apply forallb_forall. intros w Hw.
    now apply (Hc l (OSlice e) w).
Qed.

Lemma bounded_lookup (n : nat) (h : heap) (l : loc) (o : obj) (v : hval) :
  bounded n h = true -> h !! l = Some o -> In v (obj_vals o) ->
  shallow n h v = true.
Proof.
  unfold bounded. rewrite forallb_forall. intros H Ho Hv.
  assert (Hin : In o h) by (apply list_elem_of_In, list_elem_of_lookup; eauto).
  specialize (H o Hin). rewrite forallb_forall in H. auto.
Qed.

Lemma bounded_intro (n : nat) (h : heap) :
  (forall l o v, h !! l = Some o -> In v (obj_vals o) -> shallow n h v = true) ->
  bounded n h = true.
Proof.
  intros H. unfold bounded. apply forallb_forall. intros o Ho.
  apply list_elem_of_In, list_elem_of_lookup in Ho as [l Hl].
  apply forallb_forall. intros v Hv. eauto.
Qed.

Lemma bounded_ref (n : nat) (h : heap) (v : hval) :
  bounded n h = true -> well_typed h v -> shallow (S n) h v = true.
Proof.
  intros Hb Ht. apply shallow_intro; [assumption|].
  intros l o w _ Ho Hw. eapply bounded_lookup; eassumption.
Qed.

Lemma bounded_mono (n n' : nat) (h : heap) :
  (n <= n')%nat -> bounded n h = true -> bounded n' h = true.
Proof.
  intros Hle Hb. apply bounded_intro. intros l o v Ho Hv.
  apply (shallow_mono n n'); [assumption|]. eapply bounded_lookup; eassumption.
Qed.

(** A value is as shallow in a store that has the same objects where the
    value reaches. *)
Lemma shallow_agree (n : nat) (h h' : heap) (v : hval) :
  (forall l0 l o, loc_of v = Some l0 -> reach h l0 l ->
                  h !! l = Some o -> h' !! l = Some o) ->
  shallow n h v = true -> shallow n h' v = true.
Proof.
  revert v. induction n as [|n IH]; intros v Hag H; [discriminate|].
  assert (Ht : well_typed h' v).
  { apply shallow_typed in H. destruct v as [|s|l|l]; cbn [well_typed] in *; auto.
    - destruct H as [m Hm]. exists m. apply (Hag l l); [reflexivity|apply rtc_refl|assumption].
    - destruct H as [e He]. exists e. apply (Hag l l); [reflexivity|apply rtc_refl|assumption]. }
  apply shallow_intro; [assumption|].
  intros l o w Hl Ho Hw.
  assert (Ho' : h !! l = Some o).
  { apply shallow_typed in H.
    destruct v as [|s|l1|l1]; try discriminate; injection Hl as ->; destruct H as [x Hx];
      rewrite (Hag l l _ eq_refl (rtc_refl _ _) Hx) in Ho; congruence. }
  apply IH.
  - intros l0 l1 o1 Hl0 Hr Ho1. apply (Hag l l1 o1 Hl); [|assumption].
    eapply rtc_l; [|exact Hr]. exists o, w. auto.
  - eapply shallow_children; eassumption.
Qed.

Lemma shallow_fresh (n : nat) (h h' : heap) (v : hval) :
  fresh_step h h' -> shallow n h v = true -> shallow n h' v = true.
Proof.
  intros (_ & A & _). apply shallow_agree. intros l0 l o _ _ Ho.
  rewrite A; [assumption|]. eapply lookup_lt_Some; eassumption.
Qed.

Lemma shallow_store (n : nat) (h : heap) (r : loc) (o' : obj) (v : hval) :
  (forall l, loc_of v = Some l -> ~ reach h l r) ->
  shallow n h v = true -> shallow n (<[r := o']> h) v = true.
Proof.
  intros Hnr. apply shallow_agree. intros l0 l o Hl0 Hr Ho.
  rewrite list_lookup_insert_ne; [assumption|].
  intros <-. exact (Hnr l0 Hl0 Hr).
Qed.

(** A shallow value is shallow at each of the locations it reaches. *)
Lemma shallow_reach (n : nat) (h : heap) (l0 l1 : loc) :
  reach h l0 l1 ->
  forall v, loc_of v = Some l0 -> shallow n h v = true ->
  exists v1, loc_of v1 = Some l1 /\ shallow n h v1 = true.
Proof.
  induction 1 as [l|l0 y l1 Hstep _ IH]; intros v Hv Hs; [eauto|].
  destruct Hstep as (o & w & Ho & Hw & Hloc).
  apply (IH w Hloc). destruct n as [|n]; [discriminate|].
  apply (shallow_mono n (S n)); [lia|]. eapply shallow_children; eassumption.
Qed.

(** No object of a bounded store reaches itself. *)
Lemma bounded_no_cycle (n : nat) (h : heap) (l l' : loc) :
  bounded n h = true -> points_to h l l' -> ~ reach h l' l.
Proof.
  intros Hb (o & w & Ho & Hw & Hloc) Hr.
  assert (Hs : shallow n h w = true) by (eapply bounded_lookup; eassumption).
  clear Hb. induction n as [|n IH]; [discriminate|].
  apply IH.
  destruct (shallow_reach (S n) h l' l Hr w Hloc Hs) as (v1 & Hv1 & Hs1).
  eapply shallow_children; eassumption.
Qed.

Lemma typed_evolves (h h' : heap) (v : hval) :
  evolves h h' -> well_typed h v -> well_typed h' v.
Proof.
  intros He. destruct v as [|s|l|l]; cbn [well_typed]; auto.
  - intros [m Hm]. destruct (He l _ Hm) as ([m'|e'] & Ho' & Hk); [eauto|destruct Hk].
  - intros [e Hm]. destruct (He l _ Hm) as ([m'|e'] & Ho' & Hk); [destruct Hk|eauto].
Qed.

Lemma same_kind_refl (o : obj) : same_kind o o.
Proof. destruct o; exact I. Qed.

Lemma same_kind_trans (o1 o2 o3 : obj) :
  same_kind o1 o2 -> same_kind o2 o3 -> same_kind o1 o3.
Proof. destruct o1, o2, o3; cbn; auto. Qed.

Lemma evolves_refl (h : heap) : evolves h h.
Proof. intros l o Ho. exists o. split; [assumption | apply same_kind_refl]. Qed.

Lemma evolves_trans (h1 h2 h3 : heap) :
  evolves h1 h2 -> evolves h2 h3 -> evolves h1 h3.
Proof.
  intros H12 H23 l o Ho. destruct (H12 l o Ho) as (o2 & Ho2 & K12).
  destruct (H23 l o2 Ho2) as (o3 & Ho3 & K23). exists o3.
  split; [assumption | eapply same_kind_trans; eassumption].
Qed.

Lemma evolves_fresh (h h' : heap) : fresh_step h h' -> evolves h h'.
Proof.
  intros (_ & A & _) l o Ho. exists o. split; [|apply same_kind_refl].
  rewrite A; [assumption|]. eapply lookup_lt_Some; eassumption.
Qed.

Lemma evolves_store (h : heap) (r : loc) (o o' : obj) :
  h !! r = Some o -> same_kind o o' -> evolves h (<[r := o']> h).
Proof.
  intros Hr Hk l ol Hl. destruct (decide (l = r)) as [->|Hne].
  - exists o'. split; [|congruence].
    apply list_lookup_insert_eq. eapply lookup_lt_Some; eassumption.
  - exists ol. split; [|apply same_kind_refl].
    now rewrite list_lookup_insert_ne by auto.
Qed.

(** A new object that holds no reference keeps the store bounded. *)
Lemma bounded_alloc (n : nat) (h : heap) (o : obj) :
  bounded n h = true -> (forall v, In v (obj_vals o) -> loc_of v = None) ->
  bounded (S n) (h ++ [o]) = true.
Proof.
  intros Hb Ho. apply bounded_intro. intros l ol v Hl Hv.
  destruct (decide (l < length h)%nat) as [Hlt|Hge].
  - rewrite lookup_app_l in Hl by assumption.
    apply (shallow_mono n (S n)); [lia|].
    apply (shallow_fresh n h); [now apply fresh_step_alloc|].
    eapply bounded_lookup; eassumption.
  - rewrite lookup_app_r in Hl by lia.
    destruct (l - length h)%nat as [|k] eqn:E; [|destruct k; discriminate].
    injection Hl as <-. specialize (Ho v Hv). destruct v; try discriminate; reflexivity.
Qed.

(** Writing into an object values it held, or values that do not reach
    it, keeps the store bounded. *)
Lemma bounded_store (n : nat) (h : heap) (r : loc) (o o' : obj) :
  bounded n h = true -> h !! r = Some o -> same_kind o o' ->
  (forall v, In v (obj_vals o') ->
             In v (obj_vals o) \/
             (well_typed h v /\ forall l, loc_of v = Some l -> ~ reach h l r)) ->
  bounded (n + S n) (<[r := o']> h) = true.
Proof.
  intros Hb Hr Hk Hvals.
  assert (Hev : evolves h (<[r := o']> h)) by (eapply evolves_store; eassumption).
  assert (Hr' : <[r := o']> h !! r = Some o').
  { apply list_lookup_insert_eq. eapply lookup_lt_Some; eassumption. }
  assert (Hnew : forall v, well_typed h v -> (forall l, loc_of v = Some l -> ~ reach h l r) ->
                           shallow (S n) (<[r := o']> h) v = true).
  { intros v Ht Hnr. apply shallow_store; [assumption|]. now apply bounded_ref. }
  assert (Hold : forall k v, shallow k h v = true ->
                             shallow (k + S n) (<[r := o']> h) v = true).
  { induction k as [|k IH]; intros v Hs; [discriminate|].
    change (S k + S n)%nat with (S (k + S n)). apply shallow_intro.
    - eapply typed_evolves; [eassumption|]. eapply shallow_typed; eassumption.
    - intros l ol w Hl Hol Hw. destruct (decide (l = r)) as [->|Hne].
      + rewrite Hr' in Hol. injection Hol as <-.
        destruct (Hvals w Hw) as [Hin|[Ht Hnr]].
        * apply IH. eapply shallow_children; eassumption.
        * apply (shallow_mono (S n)); [lia|]. now apply Hnew.
      + rewrite list_lookup_insert_ne in Hol by auto.
        apply IH. eapply shallow_children; eassumption. }
  apply bounded_intro. intros l ol v Hl Hv.
  destruct (decide (l = r)) as [->|Hne].
  - rewrite Hr' in Hl. injection Hl as <-.
    destruct (Hvals v Hv) as [Hin|[Ht Hnr]].
    + apply Hold. eapply bounded_lookup; eassumption.
    + apply (shallow_mono (S n)); [lia|]. now apply Hnew.
  - rewrite list_lookup_insert_ne in Hl by auto.
    apply Hold. eapply bounded_lookup; eassumption.
Qed.

(** ** The store: copies return *)

Lemma map_set_stores (r : loc) (k : string) :
  stores_into r is_map (map_set r k).
Proof.
  intros c h [m|e] Ho []. exists (OMap (<[k := c]> m)).
  unfold map_set. rewrite Ho. split; [reflexivity|]. split; [exact I|].
  split; [exact I|]. apply obj_vals_map_set.
Qed.

Lemma slice_set_stores (r : loc) (i : nat) :
  stores_into r is_slice (slice_set r i).
Proof.
  intros c h [m|e] Ho []. exists (OSlice (<[i := c]> e)).
  unfold slice_set. rewrite Ho. split; [reflexivity|]. split; [exact I|].
  split; [exact I|]. apply In_list_insert.
Qed.

Lemma slice_push_stores (r : loc) :
  stores_into r is_slice (slice_push r).
Proof.
  intros c h [m|e] Ho []. exists (OSlice (e ++ [c])).
  unfold slice_push. rewrite Ho. split; [reflexivity|]. split; [exact I|].
  split; [exact I|]. cbn [obj_vals]. intros w Hw.
  apply in_app_or in Hw as [Hw|[<-|[]]]; auto.
Qed.

(** A reference to an added object does not reach an object that was
    there before. *)
Lemma fresh_not_reach (h h' : heap) (v : hval) (r l : loc) :
  fresh_step h h' -> val_in (fun l => (length h <= l)%nat) v ->
  (r < length h)%nat -> loc_of v = Some l -> ~ reach h' l r.
Proof.
  intros (_ & _ & C) Hv Hr Hl Hreach.
  assert (length h <= r)%nat; [|lia].
  exact (reach_closed h' _ l r C (Hv l Hl) Hreach).
Qed.

(** A loop that copies values and puts the copies into a new object. *)
Lemma copy_loop_total {A : Type} (copy : hval -> M hval) (h : heap) (r : loc)
    (K : obj -> Prop) (val : A -> hval) (store_of : A -> hval -> M unit) (l : list A) :
  copies_fresh copy ->
  (forall x hc n, In x l -> fresh_step h hc -> bounded n hc = true ->
                  exists c hc1 n1, copy (val x) hc = Some (c, hc1) /\
                                   bounded n1 hc1 = true /\ well_typed hc1 c) ->
  (forall x, stores_into r K (store_of x)) ->
  (length h <= r)%nat ->
  forall hc, filling h r K hc ->
  exists hc', for_each l (fun x => c <- copy (val x) ;; store_of x c) hc = Some (tt, hc') /\
              filling h r K hc'.
Proof.
  intros Hfresh Hcopy Hstore Hr. apply for_each_total.
  intros x hc Hx (Hfs & [n Hb] & (o & Ho & HK)).
  destruct (Hcopy x hc n Hx Hfs Hb) as (c & hc1 & n1 & Hc & Hb1 & Ht).
  destruct (Hfresh _ _ _ _ Hc) as [Hstep Hcf].
  assert (Hlt : (r < length hc)%nat) by (eapply lookup_lt_Some; eassumption).
  assert (Ho1 : hc1 !! r = Some o).
  { destruct Hstep as (_ & A1 & _). now rewrite A1. }
  destruct (Hstore x c hc1 o Ho1 HK) as (o' & Hrun & HK' & Hk & Hvals).
  exists (<[r := o']> hc1). split; [unfold bind; now rewrite Hc|].
  split; [|split].
  - apply (fresh_step_store h hc1 r o); auto.
    + eapply fresh_step_trans; eassumption.
    + intros w Hw. destruct (Hvals w Hw) as [->|Hin]; [right|now left].
      eapply val_in_weaken; [|exact Hcf]. cbn. intros l0 Hl0.
      destruct Hfs as (L & _). lia.
  - exists (n1 + S n1)%nat. apply (bounded_store n1 hc1 r o o'); auto.
    intros w Hw. destruct (Hvals w Hw) as [->|Hin]; [right|now left].
    split; [assumption|]. intros l0 Hl0.
    exact (fresh_not_reach hc hc1 c r l0 Hstep Hcf Hlt Hl0).
  - exists o'. split; [|assumption].
    apply list_lookup_insert_eq. eapply lookup_lt_Some; eassumption.
Qed.

Lemma filling_alloc (h : heap) (n : nat) (o : obj) (K : obj -> Prop) :
  bounded n h = true -> (forall v, In v (obj_vals o) -> loc_of v = None) -> K o ->
  filling h (length h) K (h ++ [o]).
Proof.
  intros Hb Ho HK. split; [now apply fresh_step_alloc|]. split.
  - exists (S n). now apply bounded_alloc.
  - exists o. split; [|assumption]. rewrite lookup_app_r by lia.
    now replace (length h - length h)%nat with 0%nat by lia.
Qed.

(** [deepCopyValue] returns on a shallow value of a bounded store, and
    leaves the store bounded. *)
Lemma deepCopyValue_h_total (k : nat) :
  forall v h n,
    shallow k h v = true -> bounded n h = true ->
    exists r h' n', deepCopyValue_h k v h = Some (r, h') /\
                    bounded n' h' = true /\ well_typed h' r.
Proof.
  induction k as [|k IH]; intros v h n Hs Hb; [discriminate|].
  destruct v as [|s|l|l].
  - exists HNil, h, n. repeat split; assumption.
  - exists (HScalar s), h, n. repeat split; assumption.
  - pose proof (shallow_typed _ _ _ Hs) as [m Hm].
    destruct (copy_loop_total (deepCopyValue_h k) h (length h) is_map snd
                (fun x c => map_set (length h) (fst x) c) (map_to_list m)
                (deepCopyValue_h_fresh k)) with (hc := h ++ [OMap ∅])
      as (h3 & Hloop & (Hfs & [n3 Hb3] & (o3 & Ho3 & HK3))).
    + intros x hc nc Hx Hfs Hbc. apply (IH (snd x) hc nc); [|assumption].
      apply (shallow_fresh k h); [assumption|].
      apply (shallow_children k h (HMap l) l (OMap m) (snd x) Hs eq_refl Hm).
      cbn [obj_vals]. now apply in_map.
    + intros x. apply map_set_stores.
    + lia.
    + apply (filling_alloc h n); [assumption| |exact I].
      cbn. rewrite map_to_list_empty. intros v [].
    + exists (HMap (length h)), h3, n3. split; [|split; [assumption|]].
      * cbn [deepCopyValue_h]. unfold bind at 1, load_map. rewrite Hm.
        unfold bind at 1, alloc. unfold bind at 1. now rewrite Hloop.
      * destruct o3 as [m3|e3]; [|destruct HK3]. exists m3. assumption.
  - pose proof (shallow_typed _ _ _ Hs) as [e He].
    destruct (copy_loop_total (deepCopyValue_h k) h (length h) is_slice snd
                (fun x c => slice_set (length h) (fst x) c)
                (zip (seq 0 (length e)) e)
                (deepCopyValue_h_fresh k))
      with (hc := h ++ [OSlice (replicate (length e) HNil)])
      as (h3 & Hloop & (Hfs & [n3 Hb3] & (o3 & Ho3 & HK3))).
    + intros [i x] hc nc Hx Hfs Hbc. apply (IH x hc nc); [|assumption].
      apply (shallow_fresh k h); [assumption|].
      apply (shallow_children k h (HSlice l) l (OSlice e) x Hs eq_refl He).
      cbn [obj_vals]. apply list_elem_of_In.
      apply list_elem_of_In in Hx. eapply elem_of_zip_r; eassumption.
    + intros x. apply slice_set_stores.
    + lia.
    + apply (filling_alloc h n); [assumption| |exact I].
      cbn. intros v Hv.
      apply list_elem_of_In, elem_of_replicate in Hv as [-> _]. reflexivity.
    + exists (HSlice (length h)), h3, n3. split; [|split; [assumption|]].
      * cbn [deepCopyValue_h]. unfold bind at 1, load_slice. rewrite He.
        unfold bind at 1, alloc. unfold bind at 1. now rewrite Hloop.
      * destruct o3 as [m3|e3]; [destruct HK3|]. exists e3. assumption.
Qed.

(** [appendSlices] returns on two slices of a bounded store. *)
Lemma appendSlices_h_total (n : nat) (d s : loc) (h : heap) (de se : list hval) :
  bounded n h = true ->
  h !! d = Some (OSlice de) -> h !! s = Some (OSlice se) ->
  exists h' n',
    appendSlices_h (deepCopyValue_h n) d s h = Some (length h, h') /\
    bounded n' h' = true /\ well_typed h' (HSlice (length h)).
Proof.
  intros Hb Hd Hs.
  assert (Hcopy : forall (l : loc) (e : list hval), h !! l = Some (OSlice e) ->
            forall x hc nc, In x e -> fresh_step h hc -> bounded nc hc = true ->
            exists c hc1 n1, deepCopyValue_h n x hc = Some (c, hc1) /\
                             bounded n1 hc1 = true /\ well_typed hc1 c).
  { intros l e Hl x hc nc Hx Hfs Hbc. apply (deepCopyValue_h_total n x hc nc); [|assumption].
    apply (shallow_fresh n h); [assumption|]. eapply bounded_lookup; eassumption. }
  destruct (copy_loop_total (deepCopyValue_h n) h (length h) is_slice (fun v => v)
              (fun _ c => slice_push (length h) c) de
              (deepCopyValue_h_fresh n) (Hcopy d de Hd)
              (fun _ => slice_push_stores (length h)) (le_n _)
              (h ++ [OSlice []]))
    as (h2 & Hloop1 & Hf2).
  { apply (filling_alloc h n); [assumption| |exact I]. intros v []. }
  destruct (copy_loop_total (deepCopyValue_h n) h (length h) is_slice (fun v => v)
              (fun _ c => slice_push (length h) c) se
              (deepCopyValue_h_fresh n) (Hcopy s se Hs)
              (fun _ => slice_push_stores (length h)) (le_n _) h2 Hf2)
    as (h3 & Hloop2 & (Hfs & [n3 Hb3] & (o3 & Ho3 & HK3))).
  exists h3, n3. split; [|split; [assumption|]].
  - unfold appendSlices_h. unfold bind at 1, load_slice. rewrite Hd.
    unfold bind at 1. rewrite Hs. unfold bind at 1, alloc.
    unfold bind at 1. rewrite Hloop1. unfold bind at 1. now rewrite Hloop2.
  - destruct o3 as [m3|e3]; [destruct HK3|]. exists e3. assumption.
Qed.

(** ** The store: merges return *)

Lemma mergeValues_h_frame (h0 : heap) (D : loc -> Prop) (f : nat) :
  merges_in_frame h0 D
    (mergeValues_with (fun d s => DeepMerge_h f (Some d) (Some s)) (deepCopyValue_h f)).
Proof.
  apply mergeValues_with_frame; [exact (deepCopyValue_h_fresh f)|].
  intros d s h r h' Hrun Hinv Hd.
  destruct (DeepMerge_h_frame h0 D f (Some d) (Some s) h r h' Hrun Hinv Hd)
    as (A & B & _).
  auto.
Qed.

(** Putting the result of a merge or of a copy under a key of [dst]. *)
Lemma map_set_total (h : heap) (d : loc) (m : gmap string hval) (key : string)
    (r : hval) (n : nat) :
  bounded n h = true -> h !! d = Some (OMap m) -> well_typed h r ->
  (forall l, loc_of r = Some l -> ~ reach h l d) ->
  exists h', map_set d key r h = Some (tt, h') /\
             (exists n', bounded n' h' = true) /\ evolves h h'.
Proof.
  intros Hb Hd Ht Hnr. exists (<[d := OMap (<[key := r]> m)]> h).
  split; [unfold map_set; now rewrite Hd|]. split.
  - exists (n + S n)%nat. apply (bounded_store n h d (OMap m)); auto; [exact I|].
    intros w Hw. apply obj_vals_map_set in Hw as [->|Hw]; auto.
  - apply (evolves_store h d (OMap m)); [assumption | exact I].
Qed.

(** A copy, with what the caller needs to put it under a key of [dst]. *)
Lemma copy_total (h : heap) (n : nat) (v : hval) (d : loc) :
  bounded n h = true -> shallow n h v = true -> (d < length h)%nat ->
  exists r h1,
    deepCopyValue_h n v h = Some (r, h1) /\
    (exists n1, bounded n1 h1 = true) /\ evolves h h1 /\ well_typed h1 r /\
    (forall l, loc_of r = Some l -> ~ reach h1 l d).
Proof.
  intros Hb Hs Hd.
  destruct (deepCopyValue_h_total n v h n Hs Hb) as (r & h1 & n1 & Hrun & Hb1 & Ht).
  destruct (deepCopyValue_h_fresh n _ _ _ _ Hrun) as [Hstep Hfresh].
  exists r, h1. split; [assumption|]. split; [eauto|].
  split; [now apply evolves_fresh|]. split; [assumption|].
  intros l Hl. exact (fresh_not_reach h h1 r d l Hstep Hfresh Hd Hl).
Qed.

Section MergeTotal.

Variable h0 : heap.
Variables D Sc : loc -> Prop.
Hypothesis Sc_closed : closed_in h0 Sc.
Hypothesis Sc_alloc : forall l, Sc l -> (l < length h0)%nat.
Hypothesis Sc_apart : forall l, Sc l -> ~ D l.

Lemma src_unchanged (h : heap) (l : loc) :
  frame_inv h0 D h -> Sc l -> h !! l = h0 !! l.
Proof.
  intros (_ & A & _) Hl. apply A; [now apply Sc_alloc | now apply Sc_apart].
Qed.

Lemma mergeValues_h_total (k : nat) (s d : loc) (sm dm : gmap string hval)
    (key : string) (srcVal dstVal : hval) (h : heap) :
  merges_return h0 D Sc k ->
  Sc s -> h0 !! s = Some (OMap sm) -> sm !! key = Some srcVal ->
  shallow k h0 srcVal = true ->
  merging h0 D h -> writable (length h0) D d ->
  h !! d = Some (OMap dm) -> dm !! key = Some dstVal ->
  exists f r h1,
    mergeValues_with (fun d s => DeepMerge_h f (Some d) (Some s)) (deepCopyValue_h f)
      dstVal srcVal h = Some (r, h1) /\
    (exists n1, bounded n1 h1 = true) /\ evolves h h1 /\ well_typed h1 r /\
    (forall l, loc_of r = Some l -> ~ reach h1 l d).
Proof.
  intros IHk Hs Hsm Hsk Hsh [Hinv [n Hb]] Hwd Hd Hdk.
  assert (Hsh' : h !! s = Some (OMap sm)) by (rewrite src_unchanged; assumption).
  assert (Hsv : shallow n h srcVal = true).
  { apply (bounded_lookup n h s (OMap sm)); auto. eapply lookup_obj_vals; eassumption. }
  assert (Hdv : shallow n h dstVal = true).
  { apply (bounded_lookup n h d (OMap dm)); auto. eapply lookup_obj_vals; eassumption. }
  assert (Hdlt : (d < length h)%nat) by (eapply lookup_lt_Some; eassumption).
  assert (Hcopy : exists f r h1,
             deepCopyValue_h f srcVal h = Some (r, h1) /\
             (exists n1, bounded n1 h1 = true) /\ evolves h h1 /\ well_typed h1 r /\
             (forall l, loc_of r = Some l -> ~ reach h1 l d)).
  { exists n. now apply copy_total. }
  assert (Hpt : forall l, loc_of dstVal = Some l -> points_to h d l).
  { intros l Hl. exists (OMap dm), dstVal. split; [assumption|].
    split; [eapply lookup_obj_vals; eassumption | assumption]. }
  destruct srcVal as [|ss|sl|sl].
  - exists 0%nat, dstVal, h. split; [reflexivity|]. split; [eauto|].
    split; [apply evolves_refl|]. split; [eapply shallow_typed; eassumption|].
    intros l Hl. apply (bounded_no_cycle n h d l Hb). now apply Hpt.
  - destruct dstVal; exact Hcopy.
  - destruct dstVal as [|ds|dl|dl]; try exact Hcopy.
    pose proof (shallow_typed _ _ _ Hdv) as [dlm Hdl].
    assert (Hsl : Sc sl).
    { apply (Sc_closed s sl Hs). exists (OMap sm), (HMap sl).
      split; [assumption|]. split; [eapply lookup_obj_vals; eassumption | reflexivity]. }
    assert (Hwl : writable (length h0) D dl).
    { destruct Hinv as (_ & _ & C). apply (C d dl Hwd). now apply Hpt. }
    destruct (IHk sl Hsh Hsl dl h dlm (conj Hinv (ex_intro _ n Hb)) Hwl Hdl)
      as (f & h1 & Hrun & [Hinv1 Hb1] & Hev).
    exists f, (HMap dl), h1. split; [|split; [assumption|split; [assumption|split]]].
    + cbn [mergeValues_with]. unfold bind. now rewrite Hrun.
    + eapply typed_evolves; [eassumption|]. cbn. eauto.
    + intros l [= <-] Hreach.
      destruct (DeepMerge_h_writes f dl sl h dl h1 Hrun) as (_ & _ & _ & C).
      destruct (C d Hreach) as [Hold|Hnew]; [|lia].
      exact (bounded_no_cycle n h d dl Hb (Hpt dl eq_refl) Hold).
  - destruct dstVal as [|ds|dl|dl]; try exact Hcopy.
    pose proof (shallow_typed _ _ _ Hdv) as [de Hde].
    pose proof (shallow_typed _ _ _ Hsv) as [se Hse].
    destruct (appendSlices_h_total n dl sl h de se Hb Hde Hse)
      as (h1 & n1 & Hrun & Hb1 & Ht).
    destruct (appendSlices_h_fresh _ _ _ _ _ _ (deepCopyValue_h_fresh n) Hrun)
      as [Hstep _].
    exists n, (HSlice (length h)), h1.
    split; [|split; [eauto|split; [now apply evolves_fresh|split; [assumption|]]]].
    + cbn [mergeValues_with]. unfold bind. now rewrite Hrun.
    + intros l Hl. apply (fresh_not_reach h h1 (HSlice (length h)) d l Hstep); auto.
      intros l' [= <-]. lia.
Qed.

Lemma merge_key_total (k : nat) (s d : loc) (sm dm : gmap string hval)
    (key : string) (h : heap) :
  merges_return h0 D Sc k ->
  Sc s -> h0 !! s = Some (OMap sm) ->
  (forall v, In v (obj_vals (OMap sm)) -> shallow k h0 v = true) ->
  merging h0 D h -> writable (length h0) D d -> h !! d = Some (OMap dm) ->
  exists f h',
    merge_key
      (mergeValues_with (fun d s => DeepMerge_h f (Some d) (Some s)) (deepCopyValue_h f))
      (deepCopyValue_h f) d s key h = Some (tt, h') /\
    merging h0 D h' /\ evolves h h'.
Proof.
  intros IHk Hs Hsm Hvals Hm Hwd Hd.
  assert (Hrun : exists f h',
             merge_key
               (mergeValues_with (fun d s => DeepMerge_h f (Some d) (Some s))
                                 (deepCopyValue_h f))
               (deepCopyValue_h f) d s key h = Some (tt, h') /\
             (exists n', bounded n' h' = true) /\ evolves h h').
  { destruct Hm as [Hinv [n Hb]].
    assert (Hsh : h !! s = Some (OMap sm)) by (rewrite src_unchanged; assumption).
    assert (Hdlt : (d < length h)%nat) by (eapply lookup_lt_Some; eassumption).
    unfold merge_key. unfold bind at 1, load_map. rewrite Hsh.
    destruct (sm !! key) as [srcVal|] eqn:Hsk.
    2: { exists 0%nat, h. split; [reflexivity|]. split; [eauto | apply evolves_refl]. }
    unfold bind at 1. rewrite Hd.
    destruct (dm !! key) as [dstVal|] eqn:Hdk.
    - destruct (mergeValues_h_total k s d sm dm key srcVal dstVal h IHk Hs Hsm Hsk
                  (Hvals srcVal (lookup_obj_vals sm key srcVal Hsk))
                  (conj Hinv (ex_intro _ n Hb)) Hwd Hd Hdk)
        as (f & r & h1 & Hrun & [n1 Hb1] & Hev & Ht & Hnr).
      destruct (Hev d _ Hd) as ([m1|e1] & Hd1 & Hk); [|destruct Hk].
      destruct (map_set_total h1 d m1 key r n1 Hb1 Hd1 Ht Hnr) as (h2 & Hset & Hb2 & Hev2).
      exists f, h2. split; [unfold bind; rewrite Hrun; exact Hset|].
      split; [assumption | eapply evolves_trans; eassumption].
    - assert (Hsv : shallow n h srcVal = true).
      { apply (bounded_lookup n h s (OMap sm)); auto. eapply lookup_obj_vals; eassumption. }
      destruct (copy_total h n srcVal d Hb Hsv Hdlt)
        as (r & h1 & Hrun & [n1 Hb1] & Hev & Ht & Hnr).
      destruct (Hev d _ Hd) as ([m1|e1] & Hd1 & Hk); [|destruct Hk].
      destruct (map_set_total h1 d m1 key r n1 Hb1 Hd1 Ht Hnr) as (h2 & Hset & Hb2 & Hev2).
      exists n, h2. split; [unfold bind; rewrite Hrun; exact Hset|].
      split; [assumption | eapply evolves_trans; eassumption]. }
  destruct Hrun as (f & h' & Hrun & Hb' & Hev).
  exists f, h'. split; [assumption|]. split; [|assumption]. split; [|assumption].
  exact (merge_key_frame h0 D _ _ d s key h tt h' (deepCopyValue_h_fresh f)
           (mergeValues_h_frame h0 D f) Hrun (proj1 Hm) Hwd).
Qed.

(** [DeepMerge] returns [dst] when [src] is a shallow map that what the
    merge writes to is apart from. *)
Lemma DeepMerge_h_total (k : nat) : merges_return h0 D Sc k.
Proof.
  induction k as [|k IH]; intros s Hsh Hs d h m Hm Hwd Hd; [discriminate|].
  pose proof (shallow_typed _ _ _ Hsh) as [sm Hsm].
  assert (Hvals : forall v, In v (obj_vals (OMap sm)) -> shallow k h0 v = true).
  { intros v Hv. eapply shallow_children; [exact Hsh|reflexivity|exact Hsm|exact Hv]. }
  destruct (for_each_total_fuel
              (fun hc => merging h0 D hc /\ evolves h hc)
              (List.map fst (map_to_list sm))
              (fun f => merge_key
                          (mergeValues_with
                             (fun d s => DeepMerge_h f (Some d) (Some s))
                             (deepCopyValue_h f))
                          (deepCopyValue_h f) d s))
    with (h := h) as (f & h' & Hloop & Hm' & Hev).
  - intros f f' key Hle. apply merge_key_mono.
    + intros dv sv. apply mergeValues_with_mono.
      * intros d' s'. now apply DeepMerge_h_mono.
      * intros v. now apply deepCopyValue_h_mono.
    + intros v. now apply deepCopyValue_h_mono.
  - intros key hc _ [Hmc Hevc].
    destruct (Hevc d _ Hd) as ([mc|ec] & Hdc & Hk); [|destruct Hk].
    destruct (merge_key_total k s d sm mc key hc IH Hs Hsm Hvals Hmc Hwd Hdc)
      as (f & hc' & Hrun & Hmc' & Hev').
    exists f, hc'. split; [assumption|]. split; [assumption|].
    eapply evolves_trans; eassumption.
  - split; [assumption | apply evolves_refl].
  - exists (S f), h'. split; [|split; assumption].
    cbn [DeepMerge_h]. unfold bind at 1, ret. unfold bind at 1, load_map.
    rewrite (src_unchanged h s (proj1 Hm) Hs), Hsm.
    unfold bind at 1. now rewrite Hloop.
Qed.

End MergeTotal.

(** In a bounded store a reference leads to an object. *)
Lemma reach_allocated (n : nat) (h : heap) (l0 l : loc) :
  bounded n h = true -> (l0 < length h)%nat -> reach h l0 l -> (l < length h)%nat.
Proof.
  intros Hb Hl0 Hr. induction Hr as [|x y z Hxy _ IH]; [assumption|].
  apply IH. destruct Hxy as (o & w & Ho & Hw & Hloc).
  pose proof (shallow_typed _ _ _ (bounded_lookup n h x o w Hb Ho Hw)) as Ht.
  destruct w as [|sc|l'|l']; try discriminate; injection Hloc as ->;
    destruct Ht as [ob Hob]; eapply lookup_lt_Some; eassumption.
Qed.

(** When [dst] is nil the result is a new map, and no object that was
    there before the call is written to. *)
Lemma DeepMerge_h_nil_dst (fuel : nat) (src : option loc) (h : heap) (r : loc) (h' : heap) :
  DeepMerge_h fuel None src h = Some (r, h') ->
  (length h <= r)%nat /\ forall l, (l < length h)%nat -> h' !! l = h !! l.
Proof.
  intros H.
  destruct (DeepMerge_h_frame h (fun _ => False) fuel None src h r h' H) as ((_ & A & _) & _ & Hr).
  - apply frame_inv_refl. intros l l' [].
  - exact I.
  - split; [assumption|]. intros l Hl. apply A; [assumption | intros []].
Qed.

Lemma ex_heap_apart_separate (l : loc) :
  reach ex_heap_apart 6%nat l -> ~ reach ex_heap_apart 2%nat l.
Proof.
  intros Hs Hd.
  apply (reach_within ex_heap_apart [6; 4; 3; 5]%nat) in Hs.
  2: { vm_compute. reflexivity. }
  2: { apply list_elem_of_In. now left. }
  apply (reach_within ex_heap_apart [2; 1; 0]%nat) in Hd.
  2: { vm_compute. reflexivity. }
  2: { apply list_elem_of_In. now left. }
  apply list_elem_of_In in Hs, Hd. cbn in Hs, Hd. lia.
Qed.

(** The merge of two maps that share nothing: the nested map of [dst]
    (location 1) holds a new slice and a new map, the objects of [src]
    (locations 3 to 6) are as they were. *)
Example DeepMerge_h_apart_run :
  DeepMerge_h 5 (Some 2%nat) (Some 6%nat) ex_heap_apart =
  Some (2%nat,
        [ OSlice [HScalar (SString "a")];
          OMap (<[ "tags" := HSlice 7%nat ]> {[ "x" := HMap 8%nat ]});
          OMap {[ "common" := HMap 1%nat ]};
          OSlice [HScalar (SString "b")];
          OMap (<[ "tags" := HSlice 3%nat ]> {[ "x" := HMap 5%nat ]});
          OMap {[ "y" := HNil ]};
          OMap {[ "common" := HMap 4%nat ]};
          OSlice [HScalar (SString "a"); HScalar (SString "b")];
          OMap {[ "y" := HNil ]} ]).
Proof. vm_compute. reflexivity. Qed.

(** C10 (as amended): let [dst] and [src] be two maps of a store whose
    values do not contain themselves, such that no object that [dst]
    reaches is reached by [src].  Then [DeepMerge] returns (with any
    large enough step budget) and what it returns is [dst] itself; every
    object that [src] reaches is as it was; and [dst] has received only
    copies: what it reaches afterwards it reached before or has been
    allocated by the call. *)
Theorem deep_merge_frame (n : nat) (d s : loc) (h : heap) (dm sm : gmap string hval) :
  bounded n h = true ->
  h !! d = Some (OMap dm) -> h !! s = Some (OMap sm) ->
  (forall l, reach h s l -> ~ reach h d l) ->
  exists fuel0 h',
    (forall fuel, (fuel0 <= fuel)%nat ->
                  DeepMerge_h fuel (Some d) (Some s) h = Some (d, h')) /\
    (forall l o, reach h s l -> h !! l = Some o -> h' !! l = Some o) /\
    (forall l, reach h' d l -> reach h d l \/ (length h <= l)%nat).
Proof.
  intros Hb Hd Hs Hsep.
  destruct (DeepMerge_h_total h (reach h d) (reach h s)) with (k := S n) (s := s)
    (d := d) (h := h) (m := dm) as (f & h' & Hrun & _ & _).
  - apply reach_closed_in.
  - intros l. apply (reach_allocated n h s l Hb). eapply lookup_lt_Some; eassumption.
  - exact Hsep.
  - apply bounded_ref; [assumption|]. cbn. eauto.
  - apply rtc_refl.
  - split; [|eauto]. apply frame_inv_refl, reach_closed_in.
  - left. apply rtc_refl.
  - assumption.
  - exists f, h'. split; [|split].
    + intros fuel Hle. exact (DeepMerge_h_mono f fuel _ _ Hle _ _ Hrun).
    + destruct (DeepMerge_h_writes f d s h d h' Hrun) as (_ & _ & A & _).
      intros l o Hl Ho. rewrite A; [assumption| |now apply Hsep].
      eapply lookup_lt_Some; eassumption.
    + now destruct (DeepMerge_h_writes f d s h d h' Hrun) as (_ & _ & _ & C).
Qed.

Lemma deep_merge_frame_witness :
  exists fuel0 h',
    (forall fuel, (fuel0 <= fuel)%nat ->
                  DeepMerge_h fuel (Some 2%nat) (Some 6%nat) ex_heap_apart
                  = Some (2%nat, h')) /\
    (forall l o, reach ex_heap_apart 6%nat l ->
                 ex_heap_apart !! l = Some o -> h' !! l = Some o) /\
    (forall l, reach h' 2%nat l ->
               reach ex_heap_apart 2%nat l \/ (length ex_heap_apart <= l)%nat).
Proof.
  apply (deep_merge_frame 3 2%nat 6%nat ex_heap_apart
           {[ "common" := HMap 1%nat ]} {[ "common" := HMap 4%nat ]}).
  - vm_compute. reflexivity.
  - reflexivity.
  - reflexivity.
  - exact ex_heap_apart_separate.
Defined.

(** C10 (as stated) fails: [dst] and [src] are two maps that hold the same
    map under the key common; after the merge the slice this map holds
    under the key tags, which [src] reaches, has its element twice. *)
Lemma deep_merge_modifies_shared_src :
  exists h',
    DeepMerge_h 10 (Some 2%nat) (Some 3%nat) ex_heap_shared = Some (2%nat, h') /\
    reach ex_heap_shared 3%nat 1%nat /\
    ex_heap_shared !! 1%nat = Some (OMap {[ "tags" := HSlice 0%nat ]}) /\
    ex_heap_shared !! 0%nat = Some (OSlice [HScalar (SString "a")]) /\
    h' !! 1%nat = Some (OMap {[ "tags" := HSlice 4%nat ]}) /\
    h' !! 4%nat = Some (OSlice [HScalar (SString "a"); HScalar (SString "a")]).
Proof.
  eexists. split; [vm_compute; reflexivity|].
  split; [|split; [|split; [|split]]; vm_compute; reflexivity].
  apply rtc_once. exists (OMap {[ "common" := HMap 1%nat ]}), (HMap 1%nat).
  split; [reflexivity|]. split; [|reflexivity].
  vm_compute. now left.
Qed.

(** ** Deep merge: keys and neutral elements *)

Lemma DeepMerge_empty_r (dst : gmap string Value) : DeepMerge dst ∅ = dst.
Proof. unfold DeepMerge. apply map_fold_empty. Qed.

Lemma DeepMerge_empty_l (src : gmap string Value) : DeepMerge ∅ src = src.
Proof.
  apply map_eq. intros k. rewrite DeepMerge_lookup, lookup_empty.
  destruct (src !! k) as [b|]; [|reflexivity]. now rewrite deepCopyValue_id.
Qed.


(** X2.  The empty map (which is how a nil map reads) is neutral on both
    sides of [DeepMerge], and nil is neutral on both sides of
    [mergeValues]: a nil value of [src] never replaces a value, and a nil
    value of [dst] is always replaced. *)
Theorem deep_merge_neutral (m : gmap string Value) (v : Value) :
  DeepMerge m ∅ = m /\ DeepMerge ∅ m = m /\
  mergeValues v VNil = v /\ mergeValues VNil v = v.
Proof.
  split; [apply DeepMerge_empty_r|]. split; [apply DeepMerge_empty_l|].
  split; [reflexivity|].
  destruct v; try reflexivity; cbn [mergeValues]; now rewrite deepCopyValue_id.
Qed.

(** ** Deep merge: merging the same source again *)






(** ** Deep equality is an equivalence *)

Lemma float64_eqb_sym (x y : spec_float) : float64_eqb x y = float64_eqb y x.
Proof.
  unfold float64_eqb, SFeqb, SFcompare.
  destruct x as [sx|sx| |sx mx ex], y as [sy|sy| |sy my ey]; try reflexivity;
    try (destruct sx; reflexivity); try (destruct sy; reflexivity);
    try (destruct sx, sy; reflexivity).
  rewrite (Z.compare_antisym ey ex).
  pose proof (Pos.compare_cont_antisym mx my Eq) as Hm. cbn [CompOpp] in Hm.
  rewrite <- Hm. unfold CompOpp.
  destruct sx, sy; try reflexivity;
    destruct (ey ?= ex); try reflexivity;
    destruct (Pos.compare_cont Eq mx my); reflexivity.
Qed.

Lemma float64_eqb_trans (x y z : spec_float) :
  float64_eqb x y = true -> float64_eqb y z = true -> float64_eqb x z = true.
Proof.
  unfold float64_eqb, SFeqb, SFcompare.
  destruct x as [sx|sx| |sx mx ex], y as [sy|sy| |sy my ey], z as [sz|sz| |sz mz ez];
    try discriminate; try reflexivity;
    try (destruct sx, sy; discriminate); try (destruct sy, sz; discriminate);
    try (destruct sx; discriminate); try (destruct sy; discriminate);
    try (destruct sx, sy, sz; (discriminate || reflexivity)).
  intros Hxy Hyz.
  assert (Exy : sx = sy /\ ex = ey /\ mx = my).
  { destruct sx, sy; try discriminate;
      destruct (ex ?= ey) eqn:E; try discriminate;
      apply Z.compare_eq in E;
      destruct (Pos.compare_cont Eq mx my) eqn:M; try discriminate;
      apply Pos.compare_eq in M; auto. }
  destruct Exy as (-> & -> & ->). exact Hyz.
Qed.

Lemma map_fold_all {V : Type} (f : string -> V -> bool) (m : gmap string V) :
  map_fold (fun k v acc => acc && f k v) true m = true <->
  forall k v, m !! k = Some v -> f k v = true.
Proof.
  apply (map_fold_weak_ind
           (fun r m' => r = true <-> forall k v, m' !! k = Some v -> f k v = true)).
  - split; [|reflexivity]. intros _ k v H. rewrite lookup_empty in H. discriminate.
  - intros i x m' r Hi IH. rewrite andb_true_iff, IH. split.
    + intros [Hm Hx] k v H. destruct (decide (i = k)) as [->|Hne].
      * rewrite lookup_insert_eq in H. now injection H as <-.
      * rewrite lookup_insert_ne in H by assumption. eauto.
    + intros H. split.
      * intros k v Hk. apply (H k). rewrite lookup_insert_ne; [assumption|].
        intros ->. rewrite Hi in Hk. discriminate.
      * apply (H i). apply lookup_insert_eq.
Qed.

(** Two maps are deeply equal when they have the same keys and deeply
    equal values under each key. *)
Lemma reflect_DeepEqual_maps (m1 m2 : gmap string Value) :
  reflect_DeepEqual (VMap m1) (VMap m2) = true <->
  (forall k, is_Some (m1 !! k) <-> is_Some (m2 !! k)) /\
  (forall k v1 v2, m1 !! k = Some v1 -> m2 !! k = Some v2 ->
                   reflect_DeepEqual v1 v2 = true).
Proof.
  cbn [reflect_DeepEqual]. rewrite andb_true_iff, Nat.eqb_eq.
  rewrite (map_fold_all
             (fun k v1 => match m2 !! k with
                          | Some v2 => reflect_DeepEqual v1 v2
                          | None => false
                          end) m1).
  split.
  - intros [Hsize Hall].
    assert (Hsub : dom m1 ⊆ dom m2).
    { intros k Hk. apply elem_of_dom in Hk as [v1 Hk]. apply elem_of_dom.
      specialize (Hall k v1 Hk). destruct (m2 !! k); [eauto | discriminate]. }
    assert (Hdom : dom m1 = dom m2).
    { apply set_subseteq_size_eq; [assumption|]. rewrite !size_dom. lia. }
    split.
    + intros k. rewrite <- !elem_of_dom, Hdom. reflexivity.
    + intros k v1 v2 H1 H2. specialize (Hall k v1 H1). now rewrite H2 in Hall.
  - intros [Hdom Hall]. split.
    + rewrite <- !(size_dom (D := gset string)). f_equal. apply set_eq. intros k.
      rewrite !elem_of_dom. apply Hdom.
    + intros k v1 H1. destruct (proj1 (Hdom k) (ex_intro _ v1 H1)) as [v2 H2].
      rewrite H2. eauto.
Qed.

Lemma reflect_DeepEqual_slices (l1 l2 : list Value) :
  reflect_DeepEqual (VSlice l1) (VSlice l2) = true <->
  Forall2 (fun x y => reflect_DeepEqual x y = true) l1 l2.
Proof.
  cbn [reflect_DeepEqual]. revert l2. induction l1 as [|x l1 IH]; intros [|y l2].
  - split; [constructor | reflexivity].
  - split; [discriminate | intros H; inversion H].
  - split; [discriminate | intros H; inversion H].
  - rewrite andb_true_iff, IH. split.
    + intros [Hx Hl]. now constructor.
    + intros H. inversion H; subst. auto.
Qed.

Lemma reflect_DeepEqual_sym_true (a : Value) :
  forall b, reflect_DeepEqual a b = true -> reflect_DeepEqual b a = true.
Proof.
  induction a as [a Hs Hm | l IH | m IH] using Value_nested_ind; intros b H.
  - destruct a; try (now destruct (Hs l)); try (now destruct (Hm m));
      destruct b; try discriminate; cbn [reflect_DeepEqual] in *.
    + reflexivity.
    + apply Bool.eqb_prop in H. subst. apply Bool.eqb_reflx.
    + now rewrite String.eqb_sym.
    + now rewrite float64_eqb_sym.
    + now rewrite Z.eqb_sym.
    + now rewrite Z.eqb_sym.
    + now rewrite Z.eqb_sym.
    + now rewrite String.eqb_sym.
  - destruct b as [| | | | | | | |l2|]; try discriminate.
    apply reflect_DeepEqual_slices in H. apply reflect_DeepEqual_slices.
    induction H as [|x y l l2 Hxy Hl IHl]; constructor.
    + apply IH; [now left | assumption].
    + apply IHl. intros v Hv. apply IH. now right.
  - destruct b as [| | | | | | | | |m2]; try discriminate.
    apply reflect_DeepEqual_maps in H as [Hdom Hall].
    apply reflect_DeepEqual_maps. split.
    + intros k. symmetry. apply Hdom.
    + intros k v2 v1 H2 H1. apply (IH k v1 H1). eauto.
Qed.

Lemma reflect_DeepEqual_sym (a b : Value) :
  reflect_DeepEqual a b = reflect_DeepEqual b a.
Proof.
  destruct (reflect_DeepEqual a b) eqn:Hab, (reflect_DeepEqual b a) eqn:Hba;
    try reflexivity.
  - apply reflect_DeepEqual_sym_true in Hab. congruence.
  - apply reflect_DeepEqual_sym_true in Hba. congruence.
Qed.

Lemma reflect_DeepEqual_trans (a : Value) :
  forall b c, reflect_DeepEqual a b = true -> reflect_DeepEqual b c = true ->
              reflect_DeepEqual a c = true.
Proof.
  induction a as [a Hs Hm | l IH | m IH] using Value_nested_ind; intros b c Hab Hbc.
  - destruct a; try (now destruct (Hs l)); try (now destruct (Hm m));
      destruct b; try discriminate; destruct c; try discriminate;
      cbn [reflect_DeepEqual] in *.
    + reflexivity.
    + apply Bool.eqb_prop in Hab. now subst.
    + apply String.eqb_eq in Hab. now subst.
    + eapply float64_eqb_trans; eassumption.
    + apply Z.eqb_eq in Hab. now subst.
    + apply Z.eqb_eq in Hab. now subst.
    + apply Z.eqb_eq in Hab. now subst.
    + apply String.eqb_eq in Hab. now subst.
  - destruct b as [| | | | | | | |l2|]; try discriminate.
    destruct c as [| | | | | | | |l3|]; try discriminate.
    apply reflect_DeepEqual_slices in Hab, Hbc. apply reflect_DeepEqual_slices.
    revert l3 Hbc. induction Hab as [|x y l l2 Hxy Hl IHl]; intros l3 Hbc.
    + inversion Hbc. constructor.
    + inversion Hbc as [|y' z l2' l3' Hyz Hl3]; subst. constructor.
      * eapply IH; [now left | eassumption | eassumption].
      * apply IHl; [|assumption]. intros v Hv. apply IH. now right.
  - destruct b as [| | | | | | | | |m2]; try discriminate.
    destruct c as [| | | | | | | | |m3]; try discriminate.
    apply reflect_DeepEqual_maps in Hab as [Hd12 H12].
    apply reflect_DeepEqual_maps in Hbc as [Hd23 H23].
    apply reflect_DeepEqual_maps. split.
    + intros k. rewrite Hd12. apply Hd23.
    + intros k v1 v3 H1 H3.
      destruct (proj1 (Hd12 k) (ex_intro _ v1 H1)) as [v2 H2].
      eapply (IH k v1 H1); eauto.
Qed.

Lemma reflect_DeepEqual_sym_bool (ParseFloat : string -> option spec_float)
    (a b : Value) :
  DeepEqual ParseFloat a b = DeepEqual ParseFloat b a.
Proof. apply reflect_DeepEqual_sym. Qed.

(** X4.  [DeepEqual] is symmetric and transitive, and it is reflexive on
    the values that [encoding/json] produces; so on those it is an
    equivalence. *)
Theorem deep_equal_equivalence (ParseFloat : string -> option spec_float) :
  (forall a b, DeepEqual ParseFloat a b = DeepEqual ParseFloat b a) /\
  (forall a b c, DeepEqual ParseFloat a b = true -> DeepEqual ParseFloat b c = true ->
                 DeepEqual ParseFloat a c = true) /\
  (forall a, json_value a = true -> DeepEqual ParseFloat a a = true).
Proof.
  split; [|split].
  - intros a b. apply reflect_DeepEqual_sym.
  - intros a b c. apply reflect_DeepEqual_trans.
  - intros a. apply DeepEqual_json_refl.
Qed.

(** X5.  [CompareSecretsJSON] does not depend on the order of its two
    arguments, whatever the decoder. *)
Theorem compare_secrets_json_sym
    (ParseFloat : string -> option spec_float)
    (Unmarshal_json : string -> option Value) (existing new : string) :
  CompareSecretsJSON ParseFloat Unmarshal_json existing new =
  CompareSecretsJSON ParseFloat Unmarshal_json new existing.
Proof.
  unfold CompareSecretsJSON.
  destruct (Unmarshal_json existing) as [e|] eqn:He,
           (Unmarshal_json new) as [n|] eqn:Hn.
  - apply reflect_DeepEqual_sym.
  - symmetry. apply String.eqb_neq. intros ->. congruence.
  - apply String.eqb_neq. intros ->. congruence.
  - apply String.eqb_sym.
Qed.

(** ** Key lists *)

Lemma sort_Strings_sorted (l : list string) :
  NoDup l -> StronglySorted (fun a b => String.ltb a b = true) (sort_Strings l).
Proof.
  intros Hnd. apply sort_Slice_strict; [apply ltb_asym | apply ltb_negtrans | assumption|].
  intros x y _ _. apply ltb_connected.
Qed.

Lemma sort_Strings_In (l : list string) (k : string) :
  In k (sort_Strings l) <-> In k l.
Proof. apply sort_Slice_In. Qed.

(** X6.  [getMapKeys] lists the keys of a map, each once, in increasing
    order; for a value that is not a map it returns no key. *)
Theorem get_map_keys (m : gmap string Value) :
  StronglySorted (fun a b => String.ltb a b = true) (getMapKeys (VMap m)) /\
  NoDup (getMapKeys (VMap m)) /\
  (forall k, In k (getMapKeys (VMap m)) <-> is_Some (m !! k)) /\
  (forall v, (forall m', v <> VMap m') -> getMapKeys v = []).
Proof.
  cbn [getMapKeys]. split; [|split; [|split]].
  - apply sort_Strings_sorted, NoDup_keys.
  - unfold sort_Strings. rewrite sort_Slice_Permutation. apply NoDup_keys.
  - intros k. rewrite sort_Strings_In. apply In_keys.
  - intros v H. destruct v; try reflexivity. now destruct (H m0).
Qed.

(** The first loop of [diffMapKeys], over [desiredMap]. *)
Lemma diffMapKeys_desired_loop (ParseFloat : string -> option spec_float)
    (currentMap : gmap string Value) (l : list (string * Value))
    (added modified : list string) (seen : gmap string bool) :
  foldl
    (fun (acc : list string * list string * gmap string bool)
         (entry : string * Value) =>
       let '(added, modified, seen) := acc in
       let '(k, dv) := entry in
       let seen := <[k := true]> seen in
       match currentMap !! k with
       | None => (added ++ [k], modified, seen)
       | Some cv =>
           if negb (DeepEqual ParseFloat cv dv)
           then (added, modified ++ [k], seen)
           else (added, modified, seen)
       end)
    (added, modified, seen) l =
  (added ++ List.map fst
              (List.filter (fun e => match currentMap !! fst e with
                                     | None => true
                                     | Some _ => false
                                     end) l),
   modified ++ List.map fst
                 (List.filter (fun e => match currentMap !! fst e with
                                        | None => false
                                        | Some cv => negb (DeepEqual ParseFloat cv (snd e))
                                        end) l),
   foldl (fun s e => <[fst e := true]> s) seen l).
Proof.
  revert added modified seen. induction l as [|[k dv] l IH]; intros added modified seen.
  - cbn. now rewrite !app_nil_r.
  - cbn [foldl List.filter List.map fst snd].
    destruct (currentMap !! k) as [cv|] eqn:Hk.
    + destruct (negb (DeepEqual ParseFloat cv dv)); rewrite IH; cbn [List.map fst];
        now rewrite <- ?app_assoc.
    + rewrite IH. cbn [List.map fst]. now rewrite <- app_assoc.
Qed.

(** The second loop of [diffMapKeys], over [currentMap]. *)
Lemma diffMapKeys_current_loop (seen : gmap string bool) (l : list (string * Value))
    (removed : list string) :
  foldl
    (fun (removed : list string) (entry : string * Value) =>
       if negb (flag seen (fst entry)) then removed ++ [fst entry] else removed)
    removed l =
  removed ++ List.map fst (List.filter (fun e => negb (flag seen (fst e))) l).
Proof.
  revert removed. induction l as [|[k cv] l IH]; intros removed.
  - cbn. now rewrite app_nil_r.
  - cbn [foldl List.filter fst]. destruct (negb (flag seen k)); rewrite IH;
      cbn [List.map fst]; now rewrite <- ?app_assoc.
Qed.

(** [diffMapKeys] on two maps, before the three lists are sorted. *)
Lemma diffMapKeys_maps (ParseFloat : string -> option spec_float)
    (c d : gmap string Value) :
  diffMapKeys ParseFloat (VMap c) (VMap d) =
  (sort_Strings
     (List.map fst (List.filter (fun e => match c !! fst e with
                                          | None => true
                                          | Some _ => false
                                          end) (map_to_list d))),
   sort_Strings
     (List.map fst
        (List.filter
           (fun e => negb (flag (foldl (fun s e => <[fst e := true]> s) ∅
                                       (map_to_list d)) (fst e)))
           (map_to_list c))),
   sort_Strings
     (List.map fst (List.filter (fun e => match c !! fst e with
                                          | None => false
                                          | Some cv => negb (DeepEqual ParseFloat cv (snd e))
                                          end) (map_to_list d)))).
Proof.
  unfold diffMapKeys. rewrite diffMapKeys_desired_loop.
  rewrite diffMapKeys_current_loop. reflexivity.
Qed.

Lemma In_map_fst_filter {V : Type} (p : string * V -> bool) (m : gmap string V)
    (k : string) :
  In k (List.map fst (List.filter p (map_to_list m))) <->
  exists v, m !! k = Some v /\ p (k, v) = true.
Proof.
  rewrite in_map_iff. split.
  - intros ([k' v] & <- & Hf). apply filter_In in Hf as [Hin Hp].
    apply In_map_to_list in Hin. eauto.
  - intros (v & Hk & Hp). exists (k, v). split; [reflexivity|].
    apply filter_In. split; [now apply In_map_to_list | assumption].
Qed.

(** The members of the three lists that [diffMapKeys] returns for two
    maps. *)
Lemma diffMapKeys_members (ParseFloat : string -> option spec_float)
    (c d : gmap string Value) (added removed modified : list string) :
  diffMapKeys ParseFloat (VMap c) (VMap d) = (added, removed, modified) ->
  (forall k, In k added <-> c !! k = None /\ is_Some (d !! k)) /\
  (forall k, In k removed <-> is_Some (c !! k) /\ d !! k = None) /\
  (forall k, In k modified <->
             exists cv dv, c !! k = Some cv /\ d !! k = Some dv /\
                           DeepEqual ParseFloat cv dv = false).
Proof.
  rewrite diffMapKeys_maps. intros [= <- <- <-]. split; [|split].
  - intros k. rewrite sort_Strings_In, In_map_fst_filter. cbn [fst]. split.
    + intros (v & Hd & Hp). destruct (c !! k); [discriminate | eauto].
    + intros [Hc [v Hd]]. exists v. now rewrite Hc.
  - intros k. rewrite sort_Strings_In, In_map_fst_filter. cbn [fst]. split.
    + intros (v & Hc & Hp). split; [eauto|].
      destruct (d !! k) as [dv|] eqn:Hd; [|reflexivity].
      assert (Hs : flag (foldl (fun s e => <[fst e := true]> s) ∅ (map_to_list d)) k
                   = true) by (apply seen_desired; eauto).
      rewrite Hs in Hp. discriminate.
    + intros [[v Hc] Hd]. exists v. split; [assumption|].
      destruct (flag (foldl (fun s e => <[fst e := true]> s) ∅ (map_to_list d)) k)
        eqn:Hs; [|reflexivity].
      apply seen_desired in Hs. rewrite Hd in Hs. now destruct Hs.
  - intros k. rewrite sort_Strings_In, In_map_fst_filter. cbn [fst snd]. split.
    + intros (dv & Hd & Hp). destruct (c !! k) as [cv|]; [|discriminate].
      exists cv, dv. split; [reflexivity|]. split; [assumption|].
      now apply negb_true_iff.
    + intros (cv & dv & Hc & Hd & Hne). exists dv. split; [assumption|].
      rewrite Hc. now apply negb_true_iff.
Qed.

(** X7.  On two maps [diffMapKeys] returns the keys only [desired] has,
    the keys only [current] has, and the common keys whose values are not
    deeply equal, each list in increasing order; when one of the two
    values is not a map the answer is the one modified key "<value>". *)
Theorem diff_map_keys (ParseFloat : string -> option spec_float)
    (c d : gmap string Value) :
  let '(added, removed, modified) := diffMapKeys ParseFloat (VMap c) (VMap d) in
  (forall k, In k added <-> c !! k = None /\ is_Some (d !! k)) /\
  (forall k, In k removed <-> is_Some (c !! k) /\ d !! k = None) /\
  (forall k, In k modified <->
             exists cv dv, c !! k = Some cv /\ d !! k = Some dv /\
                           DeepEqual ParseFloat cv dv = false) /\
  StronglySorted (fun a b => String.ltb a b = true) added /\
  StronglySorted (fun a b => String.ltb a b = true) removed /\
  StronglySorted (fun a b => String.ltb a b = true) modified /\
  (forall a b, (forall m, a <> VMap m) \/ (forall m, b <> VMap m) ->
               diffMapKeys ParseFloat a b = ([], [], ["<value>"])).
Proof.
  destruct (diffMapKeys ParseFloat (VMap c) (VMap d)) as [[added removed] modified] eqn:E.
  destruct (diffMapKeys_members ParseFloat c d added removed modified E) as (Ha & Hr & Hm).
  rewrite diffMapKeys_maps in E. injection E as <- <- <-.
  split; [assumption|]. split; [assumption|]. split; [assumption|].
  split; [|split; [|split]].
  - apply sort_Strings_sorted, NoDup_map_filter, NoDup_keys.
  - apply sort_Strings_sorted, NoDup_map_filter, NoDup_keys.
  - apply sort_Strings_sorted, NoDup_map_filter, NoDup_keys.
  - intros a b [H|H].
    + destruct a; try reflexivity. now destruct (H m).
    + destruct a, b; try reflexivity; now destruct (H m0) || now destruct (H m).
Qed.

(** ** Summaries count records *)

Lemma tally_count (l : list SecretChange) (s0 : ChangeSummary) :
  Added (foldl tally s0 l) = Added s0 + count_changes ChangeTypeAdded l /\
  Removed (foldl tally s0 l) = Removed s0 + count_changes ChangeTypeRemoved l /\
  Modified (foldl tally s0 l) = Modified s0 + count_changes ChangeTypeModified l /\
  Unchanged (foldl tally s0 l) = Unchanged s0 + count_changes ChangeTypeUnchanged l /\
  Total (foldl tally s0 l) = Total s0 + Z.of_nat (length l).
Proof.
  unfold count_changes. revert s0. induction l as [|c l IH]; intros s0.
  - cbn. lia.
  - cbn [foldl]. destruct (IH (tally s0 c)) as (A & R & M & U & T).
    rewrite A, R, M, U, T. cbn [List.filter length]. unfold tally.
    destruct (String.eqb (SC_ChangeType c) ChangeTypeAdded) eqn:Ea;
      destruct (String.eqb (SC_ChangeType c) ChangeTypeRemoved) eqn:Er;
      destruct (String.eqb (SC_ChangeType c) ChangeTypeModified) eqn:Em;
      destruct (String.eqb (SC_ChangeType c) ChangeTypeUnchanged) eqn:Eu;
      rewrite ?String.eqb_eq in *;
      try (rewrite Ea in *; discriminate);
      try (rewrite Er in *; discriminate);
      try (rewrite Em in *; discriminate);
      cbn [Added Removed Modified Unchanged Total length]; lia.
Qed.

(** X8.  Each field of the summary that [ComputeSummary] returns is the
    number of records of that change type, and the total is the number of
    records: a record of another change type counts toward the total
    only. *)
Theorem compute_summary_counts (changes : list SecretChange) :
  Added (ComputeSummary changes) = count_changes ChangeTypeAdded changes /\
  Removed (ComputeSummary changes) = count_changes ChangeTypeRemoved changes /\
  Modified (ComputeSummary changes) = count_changes ChangeTypeModified changes /\
  Unchanged (ComputeSummary changes) = count_changes ChangeTypeUnchanged changes /\
  Total (ComputeSummary changes) = Z.of_nat (length changes).
Proof.
  unfold ComputeSummary.
  destruct (tally_count changes
              {| Added := 0; Removed := 0; Modified := 0; Unchanged := 0; Total := 0 |})
    as (A & R & M & U & T).
  cbn in *. rewrite A, R, M, U, T. repeat split; lia.
Qed.

Lemma count_changes_zero (t : ChangeType) (l : list SecretChange) :
  count_changes t l = 0 <-> forall c, In c l -> SC_ChangeType c <> t.
Proof.
  unfold count_changes. split.
  - intros H c Hc Ht.
    assert (Hin : In c (List.filter (fun c => String.eqb (SC_ChangeType c) t) l)).
    { apply filter_In. split; [assumption | now apply String.eqb_eq]. }
    destruct (List.filter (fun c => String.eqb (SC_ChangeType c) t) l);
      [destruct Hin | cbn in H; lia].
  - intros H.
    destruct (List.filter (fun c => String.eqb (SC_ChangeType c) t) l) as [|c l'] eqn:E;
      [reflexivity|].
    assert (Hin : In c (List.filter (fun c => String.eqb (SC_ChangeType c) t) l))
      by (rewrite E; now left).
    apply filter_In in Hin as [Hc Ht]. apply String.eqb_eq in Ht.
    now destruct (H c Hc).
Qed.

Lemma count_changes_nonneg (t : ChangeType) (l : list SecretChange) :
  0 <= count_changes t l.
Proof. unfold count_changes. lia. Qed.

Lemma ComputeSummary_zero_sum (l : list SecretChange) :
  ChangeSummary_IsZeroSum (ComputeSummary l) = true <->
  forall c, In c l ->
            SC_ChangeType c <> ChangeTypeAdded /\
            SC_ChangeType c <> ChangeTypeRemoved /\
            SC_ChangeType c <> ChangeTypeModified.
Proof.
  destruct (tally_count l
              {| Added := 0; Removed := 0; Modified := 0; Unchanged := 0; Total := 0 |})
    as (A & R & M & _).
  unfold ChangeSummary_IsZeroSum, ComputeSummary. rewrite A, R, M. cbn [Added Removed Modified].
  rewrite !andb_true_iff, !Z.eqb_eq, !Z.add_0_l, !count_changes_zero. split.
  - intros [[Ha Hr] Hm] c Hc. auto.
  - intros H. repeat split; intros c Hc; now apply H.
Qed.

(** ** The diff of two secret maps *)

Lemma DiffSecrets_In (ParseFloat : string -> option spec_float)
    (current desired : gmap string Value) (c : SecretChange) :
  In c (DiffSecrets ParseFloat current desired) <->
  (exists path dv, desired !! path = Some dv /\
                   c = desired_change ParseFloat current (path, dv)) \/
  (exists path cv, current !! path = Some cv /\ desired !! path = None /\
                   c = removed_change (path, cv)).
Proof.
  rewrite DiffSecrets_unsorted, sort_Slice_In, in_app_iff, !in_map_iff. split.
  - intros [([path dv] & <- & Hin)|([path cv] & <- & Hin)].
    + left. exists path, dv. split; [now apply In_map_to_list | reflexivity].
    + right. apply filter_In in Hin as [Hin Hf]. cbn [fst] in Hf.
      exists path, cv. split; [now apply In_map_to_list|]. split; [|reflexivity].
      destruct (desired !! path) eqn:Hd; [|reflexivity].
      assert (Hs : flag (foldl (fun s e => <[fst e := true]> s) ∅
                               (map_to_list desired)) path = true)
        by (apply seen_desired; eauto).
      rewrite Hs in Hf. discriminate.
  - intros [(path & dv & Hd & ->)|(path & cv & Hc & Hd & ->)].
    + left. exists (path, dv). split; [reflexivity | now apply In_map_to_list].
    + right. exists (path, cv). split; [reflexivity|]. apply filter_In.
      split; [now apply In_map_to_list|]. cbn [fst].
      destruct (flag (foldl (fun s e => <[fst e := true]> s) ∅
                            (map_to_list desired)) path) eqn:Hs; [|reflexivity].
      apply seen_desired in Hs. rewrite Hd in Hs. now destruct Hs.
Qed.

Lemma DeepEqual_maps (ParseFloat : string -> option spec_float)
    (c d : gmap string Value) :
  DeepEqual ParseFloat (VMap c) (VMap d) = true <-> in_sync ParseFloat c d.
Proof.
  unfold DeepEqual. cbn [normalizeValue]. rewrite reflect_DeepEqual_maps. split.
  - intros [Hdom Hall] path. specialize (Hdom path). specialize (Hall path).
    rewrite !lookup_fmap in Hdom, Hall.
    destruct (c !! path) as [cv|], (d !! path) as [dv|]; cbn in *.
    + now apply (Hall _ _ eq_refl eq_refl).
    + destruct (proj1 Hdom (ex_intro _ _ eq_refl)) as [x Hx]. discriminate.
    + destruct (proj2 Hdom (ex_intro _ _ eq_refl)) as [x Hx]. discriminate.
    + exact I.
  - intros H. split.
    + intros path. specialize (H path). rewrite !lookup_fmap.
      destruct (c !! path), (d !! path); cbn; try (now destruct H);
        split; intros [x Hx]; eauto; discriminate.
    + intros path v1 v2. specialize (H path). rewrite !lookup_fmap.
      destruct (c !! path), (d !! path); cbn; try discriminate.
      intros [= <-] [= <-]. exact H.
Qed.

(** X9.  The summary of a diff is zero-sum exactly when the two secret
    maps hold the same paths with deeply equal values, that is when the
    two maps are deeply equal. *)
Theorem zero_sum_in_sync (ParseFloat : string -> option spec_float)
    (current desired : gmap string Value) :
  (ChangeSummary_IsZeroSum (ComputeSummary (DiffSecrets ParseFloat current desired))
     = true <-> in_sync ParseFloat current desired) /\
  (in_sync ParseFloat current desired <->
   DeepEqual ParseFloat (VMap current) (VMap desired) = true).
Proof.
  split; [|symmetry; apply DeepEqual_maps].
  rewrite ComputeSummary_zero_sum. split.
  - intros H path.
    destruct (desired !! path) as [dv|] eqn:Hd.
    + assert (Hin : In (desired_change ParseFloat current (path, dv))
                       (DiffSecrets ParseFloat current desired))
        by (apply DiffSecrets_In; left; eauto).
      destruct (H _ Hin) as (Ha & _ & Hm).
      destruct (desired_change_spec ParseFloat current path dv) as [_ Ht].
      rewrite Ht in Ha, Hm.
      destruct (current !! path) as [cv|]; [|now destruct Ha].
      destruct (DeepEqual ParseFloat cv dv); [reflexivity | now destruct Hm].
    + destruct (current !! path) as [cv|] eqn:Hc; [|exact I].
      assert (Hin : In (removed_change (path, cv))
                       (DiffSecrets ParseFloat current desired))
        by (apply DiffSecrets_In; right; eauto).
      destruct (H _ Hin) as (_ & Hr & _). now destruct Hr.
  - intros H c Hc. apply DiffSecrets_In in Hc
      as [(path & dv & Hd & ->)|(path & cv & Hcur & Hd & ->)].
    + destruct (desired_change_spec ParseFloat current path dv) as [_ Ht].
      rewrite Ht. specialize (H path). rewrite Hd in H.
      destruct (current !! path) as [cv|]; [|destruct H]. rewrite H.
      repeat split; discriminate.
    + specialize (H path). rewrite Hcur, Hd in H. destruct H.
Qed.

(** ** The key lists of a diff *)

(** Two values with no key-level difference are deeply equal. *)
Lemma diffMapKeys_nil (ParseFloat : string -> option spec_float) (cv dv : Value) :
  diffMapKeys ParseFloat cv dv = ([], [], []) -> DeepEqual ParseFloat cv dv = true.
Proof.
  intros H.
  destruct cv as [| | | | | | | | |c]; try discriminate.
  destruct dv as [| | | | | | | | |d]; try discriminate.
  destruct (diffMapKeys_members ParseFloat c d [] [] [] H) as (Ha & Hr & Hm).
  apply DeepEqual_maps. intros path.
  destruct (c !! path) as [cv|] eqn:Hc, (d !! path) as [dv|] eqn:Hd.
  - destruct (DeepEqual ParseFloat cv dv) eqn:E; [reflexivity|].
    destruct (proj2 (Hm path)). eauto.
  - destruct (proj2 (Hr path)). eauto.
  - destruct (proj2 (Ha path)). eauto.
  - exact I.
Qed.

(** X10.  The key lists of the records of a diff.  A modified record
    carries the key-level difference of the two values, which names at
    least one key; the other records carry none.  Every record carries
    the keys of the current and of the desired value, where it has
    one. *)
Theorem diff_secrets_keys (ParseFloat : string -> option spec_float)
    (current desired : gmap string Value) (c : SecretChange) :
  In c (DiffSecrets ParseFloat current desired) ->
  (SC_ChangeType c = ChangeTypeModified ->
   exists cv dv,
     current !! SC_Path c = Some cv /\ desired !! SC_Path c = Some dv /\
     diffMapKeys ParseFloat cv dv = (SC_KeysAdded c, SC_KeysRemoved c, SC_KeysModified c) /\
     SC_KeysAdded c ++ SC_KeysRemoved c ++ SC_KeysModified c <> []) /\
  (SC_ChangeType c <> ChangeTypeModified ->
   SC_KeysAdded c = [] /\ SC_KeysRemoved c = [] /\ SC_KeysModified c = []) /\
  SC_CurrentKeys c = match current !! SC_Path c with
                     | Some cv => getMapKeys cv
                     | None => []
                     end /\
  SC_DesiredKeys c = match desired !! SC_Path c with
                     | Some dv => getMapKeys dv
                     | None => []
                     end.
Proof.
  intros Hc. apply DiffSecrets_In in Hc
    as [(path & dv & Hd & ->)|(path & cv & Hcur & Hd & ->)].
  - unfold desired_change, diff_desired. cbn [fst snd].
    destruct (current !! path) as [cv|] eqn:Hcur.
    + destruct (DeepEqual ParseFloat cv dv) eqn:E.
      * cbn. rewrite Hcur, Hd. split; [discriminate|]. auto.
      * destruct (diffMapKeys ParseFloat cv dv) as [[added removed] modified] eqn:Ek.
        cbn. rewrite Hcur, Hd. split; [|split; [|auto]].
        -- intros _. exists cv, dv. split; [reflexivity|]. split; [reflexivity|].
           split; [exact Ek|]. intros Hnil.
           apply app_eq_nil in Hnil as [-> Hnil]. apply app_eq_nil in Hnil as [-> ->].
           apply diffMapKeys_nil in Ek. congruence.
        -- intros Hne. now destruct Hne.
    + cbn. rewrite Hcur, Hd. split; [discriminate|]. auto.
  - cbn. rewrite Hcur, Hd. split; [discriminate|]. auto.
Qed.

Lemma diff_secrets_keys_witness :
  let current : gmap string Value := {[ "app" := VMap {[ "user" := VString "a" ]} ]} in
  let desired : gmap string Value := {[ "app" := VMap {[ "user" := VString "b" ]} ]} in
  let c := {| SC_Path := "app"; SC_ChangeType := ChangeTypeModified; SC_Target := "";
              SC_KeysAdded := []; SC_KeysRemoved := []; SC_KeysModified := ["user"];
              SC_CurrentKeys := ["user"]; SC_DesiredKeys := ["user"];
              SC_CurrentHash := ""; SC_DesiredHash := "" |} in
  In c (DiffSecrets ex_ParseFloat current desired) /\
  exists cv dv,
    current !! SC_Path c = Some cv /\ desired !! SC_Path c = Some dv /\
    diffMapKeys ex_ParseFloat cv dv =
      (SC_KeysAdded c, SC_KeysRemoved c, SC_KeysModified c) /\
    SC_KeysAdded c ++ SC_KeysRemoved c ++ SC_KeysModified c <> [].
Proof.
  cbv zeta.
  assert (Hin : In {| SC_Path := "app"; SC_ChangeType := ChangeTypeModified;
                      SC_Target := "";
                      SC_KeysAdded := []; SC_KeysRemoved := [];
                      SC_KeysModified := ["user"];
                      SC_CurrentKeys := ["user"]; SC_DesiredKeys := ["user"];
                      SC_CurrentHash := ""; SC_DesiredHash := "" |}
                   (DiffSecrets ex_ParseFloat
                      {[ "app" := VMap {[ "user" := VString "a" ]} ]}
                      {[ "app" := VMap {[ "user" := VString "b" ]} ]}))
    by (vm_compute; left; reflexivity).
  split; [exact Hin|].
  exact (proj1 (diff_secrets_keys ex_ParseFloat _ _ _ Hin) eq_refl).
Defined.

(** ** Pipeline diffs *)

Lemma AddTargetDiff_fold (tds : list TargetDiff) (p : PipelineDiff) :
  let q := foldl AddTargetDiff p tds in
  PD_Targets q = PD_Targets p ++ tds /\
  Added (PD_Summary q) = Added (PD_Summary p) + sum_field Added tds /\
  Removed (PD_Summary q) = Removed (PD_Summary p) + sum_field Removed tds /\
  Modified (PD_Summary q) = Modified (PD_Summary p) + sum_field Modified tds /\
  Unchanged (PD_Summary q) = Unchanged (PD_Summary p) + sum_field Unchanged tds /\
  Total (PD_Summary q) = Total (PD_Summary p) + sum_field Total tds /\
  PD_DryRun q = PD_DryRun p /\ PD_ConfigPath q = PD_ConfigPath p.
Proof.
  cbv zeta. revert p. induction tds as [|td tds IH]; intros p.
  - unfold sum_field. cbn. rewrite app_nil_r. repeat split; try reflexivity; lia.
  - cbn [foldl]. destruct (IH (AddTargetDiff p td)) as (T & A & R & M & U & N & D & C).
    rewrite T, A, R, M, U, N, D, C. unfold sum_field. cbn.
    rewrite <- app_assoc. repeat split; try reflexivity; lia.
Qed.

Lemma sum_field_zero (f : ChangeSummary -> Z) (tds : list TargetDiff) :
  (forall td, In td tds -> 0 <= f (TD_Summary td)) ->
  (sum_field f tds = 0 <-> forall td, In td tds -> f (TD_Summary td) = 0) /\
  0 <= sum_field f tds.
Proof.
  induction tds as [|td tds IH]; intros Hpos.
  - cbn. split; [|lia]. split; [intros _ td [] | reflexivity].
  - destruct IH as [IH Hge]; [intros x Hx; apply Hpos; now right|].
    pose proof (Hpos td (or_introl eq_refl)) as Htd. cbn [sum_field foldr] in *.
    fold (sum_field f tds) in *. split; [|lia]. split.
    + intros H x [<-|Hx]; [lia|]. apply IH; [lia | assumption].
    + intros H. rewrite (H td (or_introl eq_refl)).
      assert (sum_field f tds = 0); [|lia].
      apply IH. intros x Hx. apply H. now right.
Qed.

(** X11.  A pipeline diff that starts empty and receives target diffs
    through [AddTargetDiff] holds them in the order received, and each
    field of its summary is the sum of that field over the targets.
    When the summaries of the targets are those [ComputeSummary] gives
    for their changes, the pipeline is zero-sum, and its exit code is 0,
    exactly when every target is zero-sum. *)
Theorem add_target_diffs (dryRun : bool) (configPath : string) (tds : list TargetDiff) :
  (forall td, In td tds -> TD_Summary td = ComputeSummary (TD_Changes td)) ->
  let p := foldl AddTargetDiff (PipelineDiff_new dryRun configPath) tds in
  PD_Targets p = tds /\
  Added (PD_Summary p) = sum_field Added tds /\
  Removed (PD_Summary p) = sum_field Removed tds /\
  Modified (PD_Summary p) = sum_field Modified tds /\
  Unchanged (PD_Summary p) = sum_field Unchanged tds /\
  Total (PD_Summary p) = sum_field Total tds /\
  (PipelineDiff_IsZeroSum p = true <->
   forall td, In td tds -> ChangeSummary_IsZeroSum (TD_Summary td) = true) /\
  (ExitCode p = 0 <->
   forall td, In td tds -> HasChanges (TD_Summary td) = false).
Proof.
  intros Hsum. cbv zeta.
  destruct (AddTargetDiff_fold tds (PipelineDiff_new dryRun configPath))
    as (T & A & R & M & U & N & _). cbn in T, A, R, M, U, N.
  split; [assumption|]. split; [lia|]. split; [lia|]. split; [lia|].
  split; [lia|]. split; [lia|].
  assert (Hpos : forall t (f : ChangeSummary -> Z),
             (forall l, f (ComputeSummary l) = count_changes t l) ->
             forall td, In td tds -> 0 <= f (TD_Summary td)).
  { intros t f Hf td Htd. rewrite (Hsum td Htd), Hf. apply count_changes_nonneg. }
  assert (Hcount : forall l,
             Added (ComputeSummary l) = count_changes ChangeTypeAdded l /\
             Removed (ComputeSummary l) = count_changes ChangeTypeRemoved l /\
             Modified (ComputeSummary l) = count_changes ChangeTypeModified l).
  { intros l.
    destruct (tally_count l {| Added := 0; Removed := 0; Modified := 0;
                               Unchanged := 0; Total := 0 |}) as (A' & R' & M' & _).
    unfold ComputeSummary. rewrite A', R', M'. cbn. repeat split; lia. }
  destruct (sum_field_zero Added tds
              (Hpos ChangeTypeAdded Added (fun l => proj1 (Hcount l)))) as [Za Pa].
  destruct (sum_field_zero Removed tds
              (Hpos ChangeTypeRemoved Removed (fun l => proj1 (proj2 (Hcount l)))))
    as [Zr Pr].
  destruct (sum_field_zero Modified tds
              (Hpos ChangeTypeModified Modified (fun l => proj2 (proj2 (Hcount l)))))
    as [Zm Pm].
  assert (Hzero : PipelineDiff_IsZeroSum
                    (foldl AddTargetDiff (PipelineDiff_new dryRun configPath) tds) = true <->
                  forall td, In td tds -> ChangeSummary_IsZeroSum (TD_Summary td) = true).
  { unfold PipelineDiff_IsZeroSum, ChangeSummary_IsZeroSum.
    rewrite !andb_true_iff, !Z.eqb_eq, A, R, M, !Z.add_0_l, Za, Zr, Zm. split.
    - intros [[Ha Hr] Hm] td Htd.
      rewrite !andb_true_iff, !Z.eqb_eq. auto.
    - intros H. repeat split; intros td Htd; specialize (H td Htd);
        rewrite !andb_true_iff, !Z.eqb_eq in H; tauto. }
  split; [exact Hzero|].
  unfold ExitCode.
  destruct (PipelineDiff_IsZeroSum
              (foldl AddTargetDiff (PipelineDiff_new dryRun configPath) tds)) eqn:E.
  - split; [|reflexivity]. intros _ td Htd. unfold HasChanges.
    now rewrite (proj1 Hzero eq_refl td Htd).
  - split; [discriminate|]. intros H.
    assert (Hf : false = true); [|discriminate Hf]. apply Hzero.
    intros td Htd. specialize (H td Htd). unfold HasChanges in H.
    now apply negb_false_iff in H.
Qed.

Lemma add_target_diffs_witness :
  let changes :=
    DiffSecrets ex_ParseFloat {[ "app" := VString "a" ]} {[ "app" := VString "b" ]} in
  let tds := [ {| TD_Target := "Stg"; TD_Changes := [];
                  TD_Summary := ComputeSummary [] |};
               {| TD_Target := "Prod"; TD_Changes := changes;
                  TD_Summary := ComputeSummary changes |} ] in
  let p := foldl AddTargetDiff (PipelineDiff_new true "pipeline.yaml") tds in
  PD_Targets p = tds /\
  Added (PD_Summary p) = sum_field Added tds /\
  Removed (PD_Summary p) = sum_field Removed tds /\
  Modified (PD_Summary p) = sum_field Modified tds /\
  Unchanged (PD_Summary p) = sum_field Unchanged tds /\
  Total (PD_Summary p) = sum_field Total tds /\
  (PipelineDiff_IsZeroSum p = true <->
   forall td, In td tds -> ChangeSummary_IsZeroSum (TD_Summary td) = true) /\
  (ExitCode p = 0 <->
   forall td, In td tds -> HasChanges (TD_Summary td) = false).
Proof.
  cbv zeta. apply add_target_diffs.
  intros td [<-|[<-|[]]]; reflexivity.
Defined.

(** ** The diff in the other direction *)

Lemma filter_Permutation_length {X : Type} (p : X -> bool) (l l' : list X) :
  l ≡ₚ l' -> length (List.filter p l) = length (List.filter p l').
Proof.
  induction 1 as [|x l l' _ IH|x y l|l l' l'' _ IH1 _ IH2]; cbn.
  - reflexivity.
  - destruct (p x); cbn; now rewrite IH.
  - destruct (p x), (p y); reflexivity.
  - now rewrite IH1.
Qed.

Lemma filter_ext_length {X : Type} (p q : X -> bool) (l : list X) :
  (forall x, In x l -> p x = q x) ->
  length (List.filter p l) = length (List.filter q l).
Proof.
  induction l as [|x l IH]; intros H; [reflexivity|]. cbn.
  rewrite (H x (or_introl eq_refl)).
  destruct (q x); cbn; rewrite IH; auto; intros y Hy; apply H; now right.
Qed.

(** Two selections of entries of two maps that select the same keys
    select as many entries. *)
Lemma selected_keys_length {V W : Type} (p : string * V -> bool) (q : string * W -> bool)
    (m1 : gmap string V) (m2 : gmap string W) :
  (forall k, (exists v, m1 !! k = Some v /\ p (k, v) = true) <->
             (exists w, m2 !! k = Some w /\ q (k, w) = true)) ->
  length (List.filter p (map_to_list m1)) = length (List.filter q (map_to_list m2)).
Proof.
  intros H.
  rewrite <- (length_map fst (List.filter p (map_to_list m1))).
  rewrite <- (length_map fst (List.filter q (map_to_list m2))).
  apply Permutation_length. apply NoDup_Permutation.
  - apply NoDup_map_filter, NoDup_keys.
  - apply NoDup_map_filter, NoDup_keys.
  - intros k. rewrite !list_elem_of_In, !In_map_fst_filter. apply H.
Qed.

(** The number of records of one type in a diff, as numbers of entries of
    the two maps. *)
Lemma count_changes_DiffSecrets (ParseFloat : string -> option spec_float)
    (t : ChangeType) (current desired : gmap string Value) :
  count_changes t (DiffSecrets ParseFloat current desired) =
  Z.of_nat
    (length
       (List.filter
          (fun e => String.eqb
                      match current !! fst e with
                      | None => ChangeTypeAdded
                      | Some cv => if DeepEqual ParseFloat cv (snd e)
                                   then ChangeTypeUnchanged else ChangeTypeModified
                      end t)
          (map_to_list desired))) +
  Z.of_nat
    (length
       (List.filter
          (fun e => String.eqb ChangeTypeRemoved t &&
                    match desired !! fst e with None => true | Some _ => false end)
          (map_to_list current))).
Proof.
  unfold count_changes. rewrite DiffSecrets_unsorted.
  rewrite (filter_Permutation_length _ _ _ (sort_Slice_Permutation _ _)).
  rewrite List.filter_app, length_app, Nat2Z.inj_add, !filter_map_swap, !length_map.
  f_equal; f_equal.
  - apply filter_ext_length. intros [path dv] _.
    destruct (desired_change_spec ParseFloat current path dv) as [_ Ht].
    now rewrite Ht.
  - cbn [removed_change SC_ChangeType].
    destruct (String.eqb ChangeTypeRemoved t).
    + cbn [andb].
      assert (E : forall (p : string * Value -> bool) (l : list (string * Value)),
                 List.filter (fun _ => true) (List.filter p l) = List.filter p l).
      { intros p l. induction l as [|x l IH]; [reflexivity|]. cbn.
        destruct (p x); cbn; now rewrite IH. }
      rewrite E. apply filter_ext_length. intros [path cv] _. cbn [fst].
      destruct (desired !! path) as [dv|] eqn:Hd.
      * apply negb_false_iff. apply seen_desired. eauto.
      * apply negb_true_iff.
        destruct (flag (foldl (fun s e => <[fst e := true]> s) ∅
                              (map_to_list desired)) path) eqn:Hs; [|reflexivity].
        apply seen_desired in Hs. rewrite Hd in Hs. now destruct Hs.
    + cbn [andb].
      assert (E : forall (l : list (string * Value)),
                 List.filter (fun _ => false) l = []).
      { intros l. induction l as [|x l IH]; [reflexivity | exact IH]. }
      now rewrite !E.
Qed.

Lemma filter_none_length {X : Type} (p : X -> bool) (l : list X) :
  (forall x, In x l -> p x = false) -> length (List.filter p l) = 0%nat.
Proof.
  intros H. rewrite (filter_ext_length p (fun _ => false) l H). clear H.
  induction l as [|x l IH]; [reflexivity | exact IH].
Qed.

Lemma count_added (ParseFloat : string -> option spec_float)
    (c d : gmap string Value) :
  count_changes ChangeTypeAdded (DiffSecrets ParseFloat c d) =
  Z.of_nat (length (List.filter
                      (fun e => match c !! fst e with None => true | Some _ => false end)
                      (map_to_list d))).
Proof.
  rewrite count_changes_DiffSecrets.
  rewrite (filter_none_length _ (map_to_list c)) by (intros x _; reflexivity).
  rewrite Z.add_0_r. f_equal. apply filter_ext_length. intros [path dv] _.
  cbn [fst snd]. destruct (c !! path) as [cv|]; [|reflexivity].
  destruct (DeepEqual ParseFloat cv dv); reflexivity.
Qed.

Lemma count_removed (ParseFloat : string -> option spec_float)
    (c d : gmap string Value) :
  count_changes ChangeTypeRemoved (DiffSecrets ParseFloat c d) =
  Z.of_nat (length (List.filter
                      (fun e => match d !! fst e with None => true | Some _ => false end)
                      (map_to_list c))).
Proof.
  rewrite count_changes_DiffSecrets.
  rewrite (filter_none_length _ (map_to_list d)).
  - reflexivity.
  - intros [path dv] _. cbn [fst snd]. destruct (c !! path) as [cv|]; [|reflexivity].
    destruct (DeepEqual ParseFloat cv dv); reflexivity.
Qed.

Lemma count_modified (ParseFloat : string -> option spec_float)
    (c d : gmap string Value) :
  count_changes ChangeTypeModified (DiffSecrets ParseFloat c d) =
  Z.of_nat (length (List.filter
                      (fun e => match c !! fst e with
                                | None => false
                                | Some cv => negb (DeepEqual ParseFloat cv (snd e))
                                end)
                      (map_to_list d))).
Proof.
  rewrite count_changes_DiffSecrets.
  rewrite (filter_none_length _ (map_to_list c)) by (intros x _; reflexivity).
  rewrite Z.add_0_r. f_equal. apply filter_ext_length. intros [path dv] _.
  cbn [fst snd]. destruct (c !! path) as [cv|]; [|reflexivity].
  destruct (DeepEqual ParseFloat cv dv); reflexivity.
Qed.

Lemma count_unchanged (ParseFloat : string -> option spec_float)
    (c d : gmap string Value) :
  count_changes ChangeTypeUnchanged (DiffSecrets ParseFloat c d) =
  Z.of_nat (length (List.filter
                      (fun e => match c !! fst e with
                                | None => false
                                | Some cv => DeepEqual ParseFloat cv (snd e)
                                end)
                      (map_to_list d))).
Proof.
  rewrite count_changes_DiffSecrets.
  rewrite (filter_none_length _ (map_to_list c)) by (intros x _; reflexivity).
  rewrite Z.add_0_r. f_equal. apply filter_ext_length. intros [path dv] _.
  cbn [fst snd]. destruct (c !! path) as [cv|]; [|reflexivity].
  destruct (DeepEqual ParseFloat cv dv); reflexivity.
Qed.

(** X12.  Taking the diff in the other direction exchanges the numbers of
    added and of removed secrets and keeps the numbers of modified and of
    unchanged secrets, and the total. *)
Theorem diff_secrets_swap (ParseFloat : string -> option spec_float)
    (current desired : gmap string Value) :
  let s := ComputeSummary (DiffSecrets ParseFloat current desired) in
  let s' := ComputeSummary (DiffSecrets ParseFloat desired current) in
  Added s' = Removed s /\ Removed s' = Added s /\
  Modified s' = Modified s /\ Unchanged s' = Unchanged s /\ Total s' = Total s.
Proof.
  cbv zeta.
  assert (Hc : forall l,
             Added (ComputeSummary l) = count_changes ChangeTypeAdded l /\
             Removed (ComputeSummary l) = count_changes ChangeTypeRemoved l /\
             Modified (ComputeSummary l) = count_changes ChangeTypeModified l /\
             Unchanged (ComputeSummary l) = count_changes ChangeTypeUnchanged l /\
             Total (ComputeSummary l) = Z.of_nat (length l)).
  { intros l.
    destruct (tally_count l {| Added := 0; Removed := 0; Modified := 0;
                               Unchanged := 0; Total := 0 |}) as (A & R & M & U & T).
    unfold ComputeSummary. rewrite A, R, M, U, T. cbn. repeat split; lia. }
  assert (Hsum : forall c d,
             Total (ComputeSummary (DiffSecrets ParseFloat c d)) =
             Added (ComputeSummary (DiffSecrets ParseFloat c d)) +
             Removed (ComputeSummary (DiffSecrets ParseFloat c d)) +
             Modified (ComputeSummary (DiffSecrets ParseFloat c d)) +
             Unchanged (ComputeSummary (DiffSecrets ParseFloat c d))).
  { intros c d.
    destruct (tally_counts (DiffSecrets ParseFloat c d)
                {| Added := 0; Removed := 0; Modified := 0; Unchanged := 0; Total := 0 |})
      as [H _].
    - intros x Hx. apply DiffSecrets_In in Hx
        as [(path & dv & Hd & ->)|(path & cv & Hcur & Hd & ->)].
      + destruct (desired_change_spec ParseFloat c path dv) as [_ Ht]. rewrite Ht.
        destruct (c !! path) as [cv|]; [destruct (DeepEqual ParseFloat cv dv)|]; auto.
      + cbn. auto.
    - unfold ComputeSummary. cbn in H. lia. }
  assert (Key : forall c d,
             count_changes ChangeTypeAdded (DiffSecrets ParseFloat d c) =
             count_changes ChangeTypeRemoved (DiffSecrets ParseFloat c d) /\
             count_changes ChangeTypeModified (DiffSecrets ParseFloat d c) =
             count_changes ChangeTypeModified (DiffSecrets ParseFloat c d) /\
             count_changes ChangeTypeUnchanged (DiffSecrets ParseFloat d c) =
             count_changes ChangeTypeUnchanged (DiffSecrets ParseFloat c d)).
  { intros c d. rewrite count_added, count_removed, !count_modified, !count_unchanged.
    split; [reflexivity|]. split.
    - f_equal. apply selected_keys_length. intros k. cbn [fst snd]. split.
      + intros (cv & Hc' & Hp). destruct (d !! k) as [dv|] eqn:Hd; [|discriminate].
        exists dv. split; [reflexivity|]. rewrite Hc'.
        rewrite reflect_DeepEqual_sym_bool. exact Hp.
      + intros (dv & Hd & Hp). destruct (c !! k) as [cv|] eqn:Hc'; [|discriminate].
        exists cv. split; [reflexivity|]. rewrite Hd.
        rewrite reflect_DeepEqual_sym_bool. exact Hp.
    - f_equal. apply selected_keys_length. intros k. cbn [fst snd]. split.
      + intros (cv & Hc' & Hp). destruct (d !! k) as [dv|] eqn:Hd; [|discriminate].
        exists dv. split; [reflexivity|]. rewrite Hc'.
        rewrite reflect_DeepEqual_sym_bool. exact Hp.
      + intros (dv & Hd & Hp). destruct (c !! k) as [cv|] eqn:Hc'; [|discriminate].
        exists cv. split; [reflexivity|]. rewrite Hd.
        rewrite reflect_DeepEqual_sym_bool. exact Hp. }
  destruct (Key current desired) as (K1 & K2 & K3).
  destruct (Key desired current) as (K4 & _ & _).
  destruct (Hc (DiffSecrets ParseFloat current desired)) as (A & R & M & U & _).
  destruct (Hc (DiffSecrets ParseFloat desired current)) as (A' & R' & M' & U' & _).
  rewrite (Hsum current desired), (Hsum desired current).
  rewrite A, R, M, U, A', R', M', U'. lia.
Qed.

(** ** Validation: what is accepted *)

Lemma header_ok_iff (c : Config) :
  header_ok c = true <->
  Vault_Address (Vault c) <> "" /\ merge_store_configured c = true /\
  (forall s3, MergeStore_S3 (MergeStore c) = Some s3 -> S3_Bucket s3 <> "").
Proof.
  unfold header_ok. rewrite !andb_true_iff, negb_true_iff, String.eqb_neq.
  split.
  - intros [[H1 H2] H3]. split; [assumption|]. split; [assumption|].
    intros s3 Hs. rewrite Hs in H3. now apply negb_true_iff, String.eqb_neq in H3.
  - intros (H1 & H2 & H3). split; [split; assumption|].
    destruct (MergeStore_S3 (MergeStore c)) as [s3|]; [|reflexivity].
    apply negb_true_iff, String.eqb_neq. now apply H3.
Qed.

Lemma Validate_header (c : Config) : Validate c = None -> header_ok c = true.
Proof.
  unfold Validate, header_ok, merge_store_configured.
  destruct (String.eqb (Vault_Address (Vault c)) ""); [discriminate|].
  destruct (MergeStore_Vault (MergeStore c)), (MergeStore_S3 (MergeStore c)) as [s3|];
    try discriminate; cbn; try reflexivity;
    destruct (String.eqb (S3_Bucket s3) ""); (discriminate || reflexivity).
Qed.

Lemma validate_import_None (c : Config) (name imp : string) :
  validate_import c name imp = None <->
  is_Some (Sources c !! imp) \/ is_Some (Targets c !! imp).
Proof.
  unfold validate_import.
  destruct (Sources c !! imp), (Targets c !! imp); split; intros H; eauto;
    try discriminate. destruct H as [[x Hx]|[x Hx]]; discriminate.
Qed.

Lemma validate_target_None (c : Config) (name : string) (t : Target) :
  validate_target c (name, t) = None <->
  isValidAWSAccountID (AccountID t) = true /\
  forall imp, In imp (Imports t) ->
              is_Some (Sources c !! imp) \/ is_Some (Targets c !! imp).
Proof.
  unfold validate_target.
  destruct (String.eqb (AccountID t) "") eqn:Ee.
  { apply String.eqb_eq in Ee. rewrite Ee. split; [discriminate|].
    intros [H _]. discriminate. }
  destruct (isValidAWSAccountID (AccountID t)); cbn [negb].
  - rewrite first_error_None. split.
    + intros H. split; [reflexivity|]. intros imp Hi.
      apply (validate_import_None c name). auto.
    + intros [_ H] imp Hi. apply validate_import_None. auto.
  - split; [discriminate | intros [H _]; discriminate].
Qed.

Lemma validate_dynamic_None (name : string) (dt : DynamicTarget) :
  validate_dynamic (name, dt) = None <->
  Disc_IdentityCenter (DT_Discovery dt) <> None \/
  Disc_Organizations (DT_Discovery dt) <> None \/
  Disc_AccountsList (DT_Discovery dt) <> None.
Proof.
  unfold validate_dynamic.
  destruct (Disc_IdentityCenter (DT_Discovery dt)), (Disc_Organizations (DT_Discovery dt)),
    (Disc_AccountsList (DT_Discovery dt)); split; intros H; try reflexivity;
    try discriminate; auto.
  destruct H as [H|[H|H]]; now destruct H.
Qed.

Lemma Validate_None (c : Config) : Validate c = None <-> valid_config c.
Proof.
  unfold valid_config. split.
  - intros H. pose proof (Validate_header c H) as Hh.
    rewrite (Validate_loops c Hh) in H. apply header_ok_iff in Hh as (H1 & H2 & H3).
    split; [assumption|]. split; [assumption|]. split; [assumption|].
    destruct ((size (Targets c) =? 0)%nat && (size (DynamicTargets c) =? 0)%nat) eqn:Es;
      [discriminate|].
    destruct (first_error (validate_target c) (map_to_list (Targets c))) eqn:Et;
      [discriminate|].
    cbv beta iota in H. rewrite first_error_None in Et. rewrite first_error_None in H.
    split; [|split].
    + apply andb_false_iff in Es as [Es|Es]; apply Nat.eqb_neq in Es;
        [left | right]; intros He; apply Es; rewrite He; apply map_size_empty.
    + intros name t Hn. apply (validate_target_None c name t).
      apply Et. now apply In_map_to_list.
    + intros name dt Hn. apply (validate_dynamic_None name dt).
      apply H. now apply In_map_to_list.
  - intros (H1 & H2 & H3 & H4 & H5 & H6).
    rewrite (Validate_loops c) by (apply header_ok_iff; auto).
    assert (Es : (size (Targets c) =? 0)%nat && (size (DynamicTargets c) =? 0)%nat = false).
    { apply andb_false_iff.
      destruct H4 as [H4|H4]; [left | right]; apply Nat.eqb_neq; intros Hz;
        apply H4; now apply map_size_empty_iff. }
    rewrite Es.
    assert (Et : first_error (validate_target c) (map_to_list (Targets c)) = None).
    { apply first_error_None. intros [name t] Hin. apply validate_target_None.
      apply (H5 name t). now apply In_map_to_list. }
    rewrite Et. apply first_error_None. intros [name dt] Hin.
    apply validate_dynamic_None. apply (H6 name dt). now apply In_map_to_list.
Qed.

(** X13.  [Validate] returns no error exactly for the configurations that
    have a vault address, a merge store (with a bucket when it is an S3
    store), at least one target or dynamic target, targets whose account
    id is twelve digits and whose imports each name a source or a target,
    and dynamic targets that each have a discovery method. *)
Theorem validate_accepts (c : Config) : Validate c = None <-> valid_config c.
Proof. apply Validate_None. Qed.

Lemma valid_config_resolve (c : Config) : valid_config c -> imports_resolve c.
Proof.
  intros (_ & _ & _ & _ & H & _) a b (t & Ha & Hb). exact (proj2 (H a t Ha) b Hb).
Qed.

(** ** Construction of a pipeline *)

(** X14.  [New] ends.  It fails with the error of [Validate] when there is
    one; for a configuration that [Validate] accepts it fails only when
    the imports have a cycle, and then the error names a node on a cycle:
    an import that names nothing is reported by [Validate] and never
    reaches the construction of the graph.  Otherwise it returns the
    pipeline of the configuration and its graph. *)
Theorem pipeline_new (cfg : Config) :
  Pipeline_New cfg <> None /\
  (forall e, Pipeline_New cfg = Some (inl (ErrInvalidConfiguration e)) <->
             Validate cfg = Some e) /\
  (forall e, Pipeline_New cfg = Some (inl (ErrDependencyGraph e)) ->
             valid_config cfg /\ exists x, e = ErrCircular x /\ tc (imports cfg) x x) /\
  ((exists p, Pipeline_New cfg = Some (inr p)) <->
   valid_config cfg /\ ~ exists x, tc (imports cfg) x x) /\
  (forall p, Pipeline_New cfg = Some (inr p) ->
             fst p = cfg /\ BuildGraph cfg = Done (snd p)).
Proof.
  unfold Pipeline_New.
  destruct (Validate cfg) as [err|] eqn:Hv.
  - split; [discriminate|]. split; [|split; [|split]].
    + intros e. split; intros [= <-]; reflexivity.
    + intros e [=].
    + split; [intros [p [=]]|]. intros [Hvalid _].
      apply Validate_None in Hvalid. congruence.
    + intros p [=].
  - pose proof (proj1 (Validate_None cfg) Hv) as Hvalid.
    pose proof (valid_config_resolve cfg Hvalid) as Hres.
    destruct (BuildGraph_calculateLevels cfg Hres) as (G & Hshape & Hclosed & HB).
    pose proof (calculateLevels_spec G Hclosed) as Hspec. rewrite <- HB in Hspec.
    destruct (BuildGraph cfg) as [g|e|] eqn:Hg; [| |destruct Hspec].
    + split; [discriminate|]. split; [|split; [|split]].
      * intros e. split; intros [=].
      * intros e [=].
      * split; [|eauto]. intros _. split; [assumption|]. intros (x & Hx).
        destruct Hspec as [Hs Hl].
        apply (tc_iff _ _ (edge_config cfg G Hshape)) in Hx.
        pose proof (levels_fall G (Nodes g) Hclosed) as Hfall.
        assert (lvl (Nodes g) x < lvl (Nodes g) x); [|lia].
        apply Hfall; [|assumption]. intros k Hk. now apply Hl.
      * intros p [= <-]. auto.
    + destruct Hspec as (x & -> & Hx).
      apply (tc_iff _ _ (edge_config cfg G Hshape)) in Hx.
      split; [discriminate|]. split; [|split; [|split]].
      * intros e. split; intros [=].
      * intros e [= <-]. eauto.
      * split; [intros [p [=]]|]. intros [_ Hn]. destruct Hn. eauto.
      * intros p [=].
Qed.

(** ** Inherited targets *)

Lemma IsInheritedTarget_true (cfg : Config) (t : string) :
  IsInheritedTarget cfg t = true <->
  exists d, imports cfg t d /\ is_Some (Targets cfg !! d).
Proof.
  unfold IsInheritedTarget, imports. split.
  - destruct (Targets cfg !! t) as [target|]; [|discriminate].
    intros H. apply existsb_exists in H as (d & Hd & Ht). exists d.
    split; [eauto|]. destruct (Targets cfg !! d); [eauto | discriminate].
  - intros (d & (target & Ht & Hd) & [x Hx]). rewrite Ht.
    apply existsb_exists. exists d. split; [assumption|]. now rewrite Hx.
Qed.

(** X15.  [IsInheritedTarget] holds of the targets that import a target.
    In the graph of the configuration an inherited target is at level 1
    or above and some target that it imports is at a lower level; a
    target at level 2 or above is inherited; so a target that is not
    inherited is at level 0 or 1. *)
Theorem inherited_target (cfg : Config) (g : Graph) (t : string) :
  BuildGraph cfg = Done g ->
  (IsInheritedTarget cfg t = true <->
   exists d, imports cfg t d /\ is_Some (Targets cfg !! d)) /\
  (IsInheritedTarget cfg t = true ->
   exists d, imports cfg t d /\ is_Some (Targets cfg !! d) /\
             0 <= level_of g d < level_of g t) /\
  (2 <= level_of g t -> IsInheritedTarget cfg t = true).
Proof.
  intros Hg. destruct (BuildGraph_Done_levels cfg g Hg) as (Hsrc & Hcs & Htgt).
  pose proof (BuildGraph_Done_resolve cfg g Hg) as Hres.
  destruct (BuildGraph_Done_shape cfg g Hg) as (G & _ & _ & Hshape & Hlev).
  assert (Hpos : forall d x, Targets cfg !! d = Some x -> 0 <= level_of g d).
  { intros d x Hd. destruct (Hlev d) as [_ H0].
    - unfold config_shape. rewrite Hd. eauto.
    - unfold lvl in H0. now destruct g. }
  split; [apply IsInheritedTarget_true|]. split.
  - intros H. apply IsInheritedTarget_true in H as (d & (x & Ht & Hd) & [y Hy]).
    exists d. split; [exists x; auto|]. split; [eauto|].
    destruct (Htgt t x Ht) as (n & Hn & _ & _ & Hlt & _).
    split; [eapply Hpos; eassumption|].
    unfold level_of at 2. rewrite Hn. now apply Hlt.
  - intros H2. apply IsInheritedTarget_true.
    destruct (Nodes g !! t) as [n|] eqn:Hn;
      [|unfold level_of in H2; rewrite Hn in H2; lia].
    pose proof (Hshape t) as Hst. unfold shape, config_shape in Hst. rewrite Hn in Hst.
    destruct (Targets cfg !! t) as [x|] eqn:Ht.
    + destruct (Htgt t x Ht) as (n' & Hn' & _ & _ & _ & Hne & Hnil).
      rewrite Hn in Hn'. injection Hn' as <-.
      unfold level_of in H2 at 1. rewrite Hn in H2.
      destruct (Imports x) as [|i l] eqn:Ei; [rewrite Hnil in H2; [lia|reflexivity]|].
      destruct Hne as (d & Hd & Hl); [discriminate|].
      exists d. split; [exists x; rewrite Ei; auto|].
      destruct (Hres t d) as [[s Hs]|Hd']; [exists x; rewrite Ei; auto| |assumption].
      destruct (Targets cfg !! d) as [y|] eqn:Hy; [eauto|].
      destruct (Hcs d s Hs Hy) as (nd & Hnd & _ & Hl0).
      unfold level_of in Hl. rewrite Hnd, Hl0 in Hl. lia.
    + destruct (Sources cfg !! t) as [s|] eqn:Hs; [|discriminate].
      destruct (Hcs t s Hs Ht) as (n' & Hn' & _ & Hl0).
      unfold level_of in H2. rewrite Hn' in H2. lia.
Qed.

Lemma inherited_target_witness :
  (IsInheritedTarget ex_config_chain "Demo" = true <->
   exists d, imports ex_config_chain "Demo" d /\
             is_Some (Targets ex_config_chain !! d)) /\
  (IsInheritedTarget ex_config_chain "Demo" = true ->
   exists d, imports ex_config_chain "Demo" d /\
             is_Some (Targets ex_config_chain !! d) /\
             0 <= level_of ex_graph_chain d < level_of ex_graph_chain "Demo") /\
  (2 <= level_of ex_graph_chain "Demo" ->
   IsInheritedTarget ex_config_chain "Demo" = true).
Proof.
  apply (inherited_target ex_config_chain ex_graph_chain "Demo").
  vm_compute. reflexivity.
Defined.

(** ** Groups of targets by level *)

Lemma max_target_level_loop (l : list (string * Node)) (m0 : Z) :
  let m := foldl (fun (maxLevel : Z) (entry : string * Node) =>
                    match Type_ (snd entry) with
                    | NodeTypeTarget =>
                        if Level (snd entry) >? maxLevel then Level (snd entry)
                        else maxLevel
                    | NodeTypeSource => maxLevel
                    end) m0 l in
  m0 <= m /\
  (forall e, In e l -> Type_ (snd e) = NodeTypeTarget -> Level (snd e) <= m) /\
  (m = m0 \/ exists e, In e l /\ Type_ (snd e) = NodeTypeTarget /\ Level (snd e) = m).
Proof.
  cbv zeta. revert m0. induction l as [|e l IH]; intros m0.
  - cbn. split; [lia|]. split; [intros e []|now left].
  - cbn [foldl].
    set (m1 := match Type_ (snd e) with
               | NodeTypeTarget => if Level (snd e) >? m0 then Level (snd e) else m0
               | NodeTypeSource => m0
               end).
    destruct (IH m1) as (Hle & Hall & Hex).
    assert (H1 : m0 <= m1 /\ (Type_ (snd e) = NodeTypeTarget -> Level (snd e) <= m1) /\
                 (m1 = m0 \/ (Type_ (snd e) = NodeTypeTarget /\ Level (snd e) = m1))).
    { subst m1. destruct (Type_ (snd e)).
      - split; [lia|]. split; [discriminate | now left].
      - destruct (Level (snd e) >? m0) eqn:E.
        + apply Z.gtb_lt in E. split; [lia|]. split; [lia | now right].
        + assert (Level (snd e) <= m0) by (rewrite Z.gtb_ltb in E; now apply Z.ltb_ge).
          split; [lia|]. split; [auto | now left]. }
    destruct H1 as (H1 & H2 & H3). split; [lia|]. split.
    + intros x [<-|Hx] Ht; [specialize (H2 Ht); lia | now apply Hall].
    + destruct Hex as [->|(x & Hx & Ht & Hl)].
      * destruct H3 as [->|[Ht Hl]]; [now left|]. right. exists e. split; [now left|auto].
      * right. exists x. split; [now right | auto].
Qed.

(** The third loop of [GroupByLevel], when the levels of the targets are
    indices of [levels]. *)
Lemma group_add_loop (l : list (string * Node)) (levels : list (list string)) :
  (forall e, In e l -> Type_ (snd e) = NodeTypeTarget ->
             0 <= Level (snd e) < Z.of_nat (length levels)) ->
  exists levels',
    foldl group_add (Some levels) l = Some levels' /\
    forall i, levels' !! i = (fun group => group ++ targets_at l i) <$> levels !! i.
Proof.
  revert levels. induction l as [|e l IH]; intros levels Hl.
  - exists levels. split; [reflexivity|]. intros i. unfold targets_at. cbn.
    destruct (levels !! i); cbn; [now rewrite app_nil_r | reflexivity].
  - cbn [foldl]. unfold group_add at 2.
    destruct (Type_ (snd e)) eqn:Ht.
    + destruct (IH levels) as (levels' & Hrun & Hlook);
        [intros x Hx; apply Hl; now right|].
      exists levels'. split; [assumption|]. intros i. rewrite Hlook.
      unfold targets_at. cbn [List.filter]. now rewrite Ht.
    + destruct (Hl e (or_introl eq_refl) Ht) as [H0 Hlt].
      assert (E0 : (Level (snd e) <? 0) = false) by now apply Z.ltb_ge.
      rewrite E0.
      destruct (lookup_lt_is_Some_2 levels (Z.to_nat (Level (snd e)))) as [group Hg];
        [lia|].
      rewrite Hg.
      destruct (IH (<[Z.to_nat (Level (snd e)) := group ++ [fst e]]> levels))
        as (levels' & Hrun & Hlook).
      { intros x Hx Hxt. rewrite length_insert. apply Hl; [now right | assumption]. }
      exists levels'. split; [assumption|]. intros i. rewrite Hlook.
      unfold targets_at. cbn [List.filter]. rewrite Ht.
      destruct (decide (i = Z.to_nat (Level (snd e)))) as [->|Hne].
      * rewrite list_lookup_insert_eq by (eapply lookup_lt_Some; eassumption).
        rewrite Hg. cbn. rewrite Z2Nat.id by lia. rewrite Z.eqb_refl.
        cbn [List.map]. now rewrite <- app_assoc.
      * rewrite list_lookup_insert_ne by auto.
        assert (E : (Level (snd e) =? Z.of_nat i) = false).
        { apply Z.eqb_neq. intros Heq. apply Hne. rewrite Heq. now rewrite Nat2Z.id. }
        now rewrite E.
Qed.

(** A level that is negative makes the third loop panic. *)
Lemma group_add_negative (l : list (string * Node)) (levels : option (list (list string))) :
  (exists e, In e l /\ Type_ (snd e) = NodeTypeTarget /\ Level (snd e) < 0) ->
  foldl group_add levels l = None.
Proof.
  assert (Hnone : forall l', foldl group_add None l' = None).
  { induction l' as [|x l' IH]; [reflexivity | exact IH]. }
  revert levels. induction l as [|e l IH]; intros levels (x & Hx & Ht & Hneg);
    [destruct Hx|].
  cbn [foldl]. destruct Hx as [<-|Hx].
  - destruct levels as [levels|]; [|apply Hnone]. unfold group_add. rewrite Ht.
    assert (E : (Level (snd e) <? 0) = true) by now apply Z.ltb_lt.
    rewrite E. apply Hnone.
  - apply IH. eauto.
Qed.

Lemma targets_at_In (g : Graph) (i : nat) (name : string) :
  In name (targets_at (map_to_list (Nodes g)) i) <-> target_at g name (Z.of_nat i).
Proof.
  unfold targets_at, target_at. rewrite In_map_fst_filter. cbn [fst snd]. split.
  - intros (n & Hn & Hp). exists n. split; [assumption|].
    destruct (Type_ n); [discriminate|]. split; [reflexivity | now apply Z.eqb_eq].
  - intros (n & Hn & Ht & Hl). exists n. split; [assumption|].
    rewrite Ht. now apply Z.eqb_eq.
Qed.

Lemma targets_at_NoDup (g : Graph) (i : nat) :
  NoDup (targets_at (map_to_list (Nodes g)) i).
Proof. apply NoDup_map_filter, NoDup_keys. Qed.

(** The groups that [GroupByLevel] returns, one by one. *)
Lemma GroupByLevel_groups (g : Graph) :
  (forall name l, target_at g name l -> 0 <= l) ->
  exists groups,
    GroupByLevel g = Returns groups /\
    length groups = Z.to_nat (max_target_level g + 1) /\
    forall i, (i < length groups)%nat ->
              groups !! i = Some (sort_Strings (targets_at (map_to_list (Nodes g)) i)).
Proof.
  intros Hpos. unfold GroupByLevel.
  destruct (max_target_level_loop (map_to_list (Nodes g)) 0) as (Hm0 & Hmax & _).
  fold (max_target_level g) in Hm0, Hmax.
  destruct (group_add_loop (map_to_list (Nodes g))
              (replicate (Z.to_nat (max_target_level g + 1)) []))
    as (levels & Hrun & Hlook).
  { intros [name n] Hin Ht. cbn [snd] in *. rewrite length_replicate.
    apply In_map_to_list in Hin. split.
    - apply (Hpos name). exists n. auto.
    - specialize (Hmax (name, n)). cbn [snd] in Hmax.
      assert (Level n <= max_target_level g)
        by (apply Hmax; [now apply In_map_to_list | assumption]).
      lia. }
  rewrite Hrun. exists (List.map sort_Strings levels).
  assert (Hlen : length levels = Z.to_nat (max_target_level g + 1)).
  { destruct (decide (length levels = Z.to_nat (max_target_level g + 1))) as [E|E];
      [assumption|]. exfalso.
    destruct (Nat.lt_total (length levels) (Z.to_nat (max_target_level g + 1)))
      as [Hlt|[Heq|Hgt]]; [|contradiction|].
    - pose proof (Hlook (length levels)) as H.
      rewrite (lookup_ge_None_2 levels (length levels)) in H by lia.
      rewrite lookup_replicate_2 in H by assumption. discriminate.
    - pose proof (Hlook (Z.to_nat (max_target_level g + 1))) as H.
      destruct (lookup_lt_is_Some_2 levels (Z.to_nat (max_target_level g + 1)) Hgt)
        as [x Hx].
      rewrite Hx in H.
      assert (Hn : replicate (Z.to_nat (max_target_level g + 1)) ([] : list string)
                     !! Z.to_nat (max_target_level g + 1) = None)
        by (apply lookup_replicate_None; lia).
      rewrite Hn in H. discriminate. }
  split; [reflexivity|]. split; [now rewrite length_map|].
  intros i Hi. rewrite length_map in Hi.
  rewrite <- fmap_map, list_lookup_fmap, Hlook.
  rewrite lookup_replicate_2 by lia. reflexivity.
Qed.

Lemma StronglySorted_In {X : Type} (P Q : X -> X -> Prop) (l : list X) :
  (forall x y, In x l -> In y l -> P x y -> Q x y) ->
  StronglySorted P l -> StronglySorted Q l.
Proof.
  intros H Hs. induction Hs as [|x l Hs IH Hall]; constructor.
  - apply IH. intros a b Ha Hb. apply H; now right.
  - rewrite Forall_forall in *. intros y Hy. apply H; [now left | |].
    + right. now apply list_elem_of_In.
    + now apply Hall.
Qed.

Lemma StronglySorted_NoDup {X : Type} (R : X -> X -> Prop) (l : list X) :
  (forall x, ~ R x x) -> StronglySorted R l -> NoDup l.
Proof.
  intros Hirr Hs. induction Hs as [|x l Hs IH Hall]; constructor; [|assumption].
  intros Hx. rewrite Forall_forall in Hall. exact (Hirr x (Hall x Hx)).
Qed.

Lemma StronglySorted_concat_seq {X : Type} (R : X -> X -> Prop) (f : nat -> list X)
    (k a : nat) :
  (forall i, StronglySorted R (f i)) ->
  (forall i j x y, (i < j)%nat -> In x (f i) -> In y (f j) -> R x y) ->
  StronglySorted R (concat (List.map f (seq a k))).
Proof.
  intros Hs Hlt. revert a. induction k as [|k IH]; intros a; [constructor|].
  cbn [seq List.map concat]. apply StronglySorted_app_2; [|apply Hs | apply IH].
  intros x y Hx Hy. apply list_elem_of_In in Hx, Hy.
  apply in_concat in Hy as (grp & Hgrp & Hy). apply in_map_iff in Hgrp as (j & <- & Hj).
  apply in_seq in Hj. apply (Hlt a j); [lia | assumption | assumption].
Qed.

Lemma level_name_less_same (g : Graph) (a b : string) :
  level_of g a = level_of g b -> level_name_less g a b = String.ltb a b.
Proof.
  intros H. unfold level_name_less. rewrite H, Z.eqb_refl. reflexivity.
Qed.

Lemma target_at_level (g : Graph) (name : string) (l : Z) :
  target_at g name l -> level_of g name = l.
Proof. intros (n & Hn & _ & Hl). unfold level_of. now rewrite Hn. Qed.

Lemma TopologicalOrder_In (g : Graph) (name : string) :
  In name (TopologicalOrder g) <-> exists l, target_at g name l.
Proof.
  unfold TopologicalOrder. rewrite sort_Slice_In, In_map_fst_filter. cbn [snd]. split.
  - intros (n & Hn & Ht). exists (Level n), n. split; [assumption|].
    split; [|reflexivity]. destruct (Type_ n); [discriminate | reflexivity].
  - intros (l & n & Hn & Ht & _). exists n. split; [assumption|]. now rewrite Ht.
Qed.

Lemma TopologicalOrder_sorted (g : Graph) :
  StronglySorted (fun a b => level_name_less g a b = true) (TopologicalOrder g).
Proof.
  unfold TopologicalOrder. apply sort_Slice_strict.
  - apply level_name_less_asym.
  - apply level_name_less_negtrans.
  - apply NoDup_map_filter, NoDup_keys.
  - intros x y _ _. apply level_name_less_connected.
Qed.

(** The levels of a graph that [BuildGraph] returns are not negative. *)
Lemma BuildGraph_levels_nonneg (cfg : Config) (g : Graph) :
  BuildGraph cfg = Done g -> forall name l, target_at g name l -> 0 <= l.
Proof.
  intros Hg name l (n & Hn & Ht & <-).
  destruct (BuildGraph_Done_shape cfg g Hg) as (G & _ & _ & Hshape & Hlev).
  destruct (Hlev name) as [_ H0].
  + rewrite <- Hshape. unfold shape. rewrite Hn. cbn. eauto.
  + unfold lvl, level_of in H0. cbn [Nodes] in H0. now rewrite Hn in H0.
Qed.

(** The groups that [GroupByLevel] returns for a graph without negative
    level. *)
Lemma GroupByLevel_returns (g : Graph) :
  (forall name l, target_at g name l -> 0 <= l) ->
  exists groups,
    GroupByLevel g = Returns groups /\
    (1 <= length groups)%nat /\
    (forall name l, target_at g name l -> (Z.to_nat l < length groups)%nat) /\
    ((1 < length groups)%nat ->
     exists name, target_at g name (Z.of_nat (length groups - 1))) /\
    (forall i group, groups !! i = Some group ->
       StronglySorted (fun a b => String.ltb a b = true) group /\
       forall name, In name group <-> target_at g name (Z.of_nat i)) /\
    concat groups = TopologicalOrder g.
Proof.
  intros Hpos. destruct (GroupByLevel_groups g Hpos) as (groups & Hrun & Hlen & Hgrp).
  destruct (max_target_level_loop (map_to_list (Nodes g)) 0) as (Hm0 & Hmax & Hex).
  fold (max_target_level g) in Hm0, Hmax, Hex.
  exists groups. split; [assumption|].
  assert (Hin : forall name l, target_at g name l -> (Z.to_nat l < length groups)%nat).
  { intros name l Ht. pose proof (Hpos name l Ht) as H0.
    destruct Ht as (n & Hn & Ht & <-). rewrite Hlen.
    assert (Level n <= max_target_level g).
    { apply (Hmax (name, n)); [now apply In_map_to_list | assumption]. }
    lia. }
  assert (Hmem : forall i group, groups !! i = Some group ->
            StronglySorted (fun a b => String.ltb a b = true) group /\
            forall name, In name group <-> target_at g name (Z.of_nat i)).
  { intros i group Hi. rewrite Hgrp in Hi by (eapply lookup_lt_Some; eassumption).
    injection Hi as <-. split.
    - apply sort_Strings_sorted, targets_at_NoDup.
    - intros name. rewrite sort_Strings_In. apply targets_at_In. }
  split; [lia|]. split; [assumption|]. split; [|split; [assumption|]].
  + intros Hgt. destruct Hex as [E|([name n] & He & Ht & Hl)]; [lia|].
    exists name. cbn [snd] in *. exists n. split; [now apply In_map_to_list|].
    split; [assumption|]. lia.
  + assert (Eg : groups =
                 List.map (fun i => sort_Strings (targets_at (map_to_list (Nodes g)) i))
                          (seq 0 (length groups))).
    { apply list_eq. intros i. destruct (decide (i < length groups)%nat) as [Hi|Hi].
      - rewrite Hgrp by assumption. rewrite <- fmap_map, list_lookup_fmap.
        rewrite lookup_seq_lt by assumption. reflexivity.
      - rewrite lookup_ge_None_2 by lia. symmetry. apply lookup_ge_None_2.
        rewrite length_map, length_seq. lia. }
    assert (Hmem' : forall i name,
              In name (sort_Strings (targets_at (map_to_list (Nodes g)) i)) <->
              target_at g name (Z.of_nat i)).
    { intros i name. rewrite sort_Strings_In. apply targets_at_In. }
    apply (StronglySorted_unique_strong (fun a b => level_name_less g a b = true)).
    * intros x y _ _ Hxy Hyx. apply level_name_less_asym in Hxy. congruence.
    * rewrite Eg. apply StronglySorted_concat_seq.
      -- intros i. apply (StronglySorted_In (fun a b => String.ltb a b = true)).
         ++ intros x y Hx Hy Hlt. apply Hmem' in Hx, Hy.
            rewrite level_name_less_same; [assumption|].
            now rewrite (target_at_level g x _ Hx), (target_at_level g y _ Hy).
         ++ apply sort_Strings_sorted, targets_at_NoDup.
      -- intros i j x y Hij Hx Hy. apply Hmem' in Hx, Hy.
         apply level_name_less_levels.
         rewrite (target_at_level g x _ Hx), (target_at_level g y _ Hy). lia.
    * apply TopologicalOrder_sorted.
    * apply NoDup_Permutation.
      -- apply (StronglySorted_NoDup (fun a b => level_name_less g a b = true)).
         ++ intros x Hx. pose proof (level_name_less_asym g x x Hx). congruence.
         ++ rewrite Eg. apply StronglySorted_concat_seq.
            ** intros i. apply (StronglySorted_In (fun a b => String.ltb a b = true)).
               --- intros x y Hx Hy Hlt. apply Hmem' in Hx, Hy.
                   rewrite level_name_less_same; [assumption|].
                   now rewrite (target_at_level g x _ Hx), (target_at_level g y _ Hy).
               --- apply sort_Strings_sorted, targets_at_NoDup.
            ** intros i j x y Hij Hx Hy. apply Hmem' in Hx, Hy.
               apply level_name_less_levels.
               rewrite (target_at_level g x _ Hx), (target_at_level g y _ Hy). lia.
      -- apply (StronglySorted_NoDup (fun a b => level_name_less g a b = true)).
         ++ intros x Hx. pose proof (level_name_less_asym g x x Hx). congruence.
         ++ apply TopologicalOrder_sorted.
      -- intros name. rewrite !list_elem_of_In, TopologicalOrder_In. split.
         ++ intros Hc. apply in_concat in Hc as (group & Hgi & Hn).
            apply list_elem_of_In, list_elem_of_lookup in Hgi as [i Hi].
            exists (Z.of_nat i). now apply (Hmem i group Hi).
         ++ intros (l & Ht). apply in_concat.
            destruct (lookup_lt_is_Some_2 groups (Z.to_nat l) (Hin name l Ht))
              as [group Hi].
            exists group. split; [apply list_elem_of_In, list_elem_of_lookup; eauto|].
            apply (Hmem _ group Hi). rewrite Z2Nat.id; [assumption|].
            now apply (Hpos name).
Qed.

(** X16.  [GroupByLevel] panics when a target has a negative level, which
    no graph that [BuildGraph] returns has.  Otherwise it returns one
    group for each level from 0 to the highest level of a target: group
    [i] holds the targets of level [i], each once, in increasing order
    of their names, and the groups one after the other are the list that
    [TopologicalOrder] returns. *)
Theorem group_by_level (g : Graph) :
  ((exists name l, target_at g name l /\ l < 0) -> GroupByLevel g = Panics) /\
  (forall cfg, BuildGraph cfg = Done g -> forall name l, target_at g name l -> 0 <= l) /\
  ((forall name l, target_at g name l -> 0 <= l) ->
   exists groups,
     GroupByLevel g = Returns groups /\
     (1 <= length groups)%nat /\
     (forall name l, target_at g name l -> (Z.to_nat l < length groups)%nat) /\
     ((1 < length groups)%nat ->
      exists name, target_at g name (Z.of_nat (length groups - 1))) /\
     (forall i group, groups !! i = Some group ->
        StronglySorted (fun a b => String.ltb a b = true) group /\
        forall name, In name group <-> target_at g name (Z.of_nat i)) /\
     concat groups = TopologicalOrder g).
Proof.
  split; [|split].
  - intros (name & l & (n & Hn & Ht & Hl) & Hneg). unfold GroupByLevel.
    rewrite (group_add_negative (map_to_list (Nodes g))); [reflexivity|].
    exists (name, n). split; [now apply In_map_to_list|]. cbn [snd]. split; [assumption|lia].
  - intros cfg Hg. exact (BuildGraph_levels_nonneg cfg g Hg).
  - exact (GroupByLevel_returns g).
Qed.

(** ** The closure of a set of targets under dependencies *)

Lemma foldl_dep_step_None (g : Graph)
    (call : string -> gmap string bool -> option (gmap string bool)) (deps : list string) :
  foldl (dep_step g call) None deps = None.
Proof. induction deps as [|d deps IH]; [reflexivity | exact IH]. Qed.

Lemma unmarked_mono (g : Graph) (I I' : gmap string bool) :
  (forall k, flag I k = true -> flag I' k = true) ->
  (unmarked g I' <= unmarked g I)%nat.
Proof.
  intros H. unfold unmarked. induction (map_to_list (Nodes g)) as [|e l IH]; [cbn; lia|].
  cbn [List.filter]. destruct (flag I (fst e)) eqn:E.
  - rewrite (H _ E). cbn. exact IH.
  - cbn [negb]. destruct (negb (flag I' (fst e))); cbn; lia.
Qed.

Lemma unmarked_insert (g : Graph) (I : gmap string bool) (name : string) :
  is_Some (Nodes g !! name) -> flag I name = false ->
  (unmarked g (<[name := true]> I) < unmarked g I)%nat.
Proof.
  intros [n Hn] Hf. unfold unmarked.
  apply In_map_to_list in Hn. revert Hn.
  induction (map_to_list (Nodes g)) as [|e l IH]; [intros []|].
  assert (Hle : forall l' : list (string * Node),
             (length (List.filter (fun entry => negb (flag (<[name := true]> I) (fst entry))) l')
              <= length (List.filter (fun entry => negb (flag I (fst entry))) l'))%nat).
  { intros l'. induction l' as [|x l' IHl]; [cbn; lia|]. cbn [List.filter].
    destruct (flag I (fst x)) eqn:E.
    - assert (E' : flag (<[name := true]> I) (fst x) = true).
      { unfold flag in *. destruct (decide (name = fst x)) as [->|Hne];
          [now rewrite lookup_insert_eq | now rewrite lookup_insert_ne]. }
      rewrite E'. cbn. exact IHl.
    - cbn [negb]. destruct (negb (flag (<[name := true]> I) (fst x))); cbn; lia. }
  intros [He|Hin].
  - subst e. cbn [List.filter fst]. rewrite Hf. unfold flag at 1. rewrite lookup_insert_eq.
    cbn. specialize (Hle l). lia.
  - specialize (IH Hin). cbn [List.filter].
    destruct (flag I (fst e)) eqn:E.
    + assert (E' : flag (<[name := true]> I) (fst e) = true).
      { unfold flag in *. destruct (decide (name = fst e)) as [->|Hne];
          [now rewrite lookup_insert_eq | now rewrite lookup_insert_ne]. }
      rewrite E'. cbn. exact IH.
    + cbn [negb]. destruct (negb (flag (<[name := true]> I) (fst e))); cbn; lia.
Qed.

Lemma unmarked_le_size (g : Graph) (I : gmap string bool) :
  (unmarked g I <= size (Nodes g))%nat.
Proof.
  unfold unmarked. rewrite <- (length_map_to_list (Nodes g)). apply filter_length_le.
Qed.

Lemma addDeps_post_trans_loop (g : Graph) (I0 I1 I2 : gmap string bool) (d : string) :
  (forall k, flag I0 k = true -> flag I1 k = true) ->
  addDeps_post g d I1 I2 ->
  (forall k, flag I0 k = true -> flag I2 k = true).
Proof. intros H (Hm & _) k Hk. auto. Qed.

Section AddDeps.

Variable g : Graph.

(** What the loop over the dependencies of a node does to [included],
    when the recursive calls do what [addDeps] does. *)
Lemma dep_loop_post
    (call : string -> gmap string bool -> option (gmap string bool))
    (deps : list string) :
  (forall d I I', call d I = Some I' -> addDeps_post g d I I') ->
  forall I0 I',
    foldl (dep_step g call) (Some I0) deps = Some I' ->
    (forall k, flag I0 k = true -> flag I' k = true) /\
    (forall d m, In d deps -> Nodes g !! d = Some m -> Type_ m = NodeTypeTarget ->
                 flag I' d = true) /\
    (forall k, flag I' k = true ->
               flag I0 k = true \/
               exists d m, In d deps /\ Nodes g !! d = Some m /\
                           Type_ m = NodeTypeTarget /\ rtc (tdep g) d k) /\
    (forall k, flag I' k = true -> flag I0 k = false ->
               forall y, tdep g k y -> flag I' y = true) /\
    (forall k, is_Some (I' !! k) -> is_Some (I0 !! k) \/ flag I' k = true).
Proof.
  intros Hcall. induction deps as [|d deps IH]; intros I0 I' Hrun.
  - injection Hrun as <-. split; [auto|]. split; [intros d m []|].
    split; [auto|]. split; [|auto]. intros k Hk Hk'. congruence.
  - cbn [foldl] in Hrun. unfold dep_step at 2 in Hrun.
    assert (Hskip : foldl (dep_step g call) (Some I0) deps = Some I' ->
                    (forall m, Nodes g !! d = Some m -> Type_ m <> NodeTypeTarget) ->
                    (forall k, flag I0 k = true -> flag I' k = true) /\
                    (forall d' m, In d' (d :: deps) -> Nodes g !! d' = Some m ->
                                  Type_ m = NodeTypeTarget -> flag I' d' = true) /\
                    (forall k, flag I' k = true ->
                               flag I0 k = true \/
                               exists d' m, In d' (d :: deps) /\ Nodes g !! d' = Some m /\
                                            Type_ m = NodeTypeTarget /\ rtc (tdep g) d' k) /\
                    (forall k, flag I' k = true -> flag I0 k = false ->
                               forall y, tdep g k y -> flag I' y = true) /\
                    (forall k, is_Some (I' !! k) -> is_Some (I0 !! k) \/ flag I' k = true)).
    { intros Hr Hnt. destruct (IH I0 I' Hr) as (A & B & C & D & E).
      split; [assumption|]. split; [|split; [|split; assumption]].
      - intros d' m [<-|Hd] Hm Ht; [now destruct (Hnt m Hm) | eauto].
      - intros k Hk. destruct (C k Hk) as [H|(d' & m & Hd & Hm & Ht & Hr')]; [now left|].
        right. exists d', m. split; [now right | auto]. }
    destruct (Nodes g !! d) as [depNode|] eqn:Hd.
    2: { apply Hskip; [assumption | intros m [=]]. }
    destruct (Type_ depNode) eqn:Ht.
    { apply Hskip; [assumption | intros m [= <-]; congruence]. }
    destruct (call d I0) as [I1|] eqn:Hc;
      [|rewrite foldl_dep_step_None in Hrun; discriminate].
    destruct (Hcall d I0 I1 Hc) as (A1 & B1 & C1 & D1 & E1).
    destruct (IH I1 I' Hrun) as (A & B & C & D & E).
    split; [auto|]. split; [|split; [|split]].
    + intros d' m [<-|Hd'] Hm Hty; [auto | eauto].
    + intros k Hk. destruct (C k Hk) as [H|(d' & m & Hd' & Hm & Hty & Hr)].
      * destruct (C1 k H) as [H0|Hr]; [now left|]. right.
        exists d, depNode. split; [now left | auto].
      * right. exists d', m. split; [now right | auto].
    + intros k Hk Hk0 y Hy. destruct (flag I1 k) eqn:Hk1.
      * apply A. now apply (D1 k Hk1 Hk0 y).
      * now apply (D k Hk Hk1 y).
    + intros k Hk. destruct (E k Hk) as [H|H]; [|now right].
      destruct (E1 k H) as [H0|H1]; [now left | right; auto].
Qed.

Lemma addDeps_spec (fuel : nat) :
  forall name I I', addDeps g fuel name I = Some I' -> addDeps_post g name I I'.
Proof.
  induction fuel as [|fuel IH]; intros name I I' H; [discriminate|].
  cbn [addDeps] in H. destruct (flag I name) eqn:Hf.
  - injection H as <-. unfold addDeps_post. repeat split; auto.
    intros k Hk Hk'. congruence.
  - assert (Hins : forall k, flag (<[name := true]> I) k = true <->
                             k = name \/ flag I k = true).
    { intros k. unfold flag. destruct (decide (name = k)) as [->|Hne].
      - rewrite lookup_insert_eq. cbn. split; [auto | reflexivity].
      - rewrite lookup_insert_ne by assumption. split; [auto|].
        intros [->|H']; [now destruct Hne | assumption]. }
    assert (Hdom : forall k, is_Some (<[name := true]> I !! k) ->
                             is_Some (I !! k) \/ k = name).
    { intros k. destruct (decide (name = k)) as [->|Hne]; [auto|].
      rewrite lookup_insert_ne by assumption. auto. }
    destruct (Nodes g !! name) as [node|] eqn:Hn.
    + destruct (dep_loop_post (addDeps g fuel) (Deps node) IH _ _ H)
        as (A & B & C & D & E).
      unfold addDeps_post. split; [|split; [|split; [|split]]].
      * intros k Hk. apply A, Hins. now right.
      * apply A, Hins. now left.
      * intros k Hk. destruct (C k Hk) as [H0|(d & m & Hd & Hm & Ht & Hr)].
        -- apply Hins in H0 as [->|H0]; [right; apply rtc_refl | now left].
        -- right. eapply rtc_l; [|exact Hr]. exists node, m. auto.
      * intros k Hk Hk0 y Hy.
        destruct (flag (<[name := true]> I) k) eqn:Hk1.
        -- apply Hins in Hk1 as [->|Hk1]; [|congruence].
           destruct Hy as (n & m & Hn' & Hin & Hm & Ht). rewrite Hn in Hn'.
           injection Hn' as <-. now apply (B y m).
        -- now apply (D k Hk Hk1 y).
      * intros k Hk. destruct (E k Hk) as [H0|H0]; [|now right].
        destruct (Hdom k H0) as [H1| ->]; [now left|]. right. apply A, Hins. now left.
    + injection H as <-. unfold addDeps_post. split; [|split; [|split; [|split]]].
      * intros k Hk. apply Hins. now right.
      * apply Hins. now left.
      * intros k Hk. apply Hins in Hk as [->|Hk]; [right; apply rtc_refl | now left].
      * intros k Hk Hk0 y (n & m & Hn' & _).
        apply Hins in Hk as [->|Hk]; congruence.
      * intros k Hk. destruct (Hdom k Hk) as [H1| ->]; [now left|]. right.
        apply Hins. now left.
Qed.

(** [addDeps] returns when its budget exceeds the number of the nodes
    that are not yet included. *)
Lemma addDeps_fuel (fuel : nat) :
  forall name I, (unmarked g I < fuel)%nat -> exists I', addDeps g fuel name I = Some I'.
Proof.
  induction fuel as [|fuel IH]; intros name I Hf; [lia|].
  cbn [addDeps]. destruct (flag I name) eqn:Hn; [eauto|].
  destruct (Nodes g !! name) as [node|] eqn:Hnode; [|eauto].
  assert (Hlt : (unmarked g (<[name := true]> I) < fuel)%nat).
  { pose proof (unmarked_insert g I name (ex_intro _ node Hnode) Hn). lia. }
  revert Hlt. generalize (<[name := true]> I). induction (Deps node) as [|d deps IHd];
    intros I1 Hlt; [cbn; eauto|].
  cbn [foldl]. unfold dep_step at 2.
  destruct (Nodes g !! d) as [depNode|]; [|now apply IHd].
  destruct (Type_ depNode); [now apply IHd|].
  destruct (IH d I1 Hlt) as [I2 H2]. rewrite H2. apply IHd.
  destruct (addDeps_spec fuel d I1 I2 H2) as (Hm & _).
  pose proof (unmarked_mono g I1 I2 Hm). lia.
Qed.

End AddDeps.

(** ** Lists of targets with their dependencies *)

Lemma flag_lookup (I : gmap string bool) (k : string) :
  flag I k = true -> is_Some (I !! k).
Proof. unfold flag. destruct (I !! k); [eauto | discriminate]. Qed.

(** The loop of [IncludeDependencies] over the requested targets. *)
Lemma include_loop (g : Graph) (targets : list string) :
  forall I0,
    exists I',
      foldl (fun acc target =>
               match acc with
               | None => None
               | Some included => addDeps g (S (size (Nodes g))) target included
               end) (Some I0) targets = Some I' /\
      (forall k, flag I0 k = true -> flag I' k = true) /\
      (forall t, In t targets -> flag I' t = true) /\
      (forall k, flag I' k = true ->
                 flag I0 k = true \/ exists t, In t targets /\ rtc (tdep g) t k) /\
      (forall k, flag I' k = true -> flag I0 k = false ->
                 forall y, tdep g k y -> flag I' y = true) /\
      (forall k, is_Some (I' !! k) -> is_Some (I0 !! k) \/ flag I' k = true).
Proof.
  induction targets as [|t targets IH]; intros I0.
  - exists I0. split; [reflexivity|]. split; [auto|]. split; [intros t []|].
    split; [auto|]. split; [|auto]. intros k Hk Hk'. congruence.
  - cbn [foldl].
    destruct (addDeps_fuel g (S (size (Nodes g))) t I0) as [I1 H1].
    { pose proof (unmarked_le_size g I0). lia. }
    rewrite H1. destruct (addDeps_spec g _ t I0 I1 H1) as (A1 & B1 & C1 & D1 & E1).
    destruct (IH I1) as (I' & Hrun & A & B & C & D & E).
    exists I'. split; [exact Hrun|]. split; [auto|]. split; [|split; [|split]].
    + intros t' [<-|Ht']; auto.
    + intros k Hk. destruct (C k Hk) as [H|(t' & Ht' & Hr)].
      * destruct (C1 k H) as [H0|Hr]; [now left|]. right. exists t. split; [now left | auto].
      * right. exists t'. split; [now right | auto].
    + intros k Hk Hk0 y Hy. destruct (flag I1 k) eqn:Hk1.
      * apply A. now apply (D1 k Hk1 Hk0 y).
      * now apply (D k Hk Hk1 y).
    + intros k Hk. destruct (E k Hk) as [H|H]; [|now right].
      destruct (E1 k H) as [H0|H0]; [now left | right; auto].
Qed.

(** The names that [IncludeDependencies] collects before it sorts them:
    the requested names and what they reach along dependencies that are
    targets. *)
Lemma include_names (g : Graph) (targets : list string) :
  exists included,
    foldl (fun acc target =>
             match acc with
             | None => None
             | Some included => addDeps g (S (size (Nodes g))) target included
             end) (Some ∅) targets = Some included /\
    forall k, In k (List.map fst (map_to_list included)) <->
              exists t, In t targets /\ rtc (tdep g) t k.
Proof.
  destruct (include_loop g targets ∅) as (I' & Hrun & _ & B & C & D & E).
  exists I'. split; [exact Hrun|]. intros k. rewrite In_keys.
  assert (Hempty : forall x, flag (∅ : gmap string bool) x = false).
  { intros x. unfold flag. now rewrite lookup_empty. }
  split.
  - intros Hk. destruct (E k Hk) as [[v Hv]|Hf]; [now rewrite lookup_empty in Hv|].
    destruct (C k Hf) as [H|H]; [|exact H]. rewrite Hempty in H. discriminate.
  - intros (t & Ht & Hr). apply flag_lookup. apply B in Ht.
    induction Hr as [x|x y z Hxy Hyz IH]; [assumption|].
    apply IH. apply (D x Ht (Hempty x) y Hxy).
Qed.

Lemma tdep_node (g : Graph) (t k : string) :
  is_Some (Nodes g !! t) -> rtc (tdep g) t k -> is_Some (Nodes g !! k).
Proof.
  intros Ht Hr. induction Hr as [x|x y z Hxy Hyz IH]; [assumption|].
  apply IH. destruct Hxy as (n & m & _ & _ & Hm & _). eauto.
Qed.

Lemma all_nodes_spec (g : Graph) (l : list string) :
  forallb (fun name => match Nodes g !! name with
                       | Some _ => true
                       | None => false
                       end) l = true <->
  forall name, In name l -> is_Some (Nodes g !! name).
Proof.
  rewrite forallb_forall. split; intros H name Hn; specialize (H name Hn).
  - destruct (Nodes g !! name); [eauto | discriminate].
  - destruct H as [n ->]. reflexivity.
Qed.

Lemma level_name_less_sorted (g : Graph) (l : list string) :
  NoDup l ->
  StronglySorted (fun a b => level_name_less g a b = true)
                 (sort_Slice (level_name_less g) l).
Proof.
  intros Hnd. apply sort_Slice_strict.
  - apply level_name_less_asym.
  - apply level_name_less_negtrans.
  - exact Hnd.
  - intros x y _ _. apply level_name_less_connected.
Qed.

(** [IncludeDependencies] on names of the graph. *)
Lemma IncludeDependencies_nodes (g : Graph) (targets : list string) :
  (forall t, In t targets -> is_Some (Nodes g !! t)) ->
  exists names,
    IncludeDependencies g targets = Returns (sort_Slice (level_name_less g) names) /\
    NoDup names /\
    forall k, In k names <-> exists t, In t targets /\ rtc (tdep g) t k.
Proof.
  intros Hnodes. unfold IncludeDependencies.
  destruct (include_names g targets) as (I' & -> & Hin).
  exists (List.map fst (map_to_list I')).
  split; [|split; [apply NoDup_keys | exact Hin]].
  assert (Hall : forallb (fun name => match Nodes g !! name with
                                      | Some _ => true
                                      | None => false
                                      end) (List.map fst (map_to_list I')) = true).
  { apply all_nodes_spec. intros name Hn. apply Hin in Hn as (t & Ht & Hr).
    eapply tdep_node; eauto. }
  rewrite Hall. cbn [negb]. now rewrite andb_false_r.
Qed.

Lemma sorted_before (g : Graph) (l : list string) (a b : string) :
  StronglySorted (fun a b => level_name_less g a b = true) l ->
  In a l -> In b l -> level_of g a < level_of g b -> before l a b.
Proof.
  intros Hs Ha Hb Hlt.
  apply list_elem_of_In, list_elem_of_lookup in Ha as [i Hi].
  apply list_elem_of_In, list_elem_of_lookup in Hb as [j Hj].
  exists i, j. split; [assumption|]. split; [assumption|].
  apply (sorted_positions (fun a b => level_name_less g a b = true) _ i j a b Hs);
    try assumption.
  - intros x Hx. pose proof (level_name_less_asym g x x Hx). congruence.
  - intros x y Hx Hy. pose proof (level_name_less_asym g x y Hx). congruence.
  - now apply level_name_less_levels.
Qed.

(** The target nodes of a built graph are the targets of the
    configuration, and their dependencies the imports. *)
Lemma BuildGraph_target_node (cfg : Config) (g : Graph) (k : string) (n : Node) :
  BuildGraph cfg = Done g -> Nodes g !! k = Some n ->
  (Type_ n = NodeTypeTarget \/ Deps n <> []) ->
  exists t, Targets cfg !! k = Some t /\ Deps n = Imports t.
Proof.
  intros Hg Hn Hor.
  destruct (BuildGraph_Done_shape cfg g Hg) as (G & _ & _ & Hs & _).
  specialize (Hs k). unfold shape, config_shape in Hs. rewrite Hn in Hs. cbn in Hs.
  destruct (Targets cfg !! k) as [t|]; [injection Hs as _ Hd; eauto|].
  destruct (Sources cfg !! k); [|discriminate]. injection Hs as Ht Hd.
  destruct Hor as [H|H]; congruence.
Qed.

Lemma BuildGraph_tdep (cfg : Config) (g : Graph) (a b : string) :
  BuildGraph cfg = Done g ->
  (tdep g a b <-> imports cfg a b /\ is_Some (Targets cfg !! b)).
Proof.
  intros Hg. destruct (BuildGraph_Done_levels cfg g Hg) as (_ & _ & Htgt). split.
  - intros (n & m & Hn & Hin & Hm & Hty).
    destruct (BuildGraph_target_node cfg g a n Hg Hn) as (t & Ht & Hd).
    { right. intros E. rewrite E in Hin. destruct Hin. }
    destruct (BuildGraph_target_node cfg g b m Hg Hm (or_introl Hty)) as (t' & Ht' & _).
    split; [|eauto]. exists t. split; [assumption | now rewrite <- Hd].
  - intros [(t & Ht & Hin) [t' Ht']].
    destruct (Htgt a t Ht) as (n & Hn & _ & Hd & _).
    destruct (Htgt b t' Ht') as (m & Hm & Hty & _).
    exists n, m. rewrite Hd. auto.
Qed.

Lemma BuildGraph_tdep_level (cfg : Config) (g : Graph) (a b : string) :
  BuildGraph cfg = Done g -> tdep g a b -> level_of g b < level_of g a.
Proof.
  intros Hg H. apply (BuildGraph_tdep cfg g a b Hg) in H as [(t & Ht & Hin) _].
  destruct (BuildGraph_Done_levels cfg g Hg) as (_ & _ & Htgt).
  destruct (Htgt a t Ht) as (n & Hn & _ & _ & Hlt & _).
  specialize (Hlt b Hin). unfold level_of at 2. now rewrite Hn.
Qed.

(** X17.  When every requested name is a node of the graph,
    [IncludeDependencies] returns the requested names together with
    everything they reach along dependencies that are targets, each name
    once, sorted by level and then by name. *)
Theorem include_dependencies (g : Graph) (targets : list string) :
  (forall t, In t targets -> is_Some (Nodes g !! t)) ->
  exists result,
    IncludeDependencies g targets = Returns result /\
    NoDup result /\
    (forall k, In k result <-> exists t, In t targets /\ rtc (tdep g) t k) /\
    StronglySorted (fun a b => level_name_less g a b = true) result.
Proof.
  intros Hnodes.
  destruct (IncludeDependencies_nodes g targets Hnodes) as (names & -> & Hnd & Hin).
  eexists. split; [reflexivity|]. split; [|split].
  - now rewrite sort_Slice_Permutation.
  - intros k. now rewrite sort_Slice_In.
  - now apply level_name_less_sorted.
Qed.

Lemma include_dependencies_witness :
  exists result,
    IncludeDependencies ex_graph_chain ["Prod"] = Returns result /\
    NoDup result /\
    (forall k, In k result <->
               exists t, In t ["Prod"] /\ rtc (tdep ex_graph_chain) t k) /\
    StronglySorted (fun a b => level_name_less ex_graph_chain a b = true) result.
Proof.
  apply (include_dependencies ex_graph_chain ["Prod"]).
  intros t [<-|[]]. vm_compute. eauto.
Defined.

(** X18.  A requested name that is not a node of the graph makes
    [IncludeDependencies] panic as soon as another name is requested with
    it; requested alone, it is returned as it is. *)
Theorem include_dependencies_unknown (g : Graph) (t : string) :
  Nodes g !! t = None ->
  IncludeDependencies g [t] = Returns [t] /\
  forall targets t', In t targets -> In t' targets -> t' <> t ->
                     IncludeDependencies g targets = Panics.
Proof.
  intros Hnone. split.
  - unfold IncludeDependencies. cbn [foldl addDeps]. unfold flag at 1.
    rewrite lookup_empty. cbn [default]. rewrite Hnone.
    rewrite insert_empty, map_to_list_singleton. reflexivity.
  - intros targets t' Ht Ht' Hne. unfold IncludeDependencies.
    destruct (include_names g targets) as (I' & -> & Hin).
    set (result := List.map fst (map_to_list I')) in *.
    assert (H1 : In t result) by (apply Hin; exists t; split; [assumption | apply rtc_refl]).
    assert (H2 : In t' result) by (apply Hin; exists t'; split; [assumption | apply rtc_refl]).
    assert (Hlen : (2 <=? length result)%nat = true).
    { apply Nat.leb_le. destruct result as [|a [|b l]]; cbn; try lia.
      - destruct H1.
      - destruct H1 as [<-|[]], H2 as [<-|[]]. now destruct Hne. }
    rewrite Hlen. cbn [andb].
    destruct (forallb _ result) eqn:Hall; [|reflexivity].
    apply all_nodes_spec with (name := t) in Hall; [|assumption].
    rewrite Hnone in Hall. now destruct Hall.
Qed.

Lemma include_dependencies_unknown_witness :
  IncludeDependencies ex_graph_chain ["Missing"] = Returns ["Missing"] /\
  forall targets t', In "Missing" targets -> In t' targets -> t' <> "Missing" ->
                     IncludeDependencies ex_graph_chain targets = Panics.
Proof.
  apply (include_dependencies_unknown ex_graph_chain "Missing"). reflexivity.
Defined.

(** What [resolveTargets] returns for the graph of a configuration. *)
Lemma resolveTargets_spec (cfg : Config) (g : Graph) (requested : list string) :
  BuildGraph cfg = Done g ->
  (forall t, In t requested -> is_Some (Targets cfg !! t)) ->
  exists result,
    resolveTargets g requested = Returns result /\
    StronglySorted (fun a b => level_name_less g a b = true) result /\
    (forall t, In t requested -> In t result) /\
    (requested = [] -> forall t, is_Some (Targets cfg !! t) -> In t result) /\
    (forall t, In t result -> is_Some (Targets cfg !! t)) /\
    (forall t d, In t result -> imports cfg t d -> is_Some (Targets cfg !! d) ->
                 In d result).
Proof.
  intros Hg Hreq.
  destruct (BuildGraph_Done_levels cfg g Hg) as (_ & _ & Htgt).
  assert (Htarget : forall k, (exists l, target_at g k l) <-> is_Some (Targets cfg !! k)).
  { intros k. split.
    - intros (l & n & Hn & Hty & _).
      destruct (BuildGraph_target_node cfg g k n Hg Hn (or_introl Hty)) as (t & Ht & _).
      eauto.
    - intros [t Ht]. destruct (Htgt k t Ht) as (n & Hn & Hty & _).
      exists (Level n), n. auto. }
  unfold resolveTargets. destruct requested as [|r requested]; cbn [length Nat.eqb].
  - exists (TopologicalOrder g). split; [reflexivity|].
    split; [apply TopologicalOrder_sorted|]. split; [intros t []|]. split; [|split].
    + intros _ t Ht. now apply TopologicalOrder_In, Htarget.
    + intros t Ht. now apply Htarget, TopologicalOrder_In.
    + intros t d _ _ Hd. now apply TopologicalOrder_In, Htarget.
  - set (req := r :: requested) in *.
    assert (Hnodes : forall t, In t req -> is_Some (Nodes g !! t)).
    { intros t Ht. destruct (Hreq t Ht) as [tt Htt].
      destruct (Htgt t tt Htt) as (n & Hn & _). eauto. }
    destruct (IncludeDependencies_nodes g req Hnodes) as (names & -> & Hnd & Hin).
    eexists. split; [reflexivity|].
    assert (Hin' : forall k, In k (sort_Slice (level_name_less g) names) <->
                             exists t, In t req /\ rtc (tdep g) t k).
    { intros k. now rewrite sort_Slice_In. }
    split; [now apply level_name_less_sorted|]. split; [|split; [|split]].
    + intros t Ht. apply Hin'. exists t. split; [assumption | apply rtc_refl].
    + intros E. discriminate E.
    + intros t Ht. apply Hin' in Ht as (t0 & Ht0 & Hr).
      apply rtc_inv_r in Hr as [<-|(y & _ & Hy)]; [now apply Hreq|].
      now apply (BuildGraph_tdep cfg g y t Hg) in Hy as [_ Hy].
    + intros t d Ht Himp Hd.
      assert (Hdep : tdep g t d) by now apply (BuildGraph_tdep cfg g t d Hg).
      apply Hin'. apply Hin' in Ht as (t0 & Ht0 & Hr). exists t0.
      split; [assumption|]. eapply rtc_r; eauto.
Qed.

Lemma level_name_less_irrefl (g : Graph) (x : string) :
  ~ level_name_less g x x = true.
Proof. intros Hx. pose proof (level_name_less_asym g x x Hx). congruence. Qed.

(** X19.  For the graph of a configuration and requested names that are
    targets of it, [resolveTargets] returns a list of targets without
    repetition that holds every requested target (every target of the
    configuration when none is requested), and in which each target that
    a listed target imports stands before it. *)
Theorem resolve_targets (cfg : Config) (g : Graph) (requested : list string) :
  BuildGraph cfg = Done g ->
  (forall t, In t requested -> is_Some (Targets cfg !! t)) ->
  exists result,
    resolveTargets g requested = Returns result /\
    NoDup result /\
    (forall t, In t requested -> In t result) /\
    (requested = [] -> forall t, is_Some (Targets cfg !! t) -> In t result) /\
    (forall t, In t result -> is_Some (Targets cfg !! t)) /\
    (forall t d, In t result -> imports cfg t d -> is_Some (Targets cfg !! d) ->
                 before result d t).
Proof.
  intros Hg Hreq.
  destruct (resolveTargets_spec cfg g requested Hg Hreq)
    as (result & Hrun & Hs & Hin & Hall & Htg & Hcl).
  exists result. split; [assumption|]. split; [|split; [|split; [|split]]]; try assumption.
  - apply (StronglySorted_NoDup (fun a b => level_name_less g a b = true));
      [apply level_name_less_irrefl | assumption].
  - intros t d Ht Himp Hd. apply (sorted_before g); [assumption | eauto | assumption |].
    apply (BuildGraph_tdep_level cfg g t d Hg). now apply (BuildGraph_tdep cfg g t d Hg).
Qed.

Lemma resolve_targets_witness :
  exists result,
    resolveTargets ex_graph_chain ["Prod"] = Returns result /\
    NoDup result /\
    (forall t, In t ["Prod"] -> In t result) /\
    (["Prod"] = [] -> forall t, is_Some (Targets ex_config_chain !! t) -> In t result) /\
    (forall t, In t result -> is_Some (Targets ex_config_chain !! t)) /\
    (forall t d, In t result -> imports ex_config_chain t d ->
                 is_Some (Targets ex_config_chain !! d) -> before result d t).
Proof.
  apply (resolve_targets ex_config_chain ex_graph_chain ["Prod"]).
  - vm_compute. reflexivity.
  - intros t [<-|[]]. vm_compute. eauto.
Defined.

(** ** The batches of the merge phase *)

Lemma concat_filter_nonempty {X : Type} (L : list (list X)) :
  concat (List.filter (fun l => negb (length l =? 0)%nat) L) = concat L.
Proof.
  induction L as [|l L IH]; [reflexivity|]. cbn [List.filter concat].
  destruct l as [|x l]; cbn [length Nat.eqb negb]; [exact IH|].
  cbn [concat]. now rewrite IH.
Qed.

Lemma StronglySorted_filter {X : Type} (R : X -> X -> Prop) (p : X -> bool) (l : list X) :
  StronglySorted R l -> StronglySorted R (List.filter p l).
Proof.
  induction 1 as [|x l Hs IH Hx]; [constructor|]. cbn [List.filter].
  destruct (p x); [|exact IH]. constructor; [exact IH|].
  rewrite List.Forall_forall in *. intros y Hy. apply filter_In in Hy as [Hy _]. auto.
Qed.

(** In a strictly increasing concatenation, an element of a later list
    is not below an element of an earlier one. *)
Lemma StronglySorted_concat_order {X : Type} (R : X -> X -> Prop) (L : list (list X))
    (i j : nat) (bi bj : list X) (a b : X) :
  StronglySorted R (concat L) ->
  L !! i = Some bi -> L !! j = Some bj -> (i < j)%nat -> In a bi -> In b bj -> R a b.
Proof.
  revert i j. induction L as [|l L IH]; intros i j Hs Hi Hj Hij Ha Hb.
  - rewrite lookup_nil in Hi. discriminate.
  - cbn [concat] in Hs. destruct j as [|j]; [lia|]. cbn in Hj.
    destruct i as [|i]; cbn in Hi.
    + injection Hi as ->.
      apply (StronglySorted_app_1_elem_of R bi (concat L) a b Hs).
      * now apply list_elem_of_In.
      * apply list_elem_of_In, in_concat. exists bj. split; [|assumption].
        apply list_elem_of_In, list_elem_of_lookup. eauto.
    + apply (IH i j); try assumption; [|lia].
      now apply (StronglySorted_app_1_r R l (concat L)).
Qed.

Lemma existsb_eqb_In (t : string) (targets : list string) :
  existsb (String.eqb t) targets = true <-> In t targets.
Proof.
  rewrite existsb_exists. split.
  - intros (x & Hx & E). apply String.eqb_eq in E. now subst.
  - intros H. exists t. split; [assumption | apply String.eqb_refl].
Qed.

(** X20.  The merge phase of a pipeline run: for the graph of a
    configuration and requested targets of it, the batches that
    [executeMergePhase] hands out one after the other for the list of
    [resolveTargets] are not empty and, put one after the other, are that
    list; a target that a target of a batch imports is in an earlier
    batch. *)
Theorem merge_phase_order (cfg : Config) (g : Graph) (requested : list string) :
  BuildGraph cfg = Done g ->
  (forall t, In t requested -> is_Some (Targets cfg !! t)) ->
  exists targets batches,
    resolveTargets g requested = Returns targets /\
    merge_batches g targets = Returns batches /\
    concat batches = targets /\
    (forall batch, In batch batches -> batch <> []) /\
    (forall j batch t d,
       batches !! j = Some batch -> In t batch ->
       imports cfg t d -> is_Some (Targets cfg !! d) ->
       exists i earlier, (i < j)%nat /\ batches !! i = Some earlier /\ In d earlier).
Proof.
  intros Hg Hreq.
  destruct (resolveTargets_spec cfg g requested Hg Hreq)
    as (targets & Hrun & Hs & _ & _ & Htg & Hcl).
  destruct (GroupByLevel_returns g (BuildGraph_levels_nonneg cfg g Hg))
    as (groups & Hgr & _ & _ & _ & Hmem & Hconcat).
  exists targets. unfold merge_batches. rewrite Hgr.
  set (keep := fun t => existsb (String.eqb t) targets).
  set (batches := List.filter (fun l => negb (length l =? 0)%nat)
                    (List.map (fun level => level_targets level targets) groups)).
  exists batches. split; [assumption|]. split; [reflexivity|].
  set (R := fun a b => level_name_less g a b = true).
  assert (Easym : forall x y, R x y -> ~ R y x).
  { intros x y Hxy Hyx. unfold R in *. apply level_name_less_asym in Hxy. congruence. }
  assert (Econcat : concat batches = List.filter keep (TopologicalOrder g)).
  { subst batches. rewrite concat_filter_nonempty.
    rewrite <- Hconcat. apply (concat_filter_map keep). }
  assert (Htop : forall t, In t targets -> In t (TopologicalOrder g)).
  { intros t Ht. destruct (Htg t Ht) as [tt Htt].
    destruct (BuildGraph_Done_levels cfg g Hg) as (_ & _ & Htgt).
    destruct (Htgt t tt Htt) as (n & Hn & Hty & _).
    apply TopologicalOrder_In. exists (Level n), n. auto. }
  assert (Hsc : StronglySorted R (concat batches)).
  { rewrite Econcat. apply StronglySorted_filter, TopologicalOrder_sorted. }
  assert (Heq : concat batches = targets).
  { apply (StronglySorted_unique_strong R).
    - intros x y _ _ Hxy Hyx. now destruct (Easym x y Hxy).
    - exact Hsc.
    - exact Hs.
    - apply NoDup_Permutation.
      + apply (StronglySorted_NoDup R); [apply level_name_less_irrefl | exact Hsc].
      + apply (StronglySorted_NoDup R); [apply level_name_less_irrefl | exact Hs].
      + intros t. rewrite !list_elem_of_In, Econcat, filter_In. unfold keep.
        rewrite existsb_eqb_In. split; [now intros [_ H] | auto]. }
  split; [exact Heq|]. split.
  - intros batch Hb. subst batches. apply filter_In in Hb as [_ Hb].
    destruct batch; [discriminate Hb | discriminate].
  - intros j batch t d Hj Ht Himp Hd.
    assert (Hlevel : forall b x, In b batches -> In x b ->
                                 exists k, target_at g x (Z.of_nat k) /\
                                           forall y, In y b -> target_at g y (Z.of_nat k)).
    { intros b x Hb Hx. subst batches. apply filter_In in Hb as [Hb _].
      apply in_map_iff in Hb as (group & <- & Hgroup).
      apply list_elem_of_In, list_elem_of_lookup in Hgroup as [k Hk].
      destruct (Hmem k group Hk) as [_ Hin]. exists k.
      split; [|intros y Hy]; apply Hin; unfold level_targets in *;
        match goal with H : In _ (List.filter _ _) |- _ => now apply filter_In in H end. }
    assert (Hbatch : In batch batches)
      by (apply list_elem_of_In, list_elem_of_lookup; eauto).
    assert (Htin : In t targets).
    { rewrite <- Heq. apply in_concat. eauto. }
    assert (Hdin : In d (concat batches)) by (rewrite Heq; eauto).
    apply in_concat in Hdin as (earlier & He & Hde).
    pose proof He as He'.
    apply list_elem_of_In, list_elem_of_lookup in He' as [i Hi].
    assert (Hlt : level_of g d < level_of g t).
    { apply (BuildGraph_tdep_level cfg g t d Hg). now apply (BuildGraph_tdep cfg g t d Hg). }
    exists i, earlier. split; [|auto].
    destruct (lt_eq_lt_dec i j) as [[Hij|Hij]|Hij]; [assumption| |].
    + subst j. rewrite Hi in Hj. injection Hj as ->.
      destruct (Hlevel batch t Hbatch Ht) as (k & Hk & Hall).
      rewrite (target_at_level g t _ Hk), (target_at_level g d _ (Hall d Hde)) in Hlt. lia.
    + exfalso.
      pose proof (StronglySorted_concat_order R batches j i batch earlier t d
                    Hsc Hj Hi Hij Ht Hde) as Htd.
      apply (Easym t d Htd). now apply level_name_less_levels.
Qed.

Lemma merge_phase_order_witness :
  exists targets batches,
    resolveTargets ex_graph_chain ["Prod"] = Returns targets /\
    merge_batches ex_graph_chain targets = Returns batches /\
    concat batches = targets /\
    (forall batch, In batch batches -> batch <> []) /\
    (forall j batch t d,
       batches !! j = Some batch -> In t batch ->
       imports ex_config_chain t d -> is_Some (Targets ex_config_chain !! d) ->
       exists i earlier, (i < j)%nat /\ batches !! i = Some earlier /\ In d earlier).
Proof.
  apply (merge_phase_order ex_config_chain ex_graph_chain ["Prod"]).
  - vm_compute. reflexivity.
  - intros t [<-|[]]. vm_compute. eauto.
Defined.

(** ** The store: copies and merges into a nil map *)

Lemma writable_reach (h0 h : heap) (l l' : loc) :
  frame_inv h0 (fun _ => False) h -> (length h0 <= l)%nat -> reach h l l' ->
  (length h0 <= l')%nat.
Proof.
  intros (_ & _ & C) Hl Hr.
  destruct (reach_closed h _ l l' C (or_intror Hl) Hr) as [[]|H]. exact H.
Qed.

Lemma DeepMerge_h_alloc (fuel : nat) (src : option loc) (h : heap) :
  DeepMerge_h fuel None src h =
  DeepMerge_h fuel (Some (length h)) src (h ++ [OMap ∅]).
Proof. destruct fuel; reflexivity. Qed.

(** X21.  In a store whose values do not contain themselves,
    [deepCopyValue] returns (with any large enough step budget): a nil or
    a scalar as it is, in the same store; for a map a new map and for a
    slice a new slice, such that no object of the store before the call
    has changed and every object that the copy reaches has been allocated
    by the call. *)
Theorem deep_copy_value_fresh (n : nat) (v : hval) (h : heap) :
  bounded n h = true -> well_typed h v ->
  exists r h',
    (forall fuel, (S n <= fuel)%nat -> deepCopyValue_h fuel v h = Some (r, h')) /\
    match v with
    | HMap _ => exists l m, r = HMap l /\ h' !! l = Some (OMap m)
    | HSlice _ => exists l e, r = HSlice l /\ h' !! l = Some (OSlice e)
    | _ => r = v /\ h' = h
    end /\
    (forall l, (l < length h)%nat -> h' !! l = h !! l) /\
    (forall l l', loc_of r = Some l -> reach h' l l' -> (length h <= l')%nat).
Proof.
  intros Hb Ht.
  destruct (deepCopyValue_h_total (S n) v h n (bounded_ref n h v Hb Ht) Hb)
    as (r & h' & n' & Hrun & _ & Htr).
  destruct (deepCopyValue_h_fresh (S n) v h r h' Hrun) as [(Hlen & Hold & Hcl) Hr].
  exists r, h'. split; [|split; [|split]].
  - intros fuel Hle. exact (deepCopyValue_h_mono (S n) fuel v Hle h _ Hrun).
  - cbn [deepCopyValue_h] in Hrun. destruct v as [|s|l|l].
    + apply ret_inv in Hrun as [-> ->]. auto.
    + apply ret_inv in Hrun as [-> ->]. auto.
    + apply bind_inv in Hrun as (typed & h1 & _ & Hrun).
      apply bind_inv in Hrun as (result & h2 & _ & Hrun).
      apply bind_inv in Hrun as (u & h3 & _ & Hrun).
      apply ret_inv in Hrun as [-> ->]. destruct Htr as [m Hm]. eauto.
    + apply bind_inv in Hrun as (typed & h1 & _ & Hrun).
      apply bind_inv in Hrun as (result & h2 & _ & Hrun).
      apply bind_inv in Hrun as (u & h3 & _ & Hrun).
      apply ret_inv in Hrun as [-> ->]. destruct Htr as [e He]. eauto.
  - exact Hold.
  - intros l l' Hl Hreach. apply (reach_closed h' _ l l' Hcl); [now apply Hr | assumption].
Qed.

Lemma deep_copy_value_fresh_witness :
  exists r h',
    (forall fuel, (4 <= fuel)%nat ->
                  deepCopyValue_h fuel (HMap 6%nat) ex_heap_apart = Some (r, h')) /\
    (exists l m, r = HMap l /\ h' !! l = Some (OMap m)) /\
    (forall l, (l < length ex_heap_apart)%nat -> h' !! l = ex_heap_apart !! l) /\
    (forall l l', loc_of r = Some l -> reach h' l l' ->
                  (length ex_heap_apart <= l')%nat).
Proof.
  apply (deep_copy_value_fresh 3 (HMap 6%nat) ex_heap_apart).
  - vm_compute. reflexivity.
  - cbn. eauto.
Defined.

(** X22.  [DeepMerge] of a nil [dst] with a map [src] of a store whose
    values do not contain themselves returns (with any large enough step
    budget) a map that the call has allocated; no object of the store
    before the call has changed, [src] among them, and every object that
    the returned map reaches has been allocated by the call. *)
Theorem deep_merge_nil_dst (n : nat) (s : loc) (h : heap) (sm : gmap string hval) :
  bounded n h = true -> h !! s = Some (OMap sm) ->
  exists fuel0 h',
    (forall fuel, (fuel0 <= fuel)%nat ->
                  DeepMerge_h fuel None (Some s) h = Some (length h, h')) /\
    (exists m, h' !! length h = Some (OMap m)) /\
    (forall l, (l < length h)%nat -> h' !! l = h !! l) /\
    (forall l, reach h' (length h) l -> (length h <= l)%nat).
Proof.
  intros Hb Hs.
  assert (Hslt : (s < length h)%nat) by (eapply lookup_lt_Some; eassumption).
  assert (Hd : (h ++ [OMap ∅]) !! length h = Some (OMap (∅ : gmap string hval))).
  { rewrite lookup_app_r by lia. now rewrite Nat.sub_diag. }
  assert (Hempty : forall v, In v (obj_vals (OMap (∅ : gmap string hval))) ->
                             loc_of v = None).
  { intros v. cbn. rewrite map_to_list_empty. intros []. }
  assert (Hinv : frame_inv h (fun _ => False) (h ++ [OMap ∅])).
  { destruct (fresh_step_alloc h (OMap ∅) Hempty) as (L & A & C).
    split; [assumption|]. split; [intros l Hl _; now apply A|].
    intros l l' [[]|Hl] Hp. right. now apply (C l l'). }
  destruct (DeepMerge_h_total h (fun _ => False) (reach h s)) with (k := S n) (s := s)
    (d := length h) (h := h ++ [OMap ∅]) (m := (∅ : gmap string hval))
    as (f & h' & Hrun & [Hinv' _] & Hev).
  - apply reach_closed_in.
  - intros l. now apply (reach_allocated n h s l Hb).
  - intros l _ [].
  - apply bounded_ref; [assumption|]. cbn. eauto.
  - apply rtc_refl.
  - split; [assumption|]. exists (S n). now apply bounded_alloc.
  - right. lia.
  - exact Hd.
  - exists f, h'. split; [|split; [|split]].
    + intros fuel Hle. rewrite DeepMerge_h_alloc.
      exact (DeepMerge_h_mono f fuel _ _ Hle _ _ Hrun).
    + destruct (Hev _ _ Hd) as ([m|e] & Hm & Hk); [eauto | destruct Hk].
    + intros l Hl. destruct Hinv' as (_ & A & _). apply A; [assumption | intros []].
    + intros l Hl. apply (writable_reach h h' (length h) l Hinv'); [lia | assumption].
Qed.

Lemma deep_merge_nil_dst_witness :
  exists fuel0 h',
    (forall fuel, (fuel0 <= fuel)%nat ->
                  DeepMerge_h fuel None (Some 6%nat) ex_heap_apart
                  = Some (length ex_heap_apart, h')) /\
    (exists m, h' !! length ex_heap_apart = Some (OMap m)) /\
    (forall l, (l < length ex_heap_apart)%nat -> h' !! l = ex_heap_apart !! l) /\
    (forall l, reach h' (length ex_heap_apart) l -> (length ex_heap_apart <= l)%nat).
Proof.
  apply (deep_merge_nil_dst 3 6%nat ex_heap_apart {[ "common" := HMap 4%nat ]}).
  - vm_compute. reflexivity.
  - reflexivity.
Defined.

(** ** Redaction of ARNs *)

Lemma append_empty_r (s : string) : s +:+ "" = s.
Proof.
  induction s as [|c s IH]; [reflexivity|].
  change (String c (s +:+ "") = String c s). now rewrite IH.
Qed.

Lemma Split_length (s : string) (sep : ascii) :
  length (Split s sep) = S (count_byte sep s).
Proof.
  induction s as [|c s IH]; [reflexivity|]. cbn [Split count_byte].
  destruct (Ascii.eqb c sep); cbn [length]; [now rewrite IH|].
  destruct (Split s sep) as [|piece pieces]; [discriminate IH | exact IH].
Qed.

(** The pieces of a string with a separator in it: those before the
    separator, then those after it. *)
Lemma Split_app (p x : string) (sep : ascii) :
  Split (p +:+ String sep x) sep = Split p sep ++ Split x sep.
Proof.
  induction p as [|c p IH].
  - change ("" +:+ String sep x) with (String sep x). cbn [Split].
    now rewrite Ascii.eqb_refl.
  - change (String c p +:+ String sep x) with (String c (p +:+ String sep x)).
    cbn [Split]. destruct (Ascii.eqb c sep); [now rewrite IH|].
    rewrite IH. pose proof (Split_length p sep) as Hl.
    destruct (Split p sep) as [|piece pieces]; [discriminate Hl | reflexivity].
Qed.

(** The first piece of a string that begins with a text without
    separator. *)
Lemma Split_head (k x : string) (sep : ascii) :
  count_byte sep k = 0%nat ->
  Split (k +:+ x) sep = (k +:+ hd "" (Split x sep)) :: tl (Split x sep).
Proof.
  intros Hk. induction k as [|c k IH].
  - change ("" +:+ x) with x. pose proof (Split_length x sep) as Hl.
    destruct (Split x sep); [discriminate Hl | reflexivity].
  - cbn [count_byte] in Hk. change (String c k +:+ x) with (String c (k +:+ x)).
    cbn [Split]. destruct (Ascii.eqb c sep); [discriminate Hk|].
    rewrite IH by exact Hk. reflexivity.
Qed.

Lemma Split_free (k : string) (sep : ascii) :
  count_byte sep k = 0%nat -> Split k sep = [k].
Proof.
  intros Hk. rewrite <- (append_empty_r k) at 1. rewrite Split_head by assumption.
  cbn. now rewrite append_empty_r.
Qed.

Lemma Index_free (k : string) (c : ascii) :
  count_byte c k = 0%nat -> Index k c = -1.
Proof.
  induction k as [|a k IH]; [reflexivity|]. cbn [count_byte Index].
  destruct (Ascii.eqb a c); [discriminate|]. intros H. rewrite IH by exact H. reflexivity.
Qed.

Lemma Index_first (k x : string) (c : ascii) :
  count_byte c k = 0%nat -> Index (k +:+ String c x) c = Z.of_nat (String.length k).
Proof.
  induction k as [|a k IH]; intros Hk.
  - change ("" +:+ String c x) with (String c x). cbn [Index String.length].
    now rewrite Ascii.eqb_refl.
  - cbn [count_byte] in Hk. change (String a k +:+ String c x) with (String a (k +:+ String c x)).
    cbn [Index String.length]. destruct (Ascii.eqb a c); [discriminate Hk|].
    rewrite IH by exact Hk.
    destruct (Z.ltb_spec (Z.of_nat (String.length k)) 0); lia.
Qed.

Lemma substring_prefix (k x : string) :
  substring 0 (String.length k) (k +:+ x) = k.
Proof.
  induction k as [|a k IH]; [now destruct x|].
  change (String a (substring 0 (String.length k) (k +:+ x)) = String a k).
  now rewrite IH.
Qed.

(** The sixth piece of an ARN with five separators before it. *)
Lemma redactARN_resource (p x : string) :
  count_byte ":" p = 4%nat ->
  redactARN (p +:+ ":" +:+ x) =
    let resource := hd "" (Split x ":") in
    if Index resource "/" >? 0
    then substring 0 (Z.to_nat (Index resource "/")) resource
    else resource.
Proof.
  intros Hp. unfold redactARN.
  change (p +:+ ":" +:+ x) with (p +:+ String ":" x). rewrite Split_app.
  pose proof (Split_length p ":") as Hl. rewrite Hp in Hl.
  pose proof (Split_length x ":") as Hx.
  rewrite length_app, Hl, Hx. cbn [Nat.ltb Nat.leb Nat.add].
  rewrite app_nth2 by lia. rewrite Hl. cbn [Nat.sub].
  destruct (Split x ":") as [|r rs]; [discriminate Hx | reflexivity].
Qed.

(** X23.  [redactARN] returns unknown for a text with fewer than five
    colons.  Of an ARN whose sixth field begins with a kind (such as role
    or user, not empty, without slash) that ends there, or is followed by
    a slash or a colon and any text, it returns the kind and nothing of
    what follows it.  A sixth field that begins with a slash is returned
    whole. *)
Theorem redact_arn (p kind : string) :
  count_byte ":" p = 4%nat ->
  count_byte ":" kind = 0%nat -> count_byte "/" kind = 0%nat -> kind <> "" ->
  (forall arn, (count_byte ":" arn < 5)%nat -> redactARN arn = "unknown") /\
  redactARN (p +:+ ":" +:+ kind) = kind /\
  (forall rest, redactARN (p +:+ ":" +:+ kind +:+ "/" +:+ rest) = kind) /\
  (forall rest, redactARN (p +:+ ":" +:+ kind +:+ ":" +:+ rest) = kind) /\
  (forall name, count_byte ":" name = 0%nat ->
                redactARN (p +:+ ":" +:+ "/" +:+ name) = "/" +:+ name).
Proof.
  intros Hp Hc Hs Hne.
  assert (Hlen : (0 < String.length kind)%nat).
  { destruct kind; [now destruct Hne | cbn; lia]. }
  split; [|split; [|split; [|split]]].
  - intros arn Hlt. unfold redactARN. rewrite Split_length.
    destruct (Nat.ltb_spec (S (count_byte ":" arn)) 6); [reflexivity | lia].
  - rewrite redactARN_resource by assumption. rewrite Split_free by assumption.
    cbn [hd]. cbv zeta. now rewrite Index_free.
  - intros rest. rewrite redactARN_resource by assumption.
    rewrite Split_head by assumption. cbn [hd]. cbv zeta.
    change ("/" +:+ rest) with (String "/" rest).
    destruct (Split (String "/" rest) ":") as [|piece pieces] eqn:E.
    { pose proof (Split_length (String "/" rest) ":") as Hl. rewrite E in Hl.
      discriminate Hl. }
    assert (Hp' : exists piece', piece = String "/" piece').
    { cbn [Split] in E. change (Ascii.eqb "/" ":") with false in E.
      destruct (Split rest ":"); injection E as <- _; eauto. }
    destruct Hp' as [piece' ->]. cbn [hd].
    rewrite Index_first by assumption.
    destruct (Z.gtb_spec (Z.of_nat (String.length kind)) 0); [|lia].
    rewrite Nat2Z.id. apply substring_prefix.
  - intros rest. rewrite redactARN_resource by assumption.
    change (kind +:+ ":" +:+ rest) with (kind +:+ String ":" rest).
    rewrite Split_app, Split_free by assumption. cbn [app hd]. cbv zeta.
    now rewrite Index_free.
  - intros name Hn. rewrite redactARN_resource by assumption.
    rewrite Split_free.
    + cbn [hd]. cbv zeta. reflexivity.
    + exact Hn.
Qed.

Lemma redact_arn_witness :
  (forall arn, (count_byte ":" arn < 5)%nat -> redactARN arn = "unknown") /\
  redactARN ("arn:aws:iam::123456789012" +:+ ":" +:+ "role") = "role" /\
  (forall rest, redactARN ("arn:aws:iam::123456789012" +:+ ":" +:+ "role" +:+ "/" +:+ rest)
                = "role") /\
  (forall rest, redactARN ("arn:aws:iam::123456789012" +:+ ":" +:+ "role" +:+ ":" +:+ rest)
                = "role") /\
  (forall name, count_byte ":" name = 0%nat ->
                redactARN ("arn:aws:iam::123456789012" +:+ ":" +:+ "/" +:+ name)
                = "/" +:+ name).
Proof.
  apply (redact_arn "arn:aws:iam::123456789012" "role");
    [reflexivity | reflexivity | reflexivity | discriminate].
Defined.
